(** * dem: the mutation engine (src/mutations.ts)

    A shallow embedding of [mutateStore] (the in-memory state mutator) and
    [mutateRepository] (the repository synchronizer), together with the
    JavaScript primitives they are written with, and the properties of the
    dependency manifest that follow from the code.

    JavaScript objects are mutable and shared by reference, so the store,
    its config, the modules array, every module, every [files] array and the
    aliases object live in one heap and are addressed by references.

    Strings are sequences of code units; every string operation used by the
    source ([startsWith], [split], [includes], [indexOf], [===], the default
    array sort order) acts on them unit by unit. *)

From Stdlib Require Import ZArith Ascii String List Sorted Permutation Lia.
From stdpp Require Import base option list relations sorting strings.
Import ListNotations.

Local Open Scope Z_scope.
Local Open Scope nat_scope.
Local Open Scope stdpp_scope.

(** ** JavaScript strings *)

Module JsString.

(** [s.startsWith(p)] *)
Definition startsWith (s p : string) : bool := String.prefix p s.

(** Pieces of [s] cut at the occurrences of a non-empty separator, scanning
from the left; [skip] counts the code units of a matched separator that
are still to be passed over. *)
Fixpoint splitAux (sep : string) (skip : nat) (s : string) : list string :=
match s with
| EmptyString => [EmptyString]
| String c s' =>
match skip with
| S k => splitAux sep k s'
| O =>
if String.prefix sep s
then EmptyString :: splitAux sep (String.length sep - 1) s'
else match splitAux sep 0 s' with
 | piece :: rest => String c piece :: rest
 | [] => [String c EmptyString]
 end
end
end.

(** [s.split(sep)] with a string separator and no limit.  An empty
separator cuts [s] into its code units. *)
Definition split (s sep : string) : list string :=
match sep with
| EmptyString => map (fun c => String c EmptyString) (list_ascii_of_string s)
| String _ _ => splitAux sep 0 s
end.

(** The order of the default [Array.prototype.sort] comparator on strings:
lexicographic on code units. *)
Definition defaultCompare (a b : string) : Z :=
match String.compare a b with
| Lt => (-1)%Z
| Eq => 0%Z
| Gt => 1%Z
end.

(** [s] occurs in [t] at some position. *)
Fixpoint occursIn (s t : string) : bool :=
String.prefix s t ||
match t with
| EmptyString => false
| String _ t' => occursIn s t'
end.

End JsString.

(** ** JavaScript arrays *)

Module JsArray.
Section Ops.
Context {A : Type}.

(** [xs.includes(x)] and [xs.indexOf(x)], for an element type with a
decidable [===]. *)
Definition includes `{EqDecision A} (xs : list A) (x : A) : bool :=
bool_decide (x ∈ xs).

Fixpoint indexOf `{EqDecision A} (xs : list A) (x : A) : option nat :=
match xs with
| [] => None
| y :: ys => if decide (y = x) then Some 0 else S <$> indexOf ys x
end.

(** [xs.splice(i, 1)], for the array it leaves behind. *)
Definition splice1 (i : nat) (xs : list A) : list A := delete i xs.

(** [Array.prototype.sort(cmp)] is a stable sort.  With a consistent
comparator every stable sort returns the same array, the one
straight insertion computes: [x] goes before the first [y] with
[cmp x y <= 0]. *)
Fixpoint insertSorted (cmp : A -> A -> Z) (x : A) (l : list A) : list A :=
match l with
| [] => [x]
| y :: l' => if (cmp x y <=? 0)%Z then x :: l else y :: insertSorted cmp x l'
end.

Fixpoint sort (cmp : A -> A -> Z) (l : list A) : list A :=
match l with
| [] => []
| x :: l' => insertSorted cmp x (sort cmp l')
end.

(** A consistent comparison function in the sense of ECMAScript:
the comparator induces a total preorder. *)
Record Consistent (cmp : A -> A -> Z) : Prop := {
cmp_flip : forall a b, (cmp a b <= 0)%Z \/ (cmp b a <= 0)%Z;
cmp_strict : forall a b, (cmp a b < 0)%Z -> (0 < cmp b a)%Z;
cmp_trans : forall a b c, (cmp a b <= 0)%Z -> (cmp b c <= 0)%Z -> (cmp a c <= 0)%Z
}.

Definition cmpLe (cmp : A -> A -> Z) (a b : A) : Prop := (cmp a b <= 0)%Z.
End Ops.
End JsArray.

(** ** JavaScript plain objects with string values *)

Module JsObject.

(** An ordinary object whose own properties hold strings, as the list of
its own properties in the order [Object.entries] enumerates them. *)
Abbreviation t := (list (string * string)).

Definition digitValue (c : ascii) : option N :=
let n := N_of_ascii c in
if ((48 <=? n) && (n <=? 57))%N then Some (n - 48)%N else None.

Fixpoint digitsValue (acc : N) (s : string) : option N :=
match s with
| EmptyString => Some acc
| String c s' =>
match digitValue c with
| Some d => digitsValue (acc * 10 + d)%N s'
| None => None
end
end.

(** The array index a property key denotes, if any: the key is the
canonical decimal form of an integer in [0, 2^32 - 2]. *)
Definition arrayIndex (k : string) : option N :=
match k with
| EmptyString => None
| String c rest =>
if (N_of_ascii c =? 48)%N
then (match rest with EmptyString => Some 0%N | _ => None end)
else if (10 <? String.length k)%nat then None
else match digitsValue 0 k with
| Some n => if (n <=? 4294967294)%N then Some n else None
| None => None
end
end.

Definition getOwn (o : t) (k : string) : option string :=
snd <$> List.find (fun e => String.eqb (fst e) k) o.

Definition hasOwn (o : t) (k : string) : bool :=
match getOwn o k with Some _ => true | None => false end.

(** Where a new array-index key [n] is placed: after the index keys up to
[n], before everything else. *)
Fixpoint insertIndexKey (n : N) (k v : string) (o : t) : t :=
match o with
| [] => [(k, v)]
| (k', v') :: o' =>
match arrayIndex k' with
| Some n' => if (n' <? n)%N
     then (k', v') :: insertIndexKey n k v o'
     else (k, v) :: o
| None => (k, v) :: o
end
end.

Definition replaceOwn (k v : string) (o : t) : t :=
map (fun e => if String.eqb (fst e) k then (k, v) else e) o.

(** [CreateDataProperty]: an existing own property keeps its place, a new
array-index key goes among the index keys in ascending numeric order,
any other new key goes last. *)
Definition createDataProperty (o : t) (k v : string) : t :=
if hasOwn o k then replaceOwn k v o
else match arrayIndex k with
| Some n => insertIndexKey n k v o
| None => o ++ [(k, v)]
end.

(** The property names every ordinary object inherits from
[Object.prototype]; each of them reads as a function or an object. *)
Definition objectPrototypeKeys : list string :=
[ "constructor"; "__defineGetter__"; "__defineSetter__"; "hasOwnProperty";
"__lookupGetter__"; "__lookupSetter__"; "isPrototypeOf";
"propertyIsEnumerable"; "toString"; "valueOf"; "__proto__";
"toLocaleString" ].

Definition inherited (k : string) : bool :=
bool_decide (k ∈ objectPrototypeKeys).

(** What [o[k]] reads. *)
Inductive value :=
| VUndefined
| VString (s : string)
| VInherited (k : string).

Definition get (o : t) (k : string) : value :=
match getOwn o k with
| Some v => VString v
| None => if inherited k then VInherited k else VUndefined
end.

(** [ToBoolean] *)
Definition truthy (v : value) : bool :=
match v with
| VUndefined => false
| VString s => negb (String.eqb s "")
| VInherited _ => true
end.

(** [o[k] = v]: an own property is overwritten; the inherited [__proto__]
setter ignores a string; otherwise a new own property is created. *)
Definition set (o : t) (k v : string) : t :=
if hasOwn o k then replaceOwn k v o
else if String.eqb k "__proto__" then o
else createDataProperty o k v.

(** [delete o[k]] *)
Definition delete (o : t) (k : string) : t :=
filter (fun e => fst e ≠ k) o.

(** [Object.fromEntries(es)], and [{ ...o }] over the entries of [o]. *)
Definition fromEntries (es : list (string * string)) : t :=
fold_left (fun o e => createDataProperty o (fst e) (snd e)) es [].

Definition spread (o : t) : t := fromEntries o.

(** [Object.entries(o)] *)
Definition entries (o : t) : list (string * string) := o.

Definition keys (o : t) : list string := map fst o.

End JsObject.

(** ** The heap *)

Abbreviation ref := nat.

(** [class Module]: [files] refers to an array of strings. *)
Record ModuleObj := {
  protocol : string;
  path : string;
  version : string;
  files : ref
}.

(** [store.config]: [modules] refers to an array of module references,
    [aliases] to a plain object. *)
Record Config := {
  modules : ref;
  aliases : ref
}.

Record Store := {
  config : ref
}.

Inductive Object :=
| OStore (s : Store)
| OConfig (c : Config)
| OModules (ms : list ref)
| OModule (m : ModuleObj)
| OStrings (ss : list string)
| OAliases (o : JsObject.t).

Abbreviation Heap := (list Object).

(** ** Outcomes and the state monad *)

(** [Stuck] stands for a read through a reference that holds no object of
    the expected kind: no execution of the typed source reaches it. *)
Inductive Result (E A : Type) :=
| Ok (a : A)
| Throw (e : E)
| Stuck.
Arguments Ok {E A} a.
Arguments Throw {E A} e.
Arguments Stuck {E A}.

Definition M (S E A : Type) := S -> S * Result E A.

Section Monad.
Context {S E : Type}.

Definition ret {A} (a : A) : M S E A := fun s => (s, Ok a).

Definition bind {A B} (m : M S E A) (k : A -> M S E B) : M S E B :=
fun s =>
match m s with
| (s', Ok a) => k a s'
| (s', Throw e) => (s', Throw e)
| (s', Stuck) => (s', Stuck)
end.

Definition throw {A} (e : E) : M S E A := fun s => (s, Throw e).

Definition stuck {A} : M S E A := fun s => (s, Stuck).

Definition fromOption {A} (o : option A) : M S E A :=
match o with
| Some a => ret a
| None => stuck
end.

(** [for (const x of xs) body] *)
Fixpoint forEach {A} (xs : list A) (body : A -> M S E unit) : M S E unit :=
match xs with
| [] => ret tt
| x :: xs' => bind (body x) (fun _ => forEach xs' body)
end.

(** [xs.find(p)]: the first element on which the callback returns true. *)
Fixpoint find {A} (p : A -> M S E bool) (xs : list A) : M S E (option A) :=
match xs with
| [] => ret None
| x :: xs' => bind (p x) (fun b => if b then ret (Some x) else find p xs')
end.

Fixpoint mapM {A B} (f : A -> M S E B) (xs : list A) : M S E (list B) :=
match xs with
| [] => ret []
| x :: xs' => bind (f x) (fun y => bind (mapM f xs') (fun ys => ret (y :: ys)))
end.
End Monad.

Notation "'let!' x ':=' m 'in' k" := (bind m (fun x => k))
  (at level 10, x name, m at level 100, k at level 200).
Notation "'do!' m 'in' k" := (bind m (fun _ => k))
  (at level 10, m at level 100, k at level 200).

(** ** Heap primitives *)

Section HeapOps.
Context {E : Type}.
Abbreviation HM := (M Heap E).

(** [new ...], an array literal, an object literal *)
Definition alloc (o : Object) : HM ref :=
fun h => (h ++ [o], Ok (length h)).

Definition heapStore (h : Heap) (r : ref) : option Store :=
match h !! r with Some (OStore s) => Some s | _ => None end.
Definition heapConfig (h : Heap) (r : ref) : option Config :=
match h !! r with Some (OConfig c) => Some c | _ => None end.
Definition heapModules (h : Heap) (r : ref) : option (list ref) :=
match h !! r with Some (OModules ms) => Some ms | _ => None end.
Definition heapModule (h : Heap) (r : ref) : option ModuleObj :=
match h !! r with Some (OModule m) => Some m | _ => None end.
Definition heapStrings (h : Heap) (r : ref) : option (list string) :=
match h !! r with Some (OStrings ss) => Some ss | _ => None end.
Definition heapAliases (h : Heap) (r : ref) : option JsObject.t :=
match h !! r with Some (OAliases o) => Some o | _ => None end.

Definition getStore (r : ref) : HM Store := fun h => fromOption (heapStore h r) h.
Definition getConfig (r : ref) : HM Config := fun h => fromOption (heapConfig h r) h.
Definition getModules (r : ref) : HM (list ref) := fun h => fromOption (heapModules h r) h.
Definition getModule (r : ref) : HM ModuleObj := fun h => fromOption (heapModule h r) h.
Definition getStrings (r : ref) : HM (list string) := fun h => fromOption (heapStrings h r) h.
Definition getAliases (r : ref) : HM JsObject.t := fun h => fromOption (heapAliases h r) h.

(** In-place updates of an object that is already there. *)
Definition setConfig (r : ref) (c : Config) : HM unit :=
do! getConfig r in fun h => (<[r := OConfig c]> h, Ok tt).
Definition setModules (r : ref) (ms : list ref) : HM unit :=
do! getModules r in fun h => (<[r := OModules ms]> h, Ok tt).
Definition setModule (r : ref) (m : ModuleObj) : HM unit :=
do! getModule r in fun h => (<[r := OModule m]> h, Ok tt).
Definition setStrings (r : ref) (ss : list string) : HM unit :=
do! getStrings r in fun h => (<[r := OStrings ss]> h, Ok tt).
Definition setAliases (r : ref) (o : JsObject.t) : HM unit :=
do! getAliases r in fun h => (<[r := OAliases o]> h, Ok tt).
End HeapOps.

(** [config.aliases = o] *)
Definition assignAliases {E} (r : ref) (o : ref) : M Heap E unit :=
  let! c := getConfig r in
  setConfig r {| modules := modules c; aliases := o |}.

(** ** Actions and errors *)

(** [Action]: the payload of [ADD_MODULE] is a reference to a module. *)
Inductive Action :=
| ADD_MODULE (module : ref)
| REMOVE_MODULE (moduleProtocol modulePath : string)
| ADD_LINK (link : string)
| REMOVE_LINK (link : string)
| ADD_ALIAS (aliasPath aliasTargetPath : string)
| REMOVE_ALIAS (aliasPath : string)
| UPDATE_MODULE (moduleProtocol modulePath moduleVersion : string).

Inductive Operation :=
| OpRemoveModule
| OpAddLink
| OpRemoveLink
| OpAddAlias
| OpUpdateModule.

(** The errors [mutateStore] and [mutateRepository] raise with [new Error]. *)
Inductive MutationError :=
| DuplicateModule (moduleStr : string)
| ModuleNotFound (op : Operation) (target : string)
| LinkNotFound (link : string)
| AliasExists (aliasPath : string)
| AliasNotFound (aliasPath : string).

Definition operationName (op : Operation) : string :=
  match op with
  | OpRemoveModule => "remove module"
  | OpAddLink => "add link"
  | OpRemoveLink => "remove link"
  | OpAddAlias => "add alias"
  | OpUpdateModule => "update module"
  end.

Definition newline : string := String (ascii_of_nat 10) EmptyString.

(** The text of each error. *)
Definition message (e : MutationError) : string :=
  match e with
  | DuplicateModule m =>
      "module already exists: " +:+ m +:+ newline
        +:+ "to update module, please use 'dem update'."
  | ModuleNotFound op target =>
      operationName op +:+ ": module not found for: " +:+ target
  | LinkNotFound link => "file not linked: " +:+ link
  | AliasExists aliasPath =>
      "alias already exists for: " +:+ aliasPath
        +:+ ". please execute dem unalias before this."
  | AliasNotFound aliasPath =>
      "alias does not exist for: " +:+ aliasPath +:+ "."
  end.

(** ** module.ts and store.ts *)

(** Modelled from the spec: module.ts is not among the sources.  The
    canonical identity string of a module is [protocol://path], version and
    files excluded. *)
Definition toString (m : ModuleObj) : string :=
  protocol m +:+ "://" +:+ path m.

(** Modelled from the spec: module.ts is not among the sources.  Two modules
    are equal when they have the same protocol and the same path, whatever
    their versions. *)
Definition moduleEquals (a b : ModuleObj) : bool :=
  String.eqb (protocol a) (protocol b) && String.eqb (path a) (path b).

(** Modelled from the spec: store.ts is not among the sources.  The manifest
    is copied structurally: a new store and config, a new modules array, a
    new module for each module with protocol, path and version copied by
    value and the file list copied, and a new aliases map. *)
Definition duplicateModule {E} (r : ref) : M Heap E ref :=
  let! m := getModule r in
  let! fs := getStrings (files m) in
  let! fs' := alloc (OStrings fs) in
  alloc (OModule {| protocol := protocol m; path := path m;
                    version := version m; files := fs' |}).

Definition duplicateStore {E} (store : ref) : M Heap E ref :=
  let! s := getStore store in
  let! c := getConfig (config s) in
  let! ms := getModules (modules c) in
  let! ms' := mapM duplicateModule ms in
  let! al := getAliases (aliases c) in
  let! modules' := alloc (OModules ms') in
  let! aliases' := alloc (OAliases (JsObject.spread al)) in
  let! config' := alloc (OConfig {| modules := modules'; aliases := aliases' |}) in
  alloc (OStore {| config := config' |}).

(** ** [mutateStore] *)

Section Mutator.
(** [compareModules] of module.ts and [String.prototype.localeCompare] of
the host are taken as they come. *)
Variable compareModules : ModuleObj -> ModuleObj -> Z.
Variable localeCompare : string -> string -> Z.

Abbreviation HM := (M Heap MutationError).

(** [(mod) => probe.startsWith(mod.toString())] *)
Definition identityIsPrefixOf (probe : string) (mod' : ref) : HM bool :=
let! m := getModule mod' in
ret (JsString.startsWith probe (toString m)).

(** [(mod) => mod.protocol === moduleProtocol && mod.path === modulePath] *)
Definition hasProtocolAndPath (moduleProtocol modulePath : string) (mod' : ref)
: HM bool :=
let! m := getModule mod' in
ret (String.eqb (protocol m) moduleProtocol && String.eqb (path m) modulePath).

(** The scan of [REMOVE_MODULE]: the index of the first module whose
identity is a prefix of [urlStr], counting from [foundModIndex]. *)
Fixpoint scanModules (urlStr : string) (ms : list ref) (foundModIndex : nat)
: HM (option nat) :=
match ms with
| [] => ret None
| mod' :: ms' =>
let! b := identityIsPrefixOf urlStr mod' in
if b then ret (Some foundModIndex)
else scanModules urlStr ms' (S foundModIndex)
end.

(** [link.split(foundMod.toString())[1]] *)
Definition filePathOf (link : string) (m : ModuleObj) : option string :=
JsString.split link (toString m) !! 1.

(** One turn of the loop over the actions; [modules] is the modules array
of the copy, [aliases] the local copy of its aliases. *)
Definition mutateStoreAction (modules aliases : ref) (action : Action) : HM unit :=
match action with
| ADD_MODULE module =>
let! ms := getModules modules in
do! forEach ms (fun mod' =>
let! a := getModule mod' in
let! b := getModule module in
if moduleEquals a b then throw (DuplicateModule (toString b))
else ret tt) in
let! ms := getModules modules in
setModules modules (ms ++ [module])

| REMOVE_MODULE moduleProtocol modulePath =>
let urlStr := moduleProtocol +:+ "://" +:+ modulePath in
let! ms := getModules modules in
let! found := scanModules urlStr ms 0 in
match found with
| None => throw (ModuleNotFound OpRemoveModule urlStr)
| Some foundModIndex =>
let! ms := getModules modules in
setModules modules (JsArray.splice1 foundModIndex ms)
end

| ADD_LINK link =>
let! ms := getModules modules in
let! found := find (identityIsPrefixOf link) ms in
match found with
| None => throw (ModuleNotFound OpAddLink link)
| Some foundMod =>
let! m := getModule foundMod in
let! filePath := fromOption (filePathOf link m) in
let! fs := getStrings (files m) in
if JsArray.includes fs filePath then ret tt
else setStrings (files m) (fs ++ [filePath])
end

| REMOVE_LINK link =>
let! ms := getModules modules in
let! found := find (identityIsPrefixOf link) ms in
match found with
| None => throw (ModuleNotFound OpRemoveLink link)
| Some foundMod =>
let! m := getModule foundMod in
let! filePath := fromOption (filePathOf link m) in
let! fs := getStrings (files m) in
match JsArray.indexOf fs filePath with
| None => throw (LinkNotFound link)
| Some foundFileIndex =>
setStrings (files m) (JsArray.splice1 foundFileIndex fs)
end
end

| ADD_ALIAS aliasPath aliasTargetPath =>
let! al := getAliases aliases in
if JsObject.truthy (JsObject.get al aliasPath)
then throw (AliasExists aliasPath)
else
let! ms := getModules modules in
let! found := find (identityIsPrefixOf aliasTargetPath) ms in
match found with
| None => throw (ModuleNotFound OpAddAlias aliasTargetPath)
| Some _ =>
let! al := getAliases aliases in
setAliases aliases (JsObject.set al aliasPath aliasTargetPath)
end

| REMOVE_ALIAS aliasPath =>
let! al := getAliases aliases in
if negb (JsObject.truthy (JsObject.get al aliasPath))
then throw (AliasNotFound aliasPath)
else setAliases aliases (JsObject.delete al aliasPath)

| UPDATE_MODULE moduleProtocol modulePath moduleVersion =>
let urlStr := moduleProtocol +:+ "://" +:+ modulePath in
let! ms := getModules modules in
let! found := find (hasProtocolAndPath moduleProtocol modulePath) ms in
match found with
| None => throw (ModuleNotFound OpUpdateModule urlStr)
| Some foundMod =>
let! m := getModule foundMod in
setModule foundMod {| protocol := protocol m; path := path m;
                  version := moduleVersion; files := files m |}
end
end.

(** [modules.sort(compareModules)]: the comparator reads the modules. *)
Definition sortModules (modules : ref) : HM unit :=
let! ms := getModules modules in
let! objs := mapM (fun mod' => let! m := getModule mod' in ret (mod', m)) ms in
setModules modules
(map fst (JsArray.sort (fun a b => compareModules (snd a) (snd b)) objs)).

(** [for (const mod of modules) { mod.files.sort(); }] *)
Definition sortFiles (modules : ref) : HM unit :=
let! ms := getModules modules in
forEach ms (fun mod' =>
let! m := getModule mod' in
let! fs := getStrings (files m) in
setStrings (files m) (JsArray.sort JsString.defaultCompare fs)).

(** The entries of [aliases] sorted by key. *)
Definition sortedAliasEntries (al : JsObject.t) : list (string * string) :=
JsArray.sort (fun a b => localeCompare (fst a) (fst b)) (JsObject.entries al).

(** The end of [mutateStore], after the loop: the sorts, the rebuilt
aliases object stored into the config, and the return of [s]. *)
Definition sortAndReturn (s modules aliases : ref) : HM ref :=
(* sort modules *)
do! sortModules modules in
do! sortFiles modules in
(* sort aliases *)
let! al := getAliases aliases in
let! aliases' := alloc (OAliases (JsObject.fromEntries (sortedAliasEntries al))) in
let! st := getStore s in
do! assignAliases (config st) aliases' in
ret s.

Definition mutateStore (store : ref) (actions : list Action) : HM ref :=
let! s := duplicateStore store in
let! st := getStore s in
let! c := getConfig (config st) in
let! al := getAliases (aliases c) in
let modules := modules c in
let! aliases := alloc (OAliases (JsObject.spread al)) in
do! forEach actions (mutateStoreAction modules aliases) in
sortAndReturn s modules aliases.
End Mutator.

(** ** The collaborators of [mutateRepository] *)

(** What a collaborator throws: [Deno.errors.NotFound] or anything else. *)
Inductive Failure :=
| NotFound
| OtherFailure (msg : string).

Inductive Reply (A : Type) :=
| Returns (a : A)
| Raises (f : Failure).
Arguments Returns {A} a.
Arguments Raises {A} f.

(** net.ts, the path module, ast.ts and the [Repository] interface, over the
    state [World] of the network and the file system. *)
Record Collaborators (World : Type) := {
  createURL : string -> string -> string -> string -> string;
  pathJoin : list string -> string;
  hasDefaultExportRemote : string -> World -> World * Reply bool;
  hasDefaultExportLocal : string -> World -> World * Reply bool;
  repoRemoveModule : string -> string -> World -> World * Reply unit;
  repoAddLink : string -> string -> string -> string -> bool -> World -> World * Reply unit;
  repoRemoveLink : string -> string -> string -> World -> World * Reply unit;
  repoUpdateLink : string -> string -> string -> string -> bool -> World -> World * Reply unit;
  repoAddAlias : string -> string -> string -> string -> bool -> World -> World * Reply unit;
  repoRemoveAlias : string -> World -> World * Reply unit
}.
Arguments createURL {World} _ _ _ _ _.
Arguments pathJoin {World} _ _.
Arguments hasDefaultExportRemote {World} _ _ _.
Arguments hasDefaultExportLocal {World} _ _ _.
Arguments repoRemoveModule {World} _ _ _ _.
Arguments repoAddLink {World} _ _ _ _ _ _ _.
Arguments repoRemoveLink {World} _ _ _ _ _.
Arguments repoUpdateLink {World} _ _ _ _ _ _ _.
Arguments repoAddAlias {World} _ _ _ _ _ _ _.
Arguments repoRemoveAlias {World} _ _ _.

(** The calls made to the collaborators, in the order they are awaited. *)
Inductive Call :=
| HasDefaultExportRemote (url : string)
| HasDefaultExportLocal (fp : string)
| RemoveModule (moduleProtocol modulePath : string)
| AddLink (protocol path version filePath : string) (hasDefault : bool)
| RemoveLink (protocol path filePath : string)
| UpdateLink (protocol path version filePath : string) (hasDefault : bool)
| AddAlias (protocol path filePath aliasPath : string) (hasDefault : bool)
| RemoveAlias (aliasPath : string).

(** What [mutateRepository] rejects with: an error of its own or whatever a
    collaborator threw. *)
Inductive SyncError :=
| OwnError (e : MutationError)
| CollaboratorError (f : Failure).

Definition vendorDirectoryPath : string := "vendor".

(** ** [mutateRepository] *)

Section Synchronizer.
Context {World : Type}.
Variable env : Collaborators World.

(** The state threaded through the awaited calls: the outside world and
the log of the calls made so far. *)
Abbreviation SM := (M (World * list Call) SyncError).

(** [await collaborator(...)] *)
Definition await {A} (c : Call) (run : World -> World * Reply A) : SM A :=
fun st =>
let (w', r) := run (fst st) in
((w', snd st ++ [c]),
match r with
| Returns a => Ok a
| Raises f => Throw (CollaboratorError f)
end).

(** [try { body } catch (e) { handler(e) }] *)
Definition tryCatch {A} (body : SM A) (handler : SyncError -> SM A) : SM A :=
fun st =>
match body st with
| (st', Throw e) => handler e st'
| other => other
end.

Definition isNotFound (e : SyncError) : bool :=
match e with
| CollaboratorError NotFound => true
| _ => false
end.

Section WithStore.
(** The heap is only read. *)
Variable h : Heap.

Definition readModule (mod' : ref) : SM ModuleObj := fromOption (heapModule h mod').

Definition identityIsPrefixOf' (probe : string) (mod' : ref) : SM bool :=
let! m := readModule mod' in
ret (JsString.startsWith probe (toString m)).

Definition hasProtocolAndPath' (moduleProtocol modulePath : string) (mod' : ref)
: SM bool :=
let! m := readModule mod' in
ret (String.eqb (protocol m) moduleProtocol && String.eqb (path m) modulePath).

(** One turn of the loop over the actions; [modules] is the content of
[store.config.modules]. *)
Definition mutateRepositoryAction (modules : list ref) (action : Action) : SM unit :=
match action with
| ADD_MODULE _ =>
(* Do nothing for add module. *)
ret tt

| REMOVE_MODULE moduleProtocol modulePath =>
await (RemoveModule moduleProtocol modulePath)
(repoRemoveModule env moduleProtocol modulePath)

| ADD_LINK link =>
(* find module *)
let! found := find (identityIsPrefixOf' link) modules in
match found with
| None => throw (OwnError (ModuleNotFound OpAddLink link))
| Some foundMod =>
let! m := readModule foundMod in
let! filePath := fromOption (filePathOf link m) in
let url := createURL env (protocol m) (path m) (version m) filePath in
let! hasDefault :=
await (HasDefaultExportRemote url) (hasDefaultExportRemote env url) in
await (AddLink (protocol m) (path m) (version m) filePath hasDefault)
(repoAddLink env (protocol m) (path m) (version m) filePath hasDefault)
end

| REMOVE_LINK link =>
let! found := find (identityIsPrefixOf' link) modules in
match found with
| None => throw (OwnError (ModuleNotFound OpRemoveLink link))
| Some foundMod =>
let! m := readModule foundMod in
(* create file path *)
let! filePath := fromOption (filePathOf link m) in
await (RemoveLink (protocol m) (path m) filePath)
(repoRemoveLink env (protocol m) (path m) filePath)
end

| ADD_ALIAS aliasPath aliasTargetPath =>
let! found := find (identityIsPrefixOf' aliasTargetPath) modules in
match found with
| None => throw (OwnError (ModuleNotFound OpAddAlias aliasTargetPath))
| Some foundMod =>
let! m := readModule foundMod in
let! linkedFilePath := fromOption (filePathOf aliasTargetPath m) in
let fp := pathJoin env
[vendorDirectoryPath; protocol m; path m; linkedFilePath] in
let! hasDefault :=
tryCatch
(await (HasDefaultExportLocal fp) (hasDefaultExportLocal env fp))
(fun e => if isNotFound e
then ret false (* let has default as false *)
else throw e) in
await (AddAlias (protocol m) (path m) linkedFilePath aliasPath hasDefault)
(repoAddAlias env (protocol m) (path m) linkedFilePath aliasPath
hasDefault)
end

| REMOVE_ALIAS aliasPath =>
await (RemoveAlias aliasPath) (repoRemoveAlias env aliasPath)

| UPDATE_MODULE moduleProtocol modulePath moduleVersion =>
let urlStr := moduleProtocol +:+ "://" +:+ modulePath in
let! found := find (hasProtocolAndPath' moduleProtocol modulePath) modules in
match found with
| None => throw (OwnError (ModuleNotFound OpUpdateModule urlStr))
| Some foundMod =>
let! m := readModule foundMod in
let! fs := fromOption (heapStrings h (files m)) in
forEach fs (fun filePath =>
let url := createURL env moduleProtocol modulePath moduleVersion
filePath in
let! hasDefault :=
await (HasDefaultExportRemote url) (hasDefaultExportRemote env url) in
await (UpdateLink moduleProtocol modulePath moduleVersion filePath
hasDefault)
(repoUpdateLink env moduleProtocol modulePath moduleVersion
filePath hasDefault))
end
end.

Definition mutateRepository (store : ref) (actions : list Action) : SM unit :=
let! st := fromOption (heapStore h store) in
let! c := fromOption (heapConfig h (config st)) in
let! modules := fromOption (heapModules h (modules c)) in
forEach actions (mutateRepositoryAction modules).
End WithStore.
End Synchronizer.

(** ** Reading a manifest off the heap *)

(** A module with its file list, by value. *)
Record ModuleView := {
  mvProtocol : string;
  mvPath : string;
  mvVersion : string;
  mvFiles : list string
}.

(** A manifest by value: the modules in array order and the aliases. *)
Record StoreView := {
  svModules : list ModuleView;
  svAliases : JsObject.t
}.

Definition viewModule (h : Heap) (r : ref) : option ModuleView :=
  match heapModule h r with
  | Some m =>
      match heapStrings h (files m) with
      | Some fs => Some {| mvProtocol := protocol m; mvPath := path m;
                           mvVersion := version m; mvFiles := fs |}
      | None => None
      end
  | None => None
  end.

Fixpoint viewModules (h : Heap) (ms : list ref) : option (list ModuleView) :=
  match ms with
  | [] => Some []
  | r :: ms' =>
      match viewModule h r, viewModules h ms' with
      | Some v, Some vs => Some (v :: vs)
      | _, _ => None
      end
  end.

(** The modules array of a store. *)
Definition storeModules (h : Heap) (store : ref) : option (list ref) :=
  match heapStore h store with
  | Some s =>
      match heapConfig h (config s) with
      | Some c => heapModules h (modules c)
      | None => None
      end
  | None => None
  end.

(** The aliases object of a store. *)
Definition storeAliases (h : Heap) (store : ref) : option JsObject.t :=
  match heapStore h store with
  | Some s =>
      match heapConfig h (config s) with
      | Some c => heapAliases h (aliases c)
      | None => None
      end
  | None => None
  end.

Definition viewStore (h : Heap) (store : ref) : option StoreView :=
  match storeModules h store, storeAliases h store with
  | Some ms, Some al =>
      match viewModules h ms with
      | Some vs => Some {| svModules := vs; svAliases := al |}
      | None => None
      end
  | _, _ => None
  end.

(** The identity string of a module view. *)
Definition identity (v : ModuleView) : string :=
  mvProtocol v +:+ "://" +:+ mvPath v.

(** The objects a manifest is made of: the store, its config, the modules
    array, every module with its [files] array, and the aliases object. *)
Definition moduleFootprint (h : Heap) (r : ref) : list ref :=
  match heapModule h r with
  | Some m => [r; files m]
  | None => [r]
  end.

Definition footprint (h : Heap) (store : ref) : list ref :=
  match heapStore h store with
  | Some s =>
      store :: config s ::
      match heapConfig h (config s) with
      | Some c =>
          modules c :: aliases c ::
          match heapModules h (modules c) with
          | Some ms => concat (map (moduleFootprint h) ms)
          | None => []
          end
      | None => []
      end
  | None => [store]
  end.

(** The module references an action list carries. *)
Definition payload (a : Action) : list ref :=
  match a with
  | ADD_MODULE module => [module]
  | _ => []
  end.

Definition payloadRefs (actions : list Action) : list ref :=
  concat (map payload actions).

(** The objects the payloads of an action list are made of: every payload
    module with its [files] array. *)
Definition payloads (h : Heap) (actions : list Action) : list ref :=
  concat (map (moduleFootprint h) (payloadRefs actions)).

(** ** Reasoning about outcomes *)

(** [wp m Q s]: running [m] from [s] ends in a state and outcome that
    satisfy [Q]. *)
Definition wp {S E A} (m : M S E A) (Q : S -> Result E A -> Prop) (s : S) : Prop :=
  Q (fst (m s)) (snd (m s)).

(** The continuation of a bind: go on after [Ok], stop on [Throw] and
    [Stuck]. *)
Definition andThen {S E A B} (k : A -> S -> Prop) (Q : S -> Result E B -> Prop)
  : S -> Result E A -> Prop :=
  fun s r =>
    match r with
    | Ok a => k a s
    | Throw e => Q s (Throw e)
    | Stuck => Q s Stuck
    end.

(** The first module of [ms], in array order, whose identity is a prefix of
    [probe]; [Stuck] when a module read on the way is not there. *)
Fixpoint firstOwner {E} (h : Heap) (probe : string) (ms : list ref)
  : Result E (option ref) :=
  match ms with
  | [] => Ok None
  | r :: ms' =>
      match heapModule h r with
      | None => Stuck
      | Some m =>
          if JsString.startsWith probe (toString m) then Ok (Some r)
          else firstOwner h probe ms'
      end
  end.

(** The first module of [ms] with the given protocol and path. *)
Fixpoint firstExact {E} (h : Heap) (moduleProtocol modulePath : string)
  (ms : list ref) : Result E (option ref) :=
  match ms with
  | [] => Ok None
  | r :: ms' =>
      match heapModule h r with
      | None => Stuck
      | Some m =>
          if String.eqb (protocol m) moduleProtocol && String.eqb (path m) modulePath
          then Ok (Some r)
          else firstExact h moduleProtocol modulePath ms'
      end
  end.

(** ** The layout of a copy *)

(** The objects [duplicateStore] appends for the modules [vs] when the heap
    has [n] objects: for each module its file list, then the module. *)
Fixpoint copiesOf (n : nat) (vs : list ModuleView) : Heap :=
  match vs with
  | [] => []
  | v :: vs' =>
      OStrings (mvFiles v)
      :: OModule {| protocol := mvProtocol v; path := mvPath v;
                    version := mvVersion v; files := n |}
      :: copiesOf (n + 2) vs'
  end.

(** The references of the copied modules. *)
Fixpoint copyRefs (n : nat) (vs : list ModuleView) : list ref :=
  match vs with
  | [] => []
  | _ :: vs' => (n + 1) :: copyRefs (n + 2) vs'
  end.

(** The heap after [duplicateStore] on a manifest with modules [vs] and
    aliases [al]. *)
(** The references of the copy of a manifest with modules [vs] made on the
    heap [h]: its modules array, its aliases, its config, its store, and
    the working aliases object of [mutateStore]. *)
Definition copyModulesRef (h : Heap) (vs : list ModuleView) : ref :=
  length h + 2 * length vs.
Definition copyAliasesRef (h : Heap) (vs : list ModuleView) : ref :=
  length h + 2 * length vs + 1.
Definition copyConfigRef (h : Heap) (vs : list ModuleView) : ref :=
  length h + 2 * length vs + 2.
Definition copyStoreRef (h : Heap) (vs : list ModuleView) : ref :=
  length h + 2 * length vs + 3.
Definition workAliasesRef (h : Heap) (vs : list ModuleView) : ref :=
  length h + 2 * length vs + 4.
Arguments copyModulesRef : simpl never.
Arguments copyAliasesRef : simpl never.
Arguments copyConfigRef : simpl never.
Arguments copyStoreRef : simpl never.
Arguments workAliasesRef : simpl never.

Definition duplicated (h : Heap) (vs : list ModuleView) (al : JsObject.t) : Heap :=
  h ++ copiesOf (length h) vs
    ++ [ OModules (copyRefs (length h) vs);
         OAliases (JsObject.spread al);
         OConfig {| modules := copyModulesRef h vs; aliases := copyAliasesRef h vs |};
         OStore {| config := copyConfigRef h vs |} ].

(** ** The writes of [mutateStore] *)

(** What one step of [mutateStore] may do to the heap once the copy is
    made.  [pm] lists the modules that may be pushed, [removal] tells
    whether a module may be spliced out; [modulesRef] is the modules array
    of the copy and [aliasesRef] its working aliases object. *)
Inductive Write (pm : list ref) (removal : bool) (modulesRef aliasesRef : ref)
  (h : Heap) : Heap -> Prop :=
| WriteNothing : Write pm removal modulesRef aliasesRef h h
| WritePush ms p :
    heapModules h modulesRef = Some ms -> p ∈ pm ->
    Write pm removal modulesRef aliasesRef h (<[modulesRef := OModules (ms ++ [p])]> h)
| WriteSplice ms i :
    heapModules h modulesRef = Some ms -> removal = true ->
    Write pm removal modulesRef aliasesRef h
      (<[modulesRef := OModules (JsArray.splice1 i ms)]> h)
| WritePermute ms ms' :
    heapModules h modulesRef = Some ms -> ms' ≡ₚ ms ->
    Write pm removal modulesRef aliasesRef h (<[modulesRef := OModules ms']> h)
| WriteFiles ms r m fs fs' :
    heapModules h modulesRef = Some ms -> r ∈ ms ->
    heapModule h r = Some m -> heapStrings h (files m) = Some fs ->
    Write pm removal modulesRef aliasesRef h (<[files m := OStrings fs']> h)
| WriteVersion ms r m v :
    heapModules h modulesRef = Some ms -> r ∈ ms ->
    heapModule h r = Some m ->
    Write pm removal modulesRef aliasesRef h
      (<[r := OModule {| protocol := protocol m; path := path m;
                         version := v; files := files m |}]> h)
| WriteAliases al al' :
    heapAliases h aliasesRef = Some al ->
    Write pm removal modulesRef aliasesRef h (<[aliasesRef := OAliases al']> h).

Definition isRemoveModule (a : Action) : bool :=
  match a with
  | REMOVE_MODULE _ _ => true
  | _ => false
  end.

(** The index of the first module whose identity is a prefix of [urlStr],
    counting from [i]. *)
Fixpoint firstOwnerIndex {E} (h : Heap) (urlStr : string) (ms : list ref) (i : nat)
  : Result E (option nat) :=
  match ms with
  | [] => Ok None
  | r :: ms' =>
      match heapModule h r with
      | None => Stuck
      | Some m =>
          if JsString.startsWith urlStr (toString m) then Ok (Some i)
          else firstOwnerIndex h urlStr ms' (S i)
      end
  end.

(** The modules of [ms] paired with what the heap holds for them. *)
Fixpoint readModules (h : Heap) (ms : list ref) : option (list (ref * ModuleObj)) :=
  match ms with
  | [] => Some []
  | r :: ms' =>
      match heapModule h r, readModules h ms' with
      | Some m, Some objs => Some ((r, m) :: objs)
      | _, _ => None
      end
  end.

(** ** The frame of [mutateStore] *)

(** The objects an [ADD_MODULE] payload brings along, as the heap [h0] the
    call starts from has them. *)
Definition writable (h0 : Heap) (pm : list ref) : list ref :=
  concat (map (moduleFootprint h0) pm).

(** What holds of the heap all along a call that started from [h0]: the
    objects of [h0] outside the payloads are as they were, a module made
    since [h0] has a [files] array made since [h0], a module of [h0] keeps
    its [files] array, a store made since [h0] has a config made since
    [h0], and the working modules array holds copies and payloads only. *)
Record FrameInv (h0 : Heap) (pm : list ref) (modulesRef aliasesRef : ref)
  (h : Heap) : Prop := {
  frame_length : length h0 <= length h;
  frame_untouched :
    forall l, l < length h0 -> l ∉ writable h0 pm -> h !! l = h0 !! l;
  frame_fresh_files :
    forall r m, length h0 <= r -> heapModule h r = Some m -> length h0 <= files m;
  frame_old_files :
    forall r m, r < length h0 -> heapModule h r = Some m ->
                exists m0, heapModule h0 r = Some m0 /\ files m = files m0;
  frame_stores :
    forall r st, length h0 <= r -> heapStore h r = Some st -> length h0 <= config st;
  frame_modulesRef : length h0 <= modulesRef;
  frame_aliasesRef : length h0 <= aliasesRef;
  frame_modules :
    exists ms, heapModules h modulesRef = Some ms
               /\ Forall (fun r => length h0 <= r \/ r ∈ pm) ms
}.

(** The heap when the loop over the actions starts. *)
Definition loopHeap (h : Heap) (vs : list ModuleView) (al : JsObject.t) : Heap :=
  duplicated h vs al ++ [OAliases (JsObject.spread (JsObject.spread al))].

(** ** The calls of an [UPDATE_MODULE] *)

Definition outcomeOf {A} (r : Reply A) : Result SyncError A :=
  match r with
  | Returns a => Ok a
  | Raises f => Throw (CollaboratorError f)
  end.

(** The run of the loop of [UPDATE_MODULE] over the files [fs], from the
    world [w]: for each file in order, one remote inspection of the URL of
    the file at the new version, then one [updateLink] with the new version
    and the flag the inspection returned; the first call that raises ends
    the run. *)
Inductive UpdateRun {World} (env : Collaborators World)
  (moduleProtocol modulePath moduleVersion : string)
  : list string -> World -> list Call -> World -> Result SyncError unit -> Prop :=
| UpdateDone w :
    UpdateRun env moduleProtocol modulePath moduleVersion [] w [] w (Ok tt)
| UpdateInspectionRaises filePath fs w w1 f :
    hasDefaultExportRemote env
      (createURL env moduleProtocol modulePath moduleVersion filePath) w
    = (w1, Raises f) ->
    UpdateRun env moduleProtocol modulePath moduleVersion (filePath :: fs) w
      [HasDefaultExportRemote
         (createURL env moduleProtocol modulePath moduleVersion filePath)]
      w1 (Throw (CollaboratorError f))
| UpdateLinkRaises filePath fs w w1 hasDefault w2 f :
    hasDefaultExportRemote env
      (createURL env moduleProtocol modulePath moduleVersion filePath) w
    = (w1, Returns hasDefault) ->
    repoUpdateLink env moduleProtocol modulePath moduleVersion filePath hasDefault w1
    = (w2, Raises f) ->
    UpdateRun env moduleProtocol modulePath moduleVersion (filePath :: fs) w
      [HasDefaultExportRemote
         (createURL env moduleProtocol modulePath moduleVersion filePath);
       UpdateLink moduleProtocol modulePath moduleVersion filePath hasDefault]
      w2 (Throw (CollaboratorError f))
| UpdateNext filePath fs w w1 hasDefault w2 calls w3 r :
    hasDefaultExportRemote env
      (createURL env moduleProtocol modulePath moduleVersion filePath) w
    = (w1, Returns hasDefault) ->
    repoUpdateLink env moduleProtocol modulePath moduleVersion filePath hasDefault w1
    = (w2, Returns tt) ->
    UpdateRun env moduleProtocol modulePath moduleVersion fs w2 calls w3 r ->
    UpdateRun env moduleProtocol modulePath moduleVersion (filePath :: fs) w
      (HasDefaultExportRemote
         (createURL env moduleProtocol modulePath moduleVersion filePath)
       :: UpdateLink moduleProtocol modulePath moduleVersion filePath hasDefault
       :: calls)
      w3 r.

Definition isRemoteInspection (c : Call) : bool :=
  match c with
  | HasDefaultExportRemote _ => true
  | _ => false
  end.

Definition isUpdateLink (c : Call) : bool :=
  match c with
  | UpdateLink _ _ _ _ _ => true
  | _ => false
  end.

Definition countCalls (p : Call -> bool) (calls : list Call) : nat :=
  length (List.filter p calls).

(** The remote inspections and the repository never raise. *)
Definition UpdatesNeverRaise {World} (env : Collaborators World) : Prop :=
  (forall url w, exists w' b, hasDefaultExportRemote env url w = (w', Returns b))
  /\ (forall p pa v f b w, exists w', repoUpdateLink env p pa v f b w = (w', Returns tt)).

(** ** The result of the post-pass *)

(** A module with its files sorted. *)
Definition sortFilesView (v : ModuleView) : ModuleView :=
  {| mvProtocol := mvProtocol v; mvPath := mvPath v; mvVersion := mvVersion v;
     mvFiles := JsArray.sort JsString.defaultCompare (mvFiles v) |}.

(** The module references in the order [modules.sort(compareModules)]
    leaves them. *)
Definition sortedModuleRefs (compareModules : ModuleObj -> ModuleObj -> Z)
  (objs : list (ref * ModuleObj)) : list ref :=
  map fst (JsArray.sort (fun a b => compareModules (snd a) (snd b)) objs).

(** [h'] is [h] with some arrays of strings sorted and nothing else
    changed. *)
Definition SortedFrom (h h' : Heap) : Prop :=
  length h' = length h
  /\ forall l,
       match h !! l with
       | Some (OStrings fs) =>
           h' !! l = Some (OStrings fs)
           \/ h' !! l = Some (OStrings (JsArray.sort JsString.defaultCompare fs))
       | o => h' !! l = o
       end.

(** ** Comparing modules by value *)

(** A module object for a view; [compareModules] is not to look at its
    [files]. *)
Definition objectOf (v : ModuleView) : ModuleObj :=
  {| protocol := mvProtocol v; path := mvPath v; version := mvVersion v; files := 0 |}.

Definition compareViews (compareModules : ModuleObj -> ModuleObj -> Z)
  (a b : ModuleView) : Z :=
  compareModules (objectOf a) (objectOf b).

(** [compareModules] reads the protocol, the path and the version of its
    arguments, not their file lists. *)
Definition FilesBlind (compareModules : ModuleObj -> ModuleObj -> Z) : Prop :=
  forall a b a' b',
    protocol a = protocol a' -> path a = path a' -> version a = version a' ->
    protocol b = protocol b' -> path b = path b' -> version b = version b' ->
    compareModules a b = compareModules a' b'.

(** ** The modules the synchronizer looks for *)

(** What an action looks for among the modules: an identity that is a
    prefix of its link or target, or a protocol and a path. *)
Definition lookedFor (a : Action) : option (ModuleObj -> bool) :=
  match a with
  | ADD_LINK link | REMOVE_LINK link =>
      Some (fun m => JsString.startsWith link (toString m))
  | ADD_ALIAS _ aliasTargetPath =>
      Some (fun m => JsString.startsWith aliasTargetPath (toString m))
  | UPDATE_MODULE moduleProtocol modulePath _ =>
      Some (fun m => String.eqb (protocol m) moduleProtocol
                     && String.eqb (path m) modulePath)
  | _ => None
  end.

(** The action needs a module of the manifest in [mutateRepository]. *)
Definition looksForModule (a : Action) : bool :=
  match a with
  | ADD_LINK _ | REMOVE_LINK _ | ADD_ALIAS _ _ | UPDATE_MODULE _ _ _ => true
  | _ => false
  end.

(** Some module of [ms] is what the action looks for. *)
Definition Resolves (h : Heap) (ms : list ref) (a : Action) : Prop :=
  match lookedFor a with
  | Some p => exists r m, r ∈ ms /\ heapModule h r = Some m /\ p m = true
  | None => True
  end.

(** The outcome is a return or the failure of a collaborator: no error of
    [mutateRepository] itself, no read of an object that is not there. *)
Definition Benign {A} (r : Result SyncError A) : Prop :=
  match r with
  | Ok _ => True
  | Throw (CollaboratorError _) => True
  | Throw (OwnError _) => False
  | Stuck => False
  end.

(** From [h] to [h'] every module is still there with its protocol and
    path, and the working modules array has lost no module. *)
Definition Keeps (modulesRef : ref) (h h' : Heap) : Prop :=
  (forall r m, heapModule h r = Some m ->
     exists m', heapModule h' r = Some m'
                /\ protocol m' = protocol m /\ path m' = path m)
  /\ (forall ms, heapModules h modulesRef = Some ms ->
        exists ms', heapModules h' modulesRef = Some ms' /\ ms ⊆ ms')
  /\ (forall l, match h !! l with
                | Some (OStore st) => h' !! l = Some (OStore st)
                | Some (OConfig c) => h' !! l = Some (OConfig c)
                | _ => True
                end).

(** No write of the loop replaces a store or a config. *)
Definition KeepsStores (h0 h : Heap) : Prop :=
forall l, match h0 !! l with
          | Some (OStore st) => h !! l = Some (OStore st)
          | Some (OConfig c) => h !! l = Some (OConfig c)
          | _ => True
          end.

(** ** The order of the returned manifest *)

(** The files of a module are in the order of the default comparator of
    [Array.prototype.sort]: by code units. *)
Definition FilesSorted (v : ModuleView) : Prop :=
  Sorted (JsArray.cmpLe JsString.defaultCompare) (mvFiles v).

(** Both keys are array indices, the first one the smaller. *)
Definition indexBefore (a b : string) : Prop :=
  match JsObject.arrayIndex a, JsObject.arrayIndex b with
  | Some n, Some m => (n < m)%N
  | _, _ => False
  end.

(** The order in which the object rebuilt from the sorted entries
    enumerates its keys: the keys that are array indices first, in
    ascending numeric order, then the other keys in the order of
    [localeCompare]. *)
Definition AliasOrder (localeCompare : string -> string -> Z) (ks : list string)
  : Prop :=
  exists ik ok,
    ks = ik ++ ok
    /\ Forall (fun k => is_Some (JsObject.arrayIndex k)) ik
    /\ Sorted indexBefore ik
    /\ Forall (fun k => JsObject.arrayIndex k = None) ok
    /\ Sorted (JsArray.cmpLe localeCompare) ok.

(** What the keys of an object built by [CreateDataProperty] from the
  entries with the keys [pre] look like. *)
Definition KeyOrder (o : JsObject.t) (pre : list string) : Prop :=
exists ik ok,
  JsObject.keys o = ik ++ ok
  /\ Forall (fun k => is_Some (JsObject.arrayIndex k)) ik
  /\ StronglySorted indexBefore ik
  /\ Forall (fun k => JsObject.arrayIndex k = None) ok
  /\ ok `sublist_of` pre.

(** Two manifests with the same content: the same modules with the same
    files, in any order, and the same aliases. *)
Definition SameModule (a b : ModuleView) : Prop :=
  mvProtocol a = mvProtocol b /\ mvPath a = mvPath b
  /\ mvVersion a = mvVersion b /\ mvFiles a ≡ₚ mvFiles b.

Definition SameContent (v w : StoreView) : Prop :=
  (exists l, l ≡ₚ svModules w /\ Forall2 SameModule (svModules v) l)
  /\ forall k, JsObject.getOwn (svAliases v) k = JsObject.getOwn (svAliases w) k.

(** The comparator tells the elements of [l] apart. *)
Definition TellsApart {A} (cmp : A -> A -> Z) (l : list A) : Prop :=
  forall a b, a ∈ l -> b ∈ l -> cmp a b = 0%Z -> a = b.

(** ** Instances used in the examples *)

(** A comparator for modules: identity strings in code-unit order. *)
Definition compareByIdentity (a b : ModuleObj) : Z :=
  JsString.defaultCompare (toString a) (toString b).

(** Collaborators over a world that keeps nothing: every inspection finds a
    default export unless the path or URL is listed as missing or broken,
    and the repository always succeeds. *)
Definition exampleEnv (missing broken : list string) : Collaborators unit := {|
  createURL := fun protocol path version filePath =>
    protocol +:+ "://" +:+ path +:+ "@" +:+ version +:+ filePath;
  pathJoin := fun parts =>
    foldl (fun acc part =>
             if String.eqb acc "" then part
             else if String.prefix "/" part then acc +:+ part
             else acc +:+ "/" +:+ part) "" parts;
  hasDefaultExportRemote := fun url w =>
    (w, if bool_decide (url ∈ broken) then Raises (OtherFailure "fetch failed")
        else Returns true);
  hasDefaultExportLocal := fun fp w =>
    (w, if bool_decide (fp ∈ missing) then Raises NotFound
        else if bool_decide (fp ∈ broken) then Raises (OtherFailure "parse failed")
        else Returns true);
  repoRemoveModule := fun _ _ w => (w, Returns tt);
  repoAddLink := fun _ _ _ _ _ w => (w, Returns tt);
  repoRemoveLink := fun _ _ _ w => (w, Returns tt);
  repoUpdateLink := fun _ _ _ _ _ w => (w, Returns tt);
  repoAddAlias := fun _ _ _ _ _ w => (w, Returns tt);
  repoRemoveAlias := fun _ w => (w, Returns tt)
|}.

(** A heap holding one manifest: store 0, config 1, modules array 2,
    aliases 3, then the modules, each followed by its [files] array. *)
Definition exampleHeap (ms : list ModuleView) (al : JsObject.t) : Heap :=
  [ OStore {| config := 1 |};
    OConfig {| modules := 2; aliases := 3 |};
    OModules (map (fun i => 4 + 2 * i) (seq 0 (length ms)));
    OAliases al ]
  ++ concat (imap (fun i v =>
       [ OModule {| protocol := mvProtocol v; path := mvPath v;
                    version := mvVersion v; files := 5 + 2 * i |};
         OStrings (mvFiles v) ]) ms).


(** ** Example manifests *)

Definition stdModule : ModuleView :=
  {| mvProtocol := "https"; mvPath := "deno.land/std"; mvVersion := "v1";
     mvFiles := [] |}.

(** A manifest with the single module [https://deno.land/std], no file
    linked and no alias: store 0, module 4, its files array 5. *)
Definition oneModuleHeap : Heap := exampleHeap [stdModule] [].

(** The same heap with one more module, outside the manifest, to be the
    payload of an [ADD_MODULE]: module 6 with its files array 7. *)
Definition payloadHeap : Heap :=
  oneModuleHeap
    ++ [ OModule {| protocol := "https"; path := "deno.land/x/dejs";
                    version := "0.3.0"; files := 7 |};
         OStrings ["/mod.ts"] ].

(** The manifest of [oneModuleHeap] with two files linked. *)
Definition linkedModule : ModuleView :=
  {| mvProtocol := "https"; mvPath := "deno.land/std"; mvVersion := "v1";
     mvFiles := ["/fs/mod.ts"; "/path/mod.ts"] |}.

Definition linkedHeap : Heap := exampleHeap [linkedModule] [].

(** The manifest of [oneModuleHeap] with one alias whose target is the
    empty string. *)
Definition emptyTargetHeap : Heap := exampleHeap [stdModule] [("mod.ts", "")].

(** [oneModuleHeap] with the module [https://deno.land/std/fs] outside the
    manifest: module 6 with its files array 7. *)
Definition subModuleHeap : Heap :=
  oneModuleHeap
    ++ [ OModule {| protocol := "https"; path := "deno.land/std/fs";
                    version := "v1"; files := 7 |};
         OStrings [] ].

(** ** [mutateStore] by value *)

(** The first element of [xs] on which [p] holds, with its index counted
    from [i]. *)
Fixpoint findFrom {A} (p : A -> bool) (i : nat) (xs : list A) : option (nat * A) :=
  match xs with
  | [] => None
  | x :: xs' => if p x then Some (i, x) else findFrom p (S i) xs'
  end.

(** [probe.startsWith(mod.toString())] on a module by value. *)
Definition ownsView (probe : string) (v : ModuleView) : bool :=
  JsString.startsWith probe (identity v).

(** [mod.protocol === moduleProtocol && mod.path === modulePath] *)
Definition isModuleView (moduleProtocol modulePath : string) (v : ModuleView) : bool :=
  String.eqb (mvProtocol v) moduleProtocol && String.eqb (mvPath v) modulePath.

(** [link.split(foundMod.toString())[1]] *)
Definition filePathOfView (link : string) (v : ModuleView) : option string :=
  JsString.split link (identity v) !! 1.

Definition withFiles (v : ModuleView) (fs : list string) : ModuleView :=
  {| mvProtocol := mvProtocol v; mvPath := mvPath v; mvVersion := mvVersion v;
     mvFiles := fs |}.

Definition withVersion (v : ModuleView) (moduleVersion : string) : ModuleView :=
  {| mvProtocol := mvProtocol v; mvPath := mvPath v; mvVersion := moduleVersion;
     mvFiles := mvFiles v |}.

Definition withModules (w : StoreView) (vs : list ModuleView) : StoreView :=
  {| svModules := vs; svAliases := svAliases w |}.

Definition withAliases (w : StoreView) (al : JsObject.t) : StoreView :=
  {| svModules := svModules w; svAliases := al |}.

(** One turn of the loop of [mutateStore] on the working manifest by value;
    [payloadView] reads the payload of an [ADD_MODULE]. *)
Definition applyAction (payloadView : ref -> option ModuleView) (action : Action)
  (w : StoreView) : Result MutationError StoreView :=
  match action with
  | ADD_MODULE module =>
      match payloadView module with
      | None => Stuck
      | Some pv =>
          if existsb (isModuleView (mvProtocol pv) (mvPath pv)) (svModules w)
          then Throw (DuplicateModule (identity pv))
          else Ok (withModules w (svModules w ++ [pv]))
      end
  | REMOVE_MODULE moduleProtocol modulePath =>
      let urlStr := moduleProtocol +:+ "://" +:+ modulePath in
      match findFrom (ownsView urlStr) 0 (svModules w) with
      | None => Throw (ModuleNotFound OpRemoveModule urlStr)
      | Some (foundModIndex, _) =>
          Ok (withModules w (JsArray.splice1 foundModIndex (svModules w)))
      end
  | ADD_LINK link =>
      match findFrom (ownsView link) 0 (svModules w) with
      | None => Throw (ModuleNotFound OpAddLink link)
      | Some (i, foundMod) =>
          match filePathOfView link foundMod with
          | None => Stuck
          | Some filePath =>
              if JsArray.includes (mvFiles foundMod) filePath then Ok w
              else Ok (withModules w
                         (<[i := withFiles foundMod (mvFiles foundMod ++ [filePath])]>
                            (svModules w)))
          end
      end
  | REMOVE_LINK link =>
      match findFrom (ownsView link) 0 (svModules w) with
      | None => Throw (ModuleNotFound OpRemoveLink link)
      | Some (i, foundMod) =>
          match filePathOfView link foundMod with
          | None => Stuck
          | Some filePath =>
              match JsArray.indexOf (mvFiles foundMod) filePath with
              | None => Throw (LinkNotFound link)
              | Some foundFileIndex =>
                  Ok (withModules w
                        (<[i := withFiles foundMod
                                  (JsArray.splice1 foundFileIndex (mvFiles foundMod))]>
                           (svModules w)))
              end
          end
      end
  | ADD_ALIAS aliasPath aliasTargetPath =>
      if JsObject.truthy (JsObject.get (svAliases w) aliasPath)
      then Throw (AliasExists aliasPath)
      else
        match findFrom (ownsView aliasTargetPath) 0 (svModules w) with
        | None => Throw (ModuleNotFound OpAddAlias aliasTargetPath)
        | Some _ =>
            Ok (withAliases w (JsObject.set (svAliases w) aliasPath aliasTargetPath))
        end
  | REMOVE_ALIAS aliasPath =>
      if negb (JsObject.truthy (JsObject.get (svAliases w) aliasPath))
      then Throw (AliasNotFound aliasPath)
      else Ok (withAliases w (JsObject.delete (svAliases w) aliasPath))
  | UPDATE_MODULE moduleProtocol modulePath moduleVersion =>
      let urlStr := moduleProtocol +:+ "://" +:+ modulePath in
      match findFrom (isModuleView moduleProtocol modulePath) 0 (svModules w) with
      | None => Throw (ModuleNotFound OpUpdateModule urlStr)
      | Some (i, foundMod) =>
          Ok (withModules w (<[i := withVersion foundMod moduleVersion]> (svModules w)))
      end
  end.

(** The loop over the actions: the first error ends it. *)
Fixpoint applyActions (payloadView : ref -> option ModuleView)
  (actions : list Action) (w : StoreView) : Result MutationError StoreView :=
  match actions with
  | [] => Ok w
  | action :: rest =>
      match applyAction payloadView action w with
      | Ok w' => applyActions payloadView rest w'
      | Throw e => Throw e
      | Stuck => Stuck
      end
  end.

(** The manifest the loop works on: the modules of the copy and the spread
    of its aliases. *)
Definition workingView (v : StoreView) : StoreView :=
  {| svModules := svModules v;
     svAliases := JsObject.spread (JsObject.spread (svAliases v)) |}.

(** The post-pass by value. *)
Definition normalize (compareModules : ModuleObj -> ModuleObj -> Z)
  (localeCompare : string -> string -> Z) (w : StoreView) : StoreView :=
  {| svModules := map sortFilesView
                    (JsArray.sort (compareViews compareModules) (svModules w));
     svAliases := JsObject.fromEntries (sortedAliasEntries localeCompare (svAliases w)) |}.

(** [mutateStore] by value: what it returns, or the error it throws, read
    off the content of the manifest and of the payloads. *)
Definition mutateView (compareModules : ModuleObj -> ModuleObj -> Z)
  (localeCompare : string -> string -> Z) (payloadView : ref -> option ModuleView)
  (actions : list Action) (v : StoreView) : Result MutationError StoreView :=
  match applyActions payloadView actions (workingView v) with
  | Ok w => Ok (normalize compareModules localeCompare w)
  | Throw e => Throw e
  | Stuck => Stuck
  end.

(** The module object [o], at the reference it comes with, reads as [v] in
    the heap [h]. *)
Definition Shows (h : Heap) (o : ref * ModuleObj) (v : ModuleView) : Prop :=
  heapModule h (fst o) = Some (snd o)
  /\ heapStrings h (files (snd o)) = Some (mvFiles v)
  /\ protocol (snd o) = mvProtocol v
  /\ path (snd o) = mvPath v
  /\ version (snd o) = mvVersion v.

(** The payloads [pm] are modules of [h] that can be read, no two of them
    the same object or with the same [files] array. *)
Definition PayloadsSeparate (h : Heap) (pm : list ref) : Prop :=
  NoDup pm
  /\ exists pobjs,
       readModules h pm = Some pobjs
       /\ NoDup (map (fun o => files (snd o)) pobjs)
       /\ Forall (fun o => is_Some (heapStrings h (files (snd o)))) pobjs.

(** The module [o] and its [files] array are in [H] what they are in [h]. *)
Definition Untouched (h H : Heap) (o : ref * ModuleObj) : Prop :=
  heapModule h (fst o) = Some (snd o)
  /\ heapModule H (fst o) = Some (snd o)
  /\ exists fs, heapStrings h (files (snd o)) = Some fs
                /\ heapStrings H (files (snd o)) = Some fs.

(** The heap [H] in the course of the loop represents the working manifest
    [w]: the working modules array holds the modules [objs], which read as
    the modules of [w] and share nothing; the working aliases are those of
    [w]; the stores and configs are those of [H0], the heap the loop
    started from; and the payloads still to come, [pobjs], are as they were
    in [h]. *)
Definition Represents (h H0 : Heap) (modulesRef aliasesRef : ref)
  (pobjs : list (ref * ModuleObj)) (H : Heap) (w : StoreView) : Prop :=
  exists objs,
    heapModules H modulesRef = Some (map fst objs)
    /\ Forall2 (Shows H) objs (svModules w)
    /\ heapAliases H aliasesRef = Some (svAliases w)
    /\ KeepsStores H0 H
    /\ NoDup (map fst objs ++ map fst pobjs)
    /\ NoDup (map (fun o => files (snd o)) objs ++ map (fun o => files (snd o)) pobjs)
    /\ Forall (fun o => Untouched h H o) pobjs.

(** The copied modules at their references, as [copiesOf] lays them out. *)
Fixpoint copyObjs (n : nat) (vs : list ModuleView) : list (ref * ModuleObj) :=
  match vs with
  | [] => []
  | v :: vs' =>
      (n + 1, {| protocol := mvProtocol v; path := mvPath v;
                 version := mvVersion v; files := n |})
      :: copyObjs (n + 2) vs'
  end.

(** What a call of [mutateStore] gave, by value: the manifest it returned
    as the heap it left holds it, or the error it threw. *)
Definition outcomeView (run : Heap * Result MutationError ref)
  : Result MutationError StoreView :=
  match snd run with
  | Ok s =>
      match viewStore (fst run) s with
      | Some v => Ok v
      | None => Stuck
      end
  | Throw e => Throw e
  | Stuck => Stuck
  end.

(** The action is one on the aliases. *)
Definition isAliasAction (a : Action) : bool :=
  match a with
  | ADD_ALIAS _ _ | REMOVE_ALIAS _ => true
  | _ => false
  end.

(** ** [mutateRepository] by value *)

(** One turn of the loop of [mutateRepository] on the modules by value. *)
Definition syncAction {World} (env : Collaborators World) (vs : list ModuleView)
  (action : Action) : M (World * list Call) SyncError unit :=
  match action with
  | ADD_MODULE _ => ret tt
  | REMOVE_MODULE moduleProtocol modulePath =>
      await (RemoveModule moduleProtocol modulePath)
        (repoRemoveModule env moduleProtocol modulePath)
  | ADD_LINK link =>
      match findFrom (ownsView link) 0 vs with
      | None => throw (OwnError (ModuleNotFound OpAddLink link))
      | Some (_, foundMod) =>
          let! filePath := fromOption (filePathOfView link foundMod) in
          let url := createURL env (mvProtocol foundMod) (mvPath foundMod)
                       (mvVersion foundMod) filePath in
          let! hasDefault :=
            await (HasDefaultExportRemote url) (hasDefaultExportRemote env url) in
          await (AddLink (mvProtocol foundMod) (mvPath foundMod) (mvVersion foundMod)
                   filePath hasDefault)
            (repoAddLink env (mvProtocol foundMod) (mvPath foundMod)
               (mvVersion foundMod) filePath hasDefault)
      end
  | REMOVE_LINK link =>
      match findFrom (ownsView link) 0 vs with
      | None => throw (OwnError (ModuleNotFound OpRemoveLink link))
      | Some (_, foundMod) =>
          let! filePath := fromOption (filePathOfView link foundMod) in
          await (RemoveLink (mvProtocol foundMod) (mvPath foundMod) filePath)
            (repoRemoveLink env (mvProtocol foundMod) (mvPath foundMod) filePath)
      end
  | ADD_ALIAS aliasPath aliasTargetPath =>
      match findFrom (ownsView aliasTargetPath) 0 vs with
      | None => throw (OwnError (ModuleNotFound OpAddAlias aliasTargetPath))
      | Some (_, foundMod) =>
          let! linkedFilePath := fromOption (filePathOfView aliasTargetPath foundMod) in
          let fp := pathJoin env
                      [vendorDirectoryPath; mvProtocol foundMod; mvPath foundMod;
                       linkedFilePath] in
          let! hasDefault :=
            tryCatch
              (await (HasDefaultExportLocal fp) (hasDefaultExportLocal env fp))
              (fun e => if isNotFound e then ret false else throw e) in
          await (AddAlias (mvProtocol foundMod) (mvPath foundMod) linkedFilePath
                   aliasPath hasDefault)
            (repoAddAlias env (mvProtocol foundMod) (mvPath foundMod) linkedFilePath
               aliasPath hasDefault)
      end
  | REMOVE_ALIAS aliasPath =>
      await (RemoveAlias aliasPath) (repoRemoveAlias env aliasPath)
  | UPDATE_MODULE moduleProtocol modulePath moduleVersion =>
      let urlStr := moduleProtocol +:+ "://" +:+ modulePath in
      match findFrom (isModuleView moduleProtocol modulePath) 0 vs with
      | None => throw (OwnError (ModuleNotFound OpUpdateModule urlStr))
      | Some (_, foundMod) =>
          forEach (mvFiles foundMod) (fun filePath =>
            let url := createURL env moduleProtocol modulePath moduleVersion
                         filePath in
            let! hasDefault :=
              await (HasDefaultExportRemote url) (hasDefaultExportRemote env url) in
            await (UpdateLink moduleProtocol modulePath moduleVersion filePath
                     hasDefault)
              (repoUpdateLink env moduleProtocol modulePath moduleVersion
                 filePath hasDefault))
      end
  end.

(** [mutateRepository] on the modules of the manifest by value. *)
Definition syncView {World} (env : Collaborators World) (vs : list ModuleView)
  (actions : list Action) : M (World * list Call) SyncError unit :=
  forEach actions (syncAction env vs).
(** * Properties *)

(** ** Strings *)

Section StringFacts.
Lemma prefix_append p r : String.prefix p (p +:+ r) = true.
Proof.
  induction p as [|c p IH]; simpl.
  - by destruct r.
  - destruct (ascii_dec c c); [exact IH | congruence].
Qed.

Lemma prefix_inv p s : String.prefix p s = true -> exists r, s = p +:+ r.
Proof.
  revert s; induction p as [|c p IH]; intros s H.
  - by exists s.
  - destruct s as [|d s]; simpl in H; [discriminate|].
    destruct (ascii_dec c d) as [->|]; [|discriminate].
    destruct (IH s H) as [r ->]. by exists r.
Qed.

Lemma startsWith_iff s p :
  JsString.startsWith s p = true <-> exists r, s = p +:+ r.
Proof.
  split; [apply prefix_inv|]. intros [r ->]. apply prefix_append.
Qed.

Lemma splitAux_nonempty sep k s : JsString.splitAux sep k s <> [].
Proof.
  revert k; induction s as [|c s IH]; intros k; cbn [JsString.splitAux]; [done|].
  destruct k; [|apply IH].
  destruct (String.prefix sep (String c s)); [done|].
  by destruct (JsString.splitAux sep 0 s).
Qed.

Lemma splitAux_skip sep x r :
  JsString.splitAux sep (String.length x) (x +:+ r) = JsString.splitAux sep 0 r.
Proof. induction x as [|c x IH]; simpl; [by destruct r | exact IH]. Qed.

(** Splitting a string that starts with the separator: an empty first
    piece, then the pieces of the remainder. *)
Lemma split_prefix sep r :
  sep <> EmptyString ->
  JsString.split (sep +:+ r) sep = EmptyString :: JsString.split r sep.
Proof.
  destruct sep as [|c sep]; [by intros []|]. intros _.
  unfold JsString.split.
  change (String c sep +:+ r) with (String c (sep +:+ r)).
  cbn [JsString.splitAux].
  change (String c (sep +:+ r)) with (String c sep +:+ r).
  rewrite prefix_append. f_equal.
  replace (String.length (String c sep) - 1) with (String.length sep)
    by (simpl; lia).
  apply splitAux_skip.
Qed.

(** Without an occurrence of the separator there is one piece. *)
Lemma splitAux_no_occurrence sep r :
  JsString.occursIn sep r = false -> JsString.splitAux sep 0 r = [r].
Proof.
  induction r as [|c r IH]; simpl; [done|].
  intros H. apply orb_false_iff in H as [H1 H2].
  destruct sep as [|d sep]; [done|].
  simpl in H1. simpl. destruct (ascii_dec d c).
  - rewrite H1. by rewrite (IH H2).
  - by rewrite (IH H2).
Qed.

Lemma toString_nonempty m : toString m <> EmptyString.
Proof.
  unfold toString. destruct (protocol m); done.
Qed.

(** The file path of a link under a module always exists. *)
Lemma filePathOf_defined link m :
  JsString.startsWith link (toString m) = true ->
  exists filePath, filePathOf link m = Some filePath.
Proof.
  intros [r ->]%startsWith_iff. unfold filePathOf.
  rewrite split_prefix by apply toString_nonempty.
  pose proof (toString_nonempty m) as Hne.
  destruct (toString m) as [|c sep] eqn:E; [done|].
  unfold JsString.split.
  pose proof (splitAux_nonempty (String c sep) 0 r) as Hs.
  destruct (JsString.splitAux (String c sep) 0 r) as [|x xs]; [done|].
  by exists x.
Qed.

(** The file path is the remainder of the link after the identity when
    the identity does not occur again in the remainder. *)
Lemma filePathOf_remainder m r :
  JsString.occursIn (toString m) r = false ->
  filePathOf (toString m +:+ r) m = Some r.
Proof.
  intros H. unfold filePathOf.
  rewrite split_prefix by apply toString_nonempty.
  pose proof (toString_nonempty m) as Hne.
  destruct (toString m) as [|c sep] eqn:E; [done|].
  unfold JsString.split. by rewrite splitAux_no_occurrence.
Qed.
End StringFacts.

(** ** The state monad *)

Section WpRules.
Context {S E : Type}.
Implicit Types s : S.

Lemma bind_run {A B} (m : M S E A) (k : A -> M S E B) s :
  bind m k s
  = match m s with
    | (s', Ok a) => k a s'
    | (s', Throw e) => (s', Throw e)
    | (s', Stuck) => (s', Stuck)
    end.
Proof. done. Qed.

Lemma wp_run {A} (m : M S E A) Q s s' r : wp m Q s -> m s = (s', r) -> Q s' r.
Proof. unfold wp. intros H Hm. by rewrite Hm in H. Qed.

Lemma wp_intro {A} (m : M S E A) (Q : S -> Result E A -> Prop) s :
  (forall s' r, m s = (s', r) -> Q s' r) -> wp m Q s.
Proof. intros H. unfold wp. apply H. apply surjective_pairing. Qed.

Lemma wp_conseq {A} (m : M S E A) (Q Q' : S -> Result E A -> Prop) s :
  wp m Q s -> (forall s' r, Q s' r -> Q' s' r) -> wp m Q' s.
Proof. unfold wp. auto. Qed.

Lemma wp_ret {A} (a : A) (Q : S -> Result E A -> Prop) s :
  Q s (Ok a) -> wp (ret a) Q s.
Proof. done. Qed.

Lemma wp_throw {A} (e : E) (Q : S -> Result E A -> Prop) s :
  Q s (Throw e) -> wp (throw e) Q s.
Proof. done. Qed.

Lemma wp_stuck {A} (Q : S -> Result E A -> Prop) s :
  Q s Stuck -> wp stuck Q s.
Proof. done. Qed.

Lemma wp_bind {A B} (m : M S E A) (k : A -> M S E B) Q s :
  wp m (andThen (fun a => wp (k a) Q) Q) s -> wp (bind m k) Q s.
Proof.
  unfold wp, bind, andThen. by destruct (m s) as [s' [a|e|]].
Qed.

Lemma wp_fromOption {A} (o : option A) (Q : S -> Result E A -> Prop) s :
  match o with Some a => Q s (Ok a) | None => Q s Stuck end ->
  wp (fromOption o) Q s.
Proof. by destruct o. Qed.

(** A property of the state that every turn of a loop keeps holds when
    the loop ends, however it ends. *)
Lemma wp_forEach_inv {A} (I : S -> Prop) (xs : list A) (body : A -> M S E unit) s :
  I s ->
  (forall x s1, x ∈ xs -> I s1 -> wp (body x) (fun s2 _ => I s2) s1) ->
  wp (forEach xs body) (fun s' _ => I s') s.
Proof.
  revert s; induction xs as [|x xs IH]; intros s Hs Hbody; simpl.
  - by apply wp_ret.
  - apply wp_bind. eapply wp_conseq.
    + apply (Hbody x s); [left | done].
    + intros s1 [[]|e|]; simpl; auto.
      intros Hs1. apply IH; [done|].
      intros y s2 Hy. apply Hbody. by right.
Qed.

Lemma wp_find_inv {A} (I : S -> Prop) (p : A -> M S E bool) (xs : list A) s :
  I s ->
  (forall x s1, x ∈ xs -> I s1 -> wp (p x) (fun s2 _ => I s2) s1) ->
  wp (find p xs) (fun s' _ => I s') s.
Proof.
  revert s; induction xs as [|x xs IH]; intros s Hs Hp; simpl.
  - by apply wp_ret.
  - apply wp_bind. eapply wp_conseq.
    + apply (Hp x s); [left | done].
    + intros s1 [[]|e|]; simpl; auto.
      intros Hs1. apply IH; [done|].
      intros y s2 Hy. apply Hp. by right.
Qed.

Lemma wp_mapM_inv {A B} (I : S -> Prop) (f : A -> M S E B) (xs : list A) s :
  I s ->
  (forall x s1, x ∈ xs -> I s1 -> wp (f x) (fun s2 _ => I s2) s1) ->
  wp (mapM f xs) (fun s' _ => I s') s.
Proof.
  revert s; induction xs as [|x xs IH]; intros s Hs Hf; simpl.
  - by apply wp_ret.
  - apply wp_bind. eapply wp_conseq.
    + apply (Hf x s); [left | done].
    + intros s1 [b|e|]; simpl; auto.
      intros Hs1. apply wp_bind. eapply wp_conseq.
      * apply (IH s1 Hs1). intros y s2 Hy. apply Hf. by right.
      * intros s2 [bs|e|]; simpl; auto.
Qed.
End WpRules.

(** ** Heap primitives *)

Section HeapRules.
Context {E : Type}.
Implicit Types h : Heap.

Lemma getStore_run r h :
  getStore (E:=E) r h
  = (h, match heapStore h r with Some x => Ok x | None => Stuck end).
Proof. unfold getStore. by destruct (heapStore h r). Qed.

Lemma getConfig_run r h :
  getConfig (E:=E) r h
  = (h, match heapConfig h r with Some x => Ok x | None => Stuck end).
Proof. unfold getConfig. by destruct (heapConfig h r). Qed.

Lemma getModules_run r h :
  getModules (E:=E) r h
  = (h, match heapModules h r with Some x => Ok x | None => Stuck end).
Proof. unfold getModules. by destruct (heapModules h r). Qed.

Lemma getModule_run r h :
  getModule (E:=E) r h
  = (h, match heapModule h r with Some x => Ok x | None => Stuck end).
Proof. unfold getModule. by destruct (heapModule h r). Qed.

Lemma getStrings_run r h :
  getStrings (E:=E) r h
  = (h, match heapStrings h r with Some x => Ok x | None => Stuck end).
Proof. unfold getStrings. by destruct (heapStrings h r). Qed.

Lemma getAliases_run r h :
  getAliases (E:=E) r h
  = (h, match heapAliases h r with Some x => Ok x | None => Stuck end).
Proof. unfold getAliases. by destruct (heapAliases h r). Qed.

Lemma wp_alloc o (Q : Heap -> Result E ref -> Prop) h :
  Q (h ++ [o]) (Ok (length h)) -> wp (alloc o) Q h.
Proof. done. Qed.

Lemma wp_getStore r (Q : Heap -> Result E Store -> Prop) h :
  match heapStore h r with Some x => Q h (Ok x) | None => Q h Stuck end ->
  wp (getStore r) Q h.
Proof. unfold getStore. apply wp_fromOption. Qed.

Lemma wp_getConfig r (Q : Heap -> Result E Config -> Prop) h :
  match heapConfig h r with Some x => Q h (Ok x) | None => Q h Stuck end ->
  wp (getConfig r) Q h.
Proof. unfold getConfig. apply wp_fromOption. Qed.

Lemma wp_getModules r (Q : Heap -> Result E (list ref) -> Prop) h :
  match heapModules h r with Some x => Q h (Ok x) | None => Q h Stuck end ->
  wp (getModules r) Q h.
Proof. unfold getModules. apply wp_fromOption. Qed.

Lemma wp_getModule r (Q : Heap -> Result E ModuleObj -> Prop) h :
  match heapModule h r with Some x => Q h (Ok x) | None => Q h Stuck end ->
  wp (getModule r) Q h.
Proof. unfold getModule. apply wp_fromOption. Qed.

Lemma wp_getStrings r (Q : Heap -> Result E (list string) -> Prop) h :
  match heapStrings h r with Some x => Q h (Ok x) | None => Q h Stuck end ->
  wp (getStrings r) Q h.
Proof. unfold getStrings. apply wp_fromOption. Qed.

Lemma wp_getAliases r (Q : Heap -> Result E JsObject.t -> Prop) h :
  match heapAliases h r with Some x => Q h (Ok x) | None => Q h Stuck end ->
  wp (getAliases r) Q h.
Proof. unfold getAliases. apply wp_fromOption. Qed.

Lemma wp_setConfig r c (Q : Heap -> Result E unit -> Prop) h :
  match heapConfig h r with
  | Some _ => Q (<[r := OConfig c]> h) (Ok tt)
  | None => Q h Stuck
  end -> wp (setConfig r c) Q h.
Proof.
  intros H. unfold setConfig. apply wp_bind, wp_getConfig.
  by destruct (heapConfig h r).
Qed.

Lemma wp_setModules r ms (Q : Heap -> Result E unit -> Prop) h :
  match heapModules h r with
  | Some _ => Q (<[r := OModules ms]> h) (Ok tt)
  | None => Q h Stuck
  end -> wp (setModules r ms) Q h.
Proof.
  intros H. unfold setModules. apply wp_bind, wp_getModules.
  by destruct (heapModules h r).
Qed.

Lemma wp_setModule r m (Q : Heap -> Result E unit -> Prop) h :
  match heapModule h r with
  | Some _ => Q (<[r := OModule m]> h) (Ok tt)
  | None => Q h Stuck
  end -> wp (setModule r m) Q h.
Proof.
  intros H. unfold setModule. apply wp_bind, wp_getModule.
  by destruct (heapModule h r).
Qed.

Lemma wp_setStrings r ss (Q : Heap -> Result E unit -> Prop) h :
  match heapStrings h r with
  | Some _ => Q (<[r := OStrings ss]> h) (Ok tt)
  | None => Q h Stuck
  end -> wp (setStrings r ss) Q h.
Proof.
  intros H. unfold setStrings. apply wp_bind, wp_getStrings.
  by destruct (heapStrings h r).
Qed.

Lemma wp_setAliases r o (Q : Heap -> Result E unit -> Prop) h :
  match heapAliases h r with
  | Some _ => Q (<[r := OAliases o]> h) (Ok tt)
  | None => Q h Stuck
  end -> wp (setAliases r o) Q h.
Proof.
  intros H. unfold setAliases. apply wp_bind, wp_getAliases.
  by destruct (heapAliases h r).
Qed.
End HeapRules.

(** ** Reading the heap *)

Section HeapFacts.
Implicit Types h : Heap.

Lemma lookup_extend h ext r o : h !! r = Some o -> (h ++ ext) !! r = Some o.
Proof. apply lookup_app_l_Some. Qed.

Lemma heapModule_extend h ext r m :
  heapModule h r = Some m -> heapModule (h ++ ext) r = Some m.
Proof.
  unfold heapModule. destruct (h !! r) as [o|] eqn:Hr; [|done].
  by rewrite (lookup_extend _ ext _ _ Hr).
Qed.

Lemma heapStrings_extend h ext r fs :
  heapStrings h r = Some fs -> heapStrings (h ++ ext) r = Some fs.
Proof.
  unfold heapStrings. destruct (h !! r) as [o|] eqn:Hr; [|done].
  by rewrite (lookup_extend _ ext _ _ Hr).
Qed.

Lemma heapAliases_extend h ext r al :
  heapAliases h r = Some al -> heapAliases (h ++ ext) r = Some al.
Proof.
  unfold heapAliases. destruct (h !! r) as [o|] eqn:Hr; [|done].
  by rewrite (lookup_extend _ ext _ _ Hr).
Qed.

Lemma viewModule_extend h ext r v :
  viewModule h r = Some v -> viewModule (h ++ ext) r = Some v.
Proof.
  unfold viewModule.
  destruct (heapModule h r) as [m|] eqn:Hm; [|done].
  destruct (heapStrings h (files m)) as [fs|] eqn:Hf; [|done].
  by rewrite (heapModule_extend _ ext _ _ Hm), (heapStrings_extend _ ext _ _ Hf).
Qed.

Lemma viewModules_extend h ext ms vs :
  viewModules h ms = Some vs -> viewModules (h ++ ext) ms = Some vs.
Proof.
  revert vs; induction ms as [|r ms IH]; intros vs; simpl; [done|].
  destruct (viewModule h r) as [v|] eqn:Hv; [|done].
  destruct (viewModules h ms) as [vs'|] eqn:Hvs; [|done].
  intros [= <-]. by rewrite (viewModule_extend _ ext _ _ Hv), (IH _ eq_refl).
Qed.

Lemma viewModules_length h ms vs :
  viewModules h ms = Some vs -> length vs = length ms.
Proof.
  revert vs; induction ms as [|r ms IH]; intros vs; simpl.
  - by intros [= <-].
  - destruct (viewModule h r); [|done].
    destruct (viewModules h ms); [|done].
    intros [= <-]. simpl. by rewrite (IH _ eq_refl).
Qed.

Lemma copiesOf_length n vs : length (copiesOf n vs) = 2 * length vs.
Proof. revert n; induction vs as [|v vs IH]; intros n; simpl; [done|]. rewrite IH. lia. Qed.
End HeapFacts.

(** ** [duplicateStore] *)

Section Duplicate.
Context {E : Type}.

Lemma duplicateModule_run h r v :
  viewModule h r = Some v ->
  duplicateModule (E:=E) r h = (h ++ copiesOf (length h) [v], Ok (length h + 1)).
Proof.
  unfold viewModule, duplicateModule, bind, getModule, getStrings, fromOption, ret, alloc.
  destruct (heapModule h r) as [m|]; [|done].
  destruct (heapStrings h (files m)) as [fs|]; [|done].
  intros [= <-]. simpl. rewrite <- app_assoc. simpl.
  rewrite length_app. simpl. done.
Qed.

Lemma duplicateModules_run h ms vs :
  viewModules h ms = Some vs ->
  mapM (duplicateModule (E:=E)) ms h
  = (h ++ copiesOf (length h) vs, Ok (copyRefs (length h) vs)).
Proof.
  cut (forall ext, viewModules h ms = Some vs ->
         mapM (duplicateModule (E:=E)) ms (h ++ ext)
         = ((h ++ ext) ++ copiesOf (length (h ++ ext)) vs,
            Ok (copyRefs (length (h ++ ext)) vs))).
  { intros H Hv. specialize (H [] Hv). by rewrite app_nil_r in H. }
  revert vs; induction ms as [|r ms IH]; intros vs ext; simpl.
  - intros [= <-]. simpl. by rewrite app_nil_r.
  - destruct (viewModule h r) as [v|] eqn:Hv; [|done].
    destruct (viewModules h ms) as [vs'|] eqn:Hvs; [|done].
    intros [= <-]. unfold bind at 1.
    rewrite (duplicateModule_run _ _ v) by by apply viewModule_extend.
    unfold bind. rewrite <- app_assoc.
    rewrite (IH vs' _ eq_refl). unfold ret. simpl.
    rewrite <- !app_assoc. simpl.
    rewrite !length_app. simpl.
    replace (length h + length ext + 2) with (length h + (length ext + 2)) by lia.
    done.
Qed.

Lemma duplicateStore_run h store v ms :
  storeModules h store = Some ms ->
  viewStore h store = Some v ->
  duplicateStore (E:=E) store h
  = (duplicated h (svModules v) (svAliases v), Ok (copyStoreRef h (svModules v))).
Proof.
  unfold viewStore, storeModules, storeAliases, duplicateStore.
  unfold bind at 1. unfold getStore, fromOption.
  destruct (heapStore h store) as [s|]; [|done]. simpl.
  unfold bind at 1. unfold getConfig, fromOption.
  destruct (heapConfig h (config s)) as [c|]; [|done]. simpl.
  intros Hms. rewrite Hms.
  destruct (heapAliases h (aliases c)) as [al|] eqn:Hal; [|done].
  destruct (viewModules h ms) as [vs|] eqn:Hvs; [|done].
  intros [= <-]. simpl.
  unfold bind at 1. unfold getModules, fromOption. rewrite Hms. simpl.
  unfold bind at 1. rewrite (duplicateModules_run _ _ _ Hvs).
  unfold bind at 1. unfold getAliases, fromOption.
  rewrite (heapAliases_extend h _ _ _ Hal). simpl.
  unfold bind, alloc, duplicated. simpl.
  rewrite <- !app_assoc. simpl.
  rewrite !length_app, copiesOf_length. simpl.
  unfold copyModulesRef, copyAliasesRef, copyConfigRef, copyStoreRef. simpl.
  by rewrite !Nat.add_assoc.
Qed.
End Duplicate.

(** ** The searches of [mutateStore] only read *)

Section Searches.
Implicit Types h : Heap.

Lemma find_owner_run probe ms h :
find (identityIsPrefixOf probe) ms h = (h, firstOwner h probe ms).
Proof.
induction ms as [|r ms IH]; simpl; [done|].
unfold bind, identityIsPrefixOf, bind, getModule, fromOption, ret.
destruct (heapModule h r) as [m|]; simpl; [|done].
destruct (JsString.startsWith probe (toString m)); [done|]. apply IH.
Qed.

Lemma find_exact_run p pa ms h :
find (hasProtocolAndPath p pa) ms h = (h, firstExact h p pa ms).
Proof.
induction ms as [|r ms IH]; simpl; [done|].
unfold bind, hasProtocolAndPath, bind, getModule, fromOption, ret.
destruct (heapModule h r) as [m|]; simpl; [|done].
destruct (String.eqb (protocol m) p && String.eqb (path m) pa); [done|]. apply IH.
Qed.

Lemma scanModules_run urlStr ms i h :
scanModules urlStr ms i h = (h, firstOwnerIndex h urlStr ms i).
Proof.
revert i; induction ms as [|r ms IH]; intros i; simpl; [done|].
unfold bind, identityIsPrefixOf, bind, getModule, fromOption, ret.
destruct (heapModule h r) as [m|]; simpl; [|done].
destruct (JsString.startsWith urlStr (toString m)); [done|]. apply IH.
Qed.

Lemma firstOwner_Some {E} probe ms h r :
firstOwner (E:=E) h probe ms = Ok (Some r) ->
r ∈ ms /\ exists m, heapModule h r = Some m
                    /\ JsString.startsWith probe (toString m) = true.
Proof.
induction ms as [|x ms IH]; simpl; [done|].
destruct (heapModule h x) as [m|] eqn:Hm; [|done].
destruct (JsString.startsWith probe (toString m)) eqn:Hp.
- intros [= <-]. split; [left|eauto].
- intros H. destruct (IH H) as [? ?]. split; [by right|done].
Qed.

Lemma firstExact_Some {E} p pa ms h r :
firstExact (E:=E) h p pa ms = Ok (Some r) ->
r ∈ ms /\ exists m, heapModule h r = Some m /\ protocol m = p /\ path m = pa.
Proof.
induction ms as [|x ms IH]; simpl; [done|].
destruct (heapModule h x) as [m|] eqn:Hm; [|done].
destruct (String.eqb (protocol m) p && String.eqb (path m) pa) eqn:Hp.
- intros [= <-]. apply andb_true_iff in Hp as [H1%String.eqb_eq H2%String.eqb_eq].
  split; [left|eauto].
- intros H. destruct (IH H) as [? ?]. split; [by right|done].
Qed.

(** The duplicate check of [ADD_MODULE] leaves the heap as it is. *)
Lemma duplicateCheck_run module ms h :
fst (forEach ms (fun mod' =>
       let! a := getModule mod' in
       let! b := getModule module in
       if moduleEquals a b
       then throw (DuplicateModule (toString b))
       else ret tt) h) = h.
Proof.
induction ms as [|r ms IH]; simpl; [done|].
unfold bind at 1. unfold bind at 1. unfold getModule at 1. unfold fromOption.
destruct (heapModule h r) as [a|]; simpl; [|done].
unfold bind at 1. unfold getModule at 1. unfold fromOption.
destruct (heapModule h module) as [b|]; simpl; [|done].
destruct (moduleEquals a b); simpl; [done|]. apply IH.
Qed.
End Searches.

(** ** Each step of [mutateStore] is one write *)

Section Writes.
Implicit Types h : Heap.

Lemma mutateStoreAction_write modulesRef aliasesRef a h :
wp (mutateStoreAction modulesRef aliasesRef a)
   (fun h' _ => Write (payload a) (isRemoveModule a) modulesRef aliasesRef h h') h.
Proof.
destruct a as [module|p pa|link|link|ap tp|ap|p pa v]; simpl.
- (* ADD_MODULE *)
  apply wp_bind, wp_getModules.
  destruct (heapModules h modulesRef) as [ms|] eqn:Hms; simpl; [|constructor].
  apply wp_bind. unfold wp at 1. rewrite duplicateCheck_run.
  match goal with |- andThen _ _ _ ?r => destruct r as [[]|e|] end;
    simpl; try constructor.
  apply wp_bind, wp_getModules. rewrite Hms. simpl.
  apply wp_setModules. rewrite Hms.
  eapply WritePush; [done|]. simpl. left.
- (* REMOVE_MODULE *)
  apply wp_bind, wp_getModules.
  destruct (heapModules h modulesRef) as [ms|] eqn:Hms; simpl; [|constructor].
  apply wp_bind. unfold wp at 1. rewrite scanModules_run. simpl.
  destruct (firstOwnerIndex h _ ms 0) as [[i|]|e|]; simpl; try constructor.
  apply wp_bind, wp_getModules. rewrite Hms. simpl.
  apply wp_setModules. rewrite Hms. by eapply WriteSplice.
- (* ADD_LINK *)
  apply wp_bind, wp_getModules.
  destruct (heapModules h modulesRef) as [ms|] eqn:Hms; simpl; [|constructor].
  apply wp_bind. unfold wp at 1. rewrite find_owner_run. simpl.
  destruct (firstOwner h link ms) as [[r|]|e|] eqn:Hf; simpl; try constructor.
  apply firstOwner_Some in Hf as [Hr [m [Hm _]]].
  apply wp_bind, wp_getModule. rewrite Hm. simpl.
  apply wp_bind, wp_fromOption.
  destruct (filePathOf link m) as [filePath|]; simpl; [|constructor].
  apply wp_bind, wp_getStrings.
  destruct (heapStrings h (files m)) as [fs|] eqn:Hfs; simpl; [|constructor].
  destruct (JsArray.includes fs filePath); [constructor|].
  apply wp_setStrings. rewrite Hfs. by eapply WriteFiles.
- (* REMOVE_LINK *)
  apply wp_bind, wp_getModules.
  destruct (heapModules h modulesRef) as [ms|] eqn:Hms; simpl; [|constructor].
  apply wp_bind. unfold wp at 1. rewrite find_owner_run. simpl.
  destruct (firstOwner h link ms) as [[r|]|e|] eqn:Hf; simpl; try constructor.
  apply firstOwner_Some in Hf as [Hr [m [Hm _]]].
  apply wp_bind, wp_getModule. rewrite Hm. simpl.
  apply wp_bind, wp_fromOption.
  destruct (filePathOf link m) as [filePath|]; simpl; [|constructor].
  apply wp_bind, wp_getStrings.
  destruct (heapStrings h (files m)) as [fs|] eqn:Hfs; simpl; [|constructor].
  destruct (JsArray.indexOf fs filePath); [|constructor].
  apply wp_setStrings. rewrite Hfs. by eapply WriteFiles.
- (* ADD_ALIAS *)
  apply wp_bind, wp_getAliases.
  destruct (heapAliases h aliasesRef) as [al|] eqn:Hal; simpl; [|constructor].
  destruct (JsObject.truthy (JsObject.get al ap)); [constructor|].
  apply wp_bind, wp_getModules.
  destruct (heapModules h modulesRef) as [ms|] eqn:Hms; simpl; [|constructor].
  apply wp_bind. unfold wp at 1. rewrite find_owner_run. simpl.
  destruct (firstOwner h tp ms) as [[r|]|e|] eqn:Hf; simpl; try constructor.
  apply wp_bind, wp_getAliases. rewrite Hal. simpl.
  apply wp_setAliases. rewrite Hal. by eapply WriteAliases.
- (* REMOVE_ALIAS *)
  apply wp_bind, wp_getAliases.
  destruct (heapAliases h aliasesRef) as [al|] eqn:Hal; simpl; [|constructor].
  destruct (negb (JsObject.truthy (JsObject.get al ap))); [constructor|].
  apply wp_setAliases. rewrite Hal. by eapply WriteAliases.
- (* UPDATE_MODULE *)
  apply wp_bind, wp_getModules.
  destruct (heapModules h modulesRef) as [ms|] eqn:Hms; simpl; [|constructor].
  apply wp_bind. unfold wp at 1. rewrite find_exact_run. simpl.
  destruct (firstExact h p pa ms) as [[r|]|e|] eqn:Hf; simpl; try constructor.
  apply firstExact_Some in Hf as [Hr [m [Hm _]]].
  apply wp_bind, wp_getModule. rewrite Hm. simpl.
  apply wp_setModule. rewrite Hm. by eapply WriteVersion.
Qed.
End Writes.

(** Running a program step by step. *)
Ltac run :=
  repeat first
    [ rewrite bind_run | rewrite getModules_run | rewrite getModule_run
    | rewrite getStrings_run | rewrite getAliases_run | rewrite getStore_run
    | rewrite getConfig_run | rewrite find_owner_run | rewrite find_exact_run
    | rewrite scanModules_run | progress cbn [fromOption ret throw stuck] ].

Ltac run_in H :=
  repeat first
    [ rewrite bind_run in H | rewrite getModules_run in H
    | rewrite getModule_run in H | rewrite getStrings_run in H
    | rewrite getAliases_run in H | rewrite getStore_run in H
    | rewrite getConfig_run in H | rewrite find_owner_run in H
    | rewrite find_exact_run in H | rewrite scanModules_run in H
    | progress cbn [fromOption ret throw stuck] in H ].


(** ** Sorting *)

Section SortFacts.
Context {A : Type}.
Implicit Types (cmp : A -> A -> Z) (l : list A).

Lemma insertSorted_perm cmp x l : JsArray.insertSorted cmp x l ≡ₚ x :: l.
Proof.
  induction l as [|y l IH]; simpl; [done|].
  destruct (cmp x y <=? 0)%Z; [done|].
  rewrite IH. apply perm_swap.
Qed.

Lemma sort_perm cmp l : JsArray.sort cmp l ≡ₚ l.
Proof.
  induction l as [|x l IH]; simpl; [done|].
  by rewrite insertSorted_perm, IH.
Qed.

Lemma insertSorted_sorted cmp x l :
  JsArray.Consistent cmp ->
  Sorted (JsArray.cmpLe cmp) l -> Sorted (JsArray.cmpLe cmp) (JsArray.insertSorted cmp x l).
Proof.
  intros Hc. induction l as [|y l IH]; simpl; intros Hs.
  - by repeat constructor.
  - destruct (cmp x y <=? 0)%Z eqn:Hxy.
    + constructor; [done|]. constructor. unfold JsArray.cmpLe. lia.
    + apply Sorted_inv in Hs as [Hs Hhd]. constructor; [by apply IH|].
      assert (JsArray.cmpLe cmp y x) as Hyx.
      { unfold JsArray.cmpLe. destruct (JsArray.cmp_flip _ Hc x y); [lia|done]. }
      destruct l as [|z l]; simpl.
      * by constructor.
      * destruct (cmp x z <=? 0)%Z; constructor; [done|].
        by apply HdRel_inv in Hhd.
Qed.

Lemma sort_sorted cmp l :
  JsArray.Consistent cmp -> Sorted (JsArray.cmpLe cmp) (JsArray.sort cmp l).
Proof.
  intros Hc. induction l as [|x l IH]; simpl; [constructor|].
  by apply insertSorted_sorted.
Qed.

(** Sorting a sorted array changes nothing. *)
Lemma insertSorted_head cmp x l :
  JsArray.Consistent cmp ->
  Sorted (JsArray.cmpLe cmp) (x :: l) -> JsArray.insertSorted cmp x l = x :: l.
Proof.
  intros Hc Hs. destruct l as [|y l]; simpl; [done|].
  apply Sorted_inv in Hs as [_ Hhd]. apply HdRel_inv in Hhd.
  unfold JsArray.cmpLe in Hhd.
  destruct (cmp x y <=? 0)%Z eqn:E; [done|lia].
Qed.

Lemma sort_sorted_id cmp l :
  JsArray.Consistent cmp ->
  Sorted (JsArray.cmpLe cmp) l -> JsArray.sort cmp l = l.
Proof.
  intros Hc. induction l as [|x l IH]; simpl; [done|].
  intros Hs. pose proof (Sorted_inv Hs) as [Hs' _].
  rewrite (IH Hs'). by apply insertSorted_head.
Qed.

Lemma sort_idempotent cmp l :
  JsArray.Consistent cmp ->
  JsArray.sort cmp (JsArray.sort cmp l) = JsArray.sort cmp l.
Proof. intros Hc. apply sort_sorted_id; [done|]. by apply sort_sorted. Qed.
End SortFacts.

Lemma defaultCompare_consistent : JsArray.Consistent JsString.defaultCompare.
Proof.
  assert (forall a b, (JsString.defaultCompare a b <= 0)%Z <-> String.le a b) as Hle.
  { intros a b. unfold JsString.defaultCompare, String.le, String.leb.
    destruct (String.compare a b); simpl; split; try done; lia. }
  split.
  - intros a b. rewrite !Hle. destruct (total String.le a b); auto.
  - intros a b. unfold JsString.defaultCompare.
    rewrite (String.compare_antisym b a).
    destruct (String.compare a b); simpl; lia.
  - intros a b c. rewrite !Hle. intros. by etrans.
Qed.

(** ** The post-pass *)

Section PostPass.
Variable compareModules : ModuleObj -> ModuleObj -> Z.
Implicit Types h : Heap.

Lemma readModules_run {E} ms h :
  mapM (fun mod' => let! m := getModule (E:=E) mod' in ret (mod', m)) ms h
  = (h, match readModules h ms with Some objs => Ok objs | None => Stuck end).
Proof.
  induction ms as [|r ms IH]; simpl; [done|].
  rewrite !bind_run, getModule_run.
  destruct (heapModule h r) as [m|]; simpl; [|done].
  rewrite bind_run, IH. by destruct (readModules h ms).
Qed.

Lemma readModules_fst h ms objs : readModules h ms = Some objs -> map fst objs = ms.
Proof.
  revert objs; induction ms as [|r ms IH]; intros objs; simpl.
  - by intros [= <-].
  - destruct (heapModule h r); [|done]. destruct (readModules h ms); [|done].
    intros [= <-]. simpl. by rewrite (IH _ eq_refl).
Qed.

Lemma readModules_snd h ms objs :
  readModules h ms = Some objs ->
  Forall (fun o => heapModule h (fst o) = Some (snd o)) objs.
Proof.
  revert objs; induction ms as [|r ms IH]; intros objs; simpl.
  - intros [= <-]. constructor.
  - destruct (heapModule h r) eqn:Hm; [|done]. destruct (readModules h ms); [|done].
    intros [= <-]. constructor; [done|]. by apply IH.
Qed.

Lemma sortModules_write pm rm modulesRef aliasesRef h :
  wp (sortModules compareModules modulesRef)
     (fun h' _ => Write pm rm modulesRef aliasesRef h h') h.
Proof.
  unfold sortModules.
  apply wp_bind, wp_getModules.
  destruct (heapModules h modulesRef) as [ms|] eqn:Hms; simpl; [|constructor].
  apply wp_bind. unfold wp at 1. rewrite readModules_run. simpl.
  destruct (readModules h ms) as [objs|] eqn:Hobjs; simpl; [|constructor].
  apply wp_setModules. rewrite Hms.
  eapply WritePermute; [done|].
  rewrite <- (readModules_fst _ _ _ Hobjs). by rewrite sort_perm.
Qed.

Lemma heapModules_insert_strings modulesRef h ms fs l x :
  heapModules h modulesRef = Some ms ->
  heapStrings h l = Some fs ->
  heapModules (<[l := OStrings x]> h) modulesRef = Some ms.
Proof.
  unfold heapModules, heapStrings. intros Hms Hl.
  destruct (decide (modulesRef = l)) as [->|Hne].
  - destruct (h !! l) as [[]|]; done.
  - by rewrite list_lookup_insert_ne.
Qed.

Lemma sortFiles_writes pm rm modulesRef aliasesRef h :
  wp (sortFiles modulesRef)
     (fun h' _ => rtc (Write pm rm modulesRef aliasesRef) h h') h.
Proof.
  unfold sortFiles.
  apply wp_bind, wp_getModules.
  destruct (heapModules h modulesRef) as [ms|] eqn:Hms; simpl; [|constructor].
  assert (forall ms', ms' ⊆ ms -> forall h1,
            heapModules h1 modulesRef = Some ms ->
            wp (forEach ms' (fun mod' =>
                  let! m := getModule (E:=MutationError) mod' in
                  let! fs := getStrings (files m) in
                  setStrings (files m) (JsArray.sort JsString.defaultCompare fs)))
               (fun h' _ => rtc (Write pm rm modulesRef aliasesRef) h1 h') h1) as Hloop.
  { induction ms' as [|r ms' IH]; intros Hsub h1 Hms1; simpl.
    - apply wp_ret. constructor.
    - apply wp_bind, wp_bind, wp_getModule.
      destruct (heapModule h1 r) as [m|] eqn:Hm; simpl; [|constructor].
      apply wp_bind, wp_getStrings.
      destruct (heapStrings h1 (files m)) as [fs|] eqn:Hfs; simpl; [|constructor].
      apply wp_setStrings. rewrite Hfs. simpl.
      assert (Write pm rm modulesRef aliasesRef h1
                (<[files m := OStrings (JsArray.sort JsString.defaultCompare fs)]> h1))
        as Hw.
      { eapply WriteFiles; eauto. apply Hsub. left. }
      eapply wp_conseq.
      + apply IH.
        * intros x Hx. apply Hsub. by right.
        * eapply heapModules_insert_strings; eauto.
      + intros h2 r2 Hrtc. simpl. by eapply rtc_l. }
  by apply Hloop.
Qed.
End PostPass.

(** ** The heap when the loop starts *)

Section LoopHeap.
Implicit Types (h : Heap) (vs : list ModuleView) (al : JsObject.t).

Lemma duplicated_length h vs al :
  length (duplicated h vs al) = length h + 2 * length vs + 4.
Proof.
  unfold duplicated. rewrite !length_app, copiesOf_length. simpl. lia.
Qed.

Lemma duplicated_old h vs al l :
  l < length h -> duplicated h vs al !! l = h !! l.
Proof. intros Hl. unfold duplicated. by rewrite lookup_app_l. Qed.

Lemma duplicated_tail h vs al j :
  duplicated h vs al !! (length h + 2 * length vs + j)
  = [ OModules (copyRefs (length h) vs);
      OAliases (JsObject.spread al);
      OConfig {| modules := copyModulesRef h vs; aliases := copyAliasesRef h vs |};
      OStore {| config := copyConfigRef h vs |} ] !! j.
Proof.
  unfold duplicated.
  rewrite lookup_app_r by lia.
  rewrite lookup_app_r by (rewrite copiesOf_length; lia).
  rewrite copiesOf_length. f_equal. lia.
Qed.

Lemma copiesOf_modules n vs o m :
  o ∈ copiesOf n vs -> o = OModule m -> n <= files m.
Proof.
  revert n; induction vs as [|v vs IH]; intros n; simpl.
  - by intros ?%elem_of_nil.
  - intros [->|[->|Hin]%elem_of_cons]%elem_of_cons; [done| |].
    + intros [= <-]. simpl. lia.
    + intros Ho. specialize (IH _ Hin Ho). lia.
Qed.

Lemma duplicated_fresh_module h vs al r m :
  length h <= r -> heapModule (duplicated h vs al) r = Some m ->
  length h <= files m.
Proof.
  intros Hr. unfold heapModule, duplicated.
  rewrite lookup_app_r by done.
  destruct ((copiesOf (length h) vs ++ _) !! (r - length h)) as [o|] eqn:Ho; [|done].
  destruct o as [| | |m'| |]; try done. intros [= ->].
  apply list_elem_of_lookup_2 in Ho.
  apply elem_of_app in Ho as [Ho|Ho].
  - by eapply copiesOf_modules.
  - repeat (apply elem_of_cons in Ho as [Ho|Ho]; [done|]).
    by apply elem_of_nil in Ho.
Qed.

Lemma copyRefs_fresh n vs : Forall (fun r => n <= r) (copyRefs n vs).
Proof.
  revert n; induction vs as [|v vs IH]; intros n; simpl; constructor; [lia|].
  eapply Forall_impl; [apply IH|]. simpl. intros. lia.
Qed.

Lemma loopHeap_length h vs al :
  length (loopHeap h vs al) = length h + 2 * length vs + 5.
Proof. unfold loopHeap. rewrite length_app, duplicated_length. simpl. lia. Qed.

Lemma loopHeap_old h vs al l : l < length h -> loopHeap h vs al !! l = h !! l.
Proof.
  intros Hl. unfold loopHeap.
  rewrite lookup_app_l by (rewrite duplicated_length; lia).
  by apply duplicated_old.
Qed.

Lemma loopHeap_tail h vs al j :
  j < 4 ->
  loopHeap h vs al !! (length h + 2 * length vs + j)
  = [ OModules (copyRefs (length h) vs);
      OAliases (JsObject.spread al);
      OConfig {| modules := copyModulesRef h vs; aliases := copyAliasesRef h vs |};
      OStore {| config := copyConfigRef h vs |} ] !! j.
Proof.
  intros Hj. unfold loopHeap.
  rewrite lookup_app_l by (rewrite duplicated_length; lia).
  apply duplicated_tail.
Qed.

Lemma loopHeap_modules h vs al :
  heapModules (loopHeap h vs al) (copyModulesRef h vs)
  = Some (copyRefs (length h) vs).
Proof.
  unfold heapModules, copyModulesRef.
  replace (length h + 2 * length vs) with (length h + 2 * length vs + 0) by lia.
  by rewrite loopHeap_tail by lia.
Qed.

Lemma loopHeap_config h vs al :
  heapConfig (loopHeap h vs al) (copyConfigRef h vs)
  = Some {| modules := copyModulesRef h vs; aliases := copyAliasesRef h vs |}.
Proof. unfold heapConfig, copyConfigRef. by rewrite loopHeap_tail by lia. Qed.

Lemma loopHeap_store h vs al :
  heapStore (loopHeap h vs al) (copyStoreRef h vs)
  = Some {| config := copyConfigRef h vs |}.
Proof. unfold heapStore, copyStoreRef. by rewrite loopHeap_tail by lia. Qed.

Lemma loopHeap_aliases h vs al :
  heapAliases (loopHeap h vs al) (workAliasesRef h vs)
  = Some (JsObject.spread (JsObject.spread al)).
Proof.
  unfold heapAliases, workAliasesRef, loopHeap.
  rewrite lookup_app_r by (rewrite duplicated_length; lia).
  rewrite duplicated_length.
  by replace (_ - _) with 0 by lia.
Qed.

Lemma loopHeap_fresh_module h vs al r m :
  length h <= r -> heapModule (loopHeap h vs al) r = Some m -> length h <= files m.
Proof.
  intros Hr. unfold heapModule, loopHeap.
  destruct (decide (r < length (duplicated h vs al))) as [Hlt|Hge].
  - rewrite lookup_app_l by done. by apply duplicated_fresh_module.
  - rewrite lookup_app_r by lia.
    destruct (r - _) as [|[|]]; simpl; done.
Qed.
End LoopHeap.

Section MutateStoreUnfold.
Variable compareModules : ModuleObj -> ModuleObj -> Z.
Variable localeCompare : string -> string -> Z.

Lemma viewStore_storeModules h store v :
  viewStore h store = Some v -> exists ms, storeModules h store = Some ms.
Proof.
  unfold viewStore. destruct (storeModules h store) as [ms|]; [eauto|done].
Qed.

(** On a readable manifest [mutateStore] makes its copy and enters the
    loop. *)
Lemma mutateStore_unfold h store v actions :
  viewStore h store = Some v ->
  mutateStore compareModules localeCompare store actions h
  = (do! forEach actions
           (mutateStoreAction (copyModulesRef h (svModules v))
              (workAliasesRef h (svModules v))) in
     sortAndReturn compareModules localeCompare
       (copyStoreRef h (svModules v)) (copyModulesRef h (svModules v))
       (workAliasesRef h (svModules v)))
      (loopHeap h (svModules v) (svAliases v)).
Proof.
  intros Hv. destruct (viewStore_storeModules _ _ _ Hv) as [ms Hms].
  unfold mutateStore.
  rewrite bind_run, (duplicateStore_run h store v ms Hms Hv).
  set (vs := svModules v). set (al := svAliases v).
  assert (duplicated h vs al !! (length h + 2 * length vs + 3)
          = Some (OStore {| config := copyConfigRef h vs |})) as Hst
    by by rewrite duplicated_tail.
  assert (duplicated h vs al !! (length h + 2 * length vs + 2)
          = Some (OConfig {| modules := copyModulesRef h vs;
                             aliases := copyAliasesRef h vs |})) as Hcf
    by by rewrite duplicated_tail.
  assert (duplicated h vs al !! (length h + 2 * length vs + 1)
          = Some (OAliases (JsObject.spread al))) as Hal
    by by rewrite duplicated_tail.
  rewrite bind_run, getStore_run. unfold heapStore, copyStoreRef at 1.
  rewrite Hst.
  rewrite bind_run, getConfig_run. unfold heapConfig. cbn [config].
  unfold copyConfigRef at 1. rewrite Hcf.
  rewrite bind_run, getAliases_run. unfold heapAliases. cbn [aliases modules].
  unfold copyAliasesRef at 1. rewrite Hal.
  rewrite bind_run. unfold alloc.
  rewrite duplicated_length. done.
Qed.
End MutateStoreUnfold.

(** ** The frame of [mutateStore] *)

Section Frame.
Variable h0 : Heap.
Variable pm : list ref.
Variables modulesRef aliasesRef : ref.
Implicit Types h : Heap.

Abbreviation Inv := (FrameInv h0 pm modulesRef aliasesRef).

Lemma payload_writable r : r ∈ pm -> r ∈ writable h0 pm.
Proof.
  intros Hr. unfold writable. apply list_elem_of_In, in_concat.
  exists (moduleFootprint h0 r). split.
  - apply in_map. by apply list_elem_of_In.
  - unfold moduleFootprint. destruct (heapModule h0 r); by left.
Qed.

Lemma payload_files_writable r m0 :
  r ∈ pm -> heapModule h0 r = Some m0 -> files m0 ∈ writable h0 pm.
Proof.
  intros Hr Hm. unfold writable. apply list_elem_of_In, in_concat.
  exists (moduleFootprint h0 r). split.
  - apply in_map. by apply list_elem_of_In.
  - unfold moduleFootprint. rewrite Hm. right. by left.
Qed.

(** An update in place of an object made since [h0] or brought by a
    payload keeps the invariant, as long as a module keeps its [files]
    reference and the modules array keeps to copies and payloads. *)
Lemma FrameInv_update h l o :
  Inv h ->
  is_Some (h !! l) ->
  length h0 <= l \/ l ∈ writable h0 pm ->
  (forall m, o = OModule m ->
     exists m1, heapModule h l = Some m1 /\ files m = files m1) ->
  (forall st, o <> OStore st) ->
  (l = modulesRef ->
     exists ms, o = OModules ms /\ Forall (fun r => length h0 <= r \/ r ∈ pm) ms) ->
  Inv (<[l := o]> h).
Proof.
  intros [Hlen Hun Hfresh Hold Hst Hmr Har [ms [Hms Hall]]] Hl Hw Hmod Hnst Hmsr.
  assert (l < length h) as Hlt by by apply lookup_lt_is_Some.
  assert (forall r, (<[l := o]> h) !! r = if decide (r = l) then Some o else h !! r)
    as Hlook.
  { intros r. destruct (decide (r = l)) as [->|Hne].
    - by apply list_lookup_insert_eq.
    - by apply list_lookup_insert_ne. }
  split.
  - by rewrite length_insert.
  - intros r Hr Hnw. rewrite Hlook. destruct (decide (r = l)) as [->|]; [|auto].
    destruct Hw; [lia|done].
  - intros r m Hr. unfold heapModule. rewrite Hlook.
    destruct (decide (r = l)) as [->|]; [|apply Hfresh; done].
    destruct o as [| | |m'| |]; try done. intros [= ->].
    destruct (Hmod m eq_refl) as [m1 [Hm1 ->]]. by eapply Hfresh.
  - intros r m Hr. unfold heapModule. rewrite Hlook.
    destruct (decide (r = l)) as [->|]; [|apply Hold; done].
    destruct o as [| | |m'| |]; try done. intros [= ->].
    destruct (Hmod m eq_refl) as [m1 [Hm1 ->]]. by eapply Hold.
  - intros r st Hr. unfold heapStore. rewrite Hlook.
    destruct (decide (r = l)) as [->|]; [|apply Hst; done].
    destruct o as [st'| | | | |]; try done. by destruct (Hnst st').
  - done.
  - done.
  - unfold heapModules. rewrite Hlook.
    destruct (decide (modulesRef = l)) as [<-|].
    + destruct (Hmsr eq_refl) as [ms' [-> Hall']]. eauto.
    + exists ms. split; [exact Hms | done].
Qed.

Lemma FrameInv_modules_fresh_or_payload h ms r :
  Inv h -> heapModules h modulesRef = Some ms -> r ∈ ms ->
  length h0 <= r \/ r ∈ pm.
Proof.
  intros [_ _ _ _ _ _ _ [ms' [Hms' Hall]]] Hms Hr.
  rewrite Hms in Hms'. injection Hms' as <-.
  by apply (proj1 (Forall_forall _ _) Hall).
Qed.

Lemma Write_frame pm' rm h h' :
  pm' ⊆ pm ->
  Inv h -> Write pm' rm modulesRef aliasesRef h h' -> Inv h'.
Proof.
  intros Hsub HI Hw.
  pose proof HI as [Hlen Hun Hfresh Hold Hst Hmr Har [ms0 [Hms0 Hall]]].
  destruct Hw as [|ms p Hms Hp|ms i Hms _|ms ms' Hms Hperm
                 |ms r m fs fs' Hms Hr Hm Hfs|ms r m v Hms Hr Hm|al al' Hal].
  - done.
  - rewrite Hms in Hms0. injection Hms0 as <-.
    apply FrameInv_update; try done.
    + unfold heapModules in Hms. destruct (h !! modulesRef); [eauto|done].
    + by left.
    + intros _. eexists; split; [done|].
      apply Forall_app. split; [done|]. constructor; [|constructor].
      right. by apply Hsub.
  - rewrite Hms in Hms0. injection Hms0 as <-.
    apply FrameInv_update; try done.
    + unfold heapModules in Hms. destruct (h !! modulesRef); [eauto|done].
    + by left.
    + intros _. eexists; split; [done|].
      unfold JsArray.splice1. apply Forall_forall. intros x Hx.
      apply (proj1 (Forall_forall _ _) Hall).
      by eapply list_elem_of_delete_inv.
  - rewrite Hms in Hms0. injection Hms0 as <-.
    apply FrameInv_update; try done.
    + unfold heapModules in Hms. destruct (h !! modulesRef); [eauto|done].
    + by left.
    + intros _. eexists; split; [done|]. by rewrite Hperm.
  - apply FrameInv_update; try done.
    + unfold heapStrings in Hfs. destruct (h !! files m); [eauto|done].
    + destruct (FrameInv_modules_fresh_or_payload h ms r HI Hms Hr) as [Hge|Hin].
      * left. by eapply Hfresh.
      * destruct (decide (length h0 <= r)) as [Hge|Hlt].
        -- left. by eapply Hfresh.
        -- right. destruct (Hold r m ltac:(lia) Hm) as [m0 [Hm0 ->]].
           by eapply payload_files_writable.
    + intros Heq. unfold heapStrings in Hfs. unfold heapModules in Hms.
      rewrite Heq in Hfs. destruct (h !! modulesRef) as [[]|]; done.
  - apply FrameInv_update; try done.
    + unfold heapModule in Hm. destruct (h !! r); [eauto|done].
    + destruct (FrameInv_modules_fresh_or_payload h ms r HI Hms Hr) as [Hge|Hin].
      * by left.
      * right. by apply payload_writable.
    + intros m' [= <-]. eauto.
    + intros Heq. unfold heapModule in Hm. unfold heapModules in Hms.
      rewrite Heq in Hm. destruct (h !! modulesRef) as [[]|]; done.
  - apply FrameInv_update; try done.
    + unfold heapAliases in Hal. destruct (h !! aliasesRef); [eauto|done].
    + by left.
    + intros Heq. unfold heapAliases in Hal. unfold heapModules in Hms0.
      rewrite Heq in Hal. destruct (h !! modulesRef) as [[]|]; done.
Qed.

Lemma Writes_frame pm' rm h h' :
  pm' ⊆ pm ->
  Inv h -> rtc (Write pm' rm modulesRef aliasesRef) h h' -> Inv h'.
Proof.
  intros Hsub HI Hrtc. induction Hrtc as [|h1 h2 h3 Hw _ IH]; [done|].
  apply IH. by eapply Write_frame.
Qed.
End Frame.

Section FrameTheorem.
Variable compareModules : ModuleObj -> ModuleObj -> Z.
Variable localeCompare : string -> string -> Z.
Implicit Types h : Heap.

Lemma FrameInv_loopHeap h pm vs al :
  FrameInv h pm (copyModulesRef h vs) (workAliasesRef h vs) (loopHeap h vs al).
Proof.
  split.
  - rewrite loopHeap_length. lia.
  - intros l Hl _. by apply loopHeap_old.
  - apply loopHeap_fresh_module.
  - intros r m Hr. unfold heapModule. rewrite loopHeap_old by done.
    intros Hm. exists m. split; [exact Hm|done].
  - intros r st Hr. unfold heapStore.
    destruct (decide (r < length h + 2 * length vs + 4)) as [Hlt|Hge].
    + destruct (decide (r < length h + 2 * length vs)) as [Hlt'|Hge'].
      * unfold loopHeap, duplicated.
        rewrite lookup_app_l by (rewrite !length_app, copiesOf_length; simpl; lia).
        rewrite lookup_app_r by done.
        rewrite lookup_app_l by (rewrite copiesOf_length; lia).
        destruct (copiesOf (length h) vs !! (r - length h)) as [o|] eqn:Ho; [|done].
        apply list_elem_of_lookup_2 in Ho.
        assert (forall n st', OStore st' ∉ copiesOf n vs) as Hno.
        { clear. intros n st'. revert n.
          induction vs as [|v vs IH]; intros n; simpl.
          - apply not_elem_of_nil.
          - intros [H|[H|H]%elem_of_cons]%elem_of_cons; [done|done|].
            by eapply IH. }
        destruct o; try done. by destruct (Hno (length h) s).
      * replace r with (length h + 2 * length vs + (r - (length h + 2 * length vs)))
          by lia.
        rewrite loopHeap_tail by lia.
        destruct (r - (length h + 2 * length vs)) as [|[|[|[|]]]]; simpl; try done.
        intros [= <-]. simpl. unfold copyConfigRef. lia.
    + unfold loopHeap. rewrite lookup_app_r by (rewrite duplicated_length; lia).
      rewrite duplicated_length.
      destruct (r - _) as [|[|]]; simpl; done.
  - unfold copyModulesRef. lia.
  - unfold workAliasesRef. lia.
  - exists (copyRefs (length h) vs). split; [apply loopHeap_modules|].
    eapply Forall_impl; [apply copyRefs_fresh|]. simpl. auto.
Qed.

Lemma payload_subset a actions : a ∈ actions -> payload a ⊆ payloadRefs actions.
Proof.
  intros Ha x Hx. unfold payloadRefs. apply list_elem_of_In, in_concat.
  exists (payload a). split; [|by apply list_elem_of_In].
  apply in_map. by apply list_elem_of_In.
Qed.

(** The loop over the actions keeps the frame invariant, however it
    ends. *)
Lemma actions_frame h0 modulesRef aliasesRef actions h :
  FrameInv h0 (payloadRefs actions) modulesRef aliasesRef h ->
  wp (forEach actions (mutateStoreAction modulesRef aliasesRef))
     (fun h' _ => FrameInv h0 (payloadRefs actions) modulesRef aliasesRef h') h.
Proof.
  intros HI. apply wp_forEach_inv; [done|].
  intros a h1 Ha HI1. eapply wp_conseq; [apply mutateStoreAction_write|].
  intros h2 r Hw. simpl in Hw. eapply Write_frame; [|exact HI1|exact Hw].
  by apply payload_subset.
Qed.

Lemma sortAndReturn_frame h0 pm s modulesRef aliasesRef h :
  length h0 <= s ->
  FrameInv h0 pm modulesRef aliasesRef h ->
  wp (sortAndReturn compareModules localeCompare s modulesRef aliasesRef)
     (fun h' _ => forall l, l < length h0 -> l ∉ writable h0 pm -> h' !! l = h0 !! l) h.
Proof.
  intros Hs HI. unfold sortAndReturn.
  apply wp_bind. eapply wp_conseq;
    [apply (sortModules_write compareModules [] false modulesRef aliasesRef)|].
  intros h1 r1 Hw1. simpl in Hw1.
  assert (FrameInv h0 pm modulesRef aliasesRef h1) as HI1.
  { eapply Write_frame; [|exact HI|exact Hw1]. intros x Hx. by apply elem_of_nil in Hx. }
  destruct r1 as [[]|e|]; simpl; try apply HI1.
  apply wp_bind. eapply wp_conseq;
    [apply (sortFiles_writes [] false modulesRef aliasesRef)|].
  intros h2 r2 Hw2. simpl in Hw2.
  assert (FrameInv h0 pm modulesRef aliasesRef h2) as HI2.
  { eapply Writes_frame; [|exact HI1|exact Hw2]. intros x Hx. by apply elem_of_nil in Hx. }
  destruct r2 as [[]|e|]; simpl; try apply HI2.
  pose proof HI2 as [Hlen Hun _ _ Hst _ _ _].
  apply wp_bind, wp_getAliases.
  destruct (heapAliases h2 aliasesRef) as [al|]; simpl; [|done].
  apply wp_bind, wp_alloc. simpl.
  assert (forall l, l < length h0 -> l ∉ writable h0 pm ->
                    (h2 ++ [OAliases (JsObject.fromEntries
                              (sortedAliasEntries localeCompare al))]) !! l = h0 !! l)
    as Hun3.
  { intros l Hl Hnw. rewrite lookup_app_l by lia. by apply Hun. }
  apply wp_bind, wp_getStore.
  destruct (heapStore _ s) as [st|] eqn:Hst3; simpl; [|done].
  assert (length h0 <= config st) as Hcfg.
  { unfold heapStore in Hst3.
    destruct (decide (s < length h2)) as [Hlt|Hge].
    - rewrite lookup_app_l in Hst3 by done. exact (Hst s st Hs Hst3).
    - rewrite lookup_app_r in Hst3 by lia.
      destruct (s - length h2) as [|[|]]; simpl in Hst3; done. }
  apply wp_bind. unfold assignAliases. apply wp_bind, wp_getConfig.
  destruct (heapConfig _ (config st)) as [c|] eqn:Hc; simpl; [|done].
  apply wp_setConfig. rewrite Hc. cbn [andThen]. apply wp_ret.
  intros l Hl Hnw. rewrite list_lookup_insert_ne by lia. by apply Hun3.
Qed.

Lemma mutateStore_frame h store v actions :
  viewStore h store = Some v ->
  wp (mutateStore compareModules localeCompare store actions)
     (fun h' _ => forall l, l < length h -> l ∉ payloads h actions -> h' !! l = h !! l) h.
Proof.
  intros Hv. unfold wp. rewrite (mutateStore_unfold _ _ _ _ _ _ Hv).
  set (vs := svModules v). set (al := svAliases v).
  change (wp (do! forEach actions
                    (mutateStoreAction (copyModulesRef h vs) (workAliasesRef h vs)) in
              sortAndReturn compareModules localeCompare (copyStoreRef h vs)
                (copyModulesRef h vs) (workAliasesRef h vs))
            (fun h' _ => forall l, l < length h -> l ∉ payloads h actions ->
                                   h' !! l = h !! l)
            (loopHeap h vs al)).
  apply wp_bind. eapply wp_conseq.
  - apply (actions_frame h). apply FrameInv_loopHeap.
  - intros h1 r1 HI1. destruct r1 as [[]|e|]; simpl; try apply HI1.
    apply sortAndReturn_frame; [|done]. unfold copyStoreRef. lia.
Qed.
End FrameTheorem.

(** ** C1: copy-on-write *)

Section CopyOnWrite.
Implicit Types h : Heap.

Lemma heap_lookup_valid h l (o : Object) : h !! l = Some o -> l < length h.
Proof. apply lookup_lt_Some. Qed.

Lemma viewModules_footprint h ms vs l :
  viewModules h ms = Some vs ->
  l ∈ concat (map (moduleFootprint h) ms) -> l < length h.
Proof.
  revert vs; induction ms as [|r ms IH]; intros vs; simpl.
  - intros _ Hl. by apply elem_of_nil in Hl.
  - unfold viewModule, moduleFootprint at 1.
    destruct (heapModule h r) as [m|] eqn:Hm; [|done].
    destruct (heapStrings h (files m)) as [fs|] eqn:Hfs; [|done].
    destruct (viewModules h ms) as [vs'|]; [|done]. intros _.
    intros [->|[->|Hl]%elem_of_cons]%elem_of_cons.
    + unfold heapModule in Hm. destruct (h !! r) eqn:E; [|done].
      by eapply heap_lookup_valid.
    + unfold heapStrings in Hfs. destruct (h !! files m) eqn:E; [|done].
      by eapply heap_lookup_valid.
    + by eapply IH.
Qed.

Lemma footprint_valid h store v l :
  viewStore h store = Some v -> l ∈ footprint h store -> l < length h.
Proof.
  unfold viewStore, storeModules, storeAliases, footprint.
  destruct (heapStore h store) as [s|] eqn:Hs; [|done].
  destruct (heapConfig h (config s)) as [c|] eqn:Hc; [|done].
  destruct (heapModules h (modules c)) as [ms|] eqn:Hms; [|done].
  destruct (heapAliases h (aliases c)) as [al|] eqn:Hal; [|done].
  destruct (viewModules h ms) as [vs|] eqn:Hvs; [|done]. intros _.
  intros [->|[->|[->|[->|Hl]%elem_of_cons]%elem_of_cons]%elem_of_cons]%elem_of_cons.
  - unfold heapStore in Hs. destruct (h !! store) eqn:E; [|done].
    by eapply heap_lookup_valid.
  - unfold heapConfig in Hc. destruct (h !! config s) eqn:E; [|done].
    by eapply heap_lookup_valid.
  - unfold heapModules in Hms. destruct (h !! modules c) eqn:E; [|done].
    by eapply heap_lookup_valid.
  - unfold heapAliases in Hal. destruct (h !! aliases c) eqn:E; [|done].
    by eapply heap_lookup_valid.
  - by eapply viewModules_footprint.
Qed.

Lemma viewModules_agree h h' ms :
  (forall l, l ∈ concat (map (moduleFootprint h) ms) -> h' !! l = h !! l) ->
  viewModules h' ms = viewModules h ms.
Proof.
  induction ms as [|r ms IH]; simpl; [done|]. intros Hag.
  rewrite IH by (intros l Hl; apply Hag, elem_of_app; by right).
  assert (viewModule h' r = viewModule h r) as ->; [|done].
  unfold viewModule.
  assert (heapModule h' r = heapModule h r) as ->.
  { unfold heapModule. rewrite Hag; [done|].
    apply elem_of_app. left. unfold moduleFootprint.
    destruct (heapModule h r); left. }
  destruct (heapModule h r) as [m|] eqn:Hm; [|done].
  assert (heapStrings h' (files m) = heapStrings h (files m)) as ->; [|done].
  unfold heapStrings. rewrite Hag; [done|].
  apply elem_of_app. left. unfold moduleFootprint. rewrite Hm. right. left.
Qed.

(** A manifest reads the same from two heaps that agree on its
    footprint. *)
Lemma viewStore_agree h h' store :
  (forall l, l ∈ footprint h store -> h' !! l = h !! l) ->
  viewStore h' store = viewStore h store.
Proof.
  intros Hag. unfold viewStore, storeModules, storeAliases.
  assert (heapStore h' store = heapStore h store) as ->.
  { unfold heapStore. rewrite Hag; [done|]. unfold footprint.
    destruct (heapStore h store); left. }
  destruct (heapStore h store) as [s|] eqn:Hs; [|done].
  assert (heapConfig h' (config s) = heapConfig h (config s)) as ->.
  { unfold heapConfig. rewrite Hag; [done|]. unfold footprint. rewrite Hs.
    right. left. }
  destruct (heapConfig h (config s)) as [c|] eqn:Hc; [|done].
  assert (heapModules h' (modules c) = heapModules h (modules c)) as ->.
  { unfold heapModules. rewrite Hag; [done|]. unfold footprint. rewrite Hs, Hc.
    right. right. left. }
  assert (heapAliases h' (aliases c) = heapAliases h (aliases c)) as ->.
  { unfold heapAliases. rewrite Hag; [done|]. unfold footprint. rewrite Hs, Hc.
    right. right. right. left. }
  destruct (heapModules h (modules c)) as [ms|] eqn:Hms; [|done].
  rewrite (viewModules_agree h h' ms); [done|].
  intros l Hl. apply Hag. unfold footprint. rewrite Hs, Hc, Hms.
  by do 4 right.
Qed.
End CopyOnWrite.

(** C1 (amended).  [mutateStore] is copy-on-write for a manifest that shares
    no object with the modules the [ADD_MODULE] actions carry: every object
    of the input manifest (store, config, modules array, each module, each
    files array, the aliases map) is in the final heap what it was in the
    initial one, whether the call returns or throws, and the manifest reads
    as before. *)
Theorem mutateStore_copy_on_write
  (compareModules : ModuleObj -> ModuleObj -> Z)
  (localeCompare : string -> string -> Z)
  (h : Heap) (store : ref) (v : StoreView) (actions : list Action) :
  viewStore h store = Some v ->
  Forall (fun l => l ∉ payloads h actions) (footprint h store) ->
  let h' := fst (mutateStore compareModules localeCompare store actions h) in
  Forall (fun l => h' !! l = h !! l) (footprint h store)
  /\ viewStore h' store = Some v.
Proof.
  intros Hv Hsep h'.
  assert (forall l, l ∈ footprint h store -> h' !! l = h !! l) as Hag.
  { intros l Hl.
    apply (mutateStore_frame compareModules localeCompare h store v actions Hv).
    - by eapply footprint_valid.
    - by apply (proj1 (Forall_forall _ _) Hsep). }
  split.
  - by apply Forall_forall.
  - rewrite <- Hv. by apply viewStore_agree.
Qed.

Lemma mutateStore_copy_on_write_witness :
  Forall (fun l =>
            fst (mutateStore compareByIdentity JsString.defaultCompare 0
                   [ADD_MODULE 6; ADD_LINK "https://deno.land/x/dejs/dejs.ts"]
                   payloadHeap) !! l
            = payloadHeap !! l)
         (footprint payloadHeap 0)
  /\ viewStore
       (fst (mutateStore compareByIdentity JsString.defaultCompare 0
               [ADD_MODULE 6; ADD_LINK "https://deno.land/x/dejs/dejs.ts"]
               payloadHeap)) 0
     = Some {| svModules := [stdModule]; svAliases := [] |}.
Proof.
  apply (mutateStore_copy_on_write compareByIdentity JsString.defaultCompare
           payloadHeap 0 {| svModules := [stdModule]; svAliases := [] |}
           [ADD_MODULE 6; ADD_LINK "https://deno.land/x/dejs/dejs.ts"]).
  - reflexivity.
  - apply (bool_decide_unpack _). vm_compute. exact I.
Defined.

(** C1 as stated fails: when an [ADD_MODULE] carries a module object of the
    input manifest (here module 4, removed and added again), the later
    [ADD_LINK] pushes into the files array of the input manifest itself
    (object 5), which was empty. *)
Lemma mutateStore_writes_into_readded_module :
  5 ∈ footprint oneModuleHeap 0
  /\ oneModuleHeap !! 5 = Some (OStrings [])
  /\ fst (mutateStore compareByIdentity JsString.defaultCompare 0
            [ REMOVE_MODULE "https" "deno.land/std"; ADD_MODULE 4;
              ADD_LINK "https://deno.land/std/fs/mod.ts" ]
            oneModuleHeap) !! 5
     = Some (OStrings ["/fs/mod.ts"]).
Proof.
  split; [|split].
  - apply (bool_decide_unpack _). vm_compute. exact I.
  - reflexivity.
  - vm_compute. reflexivity.
Qed.

(** ** C9: [ADD_LINK] twice *)

Section AddLinkTwice.
Implicit Types h : Heap.

Lemma bind_ext {S E A B} (m : M S E A) (k1 k2 : A -> M S E B) s :
(forall a s', k1 a s' = k2 a s') -> bind m k1 s = bind m k2 s.
Proof. intros H. rewrite !bind_run. destruct (m s) as [s' [a|e|]]; auto. Qed.

Lemma heapModule_insert_strings h l fs x r :
heapStrings h l = Some fs ->
heapModule (<[l := OStrings x]> h) r = heapModule h r.
Proof.
unfold heapModule, heapStrings. intros Hl.
destruct (decide (r = l)) as [->|Hne].
- destruct (h !! l) as [o|] eqn:E; [|done].
  rewrite list_lookup_insert_eq by by eapply lookup_lt_Some.
  by destruct o.
- by rewrite list_lookup_insert_ne.
Qed.

Lemma heapStrings_insert_strings h l fs x :
heapStrings h l = Some fs ->
heapStrings (<[l := OStrings x]> h) l = Some x.
Proof.
unfold heapStrings. intros Hl.
destruct (h !! l) as [o|] eqn:E; [|done].
by rewrite list_lookup_insert_eq by by eapply lookup_lt_Some.
Qed.

Lemma firstOwner_ext {E} h h' probe ms :
(forall r, heapModule h' r = heapModule h r) ->
firstOwner (E:=E) h' probe ms = firstOwner h probe ms.
Proof.
intros Hext. induction ms as [|r ms IH]; simpl; [done|].
rewrite Hext. destruct (heapModule h r) as [m|]; [|done].
by rewrite IH.
Qed.

Lemma includes_snoc (fs : list string) fp : JsArray.includes (fs ++ [fp]) fp = true.
Proof.
unfold JsArray.includes. apply bool_decide_eq_true.
apply elem_of_app. right. left.
Qed.

(** Once an [ADD_LINK] has gone through, the same [ADD_LINK] finds the same
  module and the file already there: it changes nothing. *)
Lemma addLink_again modulesRef aliasesRef link h h1 :
mutateStoreAction modulesRef aliasesRef (ADD_LINK link) h = (h1, Ok tt) ->
mutateStoreAction modulesRef aliasesRef (ADD_LINK link) h1 = (h1, Ok tt).
Proof.
intros H. cbn [mutateStoreAction] in *. run_in H.
destruct (heapModules h modulesRef) as [ms|] eqn:Hms; [|done]. run_in H.
destruct (firstOwner h link ms) as [[r|]|e|] eqn:Hf; try done. run_in H.
destruct (firstOwner_Some _ _ _ _ Hf) as [_ [m [Hm _]]].
rewrite Hm in H. run_in H.
destruct (filePathOf link m) as [filePath|] eqn:Hfp; [|done]. run_in H.
destruct (heapStrings h (files m)) as [fs|] eqn:Hfs; [|done].
destruct (JsArray.includes fs filePath) eqn:Hinc.
- injection H as <-. run. rewrite Hms. run. rewrite Hf. run. rewrite Hm. run.
  rewrite Hfp. run. by rewrite Hfs, Hinc.
- unfold setStrings in H. run_in H. rewrite Hfs in H. injection H as <-.
  run. rewrite (heapModules_insert_strings _ _ _ _ _ _ Hms Hfs). run.
  rewrite (firstOwner_ext h) by (intros; by eapply heapModule_insert_strings).
  rewrite Hf. run.
  rewrite (heapModule_insert_strings _ _ _ _ _ Hfs), Hm. run.
  rewrite Hfp. run.
  rewrite (heapStrings_insert_strings _ _ _ _ Hfs).
  by rewrite includes_snoc.
Qed.
End AddLinkTwice.

(** C9.  [ADD_LINK] is idempotent in [mutateStore]: on every heap and
    manifest, applying the same [ADD_LINK] twice in a row gives the very
    outcome and heap that applying it once gives, so the same file set on
    the owning module; the second application changes nothing. *)
Theorem addLink_idempotent
  (compareModules : ModuleObj -> ModuleObj -> Z)
  (localeCompare : string -> string -> Z)
  (store : ref) (link : string) (h : Heap) :
  mutateStore compareModules localeCompare store [ADD_LINK link; ADD_LINK link] h
  = mutateStore compareModules localeCompare store [ADD_LINK link] h.
Proof.
  unfold mutateStore.
  apply bind_ext; intros s h1.
  apply bind_ext; intros st h2.
  apply bind_ext; intros c h3.
  apply bind_ext; intros al h4.
  apply bind_ext; intros aliases' h5.
  cbn [forEach].
  rewrite (bind_run (bind _ _)).
  rewrite (bind_run (bind (mutateStoreAction _ _ _) (fun _ => ret tt))).
  rewrite (bind_run (mutateStoreAction _ _ _) (fun _ => bind _ _)).
  rewrite (bind_run (mutateStoreAction _ _ _) (fun _ => ret tt)).
  destruct (mutateStoreAction (modules c) aliases' (ADD_LINK link) h5)
    as [h6 [[]|e|]] eqn:Hstep; try done.
  by rewrite bind_run, (addLink_again _ _ _ _ _ Hstep).
Qed.

(** ** The synchronizer *)

Section SynchronizerFacts.
Context {World : Type}.
Variable env : Collaborators World.
Variable h : Heap.
Implicit Types st : World * list Call.

Lemma find_owner_run' probe ms st :
find (identityIsPrefixOf' (World:=World) h probe) ms st = (st, firstOwner h probe ms).
Proof.
induction ms as [|r ms IH]; simpl; [done|].
unfold identityIsPrefixOf' at 1, readModule. rewrite !bind_run.
destruct (heapModule h r) as [m|]; simpl; [|done].
destruct (JsString.startsWith probe (toString m)); [done|]. apply IH.
Qed.

Lemma find_exact_run' p pa ms st :
find (hasProtocolAndPath' (World:=World) h p pa) ms st = (st, firstExact h p pa ms).
Proof.
induction ms as [|r ms IH]; simpl; [done|].
unfold hasProtocolAndPath' at 1, readModule. rewrite !bind_run.
destruct (heapModule h r) as [m|]; simpl; [|done].
destruct (String.eqb (protocol m) p && String.eqb (path m) pa); [done|]. apply IH.
Qed.

Lemma mutateRepository_run store ms actions st :
storeModules h store = Some ms ->
mutateRepository env h store actions st
= forEach actions (mutateRepositoryAction env h ms) st.
Proof.
unfold storeModules, mutateRepository. rewrite bind_run.
destruct (heapStore h store) as [s|]; [|done]. simpl. rewrite bind_run.
destruct (heapConfig h (config s)) as [c|]; [|done]. simpl. rewrite bind_run.
intros ->. done.
Qed.

Lemma await_run {A} (c : Call) (run : World -> World * Reply A) w log :
await c run (w, log)
= ((fst (run w), log ++ [c]), outcomeOf (snd (run w))).
Proof. unfold await. simpl. by destruct (run w) as [w' []]. Qed.

(** The loop of [UPDATE_MODULE] over the files follows [UpdateRun]. *)
Lemma updateLoop_run p pa v fs w log :
exists calls w' r,
  forEach fs (fun filePath =>
    let! hasDefault :=
      await (HasDefaultExportRemote (createURL env p pa v filePath))
            (hasDefaultExportRemote env (createURL env p pa v filePath)) in
    await (UpdateLink p pa v filePath hasDefault)
          (repoUpdateLink env p pa v filePath hasDefault)) (w, log)
  = ((w', log ++ calls), r)
  /\ UpdateRun env p pa v fs w calls w' r.
Proof.
revert w log; induction fs as [|f fs IH]; intros w log.
- exists [], w, (Ok tt). simpl. rewrite app_nil_r. split; [done|constructor].
- cbn [forEach]. rewrite !bind_run, await_run.
  destruct (hasDefaultExportRemote env (createURL env p pa v f) w)
    as [w1 [b|e]] eqn:Hins; cbn [fst snd outcomeOf].
  + rewrite await_run.
    destruct (repoUpdateLink env p pa v f b w1) as [w2 [[]|e]] eqn:Hupd;
      cbn [fst snd outcomeOf].
    * destruct (IH w2 ((log ++ [HasDefaultExportRemote (createURL env p pa v f)])
                         ++ [UpdateLink p pa v f b])) as (calls & w3 & r & Hrun & HR).
      eexists _, w3, r. split.
      -- rewrite Hrun. f_equal. f_equal. rewrite <- !app_assoc. simpl. done.
      -- by eapply UpdateNext.
    * eexists _, w2, _. split.
      -- f_equal. f_equal. rewrite <- !app_assoc. simpl. done.
      -- by eapply UpdateLinkRaises.
  + eexists _, w1, _. split; [done|]. by eapply UpdateInspectionRaises.
Qed.

Lemma UpdateRun_counts p pa v fs w calls w' :
UpdateRun env p pa v fs w calls w' (Ok tt) ->
countCalls isRemoteInspection calls = length fs
/\ countCalls isUpdateLink calls = length fs.
Proof.
intros H. remember (Ok tt) as r eqn:Hr.
induction H as [w|f fs w w1 e _|f fs w w1 b w2 e _ _|f fs w w1 b w2 calls w3 r _ _ _ IH];
  try done.
destruct (IH Hr) as [H1 H2]. unfold countCalls in *. simpl. by rewrite H1, H2.
Qed.

Lemma UpdateRun_total p pa v fs w :
UpdatesNeverRaise env ->
forall calls w' r, UpdateRun env p pa v fs w calls w' r -> r = Ok tt.
Proof.
intros [Hins Hupd] calls w' r H.
induction H as [w|f fs w w1 e Hi|f fs w w1 b w2 e _ Hu|f fs w w1 b w2 calls w3 r _ _ _ IH].
- done.
- destruct (Hins (createURL env p pa v f) w) as (? & ? & Hi'). congruence.
- destruct (Hupd p pa v f b w1) as (? & Hu'). congruence.
- done.
Qed.
End SynchronizerFacts.

(** C7.  For an [UPDATE_MODULE] whose module resolves by exact protocol and
    path in the supplied manifest, [mutateRepository] goes through the files
    of that module in order and, for each, makes one remote inspection of
    the URL at the new version followed by one [updateLink] with the new
    version and the flag just returned, and nothing else; when the action
    completes, the inspections and the [updateLink] calls each number the
    files of the module, and it completes whenever no call raises. *)
Theorem updateModule_calls {World} (env : Collaborators World) (h : Heap)
  (ms : list ref) (p pa v : string) (r : ref) (m : ModuleObj) (fs : list string)
  (w : World) (log : list Call) :
  firstExact (E:=SyncError) h p pa ms = Ok (Some r) ->
  heapModule h r = Some m ->
  heapStrings h (files m) = Some fs ->
  exists calls w' res,
    mutateRepositoryAction env h ms (UPDATE_MODULE p pa v) (w, log)
    = ((w', log ++ calls), res)
    /\ UpdateRun env p pa v fs w calls w' res
    /\ (res = Ok tt ->
        countCalls isRemoteInspection calls = length fs
        /\ countCalls isUpdateLink calls = length fs)
    /\ (UpdatesNeverRaise env -> res = Ok tt).
Proof.
  intros Hf Hm Hfs.
  destruct (updateLoop_run env p pa v fs w log) as (calls & w' & res & Hrun & HR).
  exists calls, w', res. split; [|split; [done|split]].
  - cbn [mutateRepositoryAction]. cbv zeta.
    rewrite bind_run, find_exact_run', Hf.
    unfold readModule. rewrite bind_run, Hm. cbn [fromOption ret].
    rewrite bind_run, Hfs. cbn [fromOption ret]. exact Hrun.
  - intros ->. by eapply UpdateRun_counts.
  - intros Hnr. by eapply UpdateRun_total.
Qed.

Lemma updateModule_calls_witness :
  exists calls w' res,
    mutateRepositoryAction (exampleEnv [] []) linkedHeap [4]
      (UPDATE_MODULE "https" "deno.land/std" "v2") (tt, [])
    = ((w', [] ++ calls), res)
    /\ UpdateRun (exampleEnv [] []) "https" "deno.land/std" "v2"
         ["/fs/mod.ts"; "/path/mod.ts"] tt calls w' res
    /\ (res = Ok tt ->
        countCalls isRemoteInspection calls = 2
        /\ countCalls isUpdateLink calls = 2)
    /\ (UpdatesNeverRaise (exampleEnv [] []) -> res = Ok tt).
Proof.
  apply (updateModule_calls (exampleEnv [] []) linkedHeap [4]
           "https" "deno.land/std" "v2" 4
           {| protocol := "https"; path := "deno.land/std"; version := "v1";
              files := 5 |}
           ["/fs/mod.ts"; "/path/mod.ts"] tt []); reflexivity.
Defined.

(** C7 as stated fails when a call raises: with two files linked and the
    inspection of the first one failing, one inspection is made and no
    [updateLink], and the action ends with the failure. *)
Lemma updateModule_stops_at_failed_inspection :
  heapStrings linkedHeap 5 = Some ["/fs/mod.ts"; "/path/mod.ts"]
  /\ mutateRepositoryAction
       (exampleEnv [] ["https://deno.land/std@v2/fs/mod.ts"]) linkedHeap [4]
       (UPDATE_MODULE "https" "deno.land/std" "v2") (tt, [])
     = ((tt, [HasDefaultExportRemote "https://deno.land/std@v2/fs/mod.ts"]),
        Throw (CollaboratorError (OtherFailure "fetch failed")))
  /\ countCalls isUpdateLink
       [HasDefaultExportRemote "https://deno.land/std@v2/fs/mod.ts"] <> 2.
Proof. split; [|split]; [reflexivity| vm_compute; reflexivity | vm_compute; lia]. Qed.

(** ** C8: an alias to a file that is not vendored yet *)

(** C8.  In the [ADD_ALIAS] case of [mutateRepository], once the module of
    the target resolves: when the local inspection of the vendor path raises
    [NotFound], the action goes on with [addAlias] called with the flag
    false, its outcome is the outcome of that call, and the batch goes on
    with the remaining actions when the call returns; when the inspection
    raises anything else, the batch ends there with that failure and no
    further call. *)
Theorem addAlias_missing_file_tolerated {World} (env : Collaborators World)
  (h : Heap) (store : ref) (ms : list ref) (aliasPath aliasTargetPath : string)
  (rest : list Action) (r : ref) (m : ModuleObj) (linkedFilePath : string)
  (w : World) (log : list Call) :
  storeModules h store = Some ms ->
  firstOwner (E:=SyncError) h aliasTargetPath ms = Ok (Some r) ->
  heapModule h r = Some m ->
  filePathOf aliasTargetPath m = Some linkedFilePath ->
  let fp := pathJoin env [vendorDirectoryPath; protocol m; path m; linkedFilePath] in
  let call := AddAlias (protocol m) (path m) linkedFilePath aliasPath false in
  let addAlias := repoAddAlias env (protocol m) (path m) linkedFilePath aliasPath false in
  (forall w1,
     hasDefaultExportLocal env fp w = (w1, Raises NotFound) ->
     mutateRepositoryAction env h ms (ADD_ALIAS aliasPath aliasTargetPath) (w, log)
     = ((fst (addAlias w1), log ++ [HasDefaultExportLocal fp; call]),
        outcomeOf (snd (addAlias w1)))
     /\ (forall w2, addAlias w1 = (w2, Returns tt) ->
         mutateRepository env h store (ADD_ALIAS aliasPath aliasTargetPath :: rest) (w, log)
         = mutateRepository env h store rest
             (w2, log ++ [HasDefaultExportLocal fp; call])))
  /\ (forall w1 msg,
        hasDefaultExportLocal env fp w = (w1, Raises (OtherFailure msg)) ->
        mutateRepository env h store (ADD_ALIAS aliasPath aliasTargetPath :: rest) (w, log)
        = ((w1, log ++ [HasDefaultExportLocal fp]),
           Throw (CollaboratorError (OtherFailure msg)))).
Proof.
  intros Hms Hf Hm Hfp fp call addAlias.
  assert (forall st,
    mutateRepositoryAction env h ms (ADD_ALIAS aliasPath aliasTargetPath) st
    = (let! hasDefault :=
         tryCatch (await (HasDefaultExportLocal fp) (hasDefaultExportLocal env fp))
           (fun e => if isNotFound e then ret false else throw e) in
       await (AddAlias (protocol m) (path m) linkedFilePath aliasPath hasDefault)
         (repoAddAlias env (protocol m) (path m) linkedFilePath aliasPath hasDefault))
        st) as Hstep.
  { intros st. cbn [mutateRepositoryAction].
    rewrite bind_run, find_owner_run', Hf.
    unfold readModule. rewrite bind_run, Hm. cbn [fromOption ret].
    rewrite bind_run, Hfp. done. }
  split.
  - intros w1 Hins.
    assert (mutateRepositoryAction env h ms (ADD_ALIAS aliasPath aliasTargetPath) (w, log)
            = ((fst (addAlias w1), log ++ [HasDefaultExportLocal fp; call]),
               outcomeOf (snd (addAlias w1)))) as Hact.
    { rewrite Hstep, bind_run. unfold tryCatch. rewrite await_run, Hins.
      cbn [fst snd outcomeOf isNotFound ret]. rewrite await_run.
      by rewrite <- app_assoc. }
    split; [exact Hact|].
    intros w2 Hadd.
    rewrite !(mutateRepository_run env h store ms) by done.
    cbn [forEach]. rewrite bind_run, Hact, Hadd. done.
  - intros w1 msg Hins.
    rewrite (mutateRepository_run env h store ms) by done.
    cbn [forEach]. rewrite bind_run, Hstep, bind_run.
    unfold tryCatch. rewrite await_run, Hins. done.
Qed.

Lemma addAlias_missing_file_tolerated_witness :
  hasDefaultExportLocal (exampleEnv ["vendor/https/deno.land/std/fs/mod.ts"] [])
    "vendor/https/deno.land/std/fs/mod.ts" tt = (tt, Raises NotFound)
  /\ mutateRepositoryAction (exampleEnv ["vendor/https/deno.land/std/fs/mod.ts"] [])
       oneModuleHeap [4]
       (ADD_ALIAS "fs.ts" "https://deno.land/std/fs/mod.ts") (tt, [])
     = ((tt, [HasDefaultExportLocal "vendor/https/deno.land/std/fs/mod.ts";
              AddAlias "https" "deno.land/std" "/fs/mod.ts" "fs.ts" false]),
        Ok tt).
Proof.
  split; [vm_compute; reflexivity|].
  destruct (addAlias_missing_file_tolerated
              (exampleEnv ["vendor/https/deno.land/std/fs/mod.ts"] [])
              oneModuleHeap 0 [4] "fs.ts" "https://deno.land/std/fs/mod.ts"
              [REMOVE_ALIAS "old.ts"] 4
              {| protocol := "https"; path := "deno.land/std"; version := "v1";
                 files := 5 |}
              "/fs/mod.ts" tt []) as [H _]; [reflexivity..|].
  destruct (H tt) as [H1 _]; [vm_compute; reflexivity|exact H1].
Defined.

(** ** C4: the owner of a link and its file path *)

Section Owner.
Implicit Types h : Heap.

(** [firstOwner] picks the first module, in list order, whose identity is a
  prefix of the probe: every module before it has been read and is not
  one. *)
Lemma firstOwner_first {E} h probe ms r :
firstOwner (E:=E) h probe ms = Ok (Some r) ->
exists before after m,
  ms = before ++ r :: after
  /\ heapModule h r = Some m
  /\ JsString.startsWith probe (toString m) = true
  /\ Forall (fun r' => exists m', heapModule h r' = Some m'
               /\ JsString.startsWith probe (toString m') = false) before.
Proof.
induction ms as [|x ms IH]; simpl; [done|].
destruct (heapModule h x) as [mx|] eqn:Hx; [|done].
destruct (JsString.startsWith probe (toString mx)) eqn:Hp.
- intros [= <-]. exists [], ms, mx. simpl. by repeat split.
- intros H. destruct (IH H) as (before & after & m & -> & Hm & Hpm & Hall).
  exists (x :: before), after, m. repeat split; try done.
  constructor; [eauto|done].
Qed.

(** No owner: every module has been read and none has its identity as a
  prefix of the probe. *)
Lemma firstOwner_none {E} h probe ms :
firstOwner (E:=E) h probe ms = Ok None ->
Forall (fun r' => exists m', heapModule h r' = Some m'
          /\ JsString.startsWith probe (toString m') = false) ms.
Proof.
induction ms as [|x ms IH]; simpl; [constructor|].
destruct (heapModule h x) as [mx|] eqn:Hx; [|done].
destruct (JsString.startsWith probe (toString mx)) eqn:Hp; [done|].
intros H. constructor; [eauto|by apply IH].
Qed.

(** [ADD_LINK] and [REMOVE_LINK] without an owner throw
  [ModuleNotFound], in both phases. *)
Lemma link_without_owner_throws {World} (env : Collaborators World)
modulesRef aliasesRef h ms link st :
heapModules h modulesRef = Some ms ->
firstOwner (E:=MutationError) h link ms = Ok None ->
mutateStoreAction modulesRef aliasesRef (ADD_LINK link) h
= (h, Throw (ModuleNotFound OpAddLink link))
/\ mutateStoreAction modulesRef aliasesRef (REMOVE_LINK link) h
   = (h, Throw (ModuleNotFound OpRemoveLink link))
/\ (firstOwner (E:=SyncError) h link ms = Ok None ->
    mutateRepositoryAction env h ms (ADD_LINK link) st
    = (st, Throw (OwnError (ModuleNotFound OpAddLink link)))
    /\ mutateRepositoryAction env h ms (REMOVE_LINK link) st
       = (st, Throw (OwnError (ModuleNotFound OpRemoveLink link)))).
Proof.
intros Hms Hf. split; [|split].
- cbn [mutateStoreAction]. run. rewrite Hms. run. by rewrite Hf.
- cbn [mutateStoreAction]. run. rewrite Hms. run. by rewrite Hf.
- intros Hf'. split; cbn [mutateRepositoryAction];
    by rewrite bind_run, find_owner_run', Hf'.
Qed.
End Owner.

(** C4 at a link in which the identity of the owning module occurs twice.
    The owner is the module whose identity [https://deno.land/std] is a
    prefix of the link, and the remainder of the link after that prefix is
    [/x/https://deno.land/std/y.ts]; but the file path taken from
    [link.split(identity)[1]] is [/x/], in [mutateStore] (the file recorded)
    and in [mutateRepository] (the file inspected and linked). *)
Theorem addLink_file_path_cut_at_second_identity :
  let link := "https://deno.land/std/x/https://deno.land/std/y.ts" in
  link = identity stdModule +:+ "/x/https://deno.land/std/y.ts"
  /\ (exists h' s,
        mutateStore compareByIdentity JsString.defaultCompare 0 [ADD_LINK link]
          oneModuleHeap = (h', Ok s)
        /\ viewStore h' s
           = Some {| svModules :=
                       [ {| mvProtocol := "https"; mvPath := "deno.land/std";
                            mvVersion := "v1"; mvFiles := ["/x/"] |} ];
                     svAliases := [] |})
  /\ mutateRepositoryAction (exampleEnv [] []) oneModuleHeap [4] (ADD_LINK link) (tt, [])
     = ((tt, [ HasDefaultExportRemote "https://deno.land/std@v1/x/";
               AddLink "https" "deno.land/std" "v1" "/x/" true ]),
        Ok tt).
Proof.
  split; [reflexivity|split].
  - eexists _, _. split; vm_compute; reflexivity.
  - vm_compute. reflexivity.
Qed.

(** ** Plain objects *)

Ltac eqb_cases :=
  repeat match goal with
    | |- context [String.eqb ?a ?b] =>
        destruct (String.eqb_spec a b); subst; try congruence; try done
    | H : context [String.eqb ?a ?b] |- _ =>
        destruct (String.eqb_spec a b); subst; try congruence; try done
    end.

Section ObjectFacts.
Implicit Types (o : JsObject.t) (k v : string).

Lemma getOwn_nil k : JsObject.getOwn [] k = None.
Proof. done. Qed.

Lemma getOwn_cons k' v' o k :
JsObject.getOwn ((k', v') :: o) k
= if String.eqb k' k then Some v' else JsObject.getOwn o k.
Proof. unfold JsObject.getOwn. simpl. by destruct (String.eqb k' k). Qed.

Lemma getOwn_None o k : JsObject.getOwn o k = None <-> k ∉ JsObject.keys o.
Proof.
induction o as [|[k' v'] o IH]; simpl.
- split; [intros _; apply not_elem_of_nil|done].
- rewrite getOwn_cons. destruct (String.eqb_spec k' k) as [->|Hne].
  + split; [done|]. intros H. destruct H. left.
  + rewrite IH. split.
    * intros H [Heq|Hin]%elem_of_cons; [by subst|done].
    * intros H Hin. apply H. by right.
Qed.

Lemma getOwn_Some_elem o k v : JsObject.getOwn o k = Some v -> (k, v) ∈ o.
Proof.
induction o as [|[k' v'] o IH]; [done|].
rewrite getOwn_cons. destruct (String.eqb_spec k' k) as [->|Hne].
- intros [= ->]. left.
- intros H. right. by apply IH.
Qed.

Lemma elem_getOwn o k v :
NoDup (JsObject.keys o) -> (k, v) ∈ o -> JsObject.getOwn o k = Some v.
Proof.
induction o as [|[k' v'] o IH]; simpl.
- by intros _ ?%elem_of_nil.
- intros [Hk' Hnd]%NoDup_cons. rewrite getOwn_cons.
  intros [[= -> ->]|Hin]%elem_of_cons.
  + by rewrite String.eqb_refl.
  + destruct (String.eqb_spec k' k) as [->|Hne]; [|by apply IH].
    destruct Hk'. change k with (fst (k, v)).
    apply list_elem_of_In, in_map. by apply list_elem_of_In.
Qed.

Lemma keys_perm o o' : o ≡ₚ o' -> JsObject.keys o ≡ₚ JsObject.keys o'.
Proof. intros H. unfold JsObject.keys. by apply Permutation_map. Qed.

(** With distinct keys, what a key reads does not depend on the order of
  the entries. *)
Lemma getOwn_perm o o' k :
NoDup (JsObject.keys o) -> o ≡ₚ o' -> JsObject.getOwn o' k = JsObject.getOwn o k.
Proof.
intros Hnd Hp.
assert (NoDup (JsObject.keys o')) as Hnd' by by rewrite <- (keys_perm _ _ Hp).
destruct (JsObject.getOwn o k) as [v|] eqn:Hk.
- apply elem_getOwn; [done|]. rewrite <- Hp. by apply getOwn_Some_elem.
- apply getOwn_None. rewrite <- (keys_perm _ _ Hp). by apply getOwn_None.
Qed.

Lemma keys_replaceOwn k v o : JsObject.keys (JsObject.replaceOwn k v o) = JsObject.keys o.
Proof.
induction o as [|[k' v'] o IH]; simpl; [done|].
unfold JsObject.keys in *. simpl. rewrite IH. f_equal.
by destruct (String.eqb_spec k' k) as [->|].
Qed.

Lemma getOwn_replaceOwn k v o k' :
JsObject.getOwn (JsObject.replaceOwn k v o) k'
= if String.eqb k k'
  then (if JsObject.hasOwn o k then Some v else None)
  else JsObject.getOwn o k'.
Proof.
unfold JsObject.hasOwn.
induction o as [|[k1 v1] o IH]; simpl.
- by destruct (String.eqb k k').
- destruct (String.eqb_spec k1 k) as [->|Hne1]; rewrite !getOwn_cons, ?IH;
    eqb_cases.
Qed.

Lemma keys_insertIndexKey n k v o :
JsObject.keys (JsObject.insertIndexKey n k v o) ≡ₚ k :: JsObject.keys o.
Proof.
induction o as [|[k' v'] o IH]; simpl; [done|].
destruct (JsObject.arrayIndex k') as [n'|]; [|done].
destruct (n' <? n)%N; [|done].
unfold JsObject.keys in *. simpl. rewrite IH. apply perm_swap.
Qed.

Lemma getOwn_insertIndexKey n k v o k' :
JsObject.getOwn o k = None ->
JsObject.getOwn (JsObject.insertIndexKey n k v o) k'
= if String.eqb k k' then Some v else JsObject.getOwn o k'.
Proof.
induction o as [|[k1 v1] o IH]; simpl.
- intros _. by rewrite getOwn_cons.
- rewrite getOwn_cons. destruct (String.eqb_spec k1 k) as [->|Hne1]; [done|].
  intros Hk.
  destruct (JsObject.arrayIndex k1) as [n'|]; [|by rewrite !getOwn_cons].
  destruct (n' <? n)%N; [|by rewrite !getOwn_cons].
  rewrite !getOwn_cons, (IH Hk).
  destruct (String.eqb_spec k1 k') as [->|]; [|done].
  by destruct (String.eqb_spec k k').
Qed.

Lemma getOwn_snoc o k v k' :
JsObject.getOwn (o ++ [(k, v)]) k'
= match JsObject.getOwn o k' with
  | Some x => Some x
  | None => if String.eqb k k' then Some v else None
  end.
Proof.
induction o as [|[k1 v1] o IH]; simpl.
- by rewrite getOwn_cons.
- rewrite !getOwn_cons. by destruct (String.eqb k1 k').
Qed.

Lemma hasOwn_false o k : JsObject.hasOwn o k = false -> JsObject.getOwn o k = None.
Proof. unfold JsObject.hasOwn. by destruct (JsObject.getOwn o k). Qed.

Lemma getOwn_createDataProperty o k v k' :
JsObject.getOwn (JsObject.createDataProperty o k v) k'
= if String.eqb k k' then Some v else JsObject.getOwn o k'.
Proof.
unfold JsObject.createDataProperty.
destruct (JsObject.hasOwn o k) eqn:Hk.
- rewrite getOwn_replaceOwn, Hk. done.
- apply hasOwn_false in Hk.
  destruct (JsObject.arrayIndex k) as [n|].
  + by apply getOwn_insertIndexKey.
  + rewrite getOwn_snoc.
    destruct (String.eqb_spec k k') as [->|]; [by rewrite Hk|].
    by destruct (JsObject.getOwn o k').
Qed.

Lemma keys_createDataProperty_NoDup o k v :
NoDup (JsObject.keys o) -> NoDup (JsObject.keys (JsObject.createDataProperty o k v)).
Proof.
intros Hnd. unfold JsObject.createDataProperty.
destruct (JsObject.hasOwn o k) eqn:Hk.
- by rewrite keys_replaceOwn.
- apply hasOwn_false, getOwn_None in Hk.
  destruct (JsObject.arrayIndex k) as [n|].
  + rewrite keys_insertIndexKey. by apply NoDup_cons.
  + unfold JsObject.keys in *. rewrite map_app. simpl.
    apply NoDup_app. repeat split; [done| |apply NoDup_singleton].
    intros x Hx ->%list_elem_of_singleton. done.
Qed.

Lemma fold_createDataProperty_NoDup es acc :
NoDup (JsObject.keys acc) ->
NoDup (JsObject.keys
         (fold_left (fun o e => JsObject.createDataProperty o (fst e) (snd e)) es acc)).
Proof.
revert acc; induction es as [|e es IH]; intros acc Hnd; simpl; [done|].
apply IH. by apply keys_createDataProperty_NoDup.
Qed.

(** The object [Object.fromEntries] builds has distinct keys. *)
Lemma fromEntries_NoDup es : NoDup (JsObject.keys (JsObject.fromEntries es)).
Proof. apply fold_createDataProperty_NoDup. constructor. Qed.

Lemma getOwn_fold_createDataProperty es acc k :
NoDup (JsObject.keys es) ->
(forall k', k' ∈ JsObject.keys es -> JsObject.getOwn acc k' = None) ->
JsObject.getOwn
  (fold_left (fun o e => JsObject.createDataProperty o (fst e) (snd e)) es acc) k
= match JsObject.getOwn es k with
  | Some v => Some v
  | None => JsObject.getOwn acc k
  end.
Proof.
revert acc; induction es as [|[k1 v1] es IH]; intros acc Hnd Hacc; simpl; [done|].
change (JsObject.keys ((k1, v1) :: es)) with (k1 :: JsObject.keys es) in Hnd.
apply NoDup_cons in Hnd as [Hk1 Hnd].
rewrite IH; [|done|].
- rewrite getOwn_cons, getOwn_createDataProperty. simpl.
  destruct (String.eqb_spec k1 k) as [->|Hne]; [|done].
  apply getOwn_None in Hk1. by rewrite Hk1.
- intros k' Hk'. rewrite getOwn_createDataProperty. simpl.
  destruct (String.eqb_spec k1 k') as [->|Hne]; [done|].
  apply Hacc. by right.
Qed.

(** Copying an object with distinct keys keeps what every key reads. *)
Lemma getOwn_fromEntries es k :
NoDup (JsObject.keys es) ->
JsObject.getOwn (JsObject.fromEntries es) k = JsObject.getOwn es k.
Proof.
intros Hnd. unfold JsObject.fromEntries.
rewrite getOwn_fold_createDataProperty by done.
by destruct (JsObject.getOwn es k).
Qed.

Lemma getOwn_spread o k :
NoDup (JsObject.keys o) ->
JsObject.getOwn (JsObject.spread o) k = JsObject.getOwn o k.
Proof. apply getOwn_fromEntries. Qed.

Lemma spread_NoDup o : NoDup (JsObject.keys (JsObject.spread o)).
Proof. apply fromEntries_NoDup. Qed.

Lemma get_own o k v : JsObject.getOwn o k = Some v -> JsObject.get o k = JsObject.VString v.
Proof. unfold JsObject.get. by intros ->. Qed.

Lemma getOwn_sorted (cmp : string * string -> string * string -> Z) o k :
NoDup (JsObject.keys o) ->
JsObject.getOwn (JsArray.sort cmp o) k = JsObject.getOwn o k.
Proof. intros Hnd. apply getOwn_perm; [done|]. symmetry. apply sort_perm. Qed.

Lemma sorted_keys_NoDup (cmp : string * string -> string * string -> Z) o :
NoDup (JsObject.keys o) -> NoDup (JsObject.keys (JsArray.sort cmp o)).
Proof. intros Hnd. by rewrite (keys_perm _ _ (sort_perm cmp o)). Qed.
End ObjectFacts.

(** ** The post-pass on readable modules *)

Section PostPassRun.
Variable compareModules : ModuleObj -> ModuleObj -> Z.
Variable localeCompare : string -> string -> Z.
Implicit Types h : Heap.

Lemma sortModules_run modulesRef h ms objs :
heapModules h modulesRef = Some ms ->
readModules h ms = Some objs ->
sortModules compareModules modulesRef h
= (<[modulesRef := OModules (sortedModuleRefs compareModules objs)]> h, Ok tt).
Proof.
intros Hms Hobjs. unfold sortModules, setModules. run. rewrite Hms. run.
rewrite readModules_run, Hobjs. run. by rewrite Hms.
Qed.

Lemma sortModules_inv modulesRef h h' :
sortModules compareModules modulesRef h = (h', Ok tt) ->
exists ms objs, heapModules h modulesRef = Some ms /\ readModules h ms = Some objs.
Proof.
unfold sortModules. intros H. run_in H.
destruct (heapModules h modulesRef) as [ms|] eqn:Hms; [|done]. run_in H.
rewrite readModules_run in H.
destruct (readModules h ms) as [objs|] eqn:Hobjs; [|done]. eauto.
Qed.

Lemma SortedFrom_refl h : SortedFrom h h.
Proof.
split; [done|]. intros l. destruct (h !! l) as [[]|]; auto.
Qed.

Lemma SortedFrom_trans h1 h2 h3 : SortedFrom h1 h2 -> SortedFrom h2 h3 -> SortedFrom h1 h3.
Proof.
intros [Hl1 H1] [Hl2 H2]. split; [congruence|].
intros l. specialize (H1 l). specialize (H2 l).
destruct (h1 !! l) as [[| | | |fs|]|]; try (rewrite H1 in H2; exact H2).
destruct H1 as [H1|H1]; rewrite H1 in H2; [exact H2|].
rewrite sort_idempotent in H2 by apply defaultCompare_consistent.
destruct H2; auto.
Qed.

Lemma SortedFrom_sort h l fs :
heapStrings h l = Some fs ->
SortedFrom h (<[l := OStrings (JsArray.sort JsString.defaultCompare fs)]> h).
Proof.
unfold heapStrings. intros Hl. split; [by rewrite length_insert|].
intros l'. destruct (decide (l' = l)) as [->|Hne].
- destruct (h !! l) as [[| | | |fs'|]|] eqn:E; try done.
  injection Hl as ->. right.
  apply list_lookup_insert_eq. by eapply lookup_lt_Some.
- rewrite list_lookup_insert_ne by done.
  destruct (h !! l') as [[]|]; auto.
Qed.

Lemma SortedFrom_module h h' r :
SortedFrom h h' -> heapModule h' r = heapModule h r.
Proof.
intros [_ H]. unfold heapModule. specialize (H r).
destruct (h !! r) as [[| | | |fs|]|]; try (by rewrite H).
by destruct H as [-> | ->].
Qed.

Lemma SortedFrom_modules h h' r :
SortedFrom h h' -> heapModules h' r = heapModules h r.
Proof.
intros [_ H]. unfold heapModules. specialize (H r).
destruct (h !! r) as [[| | | |fs|]|]; try (by rewrite H).
by destruct H as [-> | ->].
Qed.

Lemma SortedFrom_other h h' l o :
SortedFrom h h' -> h !! l = Some o -> (forall fs, o <> OStrings fs) -> h' !! l = Some o.
Proof.
intros [_ H] Hl Hno. specialize (H l). rewrite Hl in H.
destruct o; try done. by destruct (Hno ss).
Qed.

Lemma SortedFrom_strings h h' l fs :
SortedFrom h h' -> heapStrings h l = Some fs ->
heapStrings h' l = Some fs
\/ heapStrings h' l = Some (JsArray.sort JsString.defaultCompare fs).
Proof.
intros [_ H]. unfold heapStrings. specialize (H l).
destruct (h !! l) as [[| | | |fs'|]|]; try done.
intros [= ->]. destruct H as [-> | ->]; auto.
Qed.

Lemma SortedFrom_strings_inv h h' l fs' :
SortedFrom h h' -> heapStrings h' l = Some fs' -> exists fs, heapStrings h l = Some fs.
Proof.
intros [_ H]. unfold heapStrings. specialize (H l).
destruct (h !! l) as [[| | | |fs|]|]; try (rewrite H; done). eauto.
Qed.

(** The loop that sorts the files of each module, on modules that can be
  read: it ends well, only sorts arrays of strings, and leaves the files
  of each module it went through sorted. *)
Lemma sortFilesLoop_run ms h :
Forall (fun r => is_Some (viewModule h r)) ms ->
exists h',
  forEach ms (fun mod' =>
    let! m := getModule (E:=MutationError) mod' in
    let! fs := getStrings (files m) in
    setStrings (files m) (JsArray.sort JsString.defaultCompare fs)) h
  = (h', Ok tt)
  /\ SortedFrom h h'
  /\ forall r v, r ∈ ms -> viewModule h r = Some v ->
                 viewModule h' r = Some (sortFilesView v).
Proof.
revert h; induction ms as [|r ms IH]; intros h Hall.
- exists h. split; [done|split; [apply SortedFrom_refl|]].
  intros r v Hr. by apply elem_of_nil in Hr.
- apply Forall_cons in Hall as [[v Hv] Hall].
  unfold viewModule in Hv.
  destruct (heapModule h r) as [m|] eqn:Hm; [|done].
  destruct (heapStrings h (files m)) as [fs|] eqn:Hfs; [|done].
  set (h1 := <[files m := OStrings (JsArray.sort JsString.defaultCompare fs)]> h).
  assert (SortedFrom h h1) as Hs1 by by apply SortedFrom_sort.
  assert (Forall (fun r => is_Some (viewModule h1 r)) ms) as Hall1.
  { eapply Forall_impl; [exact Hall|]. intros r' [v' Hv']. simpl.
    unfold viewModule in *. rewrite (SortedFrom_module _ _ _ Hs1).
    destruct (heapModule h r') as [m'|]; [|done].
    destruct (heapStrings h (files m')) as [fs'|] eqn:Hfs'; [|done].
    destruct (SortedFrom_strings _ _ _ _ Hs1 Hfs') as [-> | ->]; eauto. }
  destruct (IH h1 Hall1) as (h' & Hrun & Hs & Hviews).
  exists h'. split; [|split].
  + cbn [forEach]. run. rewrite Hm. run. rewrite Hfs.
    unfold setStrings. run. rewrite Hfs. exact Hrun.
  + by eapply SortedFrom_trans.
  + intros r' v' Hr' Hv'.
    assert (viewModule h1 r' = Some v' \/ viewModule h1 r' = Some (sortFilesView v'))
      as Hv1.
    { unfold viewModule in *. rewrite (SortedFrom_module _ _ _ Hs1).
      destruct (heapModule h r') as [m'|]; [|done].
      destruct (heapStrings h (files m')) as [fs'|] eqn:Hfs'; [|done].
      injection Hv' as <-.
      destruct (SortedFrom_strings _ _ _ _ Hs1 Hfs') as [-> | ->]; auto. }
    assert (viewModule h1 r = Some (sortFilesView
              {| mvProtocol := protocol m; mvPath := path m;
                 mvVersion := version m; mvFiles := fs |})) as Hr1.
    { unfold viewModule. rewrite (SortedFrom_module _ _ _ Hs1), Hm.
      unfold h1. by rewrite (heapStrings_insert_strings _ _ _ _ Hfs). }
    assert (sortFilesView (sortFilesView v') = sortFilesView v') as Hidem.
    { unfold sortFilesView. simpl. f_equal.
      apply sort_idempotent, defaultCompare_consistent. }
    apply elem_of_cons in Hr' as [->|Hr'].
    * unfold viewModule in Hv'. rewrite Hm, Hfs in Hv'. injection Hv' as <-.
      assert (viewModule h' r = Some (sortFilesView (sortFilesView
                {| mvProtocol := protocol m; mvPath := path m;
                   mvVersion := version m; mvFiles := fs |}))) as Hfin.
      { unfold viewModule in Hr1 |- *.
        rewrite (SortedFrom_module _ _ _ Hs).
        destruct (heapModule h1 r) as [m1|]; [|done].
        destruct (heapStrings h1 (files m1)) as [fs1|] eqn:Hfs1; [|done].
        injection Hr1 as -> -> -> ->.
        destruct (SortedFrom_strings _ _ _ _ Hs Hfs1) as [-> | ->].
        - unfold sortFilesView. simpl. f_equal.
          by rewrite sort_idempotent by apply defaultCompare_consistent.
        - done. }
      rewrite Hfin. f_equal.
      unfold sortFilesView. simpl. f_equal.
      apply sort_idempotent, defaultCompare_consistent.
    * destruct Hv1 as [Hv1|Hv1].
      -- by apply Hviews.
      -- rewrite (Hviews r' _ Hr' Hv1). by rewrite Hidem.
Qed.
End PostPassRun.

Section PostPassResult.
Variable compareModules : ModuleObj -> ModuleObj -> Z.
Variable localeCompare : string -> string -> Z.
Implicit Types h : Heap.

Lemma insert_lookup h l (o : Object) r :
is_Some (h !! l) ->
(<[l := o]> h) !! r = if decide (r = l) then Some o else h !! r.
Proof.
intros Hl%lookup_lt_is_Some. destruct (decide (r = l)) as [->|Hne].
- by apply list_lookup_insert_eq.
- by apply list_lookup_insert_ne.
Qed.

(** Updating an object that is neither a module nor an array of strings by
  another such object changes no module view. *)
Lemma viewModule_insert_other h l o r :
is_Some (h !! l) ->
heapModule h l = None -> heapStrings h l = None ->
(forall m, o <> OModule m) -> (forall fs, o <> OStrings fs) ->
viewModule (<[l := o]> h) r = viewModule h r.
Proof.
intros Hl Hm Hs Hom Hos. unfold viewModule.
assert (forall r', heapModule (<[l := o]> h) r' = heapModule h r') as Hmod.
{ intros r'. unfold heapModule. rewrite insert_lookup by done.
  destruct (decide (r' = l)) as [->|]; [|done].
  unfold heapModule in Hm. rewrite Hm.
  destruct o; try done. by destruct (Hom m). }
assert (forall r', heapStrings (<[l := o]> h) r' = heapStrings h r') as Hstr.
{ intros r'. unfold heapStrings. rewrite insert_lookup by done.
  destruct (decide (r' = l)) as [->|]; [|done].
  unfold heapStrings in Hs. rewrite Hs.
  destruct o; try done. by destruct (Hos ss). }
rewrite Hmod. destruct (heapModule h r) as [m|]; [|done]. by rewrite Hstr.
Qed.

Lemma heapModule_snoc_other h o r :
(forall m, o <> OModule m) -> heapModule (h ++ [o]) r = heapModule h r.
Proof.
intros Ho. unfold heapModule.
destruct (decide (r < length h)) as [Hlt|Hge].
- by rewrite lookup_app_l.
- rewrite lookup_app_r by lia. rewrite (lookup_ge_None_2 h r) by lia.
  destruct (r - length h) as [|n]; simpl; [|done].
  destruct o; try done. by destruct (Ho m).
Qed.

Lemma heapStrings_snoc_other h o r :
(forall fs, o <> OStrings fs) -> heapStrings (h ++ [o]) r = heapStrings h r.
Proof.
intros Ho. unfold heapStrings.
destruct (decide (r < length h)) as [Hlt|Hge].
- by rewrite lookup_app_l.
- rewrite lookup_app_r by lia. rewrite (lookup_ge_None_2 h r) by lia.
  destruct (r - length h) as [|n]; simpl; [|done].
  destruct o; try done. by destruct (Ho ss).
Qed.

Lemma viewModule_snoc_other h o r :
(forall m, o <> OModule m) -> (forall fs, o <> OStrings fs) ->
viewModule (h ++ [o]) r = viewModule h r.
Proof.
intros Hm Hs. unfold viewModule. rewrite heapModule_snoc_other by done.
destruct (heapModule h r); [|done]. by rewrite heapStrings_snoc_other.
Qed.

Lemma viewModules_ext h h' ms :
(forall r, r ∈ ms -> viewModule h' r = viewModule h r) ->
viewModules h' ms = viewModules h ms.
Proof.
induction ms as [|r ms IH]; simpl; [done|]. intros H.
rewrite (H r) by left. rewrite IH; [done|]. intros r' Hr'. apply H. by right.
Qed.

Lemma readModules_ext h h' ms :
(forall r, r ∈ ms -> heapModule h' r = heapModule h r) ->
readModules h' ms = readModules h ms.
Proof.
induction ms as [|r ms IH]; simpl; [done|]. intros H.
rewrite (H r) by left. rewrite IH; [done|]. intros r' Hr'. apply H. by right.
Qed.

Lemma viewModules_Forall h ms vs :
viewModules h ms = Some vs -> Forall (fun r => is_Some (viewModule h r)) ms.
Proof.
revert vs; induction ms as [|r ms IH]; intros vs; simpl; [constructor|].
destruct (viewModule h r) as [v|] eqn:Hv; [|done].
destruct (viewModules h ms) as [vs'|]; [|done]. intros _.
constructor; [eauto|]. by eapply IH.
Qed.

Lemma Forall_viewModules h ms :
Forall (fun r => is_Some (viewModule h r)) ms -> is_Some (viewModules h ms).
Proof.
induction 1 as [|r ms [v Hv] _ [vs Hvs]]; simpl; [eauto|].
rewrite Hv, Hvs. eauto.
Qed.

Lemma viewModules_readModules h ms vs :
viewModules h ms = Some vs -> is_Some (readModules h ms).
Proof.
revert vs; induction ms as [|r ms IH]; intros vs; simpl; [eauto|].
unfold viewModule. destruct (heapModule h r) as [m|]; [|done].
destruct (heapStrings h (files m)); [|done].
destruct (viewModules h ms) as [vs'|]; [|done]. intros _.
destruct (IH _ eq_refl) as [objs ->]. eauto.
Qed.

Lemma readModules_of_pairs h (objs : list (ref * ModuleObj)) :
Forall (fun o => heapModule h (fst o) = Some (snd o)) objs ->
readModules h (map fst objs) = Some objs.
Proof.
induction 1 as [|[r m] objs Hm _ IH]; simpl; [done|].
simpl in Hm. by rewrite Hm, IH.
Qed.

Lemma viewModules_map h ms vs (f : ModuleView -> ModuleView) h' :
viewModules h ms = Some vs ->
(forall r v, r ∈ ms -> viewModule h r = Some v -> viewModule h' r = Some (f v)) ->
viewModules h' ms = Some (map f vs).
Proof.
revert vs; induction ms as [|r ms IH]; intros vs; simpl.
- by intros [= <-].
- destruct (viewModule h r) as [v|] eqn:Hv; [|done].
  destruct (viewModules h ms) as [vs'|]; [|done].
  intros [= <-] H. rewrite (H r v) by (done || left).
  rewrite (IH vs' eq_refl); [done|]. intros r' v' Hr'. apply H. by right.
Qed.

(** The end of [mutateStore] on a working copy that can be read: it
  returns [s], whose modules are the sorted references with their files
  sorted and whose aliases are rebuilt from the sorted entries. *)
Lemma sortAndReturn_run s modulesRef aliasesRef h st c ms vs al :
heapStore h s = Some st ->
heapConfig h (config st) = Some c ->
modules c = modulesRef ->
heapModules h modulesRef = Some ms ->
viewModules h ms = Some vs ->
heapAliases h aliasesRef = Some al ->
exists h' objs vs',
  sortAndReturn compareModules localeCompare s modulesRef aliasesRef h = (h', Ok s)
  /\ readModules h ms = Some objs
  /\ viewModules h (sortedModuleRefs compareModules objs) = Some vs'
  /\ storeModules h' s = Some (sortedModuleRefs compareModules objs)
  /\ readModules h' (sortedModuleRefs compareModules objs)
     = Some (JsArray.sort (fun a b => compareModules (snd a) (snd b)) objs)
  /\ viewStore h' s
     = Some {| svModules := map sortFilesView vs';
               svAliases := JsObject.fromEntries
                              (sortedAliasEntries localeCompare al) |}.
Proof.
intros Hst Hc Hmc Hms Hvs Hal. subst modulesRef.
set (modulesRef := modules c) in *.
destruct (viewModules_readModules _ _ _ Hvs) as [objs Hobjs].
set (sobjs := JsArray.sort (fun a b => compareModules (snd a) (snd b)) objs).
set (srefs := sortedModuleRefs compareModules objs).
assert (srefs ≡ₚ ms) as Hperm.
{ unfold srefs, sortedModuleRefs. rewrite <- (readModules_fst _ _ _ Hobjs).
  apply Permutation_map, sort_perm. }
assert (Forall (fun r => is_Some (viewModule h r)) srefs) as Hread.
{ rewrite Hperm. by eapply viewModules_Forall. }
destruct (Forall_viewModules _ _ Hread) as [vs' Hvs'].
(* modules.sort *)
set (h1 := <[modulesRef := OModules srefs]> h).
assert (is_Some (h !! modulesRef)) as Hmr.
{ unfold heapModules in Hms. destruct (h !! modulesRef); [eauto|done]. }
assert (forall r, viewModule h1 r = viewModule h r) as Hv1.
{ intros r. apply viewModule_insert_other; try done.
  - unfold heapModule. unfold heapModules in Hms.
    destruct (h !! modulesRef) as [[]|]; done.
  - unfold heapStrings. unfold heapModules in Hms.
    destruct (h !! modulesRef) as [[]|]; done. }
assert (forall r, r <> modulesRef -> h1 !! r = h !! r) as Hne1.
{ intros r Hr. unfold h1. by rewrite list_lookup_insert_ne. }
assert (heapModules h1 modulesRef = Some srefs) as Hms1.
{ unfold heapModules, h1. rewrite insert_lookup by done.
  by rewrite decide_True. }
(* the files *)
assert (Forall (fun r => is_Some (viewModule h1 r)) srefs) as Hread1.
{ eapply Forall_impl; [exact Hread|]. intros r. simpl. by rewrite Hv1. }
destruct (sortFilesLoop_run srefs h1 Hread1) as (h2 & Hrun2 & Hs2 & Hviews2).
assert (viewModules h2 srefs = Some (map sortFilesView vs')) as Hvs2.
{ apply (viewModules_map h srefs vs' sortFilesView h2 Hvs').
  intros r v Hr Hv. apply Hviews2; [done|]. by rewrite Hv1. }
assert (modulesRef <> aliasesRef) as Hma.
{ intros ->. unfold heapModules in Hms. unfold heapAliases in Hal.
  destruct (h !! aliasesRef) as [[]|]; done. }
assert (heapAliases h2 aliasesRef = Some al) as Hal2.
{ unfold heapAliases in *.
  destruct (h !! aliasesRef) as [o|] eqn:Ho; [|done].
  destruct o; try done. injection Hal as ->.
  rewrite <- Hne1 in Ho by done.
  by rewrite (SortedFrom_other _ _ _ _ Hs2 Ho). }
(* the aliases *)
set (newAl := OAliases (JsObject.fromEntries (sortedAliasEntries localeCompare al))).
set (h3 := h2 ++ [newAl]).
assert (modulesRef <> s) as Hms_s.
{ intros ->. unfold heapModules in Hms. unfold heapStore in Hst.
  destruct (h !! s) as [[]|]; done. }
assert (h2 !! s = Some (OStore st)) as Hst2.
{ unfold heapStore in Hst. destruct (h !! s) as [o|] eqn:Ho; [|done].
  destruct o; try done. injection Hst as ->.
  rewrite <- Hne1 in Ho by done.
  by rewrite (SortedFrom_other _ _ _ _ Hs2 Ho). }
assert (modulesRef <> config st) as Hms_c.
{ intros Heq. unfold heapModules in Hms. unfold heapConfig in Hc.
  rewrite <- Heq in Hc. destruct (h !! modulesRef) as [[]|]; done. }
assert (h2 !! config st = Some (OConfig c)) as Hc2.
{ unfold heapConfig in Hc. destruct (h !! config st) as [o|] eqn:Ho; [|done].
  destruct o; try done. injection Hc as ->.
  rewrite <- Hne1 in Ho by done.
  by rewrite (SortedFrom_other _ _ _ _ Hs2 Ho). }
assert (heapModules h2 modulesRef = Some srefs) as Hms2.
{ by rewrite (SortedFrom_modules _ _ _ Hs2). }
set (c' := {| modules := modules c; aliases := length h2 |}).
set (h4 := <[config st := OConfig c']> h3).
assert (config st < length h2) as Hclt by by eapply lookup_lt_Some.
assert (s < length h2) as Hslt by by eapply lookup_lt_Some.
assert (s <> config st) as Hsc.
{ intros Heq. rewrite Heq in Hst2. congruence. }
assert (h3 !! config st = Some (OConfig c)) as Hc3
  by (unfold h3; by rewrite lookup_app_l).
assert (forall r, viewModule h4 r = viewModule h2 r) as Hv4.
{ intros r. unfold h4.
  rewrite viewModule_insert_other;
    [ unfold h3; by apply viewModule_snoc_other
    | by rewrite Hc3
    | unfold heapModule; by rewrite Hc3
    | unfold heapStrings; by rewrite Hc3
    | done | done ]. }
exists h4, objs, vs'. split; [|split; [done|split; [done|]]].
- unfold sortAndReturn. run.
  rewrite (sortModules_run _ _ _ _ _ Hms Hobjs).
  fold srefs. fold h1.
  unfold sortFiles. run. rewrite Hms1. run.
  rewrite Hrun2. run. rewrite Hal2. run.
  unfold alloc. run. fold newAl. fold h3.
  unfold heapStore. unfold h3 at 1. rewrite lookup_app_l by done. rewrite Hst2.
  unfold assignAliases. run. unfold heapConfig. rewrite Hc3.
  unfold setConfig. run. unfold heapConfig. rewrite Hc3. done.
- assert (heapModules h4 modulesRef = Some srefs) as Hms4.
  { unfold heapModules, h4. rewrite list_lookup_insert_ne by done.
    unfold h3. rewrite lookup_app_l.
    - exact Hms2.
    - unfold heapModules in Hms2.
      destruct (h2 !! modulesRef) eqn:E; [by eapply lookup_lt_Some|done]. }
  assert (storeModules h4 s = Some srefs) as Hsm4.
  { unfold storeModules, heapStore, heapConfig, h4.
    rewrite list_lookup_insert_ne by done.
    unfold h3 at 1. rewrite lookup_app_l by done. rewrite Hst2.
    rewrite list_lookup_insert_eq
      by (unfold h3; rewrite length_app; simpl; lia).
    unfold c'. cbn [modules]. exact Hms4. }
  split; [exact Hsm4|split].
  + rewrite (readModules_ext h); [|].
    * unfold srefs, sortedModuleRefs. apply readModules_of_pairs.
      apply Forall_forall. intros o Ho.
      pose proof (readModules_snd _ _ _ Hobjs) as Hall.
      apply (proj1 (Forall_forall _ _) Hall).
      by rewrite <- (sort_perm (fun a b => compareModules (snd a) (snd b)) objs).
    * intros r Hr.
      assert (is_Some (viewModule h2 r)) as [v2 Hv2r].
      { by apply (proj1 (Forall_forall _ _) (viewModules_Forall _ _ _ Hvs2)). }
      unfold viewModule in Hv2r.
      destruct (heapModule h2 r) as [m2|] eqn:Hm2; [|done].
      rewrite (SortedFrom_module _ _ _ Hs2) in Hm2.
      assert (heapModule h r = Some m2) as Hmr'.
      { unfold heapModule in *. rewrite <- Hm2. symmetry.
        destruct (decide (r = modulesRef)) as [->|Hne]; [|by rewrite Hne1].
        exfalso. unfold h1 in Hm2. rewrite insert_lookup in Hm2 by done.
        by rewrite decide_True in Hm2. }
      rewrite Hmr'. unfold heapModule, h4.
      destruct (decide (r = config st)) as [->|Hne].
      -- exfalso. unfold heapModule in Hmr'. unfold heapConfig in Hc.
         destruct (h !! config st) as [[]|]; done.
      -- rewrite list_lookup_insert_ne by done.
         change (heapModule h3 r = Some m2). unfold h3.
         rewrite heapModule_snoc_other by done.
         by rewrite (SortedFrom_module _ _ _ Hs2).
  + unfold viewStore. rewrite Hsm4.
    assert (storeAliases h4 s
            = Some (JsObject.fromEntries (sortedAliasEntries localeCompare al)))
      as ->.
    { unfold storeAliases, heapStore, heapConfig, heapAliases, h4.
      rewrite list_lookup_insert_ne by done.
      unfold h3 at 1. rewrite lookup_app_l by done. rewrite Hst2.
      rewrite list_lookup_insert_eq
        by (unfold h3; rewrite length_app; simpl; lia).
      unfold c'. cbn [aliases].
      rewrite list_lookup_insert_ne by lia.
      unfold h3. rewrite lookup_app_r by lia.
      by replace (length h2 - length h2) with 0 by lia. }
    rewrite (viewModules_ext h2) by (intros; apply Hv4).
    by rewrite Hvs2.
Qed.
End PostPassResult.

(** ** The copy can be read *)

Section CopyReadable.
Implicit Types h : Heap.

Lemma viewModules_copies (prefix : Heap) vs rest :
viewModules (prefix ++ copiesOf (length prefix) vs ++ rest)
  (copyRefs (length prefix) vs) = Some vs.
Proof.
revert prefix; induction vs as [|v vs IH]; intros prefix; [done|].
cbn [copiesOf copyRefs viewModules].
assert (viewModule
          (prefix ++ (OStrings (mvFiles v)
             :: OModule {| protocol := mvProtocol v; path := mvPath v;
                           version := mvVersion v; files := length prefix |}
             :: copiesOf (length prefix + 2) vs) ++ rest) (length prefix + 1)
        = Some v) as ->.
{ unfold viewModule, heapModule, heapStrings.
  rewrite lookup_app_r by lia.
  replace (length prefix + 1 - length prefix) with 1 by lia. simpl.
  rewrite lookup_app_r by lia.
  replace (length prefix - length prefix) with 0 by lia. simpl.
  by destruct v. }
specialize (IH (prefix ++ [OStrings (mvFiles v);
                  OModule {| protocol := mvProtocol v; path := mvPath v;
                             version := mvVersion v; files := length prefix |}])).
rewrite length_app in IH. simpl in IH.
rewrite <- !app_assoc in IH. simpl in IH. simpl. by rewrite IH.
Qed.

Lemma loopHeap_views h vs al :
viewModules (loopHeap h vs al) (copyRefs (length h) vs) = Some vs.
Proof.
unfold loopHeap, duplicated. rewrite <- !app_assoc.
apply viewModules_copies.
Qed.

Lemma toString_view h r v m :
viewModule h r = Some v -> heapModule h r = Some m -> toString m = identity v.
Proof.
unfold viewModule. intros Hv Hm. rewrite Hm in Hv.
destruct (heapStrings h (files m)); [|done]. by injection Hv as <-.
Qed.

(** On modules that can be read the search for an owner ends: with a module
  when the identity of some module is a prefix of the probe, without
  otherwise. *)
Lemma firstOwner_views {E} h probe ms vs :
viewModules h ms = Some vs ->
(exists r v, firstOwner (E:=E) h probe ms = Ok (Some r)
             /\ viewModule h r = Some v
             /\ JsString.startsWith probe (identity v) = true)
\/ (firstOwner (E:=E) h probe ms = Ok None
    /\ Forall (fun v => JsString.startsWith probe (identity v) = false) vs).
Proof.
revert vs; induction ms as [|r ms IH]; intros vs; simpl.
- intros [= <-]. right. split; [done|constructor].
- destruct (viewModule h r) as [v|] eqn:Hv; [|done].
  destruct (viewModules h ms) as [vs'|] eqn:Hvs; [|done].
  intros [= <-].
  assert (exists m, heapModule h r = Some m) as [m Hm].
  { unfold viewModule in Hv. destruct (heapModule h r); [eauto|done]. }
  rewrite Hm, (toString_view _ _ _ _ Hv Hm).
  destruct (JsString.startsWith probe (identity v)) eqn:Hp.
  + left. eauto.
  + destruct (IH vs' eq_refl) as [(r' & v' & Hf & Hv' & Hp')|[Hf Hall]].
    * left. eauto.
    * right. split; [done|]. by constructor.
Qed.
End CopyReadable.

(** ** One alias action on a readable manifest *)

Section AliasActions.
Variable compareModules : ModuleObj -> ModuleObj -> Z.
Variable localeCompare : string -> string -> Z.
Implicit Types h : Heap.

(** The working aliases object replaced by [x] in the heap the loop starts
  from. *)
Lemma loopHeap_with_aliases h vs al x :
let H1 := <[workAliasesRef h vs := OAliases x]> (loopHeap h vs al) in
heapStore H1 (copyStoreRef h vs) = Some {| config := copyConfigRef h vs |}
/\ heapConfig H1 (copyConfigRef h vs)
   = Some {| modules := copyModulesRef h vs; aliases := copyAliasesRef h vs |}
/\ heapModules H1 (copyModulesRef h vs) = Some (copyRefs (length h) vs)
/\ viewModules H1 (copyRefs (length h) vs) = Some vs
/\ heapAliases H1 (workAliasesRef h vs) = Some x.
Proof.
intros H1.
assert (is_Some (loopHeap h vs al !! workAliasesRef h vs)) as Hsome.
{ pose proof (loopHeap_aliases h vs al) as Hal. unfold heapAliases in Hal.
  destruct (loopHeap h vs al !! workAliasesRef h vs); [eauto|done]. }
assert (forall r, r <> workAliasesRef h vs -> H1 !! r = loopHeap h vs al !! r) as Hne.
{ intros r Hr. unfold H1. by rewrite list_lookup_insert_ne. }
repeat split.
- unfold heapStore. rewrite Hne by (unfold copyStoreRef, workAliasesRef; lia).
  apply loopHeap_store.
- unfold heapConfig. rewrite Hne by (unfold copyConfigRef, workAliasesRef; lia).
  apply loopHeap_config.
- unfold heapModules. rewrite Hne by (unfold copyModulesRef, workAliasesRef; lia).
  apply loopHeap_modules.
- rewrite (viewModules_ext (loopHeap h vs al)); [apply loopHeap_views|].
  intros r _. unfold H1. apply viewModule_insert_other; try done.
  + pose proof (loopHeap_aliases h vs al) as Hal.
    unfold heapAliases in Hal. unfold heapModule.
    destruct (loopHeap h vs al !! workAliasesRef h vs) as [[]|]; done.
  + pose proof (loopHeap_aliases h vs al) as Hal.
    unfold heapAliases in Hal. unfold heapStrings.
    destruct (loopHeap h vs al !! workAliasesRef h vs) as [[]|]; done.
- unfold heapAliases, H1. rewrite insert_lookup by done.
  by rewrite decide_True.
Qed.

Lemma viewModules_elem_view h ms vs r v :
viewModules h ms = Some vs -> r ∈ ms -> viewModule h r = Some v -> v ∈ vs.
Proof.
revert vs; induction ms as [|x ms IH]; intros vs Hvs Hr Hv.
- by apply elem_of_nil in Hr.
- simpl in Hvs. destruct (viewModule h x) as [vx|] eqn:Hx; [|done].
  destruct (viewModules h ms) as [vs'|] eqn:Hvs'; [|done].
  injection Hvs as <-. apply elem_of_cons in Hr as [->|Hr].
  + rewrite Hx in Hv. injection Hv as ->. left.
  + right. by eapply IH.
Qed.

Lemma loopHeap_insert_same h vs al :
<[workAliasesRef h vs := OAliases (JsObject.spread (JsObject.spread al))]>
  (loopHeap h vs al) = loopHeap h vs al.
Proof.
apply list_insert_id.
pose proof (loopHeap_aliases h vs al) as Hal. unfold heapAliases in Hal.
destruct (loopHeap h vs al !! workAliasesRef h vs) as [[]|]; try done.
by injection Hal as ->.
Qed.

(** The end of [mutateStore] from the heap the loop starts from, with the
  working aliases [x]. *)
Lemma sortAndReturn_loopHeap h vs al x :
exists h' vs',
  sortAndReturn compareModules localeCompare (copyStoreRef h vs)
    (copyModulesRef h vs) (workAliasesRef h vs)
    (<[workAliasesRef h vs := OAliases x]> (loopHeap h vs al))
  = (h', Ok (copyStoreRef h vs))
  /\ viewStore h' (copyStoreRef h vs)
     = Some {| svModules := map sortFilesView vs';
               svAliases := JsObject.fromEntries
                              (sortedAliasEntries localeCompare x) |}.
Proof.
destruct (loopHeap_with_aliases h vs al x) as (Hst & Hc & Hms & Hvs & Hal).
destruct (sortAndReturn_run compareModules localeCompare
            _ _ _ _ _ _ _ _ _ Hst Hc eq_refl Hms Hvs Hal)
  as (h' & objs & vs' & Hrun & _ & _ & _ & _ & Hview).
eauto.
Qed.

Lemma mutateStore_addAlias_exists h store v aliasPath aliasTargetPath :
viewStore h store = Some v ->
JsObject.truthy
  (JsObject.get (JsObject.spread (JsObject.spread (svAliases v))) aliasPath) = true ->
mutateStore compareModules localeCompare store
  [ADD_ALIAS aliasPath aliasTargetPath] h
= (loopHeap h (svModules v) (svAliases v), Throw (AliasExists aliasPath)).
Proof.
intros Hv Ht. rewrite (mutateStore_unfold _ _ _ _ _ _ Hv).
cbn [forEach mutateStoreAction]. run.
by rewrite loopHeap_aliases, Ht.
Qed.

Lemma mutateStore_addAlias_no_owner h store v aliasPath aliasTargetPath :
viewStore h store = Some v ->
JsObject.truthy
  (JsObject.get (JsObject.spread (JsObject.spread (svAliases v))) aliasPath) = false ->
Forall (fun mv => JsString.startsWith aliasTargetPath (identity mv) = false)
  (svModules v) ->
mutateStore compareModules localeCompare store
  [ADD_ALIAS aliasPath aliasTargetPath] h
= (loopHeap h (svModules v) (svAliases v),
   Throw (ModuleNotFound OpAddAlias aliasTargetPath)).
Proof.
intros Hv Ht Hno. rewrite (mutateStore_unfold _ _ _ _ _ _ Hv).
cbn [forEach mutateStoreAction]. run.
rewrite loopHeap_aliases, Ht. run. rewrite loopHeap_modules. run.
destruct (firstOwner_views (E:=MutationError) _ aliasTargetPath _ _
            (loopHeap_views h (svModules v) (svAliases v)))
  as [(r & mv & Hf & Hmv & Hp)|[Hf _]].
- exfalso.
  assert (mv ∈ svModules v) as Hin.
  { apply firstOwner_Some in Hf as [Hr _].
    eapply viewModules_elem_view; [apply loopHeap_views|exact Hr|exact Hmv]. }
  apply (proj1 (Forall_forall _ _) Hno) in Hin. congruence.
- by rewrite Hf.
Qed.

Lemma mutateStore_addAlias_ok h store v aliasPath aliasTargetPath :
viewStore h store = Some v ->
JsObject.truthy
  (JsObject.get (JsObject.spread (JsObject.spread (svAliases v))) aliasPath) = false ->
Exists (fun mv => JsString.startsWith aliasTargetPath (identity mv) = true)
  (svModules v) ->
exists h' vs',
  mutateStore compareModules localeCompare store
    [ADD_ALIAS aliasPath aliasTargetPath] h
  = (h', Ok (copyStoreRef h (svModules v)))
  /\ viewStore h' (copyStoreRef h (svModules v))
     = Some {| svModules := map sortFilesView vs';
               svAliases :=
                 JsObject.fromEntries
                   (sortedAliasEntries localeCompare
                      (JsObject.set (JsObject.spread (JsObject.spread (svAliases v)))
                         aliasPath aliasTargetPath)) |}.
Proof.
intros Hv Ht Hex. rewrite (mutateStore_unfold _ _ _ _ _ _ Hv).
destruct (sortAndReturn_loopHeap h (svModules v) (svAliases v)
            (JsObject.set (JsObject.spread (JsObject.spread (svAliases v)))
               aliasPath aliasTargetPath)) as (h' & vs' & Hrun & Hview).
exists h', vs'. split; [|done].
cbn [forEach mutateStoreAction]. run.
rewrite loopHeap_aliases, Ht. run. rewrite loopHeap_modules. run.
destruct (firstOwner_views (E:=MutationError) _ aliasTargetPath _ _
            (loopHeap_views h (svModules v) (svAliases v)))
  as [(r & mv & Hf & Hmv & Hp)|[Hf Hall]].
- rewrite Hf. run. rewrite loopHeap_aliases. unfold setAliases. run.
  rewrite loopHeap_aliases. exact Hrun.
- exfalso. apply Exists_exists in Hex as (mv & Hin & Hp).
  apply (proj1 (Forall_forall _ _) Hall) in Hin. congruence.
Qed.

Lemma mutateStore_removeAlias_missing h store v aliasPath :
viewStore h store = Some v ->
JsObject.truthy
  (JsObject.get (JsObject.spread (JsObject.spread (svAliases v))) aliasPath) = false ->
mutateStore compareModules localeCompare store [REMOVE_ALIAS aliasPath] h
= (loopHeap h (svModules v) (svAliases v), Throw (AliasNotFound aliasPath)).
Proof.
intros Hv Ht. rewrite (mutateStore_unfold _ _ _ _ _ _ Hv).
cbn [forEach mutateStoreAction]. run.
by rewrite loopHeap_aliases, Ht.
Qed.
End AliasActions.

(** ** C10 and C6: when an alias exists *)

Section AliasExistence.
Implicit Types (o : JsObject.t) (k v : string).

Lemma get_spread_twice o k :
NoDup (JsObject.keys o) ->
JsObject.get (JsObject.spread (JsObject.spread o)) k = JsObject.get o k.
Proof.
intros Hnd. unfold JsObject.get.
rewrite getOwn_spread by apply spread_NoDup.
by rewrite getOwn_spread.
Qed.

Lemma getOwn_spread_twice o k :
NoDup (JsObject.keys o) ->
JsObject.getOwn (JsObject.spread (JsObject.spread o)) k = JsObject.getOwn o k.
Proof.
intros Hnd. rewrite getOwn_spread by apply spread_NoDup.
by rewrite getOwn_spread.
Qed.

(** What makes [o[k]] truthy. *)
Lemma truthy_get o k :
JsObject.truthy (JsObject.get o k) = true
<-> (exists t, JsObject.getOwn o k = Some t /\ t <> "")
    \/ (JsObject.getOwn o k = None /\ JsObject.inherited k = true).
Proof.
unfold JsObject.get. destruct (JsObject.getOwn o k) as [t|]; simpl.
- destruct (String.eqb_spec t "") as [->|Hne]; simpl.
  + split; [done|]. intros [(t & [= <-] & Ht)|[? _]]; done.
  + split; [|done]. intros _. left. eauto.
- destruct (JsObject.inherited k); simpl.
  + split; [|done]. intros _. by right.
  + split; [done|]. intros [(t & ? & _)|[_ ?]]; done.
Qed.

Lemma inherited_proto : JsObject.inherited "__proto__" = true.
Proof. by vm_compute. Qed.

Lemma getOwn_set o k v :
JsObject.hasOwn o k = true \/ JsObject.inherited k = false ->
JsObject.getOwn (JsObject.set o k v) k = Some v.
Proof.
intros H. unfold JsObject.set.
destruct (JsObject.hasOwn o k) eqn:Hk.
- by rewrite getOwn_replaceOwn, String.eqb_refl, Hk.
- destruct H as [?|Hi]; [done|].
  destruct (String.eqb_spec k "__proto__") as [->|Hne].
  + by rewrite inherited_proto in Hi.
  + by rewrite getOwn_createDataProperty, String.eqb_refl.
Qed.

Lemma set_NoDup o k v :
NoDup (JsObject.keys o) -> NoDup (JsObject.keys (JsObject.set o k v)).
Proof.
intros Hnd. unfold JsObject.set.
destruct (JsObject.hasOwn o k); [by rewrite keys_replaceOwn|].
destruct (String.eqb k "__proto__"); [done|].
by apply keys_createDataProperty_NoDup.
Qed.

(** What a key reads in the aliases [mutateStore] returns: what it read in
  the working aliases. *)
Lemma getOwn_returned_aliases (localeCompare : string -> string -> Z) o k :
NoDup (JsObject.keys o) ->
JsObject.getOwn (JsObject.fromEntries (sortedAliasEntries localeCompare o)) k
= JsObject.getOwn o k.
Proof.
intros Hnd. unfold sortedAliasEntries, JsObject.entries.
rewrite getOwn_fromEntries by by apply sorted_keys_NoDup.
by apply getOwn_sorted.
Qed.
End AliasExistence.

(** C10.  [mutateStore] decides whether an alias exists by the truthiness of
    the stored target path: when the aliases of the manifest map a key to
    the empty string, the key is an own key of the map, yet [ADD_ALIAS] on
    that key never throws [AliasExists] and, when the target has an owning
    module, returns a manifest in which the key maps to the new target; and
    [REMOVE_ALIAS] on that key throws [AliasNotFound]. *)
Theorem alias_existence_by_truthiness
  (compareModules : ModuleObj -> ModuleObj -> Z)
  (localeCompare : string -> string -> Z)
  (h : Heap) (store : ref) (v : StoreView) (aliasPath : string) :
  viewStore h store = Some v ->
  NoDup (JsObject.keys (svAliases v)) ->
  JsObject.getOwn (svAliases v) aliasPath = Some "" ->
  JsObject.hasOwn (svAliases v) aliasPath = true
  /\ (forall target,
        snd (mutateStore compareModules localeCompare store
               [ADD_ALIAS aliasPath target] h)
        <> Throw (AliasExists aliasPath))
  /\ (forall target,
        Exists (fun mv => JsString.startsWith target (identity mv) = true)
          (svModules v) ->
        exists h' s' v',
          mutateStore compareModules localeCompare store
            [ADD_ALIAS aliasPath target] h = (h', Ok s')
          /\ viewStore h' s' = Some v'
          /\ JsObject.getOwn (svAliases v') aliasPath = Some target)
  /\ snd (mutateStore compareModules localeCompare store [REMOVE_ALIAS aliasPath] h)
     = Throw (AliasNotFound aliasPath).
Proof.
  intros Hv Hnd Hk.
  assert (JsObject.truthy
            (JsObject.get (JsObject.spread (JsObject.spread (svAliases v))) aliasPath)
          = false) as Hfalsy.
  { rewrite get_spread_twice by done. by rewrite (get_own _ _ _ Hk). }
  assert (forall target,
            Exists (fun mv => JsString.startsWith target (identity mv) = true)
              (svModules v) ->
            exists h' s' v',
              mutateStore compareModules localeCompare store
                [ADD_ALIAS aliasPath target] h = (h', Ok s')
              /\ viewStore h' s' = Some v'
              /\ JsObject.getOwn (svAliases v') aliasPath = Some target) as Hok.
  { intros target Hex.
    destruct (mutateStore_addAlias_ok compareModules localeCompare
                h store v aliasPath target Hv Hfalsy Hex) as (h' & vs' & Hrun & Hview).
    eexists h', _, _. split; [exact Hrun|split; [exact Hview|]]. simpl.
    rewrite getOwn_returned_aliases by (apply set_NoDup, spread_NoDup).
    apply getOwn_set. left. unfold JsObject.hasOwn.
    by rewrite getOwn_spread_twice, Hk. }
  split; [by unfold JsObject.hasOwn; rewrite Hk|split; [|split; [exact Hok|]]].
  - intros target.
    destruct (decide (Exists (fun mv => JsString.startsWith target (identity mv) = true)
                        (svModules v))) as [Hex|Hnex].
    + destruct (Hok target Hex) as (h' & s' & v' & -> & _). done.
    + rewrite (mutateStore_addAlias_no_owner compareModules localeCompare
                 h store v aliasPath target Hv Hfalsy); [done|].
      apply Forall_forall. intros mv Hmv.
      destruct (JsString.startsWith target (identity mv)) eqn:Hp; [|done].
      destruct Hnex. apply Exists_exists. eauto.
  - by rewrite (mutateStore_removeAlias_missing compareModules localeCompare
                  h store v aliasPath Hv Hfalsy).
Qed.

Lemma alias_existence_by_truthiness_witness :
  snd (mutateStore compareByIdentity JsString.defaultCompare 0
         [REMOVE_ALIAS "mod.ts"] emptyTargetHeap)
  = Throw (AliasNotFound "mod.ts")
  /\ exists h' s' v',
       mutateStore compareByIdentity JsString.defaultCompare 0
         [ADD_ALIAS "mod.ts" "https://deno.land/std/fs/mod.ts"] emptyTargetHeap
       = (h', Ok s')
       /\ viewStore h' s' = Some v'
       /\ JsObject.getOwn (svAliases v') "mod.ts" = Some "https://deno.land/std/fs/mod.ts".
Proof.
  destruct (alias_existence_by_truthiness compareByIdentity JsString.defaultCompare
              emptyTargetHeap 0
              {| svModules := [stdModule]; svAliases := [("mod.ts", "")] |} "mod.ts")
    as (_ & _ & Hadd & Hremove).
  - reflexivity.
  - apply (bool_decide_unpack _). vm_compute. exact I.
  - reflexivity.
  - split; [exact Hremove|].
    apply (Hadd "https://deno.land/std/fs/mod.ts").
    apply Exists_cons_hd. reflexivity.
Defined.

(** C6 (amended).  On a readable manifest whose aliases have distinct keys,
    and for an alias path that is not the name of a property every object
    inherits from [Object.prototype], [mutateStore] on an [ADD_ALIAS]:
    throws [AliasExists] exactly when the alias path is a key of the aliases
    map with a non-empty target; otherwise throws [ModuleNotFound] when the
    identity of no module is a prefix of the target path; and otherwise
    returns a manifest in which the alias path maps to the target path,
    whatever files the owning module has linked. *)
Theorem addAlias_outcome
  (compareModules : ModuleObj -> ModuleObj -> Z)
  (localeCompare : string -> string -> Z)
  (h : Heap) (store : ref) (v : StoreView) (aliasPath aliasTargetPath : string) :
  viewStore h store = Some v ->
  NoDup (JsObject.keys (svAliases v)) ->
  JsObject.inherited aliasPath = false ->
  let present :=
    exists t, JsObject.getOwn (svAliases v) aliasPath = Some t /\ t <> "" in
  let outcome :=
    snd (mutateStore compareModules localeCompare store
           [ADD_ALIAS aliasPath aliasTargetPath] h) in
  (outcome = Throw (AliasExists aliasPath) <-> present)
  /\ (~ present ->
      Forall (fun mv => JsString.startsWith aliasTargetPath (identity mv) = false)
        (svModules v) ->
      outcome = Throw (ModuleNotFound OpAddAlias aliasTargetPath))
  /\ (~ present ->
      Exists (fun mv => JsString.startsWith aliasTargetPath (identity mv) = true)
        (svModules v) ->
      exists h' s' v',
        mutateStore compareModules localeCompare store
          [ADD_ALIAS aliasPath aliasTargetPath] h = (h', Ok s')
        /\ viewStore h' s' = Some v'
        /\ JsObject.getOwn (svAliases v') aliasPath = Some aliasTargetPath).
Proof.
  intros Hv Hnd Hinh present outcome.
  assert (JsObject.truthy
            (JsObject.get (JsObject.spread (JsObject.spread (svAliases v))) aliasPath)
          = true <-> present) as Htruthy.
  { rewrite get_spread_twice by done. rewrite truthy_get. unfold present.
    split; [|by left]. intros [?|[_ ?]]; [done|congruence]. }
  assert (~ present ->
          JsObject.truthy
            (JsObject.get (JsObject.spread (JsObject.spread (svAliases v))) aliasPath)
          = false) as Hfalsy.
  { intros Hnp. destruct (JsObject.truthy _) eqn:E; [|done].
    destruct Hnp. by apply Htruthy. }
  assert (~ present ->
          Exists (fun mv => JsString.startsWith aliasTargetPath (identity mv) = true)
            (svModules v) ->
          exists h' s' v',
            mutateStore compareModules localeCompare store
              [ADD_ALIAS aliasPath aliasTargetPath] h = (h', Ok s')
            /\ viewStore h' s' = Some v'
            /\ JsObject.getOwn (svAliases v') aliasPath = Some aliasTargetPath) as Hok.
  { intros Hnp Hex.
    destruct (mutateStore_addAlias_ok compareModules localeCompare
                h store v aliasPath aliasTargetPath Hv (Hfalsy Hnp) Hex)
      as (h' & vs' & Hrun & Hview).
    eexists h', _, _. split; [exact Hrun|split; [exact Hview|]]. simpl.
    rewrite getOwn_returned_aliases by (apply set_NoDup, spread_NoDup).
    apply getOwn_set. by right. }
  assert (~ present ->
          Forall (fun mv => JsString.startsWith aliasTargetPath (identity mv) = false)
            (svModules v) ->
          outcome = Throw (ModuleNotFound OpAddAlias aliasTargetPath)) as Hnone.
  { intros Hnp Hno. unfold outcome.
    by rewrite (mutateStore_addAlias_no_owner compareModules localeCompare
                  h store v aliasPath aliasTargetPath Hv (Hfalsy Hnp) Hno). }
  split; [|split; [exact Hnone|exact Hok]].
  split.
  - intros Hout.
    destruct (JsObject.truthy
                (JsObject.get (JsObject.spread (JsObject.spread (svAliases v)))
                   aliasPath)) eqn:Ht; [by apply Htruthy|].
    exfalso.
    assert (~ present) as Hnp by (intros Hp; apply Htruthy in Hp; congruence).
    destruct (decide (Exists (fun mv => JsString.startsWith aliasTargetPath (identity mv)
                                         = true) (svModules v))) as [Hex|Hnex].
    + destruct (Hok Hnp Hex) as (h' & s' & v' & Hrun & _).
      unfold outcome in Hout. by rewrite Hrun in Hout.
    + rewrite Hnone in Hout; [done|done|].
      apply Forall_forall. intros mv Hmv.
      destruct (JsString.startsWith aliasTargetPath (identity mv)) eqn:Hp; [|done].
      destruct Hnex. apply Exists_exists. eauto.
  - intros Hp. apply Htruthy in Hp. unfold outcome.
    by rewrite (mutateStore_addAlias_exists compareModules localeCompare
                  h store v aliasPath aliasTargetPath Hv Hp).
Qed.

Lemma addAlias_outcome_witness :
  exists h' s' v',
    mutateStore compareByIdentity JsString.defaultCompare 0
      [ADD_ALIAS "fs.ts" "https://deno.land/std/fs/mod.ts"] oneModuleHeap
    = (h', Ok s')
    /\ viewStore h' s' = Some v'
    /\ JsObject.getOwn (svAliases v') "fs.ts" = Some "https://deno.land/std/fs/mod.ts".
Proof.
  destruct (addAlias_outcome compareByIdentity JsString.defaultCompare
              oneModuleHeap 0 {| svModules := [stdModule]; svAliases := [] |}
              "fs.ts" "https://deno.land/std/fs/mod.ts") as (_ & _ & Hok).
  - reflexivity.
  - apply (bool_decide_unpack _). vm_compute. exact I.
  - vm_compute. reflexivity.
  - apply Hok.
    + intros (t & Ht & _). discriminate Ht.
    + apply Exists_cons_hd. reflexivity.
Defined.

(** C6 as stated fails: the key [mod.ts] is present in the aliases map, with
    the empty string as its target, and [ADD_ALIAS] on it does not throw
    [AliasExists]: it returns. *)
Lemma addAlias_on_present_key_returns :
  JsObject.hasOwn [("mod.ts", "")] "mod.ts" = true
  /\ storeAliases emptyTargetHeap 0 = Some [("mod.ts", "")]
  /\ snd (mutateStore compareByIdentity JsString.defaultCompare 0
            [ADD_ALIAS "mod.ts" "https://deno.land/std/fs/mod.ts"] emptyTargetHeap)
     = Ok 11.
Proof. repeat split; vm_compute; reflexivity. Qed.

(** ** C3: a module added then removed *)

Section AddThenRemove.
Variable compareModules : ModuleObj -> ModuleObj -> Z.
Variable localeCompare : string -> string -> Z.
Implicit Types h : Heap.

Lemma insertSorted_Forall2 {A B} (R : A -> B -> Prop) cmpA cmpB x y l l' :
(forall a b a' b', R a a' -> R b b' -> cmpA a b = cmpB a' b') ->
R x y -> Forall2 R l l' ->
Forall2 R (JsArray.insertSorted cmpA x l) (JsArray.insertSorted cmpB y l').
Proof.
intros Hcmp Hxy Hll. induction Hll as [|a b l l' Hab Hll IH]; simpl.
- by repeat constructor.
- rewrite (Hcmp x a y b Hxy Hab).
  destruct (cmpB y b <=? 0)%Z; by repeat constructor.
Qed.

(** Sorting related lists with comparators that agree gives related
  lists. *)
Lemma sort_Forall2 {A B} (R : A -> B -> Prop) cmpA cmpB l l' :
(forall a b a' b', R a a' -> R b b' -> cmpA a b = cmpB a' b') ->
Forall2 R l l' -> Forall2 R (JsArray.sort cmpA l) (JsArray.sort cmpB l').
Proof.
intros Hcmp Hll. induction Hll as [|a b l l' Hab Hll IH]; simpl; [constructor|].
by apply insertSorted_Forall2.
Qed.

Lemma read_view_Forall2 h ms objs vs :
readModules h ms = Some objs -> viewModules h ms = Some vs ->
Forall2 (fun o v => viewModule h (fst o) = Some v
                    /\ protocol (snd o) = mvProtocol v
                    /\ path (snd o) = mvPath v
                    /\ version (snd o) = mvVersion v) objs vs.
Proof.
revert objs vs; induction ms as [|r ms IH]; intros objs vs; simpl.
- intros [= <-] [= <-]. constructor.
- unfold viewModule at 1.
  destruct (heapModule h r) as [m|] eqn:Hm; [|done].
  destruct (readModules h ms) as [objs'|]; [|done].
  destruct (heapStrings h (files m)) as [fs|] eqn:Hfs; [|done].
  destruct (viewModules h ms) as [vs'|]; [|done].
  intros [= <-] [= <-]. constructor; [|by apply IH].
  simpl. unfold viewModule. by rewrite Hm, Hfs.
Qed.

Lemma Forall2_viewModules h (objs : list (ref * ModuleObj)) vs
(P : ref * ModuleObj -> ModuleView -> Prop) :
Forall2 (fun o v => viewModule h (fst o) = Some v /\ P o v) objs vs ->
viewModules h (map fst objs) = Some vs.
Proof.
induction 1 as [|o v objs vs [Hv _] _ IH]; simpl; [done|].
by rewrite Hv, IH.
Qed.

(** The views of the modules in sorted order are the views sorted by
  value, for a comparator that does not look at the file lists. *)
Lemma sorted_views h ms objs vs :
FilesBlind compareModules ->
readModules h ms = Some objs -> viewModules h ms = Some vs ->
viewModules h (sortedModuleRefs compareModules objs)
= Some (JsArray.sort (compareViews compareModules) vs).
Proof.
intros Hblind Hobjs Hvs. unfold sortedModuleRefs.
eapply (Forall2_viewModules h _ _
          (fun o v => protocol (snd o) = mvProtocol v
                      /\ path (snd o) = mvPath v
                      /\ version (snd o) = mvVersion v)).
apply sort_Forall2; [|by apply (read_view_Forall2 h ms)].
intros a b a' b' (_ & Ha1 & Ha2 & Ha3) (_ & Hb1 & Hb2 & Hb3).
unfold compareViews. by apply Hblind.
Qed.

Lemma append_empty_r (s : string) : s +:+ "" = s.
Proof.
induction s as [|c s IH]; [done|].
change (String c s +:+ "") with (String c (s +:+ "")). by rewrite IH.
Qed.

Lemma moduleEquals_startsWith a b :
moduleEquals a b = true -> JsString.startsWith (toString b) (toString a) = true.
Proof.
unfold moduleEquals. intros [H1%String.eqb_eq H2%String.eqb_eq]%andb_true_iff.
unfold toString. rewrite H1, H2. apply startsWith_iff. exists "".
by rewrite append_empty_r.
Qed.

Lemma startsWith_refl s : JsString.startsWith s s = true.
Proof.
apply startsWith_iff. exists "". by rewrite append_empty_r.
Qed.

(** The duplicate check of [ADD_MODULE] passes when the identity of no
  module is a prefix of the identity of the new one. *)
Lemma duplicateCheck_passes h ms vs module m :
viewModules h ms = Some vs ->
heapModule h module = Some m ->
Forall (fun mv => JsString.startsWith (toString m) (identity mv) = false) vs ->
forEach ms (fun mod' =>
  let! a := getModule mod' in
  let! b := getModule module in
  if moduleEquals a b
  then throw (DuplicateModule (toString b))
  else ret tt) h = (h, Ok tt).
Proof.
intros Hvs Hm. revert vs Hvs. induction ms as [|r ms IH]; intros vs Hvs Hno; [done|].
simpl in Hvs. destruct (viewModule h r) as [v|] eqn:Hv; [|done].
destruct (viewModules h ms) as [vs'|] eqn:Hvs'; [|done].
injection Hvs as <-. apply Forall_cons in Hno as [Hno1 Hno].
assert (exists a, heapModule h r = Some a) as [a Ha].
{ unfold viewModule in Hv. destruct (heapModule h r); [eauto|done]. }
cbn [forEach]. run. rewrite Ha. run. rewrite Hm. run.
destruct (moduleEquals a m) eqn:Heq.
- apply moduleEquals_startsWith in Heq.
  rewrite (toString_view _ _ _ _ Hv Ha) in Heq. congruence.
- run. by eapply IH.
Qed.

(** The scan of [REMOVE_MODULE] over such modules followed by the new one
  stops at the new one. *)
Lemma firstOwnerIndex_last {E} h ms vs module m i :
viewModules h ms = Some vs ->
heapModule h module = Some m ->
Forall (fun mv => JsString.startsWith (toString m) (identity mv) = false) vs ->
firstOwnerIndex (E:=E) h (toString m) (ms ++ [module]) i = Ok (Some (i + length ms)).
Proof.
intros Hvs Hm. revert vs i Hvs. induction ms as [|r ms IH]; intros vs i Hvs Hno.
- simpl. rewrite Hm, startsWith_refl. f_equal. f_equal. lia.
- simpl in Hvs. destruct (viewModule h r) as [v|] eqn:Hv; [|done].
  destruct (viewModules h ms) as [vs'|] eqn:Hvs'; [|done].
  injection Hvs as <-. apply Forall_cons in Hno as [Hno1 Hno].
  assert (exists a, heapModule h r = Some a) as [a Ha].
  { unfold viewModule in Hv. destruct (heapModule h r); [eauto|done]. }
  simpl. rewrite Ha, (toString_view _ _ _ _ Hv Ha), Hno1.
  rewrite (IH vs' (S i) eq_refl Hno). f_equal. f_equal. lia.
Qed.
End AddThenRemove.

Section AddThenRemoveRun.
Variable compareModules : ModuleObj -> ModuleObj -> Z.
Variable localeCompare : string -> string -> Z.
Implicit Types h : Heap.

Lemma splice1_last {A} (l : list A) x : JsArray.splice1 (length l) (l ++ [x]) = l.
Proof.
unfold JsArray.splice1. induction l as [|y l IH]; simpl; [done|]. by rewrite IH.
Qed.

Lemma identity_sortFilesView l : map identity (map sortFilesView l) = map identity l.
Proof. induction l as [|v l IH]; simpl; [done|]. by rewrite IH. Qed.

Lemma compareViews_consistent :
JsArray.Consistent compareModules ->
JsArray.Consistent (compareViews compareModules).
Proof.
intros [H1 H2 H3]. split; unfold compareViews; intros; eauto.
Qed.

(** The two actions leave the heap the loop started from. *)
Lemma addThenRemove_loop h vs al module m :
heapModule h module = Some m ->
Forall (fun mv => JsString.startsWith (toString m) (identity mv) = false) vs ->
forEach [ADD_MODULE module; REMOVE_MODULE (protocol m) (path m)]
  (mutateStoreAction (copyModulesRef h vs) (workAliasesRef h vs)) (loopHeap h vs al)
= (loopHeap h vs al, Ok tt).
Proof.
intros Hm Hno.
set (H := loopHeap h vs al). set (mr := copyModulesRef h vs).
assert (heapModule H module = Some m) as HmH.
{ unfold heapModule, H. rewrite loopHeap_old; [exact Hm|].
  unfold heapModule in Hm. destruct (h !! module) eqn:E; [|done].
  by eapply lookup_lt_Some. }
pose proof (loopHeap_modules h vs al) as Hms. fold H mr in Hms.
pose proof (loopHeap_views h vs al) as Hvs. fold H in Hvs.
assert (is_Some (H !! mr)) as Hsome.
{ unfold heapModules in Hms. destruct (H !! mr); [eauto|done]. }
set (Ha := <[mr := OModules (copyRefs (length h) vs ++ [module])]> H).
assert (forall r, viewModule Ha r = viewModule H r) as Hva.
{ intros r. apply viewModule_insert_other; try done.
  - unfold heapModule. unfold heapModules in Hms. destruct (H !! mr) as [[]|]; done.
  - unfold heapStrings. unfold heapModules in Hms. destruct (H !! mr) as [[]|]; done. }
assert (heapModule Ha module = Some m) as HmA.
{ unfold heapModule, Ha. rewrite insert_lookup by done.
  destruct (decide (module = mr)) as [->|]; [|exact HmH].
  unfold heapModule in HmH. unfold heapModules in Hms.
  destruct (H !! mr) as [[]|]; done. }
assert (heapModules Ha mr = Some (copyRefs (length h) vs ++ [module])) as HmsA.
{ unfold heapModules, Ha. rewrite insert_lookup by done. by rewrite decide_True. }
cbn [forEach mutateStoreAction]. run. rewrite Hms. run.
rewrite (duplicateCheck_passes H _ vs module m Hvs HmH Hno). run.
rewrite Hms. unfold setModules. run. rewrite Hms. run.
fold Ha. rewrite HmsA. run.
change (protocol m +:+ "://" +:+ path m) with (toString m).
rewrite (firstOwnerIndex_last Ha _ vs module m 0); [|by rewrite (viewModules_ext H)|done|done].
run. rewrite HmsA. run. rewrite HmsA.
cbn [Nat.add]. rewrite splice1_last. unfold Ha.
rewrite list_insert_insert_eq. rewrite list_insert_id; [done|].
unfold heapModules in Hms. destruct (H !! mr) as [[]|]; try done.
by injection Hms as ->.
Qed.
End AddThenRemoveRun.

(** C3 (amended).  For a readable manifest and a module [m] such that the
    identity of no module of the manifest is a prefix of the identity of
    [m], [mutateStore] on [ADD_MODULE m] then [REMOVE_MODULE] of the
    protocol and path of [m] returns the modules of the original manifest
    sorted again by [compareModules], each with its files sorted, whatever
    the files and the aliases are; the module list is equal by identity to
    the original one when that one is sorted.  [compareModules] is taken not
    to look at file lists. *)
Theorem addModule_then_removeModule
  (compareModules : ModuleObj -> ModuleObj -> Z)
  (localeCompare : string -> string -> Z)
  (h : Heap) (store : ref) (v : StoreView) (module : ref) (m : ModuleObj) :
  viewStore h store = Some v ->
  heapModule h module = Some m ->
  Forall (fun mv => JsString.startsWith (toString m) (identity mv) = false)
    (svModules v) ->
  FilesBlind compareModules ->
  exists h' s' v',
    mutateStore compareModules localeCompare store
      [ADD_MODULE module; REMOVE_MODULE (protocol m) (path m)] h = (h', Ok s')
    /\ viewStore h' s' = Some v'
    /\ svModules v'
       = map sortFilesView (JsArray.sort (compareViews compareModules) (svModules v))
    /\ map identity (svModules v')
       = map identity (JsArray.sort (compareViews compareModules) (svModules v))
    /\ (JsArray.Consistent compareModules ->
        Sorted (JsArray.cmpLe (compareViews compareModules)) (svModules v) ->
        map identity (svModules v') = map identity (svModules v)).
Proof.
  intros Hv Hm Hno Hblind.
  set (vs := svModules v) in *. set (al := svAliases v).
  destruct (loopHeap_with_aliases h vs al (JsObject.spread (JsObject.spread al)))
    as (Hst & Hc & Hms & Hvs & Hal).
  rewrite loopHeap_insert_same in Hst, Hc, Hms, Hvs, Hal.
  destruct (sortAndReturn_run compareModules localeCompare
              _ _ _ _ _ _ _ _ _ Hst Hc eq_refl Hms Hvs Hal)
    as (h' & objs & vs' & Hrun & Hobjs & Hvs' & _ & _ & Hview).
  rewrite (sorted_views compareModules _ _ _ _ Hblind Hobjs Hvs) in Hvs'.
  injection Hvs' as <-.
  eexists h', _, _. split; [|split; [exact Hview|]].
  - rewrite (mutateStore_unfold _ _ _ _ _ _ Hv). fold vs al.
    rewrite bind_run, (addThenRemove_loop h vs al module m Hm Hno). exact Hrun.
  - simpl. split; [done|split].
    + apply identity_sortFilesView.
    + intros Hcons Hsorted. rewrite identity_sortFilesView.
      by rewrite (sort_sorted_id _ _ (compareViews_consistent _ Hcons) Hsorted).
Qed.

Lemma compareByIdentity_filesBlind : FilesBlind compareByIdentity.
Proof.
  intros a b a' b' Ha1 Ha2 _ Hb1 Hb2 _.
  unfold compareByIdentity, toString. by rewrite Ha1, Ha2, Hb1, Hb2.
Qed.

Lemma addModule_then_removeModule_witness :
  exists h' s' v',
    mutateStore compareByIdentity JsString.defaultCompare 0
      [ADD_MODULE 6; REMOVE_MODULE "https" "deno.land/x/dejs"] payloadHeap
    = (h', Ok s')
    /\ viewStore h' s' = Some v'
    /\ map identity (svModules v') = ["https://deno.land/std"].
Proof.
  destruct (addModule_then_removeModule compareByIdentity JsString.defaultCompare
              payloadHeap 0 {| svModules := [stdModule]; svAliases := [] |} 6
              {| protocol := "https"; path := "deno.land/x/dejs";
                 version := "0.3.0"; files := 7 |})
    as (h' & s' & v' & Hrun & Hview & _ & Hid & _).
  - reflexivity.
  - reflexivity.
  - repeat constructor.
  - exact compareByIdentity_filesBlind.
  - exists h', s', v'. split; [exact Hrun|split; [exact Hview|exact Hid]].
Defined.

(** C3 as stated fails: the module [https://deno.land/std/fs] is not in the
    manifest, whose only module is [https://deno.land/std]; after adding it
    and removing it by protocol and path, the manifest holds
    [https://deno.land/std/fs] and no longer [https://deno.land/std], which
    the prefix match of [REMOVE_MODULE] found first. *)
Lemma removeModule_removes_prefix_module :
  (viewStore subModuleHeap 0
   = Some {| svModules := [stdModule]; svAliases := [] |})
  /\ heapModule subModuleHeap 6
     = Some {| protocol := "https"; path := "deno.land/std/fs"; version := "v1";
               files := 7 |}
  /\ exists h',
       mutateStore compareByIdentity JsString.defaultCompare 0
         [ADD_MODULE 6; REMOVE_MODULE "https" "deno.land/std/fs"] subModuleHeap
       = (h', Ok 13)
       /\ (svModules <$> viewStore h' 13)
          = Some [ {| mvProtocol := "https"; mvPath := "deno.land/std/fs";
                      mvVersion := "v1"; mvFiles := [] |} ].
Proof.
  split; [reflexivity|split; [reflexivity|]].
  eexists. split; vm_compute; reflexivity.
Qed.

(** ** C5: the synchronizer finds the modules *)

Section KeepsFacts.
Variable modulesRef : ref.
Implicit Types h : Heap.

Lemma Keeps_refl h : Keeps modulesRef h h.
Proof.
split; [|split].
- intros r m Hm. eauto.
- intros ms Hms. eauto.
- intros l. by destruct (h !! l) as [[]|].
Qed.

Lemma Keeps_trans h1 h2 h3 :
Keeps modulesRef h1 h2 -> Keeps modulesRef h2 h3 -> Keeps modulesRef h1 h3.
Proof.
intros (Hm1 & Hms1 & Ho1) (Hm2 & Hms2 & Ho2). split; [|split].
- intros r m Hm. destruct (Hm1 r m Hm) as (m' & Hm' & Hp & Hpa).
  destruct (Hm2 r m' Hm') as (m'' & Hm'' & Hp' & Hpa').
  exists m''. split; [done|]. split; congruence.
- intros ms Hms. destruct (Hms1 ms Hms) as (ms' & Hms' & Hsub).
  destruct (Hms2 ms' Hms') as (ms'' & Hms'' & Hsub').
  exists ms''. split; [done|]. by etrans.
- intros l. specialize (Ho1 l). specialize (Ho2 l).
  destruct (h1 !! l) as [[st|c| | | |]|]; try done; by rewrite Ho1 in Ho2.
Qed.

(** An update in place of an object other than a store or a config, which
  keeps protocol and path if it is a module and loses no module if it is
  the modules array. *)
Lemma Keeps_update h l o :
is_Some (h !! l) ->
(forall st, h !! l <> Some (OStore st)) ->
(forall c, h !! l <> Some (OConfig c)) ->
(forall m, heapModule h l = Some m ->
   exists m', o = OModule m' /\ protocol m' = protocol m /\ path m' = path m) ->
(l = modulesRef -> forall ms, heapModules h l = Some ms ->
   exists ms', o = OModules ms' /\ ms ⊆ ms') ->
Keeps modulesRef h (<[l := o]> h).
Proof.
intros Hl Hnst Hnc Hmod Hms. split; [|split].
- intros r m Hm. unfold heapModule. rewrite insert_lookup by done.
  destruct (decide (r = l)) as [->|]; [|eauto].
  destruct (Hmod m Hm) as (m' & -> & ? & ?). eauto.
- intros ms Hms'. unfold heapModules. rewrite insert_lookup by done.
  destruct (decide (modulesRef = l)) as [<-|]; [|eauto].
  destruct (Hms eq_refl ms Hms') as (ms' & -> & ?). eauto.
- intros r. rewrite insert_lookup by done.
  destruct (decide (r = l)) as [->|]; [|by destruct (h !! r) as [[]|]].
  destruct (h !! l) as [[st|c| | | |]|] eqn:E; try done.
  + by destruct (Hnst st).
  + by destruct (Hnc c).
Qed.

Lemma Write_Keeps pm aliasesRef h h' :
Write pm false modulesRef aliasesRef h h' -> Keeps modulesRef h h'.
Proof.
intros Hw.
destruct Hw as [|ms p Hms Hp|ms i Hms Hrm|ms ms' Hms Hperm
               |ms r m fs fs' Hms Hr Hm Hfs|ms r m v Hms Hr Hm|al al' Hal].
- apply Keeps_refl.
- unfold heapModules in Hms.
  destruct (h !! modulesRef) as [[| |ms0| | |]|] eqn:E; try done.
  injection Hms as ->.
  apply Keeps_update; rewrite ?E; try done; [eauto|..].
  + unfold heapModule. rewrite E. done.
  + intros _ ms'. unfold heapModules. rewrite E. intros [= <-].
    eexists. split; [done|]. intros x Hx. apply elem_of_app. by left.
- done.
- unfold heapModules in Hms.
  destruct (h !! modulesRef) as [[| |ms0| | |]|] eqn:E; try done.
  injection Hms as ->.
  apply Keeps_update; rewrite ?E; try done; [eauto|..].
  + unfold heapModule. rewrite E. done.
  + intros _ ms''. unfold heapModules. rewrite E. intros [= <-].
    eexists. split; [done|]. intros x Hx. by rewrite Hperm.
- unfold heapStrings in Hfs.
  destruct (h !! files m) as [[| | | |fs0|]|] eqn:E; try done.
  apply Keeps_update; rewrite ?E; try done; [eauto|..].
  + unfold heapModule. rewrite E. done.
  + intros Heq ms'. unfold heapModules. rewrite E. done.
- unfold heapModule in Hm.
  destruct (h !! r) as [[| | |m0| |]|] eqn:E; try done.
  injection Hm as ->.
  apply Keeps_update; rewrite ?E; try done; [eauto|..].
  + unfold heapModule. rewrite E. intros m' [= <-]. eauto.
  + intros Heq ms'. unfold heapModules. rewrite E. done.
- unfold heapAliases in Hal.
  destruct (h !! aliasesRef) as [[| | | | |al0]|] eqn:E; try done.
  apply Keeps_update; rewrite ?E; try done; [eauto|..].
  + unfold heapModule. rewrite E. done.
  + intros Heq ms'. unfold heapModules. rewrite E. done.
Qed.

Lemma Writes_Keeps pm aliasesRef h h' :
rtc (Write pm false modulesRef aliasesRef) h h' -> Keeps modulesRef h h'.
Proof.
induction 1 as [|h1 h2 h3 Hw _ IH]; [apply Keeps_refl|].
eapply Keeps_trans; [|exact IH]. by eapply Write_Keeps.
Qed.

(** What an action looks for depends on the protocol and the path of a
  module only. *)
Lemma lookedFor_identity a p m m' :
lookedFor a = Some p -> protocol m' = protocol m -> path m' = path m ->
p m' = p m.
Proof.
destruct a; simpl; intros [= <-] Hp Hpa; unfold toString; by rewrite Hp, Hpa.
Qed.

Lemma Resolves_Keeps h h' ms ms' a :
Keeps modulesRef h h' ->
heapModules h modulesRef = Some ms -> heapModules h' modulesRef = Some ms' ->
Resolves h ms a -> Resolves h' ms' a.
Proof.
intros (Hm & Hms & _) Hh Hh'. unfold Resolves.
destruct (lookedFor a) as [p|] eqn:Hp; [|done].
intros (r & m & Hr & Hmr & Hpm).
destruct (Hm r m Hmr) as (m' & Hm' & Hpr & Hpa).
destruct (Hms ms Hh) as (ms'' & Hms'' & Hsub).
rewrite Hh' in Hms''. injection Hms'' as <-.
exists r, m'. split; [by apply Hsub|]. split; [done|].
by rewrite (lookedFor_identity a p m m' Hp Hpr Hpa).
Qed.
End KeepsFacts.

(** ** Stores and configs through the loop *)

Section StoresKept.
Implicit Types h : Heap.

Lemma KeepsStores_update h0 h l o :
KeepsStores h0 h ->
(forall st, h !! l <> Some (OStore st)) ->
(forall c, h !! l <> Some (OConfig c)) ->
KeepsStores h0 (<[l := o]> h).
Proof.
intros Hk Hst Hc r. specialize (Hk r).
destruct (decide (r = l)) as [->|Hne].
- destruct (h0 !! l) as [[st|c| | | |]|]; try done.
+ by destruct (Hst st).
+ by destruct (Hc c).
- rewrite list_lookup_insert_ne by done. exact Hk.
Qed.

Lemma Write_KeepsStores pm rm modulesRef aliasesRef h0 h h' :
KeepsStores h0 h -> Write pm rm modulesRef aliasesRef h h' -> KeepsStores h0 h'.
Proof.
intros Hk Hw.
destruct Hw as [|ms p Hms Hp|ms i Hms Hrm|ms ms' Hms Hperm
           |ms r m fs fs' Hms Hr Hm Hfs|ms r m v Hms Hr Hm|al al' Hal];
[done|apply KeepsStores_update; [done|..]..].
- unfold heapModules in Hms. intros st E. by rewrite E in Hms.
- unfold heapModules in Hms. intros c E. by rewrite E in Hms.
- unfold heapModules in Hms. intros st E. by rewrite E in Hms.
- unfold heapModules in Hms. intros c E. by rewrite E in Hms.
- unfold heapModules in Hms. intros st E. by rewrite E in Hms.
- unfold heapModules in Hms. intros c E. by rewrite E in Hms.
- unfold heapStrings in Hfs. intros st E. by rewrite E in Hfs.
- unfold heapStrings in Hfs. intros c E. by rewrite E in Hfs.
- unfold heapModule in Hm. intros st E. by rewrite E in Hm.
- unfold heapModule in Hm. intros c E. by rewrite E in Hm.
- unfold heapAliases in Hal. intros st E. by rewrite E in Hal.
- unfold heapAliases in Hal. intros c E. by rewrite E in Hal.
Qed.

Lemma actions_KeepsStores modulesRef aliasesRef actions h h' r :
forEach actions (mutateStoreAction modulesRef aliasesRef) h = (h', r) ->
KeepsStores h h'.
Proof.
intros Hrun.
apply (wp_run _ _ _ _ _
     (wp_forEach_inv (KeepsStores h) actions
        (mutateStoreAction modulesRef aliasesRef) h
        ltac:(intros l; by destruct (h !! l) as [[]|])
        ltac:(intros a h1 _ Hk; eapply wp_conseq;
              [apply mutateStoreAction_write|];
              intros h2 r2 Hw; simpl in Hw; by eapply Write_KeepsStores))
     Hrun).
Qed.

End StoresKept.

Section SynchronizerResolves.
Context {World : Type}.
Variable env : Collaborators World.
Variable h : Heap.
Implicit Types st : World * list Call.

Lemma firstOwner_resolves {E} probe ms vs :
viewModules h ms = Some vs ->
(exists r m, r ∈ ms /\ heapModule h r = Some m
             /\ JsString.startsWith probe (toString m) = true) ->
exists r m, firstOwner (E:=E) h probe ms = Ok (Some r)
            /\ r ∈ ms /\ heapModule h r = Some m
            /\ JsString.startsWith probe (toString m) = true.
Proof.
revert vs; induction ms as [|x ms IH]; intros vs Hvs (r & m & Hr & Hm & Hp).
- by apply elem_of_nil in Hr.
- simpl in Hvs. destruct (viewModule h x) as [vx|] eqn:Hx; [|done].
  destruct (viewModules h ms) as [vs'|] eqn:Hvs'; [|done].
  assert (exists mx, heapModule h x = Some mx) as [mx Hmx].
  { unfold viewModule in Hx. destruct (heapModule h x); [eauto|done]. }
  simpl. rewrite Hmx.
  destruct (JsString.startsWith probe (toString mx)) eqn:Hpx.
  + exists x, mx. repeat split; try done. left.
  + apply elem_of_cons in Hr as [->|Hr]; [congruence|].
    destruct (IH vs' eq_refl) as (r' & m' & Hf & Hr' & Hm' & Hp'); [eauto|].
    exists r', m'. repeat split; try done. by right.
Qed.

Lemma firstExact_resolves {E} p pa ms vs :
viewModules h ms = Some vs ->
(exists r m, r ∈ ms /\ heapModule h r = Some m
             /\ String.eqb (protocol m) p && String.eqb (path m) pa = true) ->
exists r m, firstExact (E:=E) h p pa ms = Ok (Some r)
            /\ r ∈ ms /\ heapModule h r = Some m.
Proof.
revert vs; induction ms as [|x ms IH]; intros vs Hvs (r & m & Hr & Hm & Hp).
- by apply elem_of_nil in Hr.
- simpl in Hvs. destruct (viewModule h x) as [vx|] eqn:Hx; [|done].
  destruct (viewModules h ms) as [vs'|] eqn:Hvs'; [|done].
  assert (exists mx, heapModule h x = Some mx) as [mx Hmx].
  { unfold viewModule in Hx. destruct (heapModule h x); [eauto|done]. }
  simpl. rewrite Hmx.
  destruct (String.eqb (protocol mx) p && String.eqb (path mx) pa) eqn:Hpx.
  + exists x, mx. repeat split; try done. left.
  + apply elem_of_cons in Hr as [->|Hr]; [congruence|].
    destruct (IH vs' eq_refl) as (r' & m' & Hf & Hr' & Hm'); [eauto|].
    exists r', m'. repeat split; try done. by right.
Qed.

Lemma viewModules_strings ms vs r m :
viewModules h ms = Some vs -> r ∈ ms -> heapModule h r = Some m ->
exists fs, heapStrings h (files m) = Some fs.
Proof.
intros Hvs Hr Hm.
pose proof (proj1 (Forall_forall _ _) (viewModules_Forall _ _ _ Hvs) r Hr) as [v Hv].
unfold viewModule in Hv. rewrite Hm in Hv.
destruct (heapStrings h (files m)); [eauto|done].
Qed.

Lemma Benign_await {A} (c : Call) (run : World -> World * Reply A) st :
Benign (snd (await c run st)).
Proof. destruct st as [w log]. rewrite await_run. simpl. by destruct (snd (run w)). Qed.

Lemma UpdateRun_benign p pa v fs w calls w' r :
UpdateRun env p pa v fs w calls w' r -> Benign r.
Proof. induction 1; done. Qed.

(** An action that finds what it looks for among readable modules ends
  with a return or with the failure of a collaborator. *)
Lemma mutateRepositoryAction_benign ms vs a st :
viewModules h ms = Some vs ->
Resolves h ms a ->
Benign (snd (mutateRepositoryAction env h ms a st)).
Proof.
intros Hvs Hres. unfold Resolves in Hres.
destruct a as [module|p pa|link|link|ap tp|ap|p pa v]; simpl in Hres.
- done.
- apply Benign_await.
- destruct (firstOwner_resolves (E:=SyncError) link ms vs Hvs Hres)
    as (r & m & Hf & Hr & Hm & Hp).
  destruct (filePathOf_defined link m Hp) as [filePath Hfp].
  cbn [mutateRepositoryAction]. rewrite bind_run, find_owner_run', Hf.
  unfold readModule. rewrite bind_run, Hm. cbn [fromOption ret].
  rewrite bind_run, Hfp. cbn [fromOption ret]. cbv zeta.
  destruct st as [w log]. rewrite bind_run, await_run.
  destruct (hasDefaultExportRemote env _ w) as [w1 [b|f]]; cbn [fst snd outcomeOf];
    [apply Benign_await|done].
- destruct (firstOwner_resolves (E:=SyncError) link ms vs Hvs Hres)
    as (r & m & Hf & Hr & Hm & Hp).
  destruct (filePathOf_defined link m Hp) as [filePath Hfp].
  cbn [mutateRepositoryAction]. rewrite bind_run, find_owner_run', Hf.
  unfold readModule. rewrite bind_run, Hm. cbn [fromOption ret].
  rewrite bind_run, Hfp. cbn [fromOption ret].
  apply Benign_await.
- destruct (firstOwner_resolves (E:=SyncError) tp ms vs Hvs Hres)
    as (r & m & Hf & Hr & Hm & Hp).
  destruct (filePathOf_defined tp m Hp) as [filePath Hfp].
  cbn [mutateRepositoryAction]. rewrite bind_run, find_owner_run', Hf.
  unfold readModule. rewrite bind_run, Hm. cbn [fromOption ret].
  rewrite bind_run, Hfp. cbn [fromOption ret]. cbv zeta.
  destruct st as [w log]. rewrite bind_run. unfold tryCatch. rewrite await_run.
  destruct (hasDefaultExportLocal env _ w) as [w1 [b|[|msg]]];
    cbn [fst snd outcomeOf isNotFound ret throw];
    [apply Benign_await|apply Benign_await|done].
- apply Benign_await.
- destruct (firstExact_resolves (E:=SyncError) p pa ms vs Hvs Hres)
    as (r & m & Hf & Hr & Hm).
  destruct (viewModules_strings ms vs r m Hvs Hr Hm) as [fs Hfs].
  destruct st as [w log].
  destruct (updateLoop_run env p pa v fs w log) as (calls & w' & res & Hrun & HR).
  cbn [mutateRepositoryAction]. cbv zeta.
  rewrite bind_run, find_exact_run', Hf.
  unfold readModule. rewrite bind_run, Hm. cbn [fromOption ret].
  rewrite bind_run, Hfs. cbn [fromOption ret]. rewrite Hrun. simpl.
  by eapply UpdateRun_benign.
Qed.

Lemma mutateRepository_benign store ms vs actions st :
storeModules h store = Some ms ->
viewModules h ms = Some vs ->
Forall (Resolves h ms) actions ->
Benign (snd (mutateRepository env h store actions st)).
Proof.
intros Hms Hvs Hall. rewrite (mutateRepository_run env h store ms) by done.
revert st. induction Hall as [|a actions Ha _ IH]; intros st; [done|].
cbn [forEach]. rewrite bind_run.
pose proof (mutateRepositoryAction_benign ms vs a st Hvs Ha) as Hb.
destruct (mutateRepositoryAction env h ms a st) as [st1 [[]|[e|f]|]];
  first [done | apply IH].
Qed.
End SynchronizerResolves.

Section MutatorResolves.
Variable compareModules : ModuleObj -> ModuleObj -> Z.
Variable localeCompare : string -> string -> Z.
Implicit Types h : Heap.

(** An action that went through found what it looks for. *)
Lemma mutateStoreAction_resolves modulesRef aliasesRef a h h1 ms :
heapModules h modulesRef = Some ms ->
mutateStoreAction modulesRef aliasesRef a h = (h1, Ok tt) ->
Resolves h ms a.
Proof.
intros Hms H. unfold Resolves.
destruct a as [module|p pa|link|link|ap tp|ap|p pa v]; simpl; try done.
- cbn [mutateStoreAction] in H. run_in H. rewrite Hms in H. run_in H.
destruct (firstOwner h link ms) as [[r|]|e|] eqn:Hf; try done.
apply firstOwner_Some in Hf as (Hr & m & Hm & Hp). eauto.
- cbn [mutateStoreAction] in H. run_in H. rewrite Hms in H. run_in H.
destruct (firstOwner h link ms) as [[r|]|e|] eqn:Hf; try done.
apply firstOwner_Some in Hf as (Hr & m & Hm & Hp). eauto.
- cbn [mutateStoreAction] in H. run_in H.
destruct (heapAliases h aliasesRef) as [al|]; [|done].
destruct (JsObject.truthy (JsObject.get al ap)); [done|].
run_in H. rewrite Hms in H. run_in H.
destruct (firstOwner h tp ms) as [[r|]|e|] eqn:Hf; try done.
apply firstOwner_Some in Hf as (Hr & m & Hm & Hp). eauto.
- cbn [mutateStoreAction] in H. run_in H. rewrite Hms in H. run_in H.
destruct (firstExact h p pa ms) as [[r|]|e|] eqn:Hf; try done.
apply firstExact_Some in Hf as (Hr & m & Hm & Hp & Hpa).
exists r, m. repeat split; try done. by rewrite Hp, Hpa, !String.eqb_refl.
Qed.

(** Without [REMOVE_MODULE], when the loop over the actions ends well every
action finds what it looks for in the heap it ends in. *)
Lemma actions_resolve modulesRef aliasesRef actions h h' ms :
Forall (fun a => isRemoveModule a = false) actions ->
heapModules h modulesRef = Some ms ->
forEach actions (mutateStoreAction modulesRef aliasesRef) h = (h', Ok tt) ->
Keeps modulesRef h h'
/\ exists ms', heapModules h' modulesRef = Some ms'
             /\ Forall (Resolves h' ms') actions.
Proof.
intros Hnr. revert h ms. induction Hnr as [|a actions Ha _ IH]; intros h ms Hms Hrun.
- injection Hrun as <-. split; [apply Keeps_refl|]. exists ms. by split.
- cbn [forEach] in Hrun. rewrite bind_run in Hrun.
destruct (mutateStoreAction modulesRef aliasesRef a h) as [h1 [[]|e|]] eqn:Hstep;
  try done.
pose proof (mutateStoreAction_resolves _ _ _ _ _ _ Hms Hstep) as Hres.
assert (Keeps modulesRef h h1) as Hk1.
{ pose proof (wp_run _ _ _ _ _ (mutateStoreAction_write modulesRef aliasesRef a h)
                Hstep) as Hw.
  simpl in Hw. rewrite Ha in Hw. by eapply Write_Keeps. }
destruct (proj1 (proj2 Hk1) ms Hms) as (ms1 & Hms1 & _).
destruct (IH h1 ms1 Hms1 Hrun) as (Hk & ms' & Hms' & Hall).
assert (Keeps modulesRef h h') as Hk' by by eapply Keeps_trans.
split; [done|]. exists ms'. split; [done|].
constructor; [|done]. by eapply Resolves_Keeps.
Qed.

Lemma sortFilesLoop_inv ms h h' :
forEach ms (fun mod' =>
let! m := getModule (E:=MutationError) mod' in
let! fs := getStrings (files m) in
setStrings (files m) (JsArray.sort JsString.defaultCompare fs)) h = (h', Ok tt) ->
Forall (fun r => is_Some (viewModule h r)) ms.
Proof.
revert h; induction ms as [|r ms IH]; intros h Hrun; [constructor|].
cbn [forEach] in Hrun. run_in Hrun.
destruct (heapModule h r) as [m|] eqn:Hm; [|done]. run_in Hrun.
destruct (heapStrings h (files m)) as [fs|] eqn:Hfs; [|done].
unfold setStrings in Hrun. run_in Hrun. rewrite Hfs in Hrun.
pose proof (SortedFrom_sort h (files m) fs Hfs) as Hs.
constructor.
- unfold viewModule. rewrite Hm, Hfs. eauto.
- eapply Forall_impl; [exact (IH _ Hrun)|]. intros r' [v' Hv']. simpl in *.
unfold viewModule in *. rewrite (SortedFrom_module _ _ _ Hs) in Hv'.
destruct (heapModule h r') as [m'|]; [|done].
destruct (heapStrings _ (files m')) as [fs'|] eqn:Hfs'; [|done].
destruct (SortedFrom_strings_inv _ _ _ _ Hs Hfs') as [fs0 ->]. eauto.
Qed.

(** When the end of [mutateStore] goes well, the working copy could be
read. *)
Lemma sortAndReturn_inv s modulesRef aliasesRef h h' s' :
sortAndReturn compareModules localeCompare s modulesRef aliasesRef h = (h', Ok s') ->
exists ms vs al,
heapModules h modulesRef = Some ms
/\ viewModules h ms = Some vs
/\ heapAliases h aliasesRef = Some al.
Proof.
unfold sortAndReturn. intros Hrun. rewrite bind_run in Hrun.
destruct (sortModules compareModules modulesRef h) as [h1 [[]|e|]] eqn:Hsm; try done.
destruct (sortModules_inv _ _ _ _ Hsm) as (ms & objs & Hms & Hobjs).
rewrite (sortModules_run _ _ _ _ _ Hms Hobjs) in Hsm. injection Hsm as <-.
set (srefs := sortedModuleRefs compareModules objs) in *.
assert (is_Some (h !! modulesRef)) as Hmr.
{ unfold heapModules in Hms. destruct (h !! modulesRef); [eauto|done]. }
assert (forall r, viewModule (<[modulesRef := OModules srefs]> h) r = viewModule h r)
as Hv1.
{ intros r. apply viewModule_insert_other; try done.
- unfold heapModule. unfold heapModules in Hms.
  destruct (h !! modulesRef) as [[]|]; done.
- unfold heapStrings. unfold heapModules in Hms.
  destruct (h !! modulesRef) as [[]|]; done. }
rewrite bind_run in Hrun. unfold sortFiles in Hrun. rewrite bind_run in Hrun.
rewrite getModules_run in Hrun.
assert (heapModules (<[modulesRef := OModules srefs]> h) modulesRef = Some srefs)
as Hms1.
{ unfold heapModules. rewrite insert_lookup by done. by rewrite decide_True. }
rewrite Hms1 in Hrun.
match type of Hrun with
| context [forEach srefs ?body ?hh] =>
  destruct (forEach srefs body hh) as [h2 [[]|e|]] eqn:Hloop; try done
end.
pose proof (sortFilesLoop_inv _ _ _ Hloop) as Hread1.
assert (Forall (fun r => is_Some (viewModule h r)) ms) as Hread.
{ assert (srefs ≡ₚ ms) as Hperm.
{ unfold srefs, sortedModuleRefs. rewrite <- (readModules_fst _ _ _ Hobjs).
  apply Permutation_map, sort_perm. }
rewrite <- Hperm. eapply Forall_impl; [exact Hread1|].
intros r. simpl. by rewrite Hv1. }
destruct (Forall_viewModules _ _ Hread) as [vs Hvs].
destruct (sortFilesLoop_run srefs _ Hread1) as (h2' & Hrun2 & Hs2 & _).
rewrite Hrun2 in Hloop. injection Hloop as <-.
run_in Hrun.
destruct (heapAliases h2' aliasesRef) as [al|] eqn:Hal; [|done].
exists ms, vs. 
assert (exists al0, heapAliases h aliasesRef = Some al0) as [al0 Hal0].
{ unfold heapAliases in Hal |- *.
destruct Hs2 as [_ Hs2]. specialize (Hs2 aliasesRef).
destruct (decide (aliasesRef = modulesRef)) as [->|Hne].
- rewrite list_lookup_insert_eq in Hs2 by by apply lookup_lt_is_Some.
  by rewrite Hs2 in Hal.
- rewrite list_lookup_insert_ne in Hs2 by done.
  destruct (h !! aliasesRef) as [[| | | |fs|al0]|]; try (by rewrite Hs2 in Hal).
  + destruct Hs2 as [Hs2|Hs2]; by rewrite Hs2 in Hal.
  + eauto. }
eauto.
Qed.

Lemma readModules_elem h ms objs r m :
readModules h ms = Some objs -> r ∈ ms -> heapModule h r = Some m -> (r, m) ∈ objs.
Proof.
revert objs; induction ms as [|x ms IH]; intros objs Hobjs Hr Hm.
- by apply elem_of_nil in Hr.
- simpl in Hobjs. destruct (heapModule h x) as [mx|] eqn:Hx; [|done].
destruct (readModules h ms) as [objs'|]; [|done]. injection Hobjs as <-.
apply elem_of_cons in Hr as [->|Hr].
+ rewrite Hx in Hm. injection Hm as ->. left.
+ right. by apply IH.
Qed.
Lemma forEach_app_run {A} (xs ys : list A) (body : A -> M Heap MutationError unit)
h h' :
forEach (xs ++ ys) body h = (h', Ok tt) ->
exists h1, forEach xs body h = (h1, Ok tt) /\ forEach ys body h1 = (h', Ok tt).
Proof.
revert h; induction xs as [|x xs IH]; intros h Hrun; simpl in *.
- exists h. by split.
- rewrite bind_run in Hrun |- *.
destruct (body x h) as [h0 [[]|e|]]; try done.
by apply IH.
Qed.

End MutatorResolves.

(** C5 (amended).  For a readable manifest and an action list in which no
    [REMOVE_MODULE] comes after an [ADD_LINK], a [REMOVE_LINK], an
    [ADD_ALIAS] or an [UPDATE_MODULE], and on which [mutateStore] returns,
    [mutateRepository] run with the returned manifest over the same action
    list finds a module for every action: whatever the collaborators do, it
    ends with a return or with the failure of a collaborator, never in one
    of its module-not-found errors. *)
Theorem synchronizer_finds_modules {World}
  (compareModules : ModuleObj -> ModuleObj -> Z)
  (localeCompare : string -> string -> Z)
  (env : Collaborators World)
  (h : Heap) (store : ref) (v : StoreView) (pre post : list Action)
  (h' : Heap) (s' : ref) (st : World * list Call) :
  viewStore h store = Some v ->
  Forall (fun a => looksForModule a = false) pre ->
  Forall (fun a => isRemoveModule a = false) post ->
  mutateStore compareModules localeCompare store (pre ++ post) h = (h', Ok s') ->
  Benign (snd (mutateRepository env h' s' (pre ++ post) st)).
Proof.
  intros Hv Hpre Hpost Hrun.
  rewrite (mutateStore_unfold _ _ _ _ _ _ Hv) in Hrun.
  set (vs := svModules v) in *. set (al := svAliases v) in *.
  set (H0 := loopHeap h vs al) in *.
  set (mr := copyModulesRef h vs) in *. set (ar := workAliasesRef h vs) in *.
  set (s := copyStoreRef h vs) in *.
  rewrite bind_run in Hrun.
  destruct (forEach (pre ++ post) (mutateStoreAction mr ar) H0) as [H1 [[]|e|]]
    eqn:Hloop; try done.
  pose proof (actions_KeepsStores _ _ _ _ _ _ Hloop) as Hk.
  destruct (forEach_app_run _ _ _ _ _ Hloop) as (Hm & Hlpre & Hlpost).
  pose proof (wp_run _ _ _ _ _
                (actions_frame h mr ar pre H0
                   (FrameInv_loopHeap h (payloadRefs pre) vs al)) Hlpre) as HI.
  simpl in HI. destruct (frame_modules _ _ _ _ _ HI) as (msm & Hmsm & _).
  destruct (actions_resolve mr ar post Hm H1 msm Hpost Hmsm Hlpost)
    as (_ & ms1 & Hms1 & Hpostres).
  assert (Forall (Resolves H1 ms1) (pre ++ post)) as Hall.
  { apply Forall_app. split; [|done]. eapply Forall_impl; [exact Hpre|].
    intros a Ha. unfold Resolves. by destruct a. }
  destruct (sortAndReturn_inv _ _ _ _ _ _ _ _ Hrun)
    as (ms1' & vs1 & al1 & Hms1' & Hvs1 & Hal1).
  rewrite Hms1 in Hms1'. injection Hms1' as <-.
  assert (heapStore H1 s = Some {| config := copyConfigRef h vs |}) as Hst.
  { pose proof (loopHeap_store h vs al) as Hst0. fold H0 s in Hst0.
    unfold heapStore in *. specialize (Hk s).
    destruct (H0 !! s) as [[]|]; try done. by rewrite Hk. }
  assert (heapConfig H1 (copyConfigRef h vs)
          = Some {| modules := mr; aliases := copyAliasesRef h vs |}) as Hc.
  { pose proof (loopHeap_config h vs al) as Hc0. fold H0 mr in Hc0.
    unfold heapConfig in *. specialize (Hk (copyConfigRef h vs)).
    destruct (H0 !! copyConfigRef h vs) as [[]|]; try done. by rewrite Hk. }
  destruct (sortAndReturn_run compareModules localeCompare
              _ _ _ _ _ _ _ _ _ Hst Hc eq_refl Hms1 Hvs1 Hal1)
    as (h'' & objs & vs' & Hrun' & Hobjs & Hvs' & Hsm & Hread & Hview).
  cbn [modules] in Hrun'. rewrite Hrun' in Hrun. injection Hrun as <- <-.
  set (srefs := sortedModuleRefs compareModules objs) in *.
  assert (viewModules h'' srefs = Some (map sortFilesView vs')) as Hvsf.
  { unfold viewStore in Hview. rewrite Hsm in Hview.
    destruct (storeAliases h'' s); [|done].
    destruct (viewModules h'' srefs); [|done]. by injection Hview as ->. }
  apply (mutateRepository_benign env h'' s srefs _ (pre ++ post) st Hsm Hvsf).
  eapply Forall_impl; [exact Hall|]. intros a. unfold Resolves.
  destruct (lookedFor a) as [p|]; [|done].
  intros (r & m & Hr & Hm' & Hp). exists r, m. split; [|split; [|done]].
  - unfold srefs, sortedModuleRefs.
    rewrite (sort_perm _ objs), (readModules_fst _ _ _ Hobjs). done.
  - pose proof (readModules_elem _ _ _ _ _ Hobjs Hr Hm') as Hin.
    rewrite <- (sort_perm (fun a b => compareModules (snd a) (snd b)) objs) in Hin.
    apply (proj1 (Forall_forall _ _) (readModules_snd _ _ _ Hread) _ Hin).
Qed.

Lemma synchronizer_finds_modules_witness :
  exists h' s',
    mutateStore compareByIdentity JsString.defaultCompare 0
      [ADD_MODULE 6; REMOVE_MODULE "https" "deno.land/std";
       ADD_LINK "https://deno.land/x/dejs/dejs.ts"] payloadHeap = (h', Ok s')
    /\ Benign (snd (mutateRepository (exampleEnv [] []) h' s'
                      [ADD_MODULE 6; REMOVE_MODULE "https" "deno.land/std";
                       ADD_LINK "https://deno.land/x/dejs/dejs.ts"] (tt, []))).
Proof.
  eexists _, _. split; [vm_compute; reflexivity|].
  apply (synchronizer_finds_modules compareByIdentity JsString.defaultCompare
           (exampleEnv [] []) payloadHeap 0
           {| svModules := [stdModule]; svAliases := [] |}
           [ADD_MODULE 6; REMOVE_MODULE "https" "deno.land/std"]
           [ADD_LINK "https://deno.land/x/dejs/dejs.ts"]).
  - reflexivity.
  - repeat constructor.
  - repeat constructor.
  - vm_compute; reflexivity.
Defined.

(** C5 as stated fails: on the manifest whose only module is
    [https://deno.land/std], linking [https://deno.land/std/fs/mod.ts] and
    then removing the module goes through in [mutateStore]; the returned
    manifest has no module left, and [mutateRepository], run with it over
    the same two actions, throws its own module-not-found error at the
    [ADD_LINK]. *)
Lemma synchronizer_misses_removed_module :
  exists h' s',
    mutateStore compareByIdentity JsString.defaultCompare 0
      [ADD_LINK "https://deno.land/std/fs/mod.ts";
       REMOVE_MODULE "https" "deno.land/std"] oneModuleHeap = (h', Ok s')
    /\ (svModules <$> viewStore h' s') = Some []
    /\ snd (mutateRepository (exampleEnv [] []) h' s'
              [ADD_LINK "https://deno.land/std/fs/mod.ts";
               REMOVE_MODULE "https" "deno.land/std"] (tt, []))
       = Throw (OwnError (ModuleNotFound OpAddLink
                            "https://deno.land/std/fs/mod.ts")).
Proof.
  eexists _, _. split; [vm_compute; reflexivity|].
  split; vm_compute; reflexivity.
Qed.

(** ** C2: the order of the returned manifest *)

Section ArrayIndex.

Lemma digitValue_lt c d : JsObject.digitValue c = Some d -> (d < 10)%N.
Proof.
unfold JsObject.digitValue. cbv zeta.
destruct ((48 <=? N_of_ascii c)%N && (N_of_ascii c <=? 57)%N) eqn:E; [|done].
intros [= <-].
apply andb_true_iff in E as [?%N.leb_le ?%N.leb_le]. lia.
Qed.

Lemma digitValue_inj c c' d :
JsObject.digitValue c = Some d -> JsObject.digitValue c' = Some d -> c = c'.
Proof.
unfold JsObject.digitValue. cbv zeta.
destruct ((48 <=? N_of_ascii c)%N && (N_of_ascii c <=? 57)%N) eqn:E; [|done].
intros [= <-].
destruct ((48 <=? N_of_ascii c')%N && (N_of_ascii c' <=? 57)%N) eqn:E'; [|done].
intros [= Heq].
apply andb_true_iff in E as [?%N.leb_le ?%N.leb_le].
apply andb_true_iff in E' as [?%N.leb_le ?%N.leb_le].
assert (N_of_ascii c = N_of_ascii c') as Hc by lia.
by rewrite <- (ascii_N_embedding c), <- (ascii_N_embedding c'), Hc.
Qed.

(** Two strings of digits of the same length with the same value, read
from any accumulators, are the same string read from the same
accumulator. *)
Lemma digitsValue_inj_length s : forall s' acc acc' n,
String.length s = String.length s' ->
JsObject.digitsValue acc s = Some n -> JsObject.digitsValue acc' s' = Some n ->
acc = acc' /\ s = s'.
Proof.
induction s as [|c s IH]; intros [|c' s'] acc acc' n Hlen; simpl in *; try done.
- intros [= <-] [= <-]. done.
- destruct (JsObject.digitValue c) as [d|] eqn:Hd; [|done].
destruct (JsObject.digitValue c') as [d'|] eqn:Hd'; [|done].
intros H1 H2.
destruct (IH s' _ _ n ltac:(lia) H1 H2) as [Hacc ->].
pose proof (digitValue_lt _ _ Hd). pose proof (digitValue_lt _ _ Hd').
assert (d = d') as <- by lia. assert (acc = acc') as <- by lia.
split; [done|]. f_equal. by eapply digitValue_inj.
Qed.

Lemma digitsValue_le s' : forall s acc acc' n,
String.length s <= String.length s' ->
JsObject.digitsValue acc s = Some n -> JsObject.digitsValue acc' s' = Some n ->
(acc' <= acc)%N.
Proof.
induction s' as [|c' s' IH]; intros s acc acc' n Hlen H1 H2.
- destruct s; simpl in *; [|lia]. injection H1 as <-. injection H2 as <-. lia.
- destruct (decide (String.length s = String.length (String c' s'))) as [Heq|Hne].
+ destruct (digitsValue_inj_length _ _ _ _ _ Heq H1 H2) as [-> _]. lia.
+ simpl in *. destruct (JsObject.digitValue c') as [d'|] eqn:Hd'; [|done].
  pose proof (IH s acc _ n ltac:(lia) H1 H2). lia.
Qed.

(** An array index has one canonical form. *)
Lemma arrayIndex_inj k k' n :
JsObject.arrayIndex k = Some n -> JsObject.arrayIndex k' = Some n -> k = k'.
Proof.
assert (forall c rest m,
        (N_of_ascii c =? 48)%N = false ->
        JsObject.digitsValue 0 (String c rest) = Some m ->
        exists d, (1 <= d)%N /\ JsObject.digitsValue d rest = Some m) as Hlead.
{ intros c rest m Hc. simpl. unfold JsObject.digitValue. cbv zeta.
destruct ((48 <=? N_of_ascii c)%N && (N_of_ascii c <=? 57)%N) eqn:E; [|done].
apply andb_true_iff in E as [?%N.leb_le ?%N.leb_le]. apply N.eqb_neq in Hc.
intros Hv. exists (N_of_ascii c - 48)%N. split; [lia|]. by rewrite N.add_0_l in Hv. }
assert (forall c rest m,
        (N_of_ascii c =? 48)%N = false ->
        JsObject.digitsValue 0 (String c rest) = Some m -> (1 <= m)%N) as Hpos.
{ intros c rest m Hc H. destruct (Hlead c rest m Hc H) as (d & Hd & Hv).
pose proof (digitsValue_le rest "" m d m ltac:(simpl; lia) eq_refl Hv). lia. }
assert (forall k m, JsObject.arrayIndex k = Some m ->
        (k = "0" /\ m = 0%N)
        \/ (exists c rest, k = String c rest /\ (N_of_ascii c =? 48)%N = false
                           /\ JsObject.digitsValue 0 k = Some m)) as Hcases.
{ intros [|c rest] m; [done|]. unfold JsObject.arrayIndex.
destruct (N_of_ascii c =? 48)%N eqn:Hc.
- destruct rest; [|done]. intros [= <-]. left. split; [|done].
  apply N.eqb_eq in Hc. f_equal.
  by rewrite <- (ascii_N_embedding c), Hc.
- destruct (10 <? String.length (String c rest))%nat; [done|].
  destruct (JsObject.digitsValue 0 (String c rest)) as [v|] eqn:Hv; [|done].
  destruct (v <=? 4294967294)%N; [|done]. intros [= <-]. right. eauto. }
intros Hk Hk'.
destruct (Hcases _ _ Hk) as [[-> ->]|(c & rest & -> & Hc & Hv)];
destruct (Hcases _ _ Hk') as [[-> Hn]|(c' & rest' & -> & Hc' & Hv')]; try done.
- pose proof (Hpos _ _ _ Hc' Hv'). lia.
- subst n. pose proof (Hpos _ _ _ Hc Hv). lia.
- destruct (decide (String.length (String c rest) = String.length (String c' rest')))
  as [Heq|Hne].
+ by destruct (digitsValue_inj_length _ _ _ _ _ Heq Hv Hv').
+ destruct (Hlead _ _ _ Hc Hv) as (d & Hd & Hr).
  destruct (Hlead _ _ _ Hc' Hv') as (d' & Hd' & Hr').
  simpl in Hne.
  destruct (decide (String.length rest < String.length rest')) as [Hlt|Hge].
  * pose proof (digitsValue_le rest' (String c rest) 0%N d' n
                  ltac:(simpl; lia) Hv Hr'). lia.
  * pose proof (digitsValue_le rest (String c' rest') 0%N d n
                  ltac:(simpl; lia) Hv' Hr). lia.
Qed.

#[global] Instance indexBefore_trans : Transitive indexBefore.
Proof.
intros a b c. unfold indexBefore.
destruct (JsObject.arrayIndex a), (JsObject.arrayIndex b), (JsObject.arrayIndex c);
try done. lia.
Qed.

(** A new array-index key goes to its place among the index keys. *)
Lemma insertIndexKey_order n k v : forall ik o ok,
JsObject.keys o = ik ++ ok ->
Forall (fun k' => is_Some (JsObject.arrayIndex k')) ik ->
Forall (fun k' => JsObject.arrayIndex k' = None) ok ->
StronglySorted indexBefore ik ->
JsObject.arrayIndex k = Some n ->
k ∉ JsObject.keys o ->
exists ik',
JsObject.keys (JsObject.insertIndexKey n k v o) = ik' ++ ok
/\ Forall (fun k' => is_Some (JsObject.arrayIndex k')) ik'
/\ StronglySorted indexBefore ik'
/\ forall x, x ∈ ik' -> x = k \/ x ∈ ik.
Proof.
induction ik as [|a ik IH]; intros o ok Hkeys Hik Hok Hs Hn Hnew.
- exists [k]. simpl in Hkeys.
assert (JsObject.keys (JsObject.insertIndexKey n k v o) = k :: JsObject.keys o)
  as ->.
{ destruct o as [|[k' v'] o]; [done|]. simpl.
  assert (JsObject.arrayIndex k' = None) as ->; [|done].
  rewrite Hkeys in *. simpl in Hkeys. subst ok. by inversion Hok. }
rewrite Hkeys. split; [done|]. split; [by repeat constructor; rewrite ?Hn|].
split; [repeat constructor|]. intros x ->%list_elem_of_singleton. by left.
- destruct o as [|[k' v'] o]; [done|]. simpl in Hkeys.
injection Hkeys as -> Hkeys.
apply Forall_cons in Hik as [[n' Hn'] Hik].
apply StronglySorted_inv in Hs as [Hs Ha].
simpl. rewrite Hn'.
assert (n' <> n) as Hne.
{ intros ->. apply Hnew. simpl. rewrite (arrayIndex_inj _ _ _ Hn Hn'). left. }
destruct (n' <? n)%N eqn:Hlt.
+ apply N.ltb_lt in Hlt.
  destruct (IH o ok Hkeys Hik Hok Hs Hn) as (ik' & Hk' & Hik' & Hs' & Hel).
  { intros Hin. apply Hnew. simpl. by right. }
  exists (a :: ik'). simpl. rewrite Hk'. split; [done|].
  split; [constructor; eauto|]. split.
  * constructor; [done|]. apply Forall_forall. intros x Hx.
    destruct (Hel x Hx) as [->|Hin].
    -- unfold indexBefore. by rewrite Hn', Hn.
    -- by apply (proj1 (Forall_forall _ _) Ha).
  * intros x [->|Hx]%elem_of_cons; [right; left|].
    destruct (Hel x Hx) as [->|Hin]; [by left|right; by right].
+ apply N.ltb_ge in Hlt.
  exists (k :: a :: ik). simpl. rewrite Hkeys. split; [done|].
  split; [repeat constructor; eauto|]. split.
  * assert (indexBefore k a) as Hka.
    { unfold indexBefore. rewrite Hn, Hn'. lia. }
    constructor; [by constructor|]. constructor; [done|].
    eapply Forall_impl; [exact Ha|]. intros x Hx. simpl in Hx. by etrans.
  * intros x [->|Hx]%elem_of_cons; [by left|by right].
Qed.

Lemma createDataProperty_order o pre k v :
KeyOrder o pre -> KeyOrder (JsObject.createDataProperty o k v) (pre ++ [k]).
Proof.
intros (ik & ok & Hkeys & Hik & Hs & Hok & Hsub).
unfold JsObject.createDataProperty.
destruct (JsObject.hasOwn o k) eqn:Hk.
- exists ik, ok. rewrite keys_replaceOwn. repeat split; try done.
by apply sublist_inserts_r.
- apply hasOwn_false, getOwn_None in Hk.
destruct (JsObject.arrayIndex k) as [n|] eqn:Hn.
+ destruct (insertIndexKey_order n k v ik o ok Hkeys Hik Hok Hs Hn Hk)
    as (ik' & Hk' & Hik' & Hs' & _).
  exists ik', ok. repeat split; try done. by apply sublist_inserts_r.
+ exists ik, (ok ++ [k]). unfold JsObject.keys in *. rewrite map_app, Hkeys.
  simpl. rewrite <- app_assoc. repeat split; try done.
  * apply Forall_app. split; [done|]. by repeat constructor.
  * by apply sublist_app.
Qed.

Lemma fromEntries_order es : KeyOrder (JsObject.fromEntries es) (JsObject.keys es).
Proof.
unfold JsObject.fromEntries.
assert (forall o pre, KeyOrder o pre ->
        KeyOrder (fold_left (fun o e => JsObject.createDataProperty o (fst e) (snd e))
                    es o) (pre ++ JsObject.keys es)) as H.
{ induction es as [|e es IH]; intros o pre Ho; simpl.
- by rewrite app_nil_r.
- replace (pre ++ fst e :: JsObject.keys es)
    with ((pre ++ [fst e]) ++ JsObject.keys es) by by rewrite <- app_assoc.
  apply IH. by apply createDataProperty_order. }
apply (H [] []). exists [], []. repeat split; try done; constructor.
Qed.

Lemma StronglySorted_sublist {A} (R : relation A) l l' :
l `sublist_of` l' -> StronglySorted R l' -> StronglySorted R l.
Proof.
induction 1 as [|x l l' Hsub IH|x l l' Hsub IH]; intros Hs; [done|..].
- apply StronglySorted_inv in Hs as [Hs Hx]. constructor; [by apply IH|].
apply Forall_forall. intros y Hy.
apply (proj1 (Forall_forall _ _) Hx). by eapply elem_of_sublist.
- apply StronglySorted_inv in Hs as [Hs _]. by apply IH.
Qed.

(** The keys of the object rebuilt from the entries sorted by key. *)
Lemma sorted_fromEntries_order (localeCompare : string -> string -> Z) al :
JsArray.Consistent localeCompare ->
AliasOrder localeCompare
(JsObject.keys (JsObject.fromEntries (sortedAliasEntries localeCompare al))).
Proof.
intros Hc.
destruct (fromEntries_order (sortedAliasEntries localeCompare al))
as (ik & ok & Hkeys & Hik & Hs & Hok & Hsub).
exists ik, ok. repeat split; try done.
- by apply StronglySorted_Sorted.
- apply StronglySorted_Sorted. eapply StronglySorted_sublist; [exact Hsub|].
assert (Transitive (JsArray.cmpLe localeCompare)) as Ht.
{ intros a b c. apply (JsArray.cmp_trans _ Hc). }
apply Sorted_StronglySorted; [done|].
unfold JsObject.keys, sortedAliasEntries.
apply (Sorted_fmap fst
         (JsArray.cmpLe (fun a b : string * string => localeCompare (fst a) (fst b)))).
{ done. }
apply sort_sorted. split.
+ intros a b. apply (JsArray.cmp_flip _ Hc).
+ intros a b. apply (JsArray.cmp_strict _ Hc).
+ intros a b c. apply (JsArray.cmp_trans _ Hc).
Qed.

End ArrayIndex.

(** ** C2: what [mutateStore] returns is sorted *)

Section ReturnedOrder.
Variable compareModules : ModuleObj -> ModuleObj -> Z.
Variable localeCompare : string -> string -> Z.
Implicit Types h : Heap.

(** What a call of [mutateStore] that returns has made. *)
Lemma mutateStore_returned h store v actions h' s' :
JsArray.Consistent compareModules -> JsArray.Consistent localeCompare ->
viewStore h store = Some v ->
mutateStore compareModules localeCompare store actions h = (h', Ok s') ->
exists ms objs v',
storeModules h' s' = Some ms
/\ readModules h' ms = Some objs
/\ viewStore h' s' = Some v'
/\ Sorted (JsArray.cmpLe compareModules) (map snd objs)
/\ Forall FilesSorted (svModules v')
/\ AliasOrder localeCompare (JsObject.keys (svAliases v'))
/\ NoDup (JsObject.keys (svAliases v'))
/\ (FilesBlind compareModules ->
    Sorted (JsArray.cmpLe (compareViews compareModules)) (svModules v')).
Proof.
intros Hcm Hlc Hv Hrun.
rewrite (mutateStore_unfold _ _ _ _ _ _ Hv) in Hrun.
set (vs := svModules v) in *. set (al := svAliases v) in *.
set (H0 := loopHeap h vs al) in *.
set (mr := copyModulesRef h vs) in *. set (ar := workAliasesRef h vs) in *.
set (s := copyStoreRef h vs) in *.
rewrite bind_run in Hrun.
destruct (forEach actions (mutateStoreAction mr ar) H0) as [H1 [[]|e|]] eqn:Hloop;
try done.
pose proof (actions_KeepsStores _ _ _ _ _ _ Hloop) as Hk.
destruct (sortAndReturn_inv _ _ _ _ _ _ _ _ Hrun) as (ms1 & vs1 & al1 & Hms1 & Hvs1 & Hal1).
assert (heapStore H1 s = Some {| config := copyConfigRef h vs |}) as Hst.
{ pose proof (loopHeap_store h vs al) as Hst0. fold H0 s in Hst0.
unfold heapStore in *. specialize (Hk s).
destruct (H0 !! s) as [[]|]; try done. by rewrite Hk. }
assert (heapConfig H1 (copyConfigRef h vs)
      = Some {| modules := mr; aliases := copyAliasesRef h vs |}) as Hc.
{ pose proof (loopHeap_config h vs al) as Hc0. fold H0 mr in Hc0.
unfold heapConfig in *. specialize (Hk (copyConfigRef h vs)).
destruct (H0 !! copyConfigRef h vs) as [[]|]; try done. by rewrite Hk. }
destruct (sortAndReturn_run compareModules localeCompare
          _ _ _ _ _ _ _ _ _ Hst Hc eq_refl Hms1 Hvs1 Hal1)
as (h'' & objs & vs' & Hrun' & Hobjs & Hvs' & Hsm & Hread & Hview).
cbn [modules] in Hrun'. rewrite Hrun' in Hrun. injection Hrun as <- <-.
eexists _, _, _. split; [exact Hsm|]. split; [exact Hread|]. split; [exact Hview|].
cbn [svModules svAliases].
assert (JsArray.Consistent
        (fun a b : ref * ModuleObj => compareModules (snd a) (snd b))) as Hcm'.
{ split.
- intros a b. apply (JsArray.cmp_flip _ Hcm).
- intros a b. apply (JsArray.cmp_strict _ Hcm).
- intros a b c. apply (JsArray.cmp_trans _ Hcm). }
split; [|split; [|split; [|split]]].
- apply (Sorted_fmap snd
         (JsArray.cmpLe (fun a b : ref * ModuleObj => compareModules (snd a) (snd b))));
  [done|].
by apply sort_sorted.
- apply Forall_forall. intros x Hx. apply list_elem_of_In, in_map_iff in Hx.
destruct Hx as (y & <- & _). unfold FilesSorted. simpl.
apply sort_sorted, defaultCompare_consistent.
- by apply sorted_fromEntries_order.
- apply fromEntries_NoDup.
- intros Hfb.
rewrite (sorted_views compareModules _ _ _ _ Hfb Hobjs Hvs1) in Hvs'.
injection Hvs' as <-.
apply (Sorted_fmap sortFilesView (JsArray.cmpLe (compareViews compareModules)));
  [done|].
apply sort_sorted. by apply compareViews_consistent.
Qed.

End ReturnedOrder.

(** ** Sorted manifests with the same content *)

Section SameContent.
Variable compareModules : ModuleObj -> ModuleObj -> Z.
Variable localeCompare : string -> string -> Z.

Lemma cmpLe_both_zero {A} (cmp : A -> A -> Z) a b :
JsArray.Consistent cmp ->
JsArray.cmpLe cmp a b -> JsArray.cmpLe cmp b a -> cmp a b = 0%Z.
Proof.
intros Hc Hab Hba. unfold JsArray.cmpLe in *.
destruct (decide (cmp a b < 0)%Z) as [Hlt|Hge]; [|lia].
pose proof (JsArray.cmp_strict _ Hc _ _ Hlt). lia.
Qed.

Lemma sorted_TellsApart_unique {A} (cmp : A -> A -> Z) l1 l2 :
JsArray.Consistent cmp -> TellsApart cmp l1 ->
Sorted (JsArray.cmpLe cmp) l1 -> Sorted (JsArray.cmpLe cmp) l2 ->
l1 ≡ₚ l2 -> l1 = l2.
Proof.
intros Hc Hta Hs1 Hs2 Hp.
assert (Transitive (JsArray.cmpLe cmp)) as Ht.
{ intros a b c. apply (JsArray.cmp_trans _ Hc). }
apply (Sorted_unique_strong (JsArray.cmpLe cmp)); try done.
intros x1 x2 Hx1 Hx2 H12 H21. apply Hta; [done|by rewrite Hp|].
by apply cmpLe_both_zero.
Qed.

Lemma defaultCompare_zero a b : JsString.defaultCompare a b = 0%Z -> a = b.
Proof.
unfold JsString.defaultCompare.
destruct (String.compare a b) eqn:E; try done. intros _.
by apply String.compare_eq_iff.
Qed.

Lemma sorted_files_unique a b :
FilesSorted a -> FilesSorted b -> SameModule a b -> a = b.
Proof.
intros Ha Hb (Hp & Hpa & Hv & Hf).
assert (mvFiles a = mvFiles b) as Hfiles.
{ apply (sorted_TellsApart_unique JsString.defaultCompare); try done.
- apply defaultCompare_consistent.
- intros x y _ _. apply defaultCompare_zero. }
destruct a, b; simpl in *. by subst.
Qed.

Lemma sorted_modules_same l1 l :
Forall FilesSorted l1 -> Forall FilesSorted l -> Forall2 SameModule l1 l -> l1 = l.
Proof.
intros H1 H2 H. induction H as [|a b l1 l Hab _ IH]; [done|].
apply Forall_cons in H1 as [Ha H1]. apply Forall_cons in H2 as [Hb H2].
f_equal; [by apply sorted_files_unique|by apply IH].
Qed.

Lemma entries_unique (o1 o2 : JsObject.t) :
JsObject.keys o1 = JsObject.keys o2 -> NoDup (JsObject.keys o1) ->
(forall k, JsObject.getOwn o1 k = JsObject.getOwn o2 k) -> o1 = o2.
Proof.
revert o2. induction o1 as [|[k v] o1 IH]; intros [|[k' v'] o2]; simpl; try done.
intros [= <- Hkeys] [Hk Hnd]%NoDup_cons Hget.
pose proof (Hget k) as Hgk. rewrite !getOwn_cons, String.eqb_refl in Hgk.
injection Hgk as <-. f_equal. apply (IH o2 Hkeys Hnd).
intros k0. specialize (Hget k0). rewrite !getOwn_cons in Hget.
destruct (String.eqb_spec k k0) as [Heq|Hne]; [subst k0|done].
pose proof (proj2 (getOwn_None o1 k) Hk) as ->.
rewrite Hkeys in Hk. by pose proof (proj2 (getOwn_None o2 k) Hk) as ->.
Qed.

Lemma filter_all {A} (P : A -> Prop) `{forall x, Decision (P x)} (l : list A) :
Forall P l -> filter P l = l.
Proof.
induction 1 as [|x l Hx _ IH]; [done|]. by rewrite filter_cons_True, IH.
Qed.

Lemma filter_none {A} (P : A -> Prop) `{forall x, Decision (P x)} (l : list A) :
Forall (fun x => ~ P x) l -> filter P l = [].
Proof.
induction 1 as [|x l Hx _ IH]; [done|]. by rewrite filter_cons_False, IH.
Qed.

Lemma index_part_unique ik1 ok1 ik2 ok2 :
Forall (fun k => is_Some (JsObject.arrayIndex k)) ik1 ->
Forall (fun k => JsObject.arrayIndex k = None) ok1 ->
Forall (fun k => is_Some (JsObject.arrayIndex k)) ik2 ->
Forall (fun k => JsObject.arrayIndex k = None) ok2 ->
ik1 ++ ok1 ≡ₚ ik2 ++ ok2 -> ik1 ≡ₚ ik2 /\ ok1 ≡ₚ ok2.
Proof.
intros Hi1 Ho1 Hi2 Ho2 Hp.
assert (forall ik ok,
        Forall (fun k => is_Some (JsObject.arrayIndex k)) ik ->
        Forall (fun k => JsObject.arrayIndex k = None) ok ->
        filter (fun k => is_Some (JsObject.arrayIndex k)) (ik ++ ok) = ik
        /\ filter (fun k => ¬ is_Some (JsObject.arrayIndex k)) (ik ++ ok) = ok)
as Hsplit.
{ intros ik ok Hi Ho. rewrite !filter_app.
assert (Forall (fun k => ¬ is_Some (JsObject.arrayIndex k)) ok) as Ho'.
{ eapply Forall_impl; [exact Ho|]. intros k Hk [x Hx]. simpl in *. congruence. }
assert (Forall (fun k => ¬ ¬ is_Some (JsObject.arrayIndex k)) ik) as Hi'.
{ eapply Forall_impl; [exact Hi|]. intros k Hk Hn. done. }
split.
- rewrite (filter_all _ ik Hi), (filter_none _ ok Ho'). by rewrite app_nil_r.
- by rewrite (filter_none _ ik Hi'), (filter_all _ ok Ho'). }
destruct (Hsplit ik1 ok1 Hi1 Ho1) as [E1 E2].
destruct (Hsplit ik2 ok2 Hi2 Ho2) as [E3 E4].
split.
- rewrite <- E1, <- E3. by rewrite Hp.
- rewrite <- E2, <- E4. by rewrite Hp.
Qed.

Lemma sorted_aliases_same (o1 o2 : JsObject.t) :
JsArray.Consistent localeCompare ->
TellsApart localeCompare (JsObject.keys o1) ->
NoDup (JsObject.keys o1) -> NoDup (JsObject.keys o2) ->
AliasOrder localeCompare (JsObject.keys o1) ->
AliasOrder localeCompare (JsObject.keys o2) ->
(forall k, JsObject.getOwn o1 k = JsObject.getOwn o2 k) -> o1 = o2.
Proof.
intros Hc Hta Hnd1 Hnd2 (ik1 & ok1 & E1 & Hi1 & Hs1 & Ho1 & Hl1)
(ik2 & ok2 & E2 & Hi2 & Hs2 & Ho2 & Hl2) Hget.
assert (JsObject.keys o1 ≡ₚ JsObject.keys o2) as Hp.
{ apply NoDup_Permutation; [done|done|]. intros k. split; intros Hin.
- destruct (decide (k ∈ JsObject.keys o2)) as [|Hn]; [done|].
  apply getOwn_None in Hn. rewrite <- Hget in Hn. by apply getOwn_None in Hn.
- destruct (decide (k ∈ JsObject.keys o1)) as [|Hn]; [done|].
  apply getOwn_None in Hn. rewrite Hget in Hn. by apply getOwn_None in Hn. }
apply entries_unique; [|done|done].
rewrite E1, E2 in Hp |- *.
destruct (index_part_unique _ _ _ _ Hi1 Ho1 Hi2 Ho2 Hp) as [Hpi Hpo].
f_equal.
- apply (Sorted_unique_strong indexBefore); try done.
intros x1 x2 _ _. unfold indexBefore.
destruct (JsObject.arrayIndex x1), (JsObject.arrayIndex x2); try done. lia.
- apply (sorted_TellsApart_unique localeCompare); try done.
intros a b Ha Hb. apply Hta; rewrite E1; apply elem_of_app; by right.
Qed.

(** Two sorted manifests with the same content are the same manifest, when
the comparators tell the modules and the alias keys of one of them
apart. *)
Lemma sorted_same_content (v w : StoreView) :
JsArray.Consistent compareModules -> JsArray.Consistent localeCompare ->
TellsApart (compareViews compareModules) (svModules v) ->
TellsApart localeCompare (JsObject.keys (svAliases v)) ->
Forall FilesSorted (svModules v) -> Forall FilesSorted (svModules w) ->
Sorted (JsArray.cmpLe (compareViews compareModules)) (svModules v) ->
Sorted (JsArray.cmpLe (compareViews compareModules)) (svModules w) ->
NoDup (JsObject.keys (svAliases v)) -> NoDup (JsObject.keys (svAliases w)) ->
AliasOrder localeCompare (JsObject.keys (svAliases v)) ->
AliasOrder localeCompare (JsObject.keys (svAliases w)) ->
SameContent v w -> w = v.
Proof.
intros Hcm Hlc Htm Hta Hfv Hfw Hsv Hsw Hnv Hnw Hav Haw [(l & Hl & Hsame) Hget].
assert (svModules v = l) as <-.
{ apply sorted_modules_same; [done| |done]. by rewrite Hl. }
assert (svModules v = svModules w) as Hm.
{ apply (sorted_TellsApart_unique (compareViews compareModules)); try done.
by apply compareViews_consistent. }
assert (svAliases v = svAliases w) as Ha by by apply sorted_aliases_same.
destruct v, w; simpl in *. by subst.
Qed.

End SameContent.

Lemma compareByIdentity_consistent : JsArray.Consistent compareByIdentity.
Proof.
pose proof defaultCompare_consistent as Hc. unfold compareByIdentity. split.
- intros a b. apply (JsArray.cmp_flip _ Hc).
- intros a b. apply (JsArray.cmp_strict _ Hc).
- intros a b c. apply (JsArray.cmp_trans _ Hc).
Qed.

(** The order of what [mutateStore] returns.  For consistent comparators,
    a readable manifest and any action list on which [mutateStore] returns,
    the returned manifest has its modules sorted by [compareModules] and the
    files of each module sorted by code units; its aliases are enumerated
    as the rebuilt object enumerates them, the keys that are array indices
    first, in ascending numeric order, and the other keys after them in the
    order of [localeCompare].  When [compareModules] does not read the file
    lists and the comparators tell the modules and the alias keys of the
    returned manifest apart, any manifest [mutateStore] returns with the
    same content, from whatever manifest and action list, is the same
    manifest. *)
Theorem mutateStore_returns_sorted
  (compareModules : ModuleObj -> ModuleObj -> Z)
  (localeCompare : string -> string -> Z)
  (h : Heap) (store : ref) (v : StoreView) (actions : list Action)
  (h' : Heap) (s' : ref) :
  JsArray.Consistent compareModules -> JsArray.Consistent localeCompare ->
  viewStore h store = Some v ->
  mutateStore compareModules localeCompare store actions h = (h', Ok s') ->
  exists ms objs v',
    storeModules h' s' = Some ms
    /\ readModules h' ms = Some objs
    /\ viewStore h' s' = Some v'
    /\ Sorted (JsArray.cmpLe compareModules) (map snd objs)
    /\ Forall FilesSorted (svModules v')
    /\ AliasOrder localeCompare (JsObject.keys (svAliases v'))
    /\ (FilesBlind compareModules ->
        TellsApart (compareViews compareModules) (svModules v') ->
        TellsApart localeCompare (JsObject.keys (svAliases v')) ->
        forall h2 store2 v2 actions2 h2' s2' w,
          viewStore h2 store2 = Some v2 ->
          mutateStore compareModules localeCompare store2 actions2 h2 = (h2', Ok s2') ->
          viewStore h2' s2' = Some w ->
          SameContent v' w -> w = v').
Proof.
  intros Hcm Hlc Hv Hrun.
  destruct (mutateStore_returned compareModules localeCompare
              h store v actions h' s' Hcm Hlc Hv Hrun)
    as (ms & objs & v' & Hms & Hobjs & Hview & Hsorted & Hfiles & Hal & Hnd & Hsv).
  exists ms, objs, v'. repeat (split; [done|]).
  intros Hfb Htm Hta h2 store2 v2 actions2 h2' s2' w Hv2 Hrun2 Hw Hsame.
  destruct (mutateStore_returned compareModules localeCompare
              h2 store2 v2 actions2 h2' s2' Hcm Hlc Hv2 Hrun2)
    as (ms2 & objs2 & w' & _ & _ & Hview2 & _ & Hfiles2 & Hal2 & Hnd2 & Hsv2).
  rewrite Hw in Hview2. injection Hview2 as <-.
  apply (sorted_same_content compareModules localeCompare); auto.
Qed.

Lemma mutateStore_returns_sorted_witness :
  exists h' s' v',
    mutateStore compareByIdentity JsString.defaultCompare 0
      [ADD_LINK "https://deno.land/std/fs/mod.ts";
       ADD_LINK "https://deno.land/std/bytes/mod.ts";
       ADD_ALIAS "fs.ts" "https://deno.land/std/fs/mod.ts";
       ADD_ALIAS "bytes.ts" "https://deno.land/std/bytes/mod.ts"] oneModuleHeap
    = (h', Ok s')
    /\ viewStore h' s' = Some v'
    /\ Forall FilesSorted (svModules v')
    /\ AliasOrder JsString.defaultCompare (JsObject.keys (svAliases v'))
    /\ exists h2' s2',
         mutateStore compareByIdentity JsString.defaultCompare 0
           [ADD_ALIAS "bytes.ts" "https://deno.land/std/bytes/mod.ts";
            ADD_LINK "https://deno.land/std/bytes/mod.ts";
            ADD_ALIAS "fs.ts" "https://deno.land/std/fs/mod.ts";
            ADD_LINK "https://deno.land/std/fs/mod.ts"] oneModuleHeap
         = (h2', Ok s2')
         /\ viewStore h2' s2' = Some v'.
Proof.
  destruct (mutateStore compareByIdentity JsString.defaultCompare 0
              [ADD_LINK "https://deno.land/std/fs/mod.ts";
               ADD_LINK "https://deno.land/std/bytes/mod.ts";
               ADD_ALIAS "fs.ts" "https://deno.land/std/fs/mod.ts";
               ADD_ALIAS "bytes.ts" "https://deno.land/std/bytes/mod.ts"]
              oneModuleHeap) as [h' r] eqn:Hrun.
  pose proof Hrun as Hrun0. vm_compute in Hrun0. injection Hrun0 as Hh' Hr.
  subst r.
  destruct (mutateStore_returns_sorted compareByIdentity JsString.defaultCompare
              oneModuleHeap 0 {| svModules := [stdModule]; svAliases := [] |}
              _ h' 11 compareByIdentity_consistent defaultCompare_consistent
              eq_refl Hrun)
    as (ms & objs & v' & _ & _ & Hview & _ & Hfiles & Hal & Hsame).
  exists h', 11, v'. split; [reflexivity|]. repeat (split; [assumption|]).
  pose proof Hview as Hview0. rewrite <- Hh' in Hview0. vm_compute in Hview0.
  injection Hview0 as Hv'.
  destruct (mutateStore compareByIdentity JsString.defaultCompare 0
              [ADD_ALIAS "bytes.ts" "https://deno.land/std/bytes/mod.ts";
               ADD_LINK "https://deno.land/std/bytes/mod.ts";
               ADD_ALIAS "fs.ts" "https://deno.land/std/fs/mod.ts";
               ADD_LINK "https://deno.land/std/fs/mod.ts"]
              oneModuleHeap) as [h2' r2] eqn:Hrun2.
  pose proof Hrun2 as Hrun3. vm_compute in Hrun3. injection Hrun3 as Hh2' Hr2.
  subst r2.
  destruct (viewStore h2' 11) as [w|] eqn:Hw;
    [|rewrite <- Hh2' in Hw; vm_compute in Hw; discriminate].
  pose proof Hw as Hw0. rewrite <- Hh2' in Hw0. vm_compute in Hw0.
  injection Hw0 as Hw0.
  assert (TellsApart (compareViews compareByIdentity) (svModules v')) as Htm.
  { rewrite <- Hv'.
    intros a b Ha%list_elem_of_singleton Hb%list_elem_of_singleton _. congruence. }
  assert (TellsApart JsString.defaultCompare (JsObject.keys (svAliases v'))) as Hta.
  { intros a b _ _. apply defaultCompare_zero. }
  assert (SameContent v' w) as Hsc.
  { rewrite <- Hv', <- Hw0. split; [|done]. eexists. split; [reflexivity|].
    repeat constructor. }
  exists h2', 11. split; [reflexivity|]. rewrite Hw. f_equal.
  exact (Hsame compareByIdentity_filesBlind Htm Hta oneModuleHeap 0
           {| svModules := [stdModule]; svAliases := [] |} _ h2' 11 w
           eq_refl Hrun2 Hw Hsc).
Defined.

(** C2.  The aliases are not returned in the order of their keys.  The
    end of [mutateStore] sorts the entries of the aliases by key and
    rebuilds the object from them, to leave the aliases sorted as the
    modules and the files are; but an object enumerates its array-index
    keys first, in ascending numeric order, whatever the order of
    insertion.  With the aliases [10], [9] and [./fs.ts] added, the entries
    are sorted by key into [./fs.ts], [10], [9], and the aliases of the
    returned manifest enumerate [9], [10], [./fs.ts], which is not sorted
    by [localeCompare]. *)
Lemma aliases_enumerated_index_keys_first :
  exists h' s' v',
    mutateStore compareByIdentity JsString.defaultCompare 0
      [ADD_ALIAS "10" "https://deno.land/std/fs/mod.ts";
       ADD_ALIAS "9" "https://deno.land/std/fs/copy.ts";
       ADD_ALIAS "./fs.ts" "https://deno.land/std/fs/mod.ts"] oneModuleHeap
    = (h', Ok s')
    /\ viewStore h' s' = Some v'
    /\ JsObject.keys (svAliases v') = ["9"; "10"; "./fs.ts"]
    /\ JsArray.sort JsString.defaultCompare (JsObject.keys (svAliases v'))
       = ["./fs.ts"; "10"; "9"]
    /\ ~ Sorted (JsArray.cmpLe JsString.defaultCompare) (JsObject.keys (svAliases v')).
Proof.
  eexists _, _, _. split; [vm_compute; reflexivity|].
  split; [vm_compute; reflexivity|].
  split; [reflexivity|]. split; [vm_compute; reflexivity|].
  intros Hs. apply Sorted_inv in Hs as [_ Hhd]. apply HdRel_inv in Hhd.
  vm_compute in Hhd. by apply Hhd.
Qed.

(** ** The loop of [mutateStore], by value *)

Section FindFrom.
Context {A : Type}.
Implicit Types (p : A -> bool) (xs : list A).

Lemma findFrom_Some p i xs j x :
findFrom p i xs = Some (j, x) ->
exists k, j = i + k /\ xs !! k = Some x /\ p x = true
        /\ Forall (fun y => p y = false) (take k xs).
Proof.
revert i; induction xs as [|y xs IH]; intros i; simpl; [done|].
destruct (p y) eqn:Hy.
- intros [= <- <-]. exists 0. rewrite Nat.add_0_r. repeat split; done.
- intros H. destruct (IH _ H) as (k & -> & Hk & Hp & Hbefore).
exists (S k). split; [lia|]. split; [done|]. split; [done|].
simpl. by constructor.
Qed.

Lemma findFrom_None p i xs :
findFrom p i xs = None -> Forall (fun y => p y = false) xs.
Proof.
revert i; induction xs as [|y xs IH]; intros i; simpl; [constructor|].
destruct (p y) eqn:Hy; [done|]. intros H. constructor; [done|]. by eapply IH.
Qed.

Lemma findFrom_shift p i xs :
findFrom p (S i) xs = (fun r => (S (fst r), snd r)) <$> findFrom p i xs.
Proof.
revert i; induction xs as [|y xs IH]; intros i; simpl; [done|].
destruct (p y); [done|]. apply IH.
Qed.

Lemma findFrom_ext p q i xs :
Forall (fun x => p x = q x) xs -> findFrom p i xs = findFrom q i xs.
Proof.
intros H. revert i. induction H as [|x xs Hx _ IH]; intros i; simpl; [done|].
rewrite Hx. destruct (q x); [done|]. apply IH.
Qed.
End FindFrom.

Section Shown.
Implicit Types (h H : Heap) (o : ref * ModuleObj) (v : ModuleView).

Lemma Shows_view H o v : Shows H o v -> viewModule H (fst o) = Some v.
Proof.
intros (Hm & Hfs & Hp & Hpa & Hv). unfold viewModule. rewrite Hm, Hfs.
destruct v; simpl in *. by subst.
Qed.

Lemma Shows_identity H o v : Shows H o v -> toString (snd o) = identity v.
Proof.
intros (_ & _ & Hp & Hpa & _). unfold toString, identity. by rewrite Hp, Hpa.
Qed.

(** A write elsewhere keeps what a module reads as. *)
Lemma Shows_insert H l x o v :
Shows H o v -> l <> fst o -> l <> files (snd o) -> Shows (<[l := x]> H) o v.
Proof.
intros (Hm & Hfs & Hrest) H1 H2. split; [|split; [|done]].
- unfold heapModule in *. by rewrite list_lookup_insert_ne.
- unfold heapStrings in *. by rewrite list_lookup_insert_ne.
Qed.

Lemma Forall2_Shows_insert H l x objs vs :
Forall2 (Shows H) objs vs ->
l ∉ map fst objs -> l ∉ map (fun o => files (snd o)) objs ->
Forall2 (Shows (<[l := x]> H)) objs vs.
Proof.
induction 1 as [|o v objs vs Ho _ IH]; simpl; [constructor|].
intros [H1 H1']%not_elem_of_cons [H2 H2']%not_elem_of_cons.
constructor; [by apply Shows_insert|by apply IH].
Qed.

(** A module is not an array of strings, and neither is the modules array
or the aliases object. *)
Lemma module_not_strings H a b m fs :
heapModule H a = Some m -> heapStrings H b = Some fs -> a <> b.
Proof.
intros Hm Hfs ->. unfold heapModule, heapStrings in *.
destruct (H !! b) as [[]|]; done.
Qed.

Lemma Forall2_Shows_refs H objs vs l :
Forall2 (Shows H) objs vs ->
heapModule H l = None -> heapStrings H l = None ->
(l ∉ map fst objs) /\ (l ∉ map (fun o => files (snd o)) objs).
Proof.
intros Hall Hm Hs. induction Hall as [|o v objs vs Ho _ [IH1 IH2]]; simpl.
- split; apply not_elem_of_nil.
- destruct Ho as (Hom & Hofs & _).
split; apply not_elem_of_cons; (split; [|done]); intros ->; congruence.
Qed.

Lemma Forall2_Shows_readModules H objs vs :
Forall2 (Shows H) objs vs -> readModules H (map fst objs) = Some objs.
Proof.
induction 1 as [|[r m] v objs vs Ho _ IH]; simpl; [done|].
destruct Ho as (Hm & _). simpl in Hm. by rewrite Hm, IH.
Qed.

Lemma Forall2_Shows_viewModules H objs vs :
Forall2 (Shows H) objs vs -> viewModules H (map fst objs) = Some vs.
Proof.
induction 1 as [|o v objs vs Ho _ IH]; simpl; [done|].
by rewrite (Shows_view _ _ _ Ho), IH.
Qed.

(** The searches of the loop, read on the values. *)
Lemma firstOwner_findFrom {E} H probe objs vs :
Forall2 (Shows H) objs vs ->
firstOwner (E:=E) H probe (map fst objs)
= Ok (match findFrom (ownsView probe) 0 vs with
    | Some (i, _) => fst <$> objs !! i
    | None => None
    end).
Proof.
induction 1 as [|o v objs vs Ho _ IH]; simpl; [done|].
destruct Ho as (Hm & Hfs & Hp & Hpa & Hv). rewrite Hm.
assert (toString (snd o) = identity v) as ->.
{ unfold toString, identity. by rewrite Hp, Hpa. }
unfold ownsView at 1. destruct (JsString.startsWith probe (identity v)); [done|].
rewrite IH, findFrom_shift.
destruct (findFrom (ownsView probe) 0 vs) as [[i x]|]; done.
Qed.

Lemma firstExact_findFrom {E} H p pa objs vs :
Forall2 (Shows H) objs vs ->
firstExact (E:=E) H p pa (map fst objs)
= Ok (match findFrom (isModuleView p pa) 0 vs with
    | Some (i, _) => fst <$> objs !! i
    | None => None
    end).
Proof.
induction 1 as [|o v objs vs Ho _ IH]; simpl; [done|].
destruct Ho as (Hm & Hfs & Hp & Hpa & Hv). rewrite Hm.
unfold isModuleView at 1. rewrite Hp, Hpa.
destruct (String.eqb (mvProtocol v) p && String.eqb (mvPath v) pa); [done|].
rewrite IH, findFrom_shift.
destruct (findFrom (isModuleView p pa) 0 vs) as [[i x]|]; done.
Qed.

Lemma firstOwnerIndex_findFrom {E} H urlStr objs vs k :
Forall2 (Shows H) objs vs ->
firstOwnerIndex (E:=E) H urlStr (map fst objs) k
= Ok (fst <$> findFrom (ownsView urlStr) k vs).
Proof.
intros Hall. revert k. induction Hall as [|o v objs vs Ho _ IH]; intros k; simpl; [done|].
destruct Ho as (Hm & Hfs & Hp & Hpa & Hv). rewrite Hm.
assert (toString (snd o) = identity v) as ->.
{ unfold toString, identity. by rewrite Hp, Hpa. }
unfold ownsView at 1. destruct (JsString.startsWith urlStr (identity v)); [done|].
apply IH.
Qed.

Lemma filePathOf_view H o v link :
Shows H o v -> filePathOf link (snd o) = filePathOfView link v.
Proof.
intros Ho. unfold filePathOf, filePathOfView. by rewrite (Shows_identity _ _ _ Ho).
Qed.
End Shown.

Ltac other_kind :=
  let E := fresh "E" in
  intros E;
  unfold heapStore, heapConfig, heapModules, heapModule, heapStrings, heapAliases in *;
  first [rewrite E in * | rewrite <- E in *];
  repeat match goal with
         | Hx : context [match ?H !! ?l with _ => _ end] |- _ =>
             destruct (H !! l) as [[]|]
         end;
  congruence.

Section HeapWrites.
Implicit Types (h H : Heap).

Lemma lookup_map {A B} (f : A -> B) (l : list A) i : map f l !! i = f <$> l !! i.
Proof. revert i; induction l as [|x l IH]; intros [|i]; simpl; auto. Qed.

Lemma map_delete {A B} (f : A -> B) (l : list A) i :
map f (delete i l) = delete i (map f l).
Proof. revert i; induction l as [|x l IH]; intros [|i]; simpl; auto. by rewrite IH. Qed.

Lemma map_insert {A B} (f : A -> B) (l : list A) i x :
map f (<[i := x]> l) = <[i := f x]> (map f l).
Proof. revert i; induction l as [|y l IH]; intros [|i]; simpl; auto. by rewrite IH. Qed.

Lemma heapModules_insert_ne H l x r :
r <> l -> heapModules (<[l := x]> H) r = heapModules H r.
Proof. intros Hne. unfold heapModules. by rewrite list_lookup_insert_ne. Qed.

Lemma heapAliases_insert_ne H l x r :
r <> l -> heapAliases (<[l := x]> H) r = heapAliases H r.
Proof. intros Hne. unfold heapAliases. by rewrite list_lookup_insert_ne. Qed.

Lemma heapModule_insert_ne H l x r :
r <> l -> heapModule (<[l := x]> H) r = heapModule H r.
Proof. intros Hne. unfold heapModule. by rewrite list_lookup_insert_ne. Qed.

Lemma heapStrings_insert_ne H l x r :
r <> l -> heapStrings (<[l := x]> H) r = heapStrings H r.
Proof. intros Hne. unfold heapStrings. by rewrite list_lookup_insert_ne. Qed.

Lemma Untouched_insert h H l x o :
Untouched h H o -> l <> fst o -> l <> files (snd o) -> Untouched h (<[l := x]> H) o.
Proof.
intros (Hm0 & Hm & fs & Hfs0 & Hfs) H1 H2. split; [done|]. split.
- by rewrite heapModule_insert_ne.
- exists fs. split; [done|]. by rewrite heapStrings_insert_ne.
Qed.

Lemma Forall_Untouched_insert h H l x pobjs :
Forall (Untouched h H) pobjs ->
l ∉ map fst pobjs -> l ∉ map (fun o => files (snd o)) pobjs ->
Forall (Untouched h (<[l := x]> H)) pobjs.
Proof.
induction 1 as [|o pobjs Ho _ IH]; simpl; [constructor|].
intros [H1 H1']%not_elem_of_cons [H2 H2']%not_elem_of_cons.
constructor; [by apply Untouched_insert|by apply IH].
Qed.

Lemma Untouched_refs h H pobjs l :
Forall (Untouched h H) pobjs ->
heapModule H l = None -> heapStrings H l = None ->
(l ∉ map fst pobjs) /\ (l ∉ map (fun o => files (snd o)) pobjs).
Proof.
intros Hall Hm Hs. induction Hall as [|o pobjs Ho _ [IH1 IH2]]; simpl.
- split; apply not_elem_of_nil.
- destruct Ho as (_ & Hom & fs & _ & Hofs).
split; apply not_elem_of_cons; (split; [|done]); intros ->; congruence.
Qed.

Lemma Forall2_Shows_lookup H objs vs i o :
Forall2 (Shows H) objs vs -> objs !! i = Some o ->
exists v, vs !! i = Some v /\ Shows H o v.
Proof. intros Hall Ho. by apply (Forall2_lookup_l _ _ _ _ _ Hall Ho). Qed.

Lemma Forall2_Shows_lookup_r H objs vs i v :
Forall2 (Shows H) objs vs -> vs !! i = Some v ->
exists o, objs !! i = Some o /\ Shows H o v.
Proof. intros Hall Hv. by apply (Forall2_lookup_r _ _ _ _ _ Hall Hv). Qed.
End HeapWrites.

Section Writes4.
Variables (h H0 : Heap) (modulesRef aliasesRef : ref).
Implicit Types (H : Heap) (w : StoreView).

(** The modules array replaced. *)
Lemma Represents_modules pobjs H (ms : list ref) al objs' vs' :
heapModules H modulesRef = Some ms ->
heapAliases H aliasesRef = Some al ->
KeepsStores H0 H ->
Forall (Untouched h H) pobjs ->
Forall2 (Shows H) objs' vs' ->
NoDup (map fst objs' ++ map fst pobjs) ->
NoDup (map (fun o => files (snd o)) objs' ++ map (fun o => files (snd o)) pobjs) ->
Represents h H0 modulesRef aliasesRef pobjs
(<[modulesRef := OModules (map fst objs')]> H)
{| svModules := vs'; svAliases := al |}.
Proof.
intros Hms Hal Hks Hpend Hall Hnd1 Hnd2.
assert (heapModule H modulesRef = None) as Hnm.
{ unfold heapModule, heapModules in *. by destruct (H !! modulesRef) as [[]|]. }
assert (heapStrings H modulesRef = None) as Hns.
{ unfold heapStrings, heapModules in *. by destruct (H !! modulesRef) as [[]|]. }
assert (modulesRef < length H) as Hlt.
{ unfold heapModules in Hms. destruct (H !! modulesRef) eqn:E; [|done].
by eapply lookup_lt_Some. }
destruct (Forall2_Shows_refs _ _ _ _ Hall Hnm Hns) as [Hr1 Hr2].
destruct (Untouched_refs _ _ _ _ Hpend Hnm Hns) as [Hp1 Hp2].
exists objs'. simpl. repeat split; try done.
- unfold heapModules. by rewrite list_lookup_insert_eq.
- by apply Forall2_Shows_insert.
- rewrite heapAliases_insert_ne; [done|]. other_kind.
- apply KeepsStores_update; [done|..]; intros ? E; unfold heapModules in Hms;
  by rewrite E in Hms.
- by apply Forall_Untouched_insert.
Qed.

(** The working aliases replaced. *)
Lemma Represents_aliases pobjs H objs vs al al' :
heapModules H modulesRef = Some (map fst objs) ->
Forall2 (Shows H) objs vs ->
heapAliases H aliasesRef = Some al ->
KeepsStores H0 H ->
NoDup (map fst objs ++ map fst pobjs) ->
NoDup (map (fun o => files (snd o)) objs ++ map (fun o => files (snd o)) pobjs) ->
Forall (Untouched h H) pobjs ->
Represents h H0 modulesRef aliasesRef pobjs
(<[aliasesRef := OAliases al']> H) {| svModules := vs; svAliases := al' |}.
Proof.
intros Hms Hall Hal Hks Hnd1 Hnd2 Hpend.
assert (heapModule H aliasesRef = None) as Hnm.
{ unfold heapModule, heapAliases in *. by destruct (H !! aliasesRef) as [[]|]. }
assert (heapStrings H aliasesRef = None) as Hns.
{ unfold heapStrings, heapAliases in *. by destruct (H !! aliasesRef) as [[]|]. }
assert (aliasesRef < length H) as Hlt.
{ unfold heapAliases in Hal. destruct (H !! aliasesRef) eqn:E; [|done].
by eapply lookup_lt_Some. }
destruct (Forall2_Shows_refs _ _ _ _ Hall Hnm Hns) as [Hr1 Hr2].
destruct (Untouched_refs _ _ _ _ Hpend Hnm Hns) as [Hp1 Hp2].
exists objs. simpl. repeat split; try done.
- rewrite heapModules_insert_ne; [done|]. other_kind.
- by apply Forall2_Shows_insert.
- unfold heapAliases. by rewrite list_lookup_insert_eq.
- apply KeepsStores_update; [done|..]; intros ? E; unfold heapAliases in Hal;
  by rewrite E in Hal.
- by apply Forall_Untouched_insert.
Qed.

(** The [files] array of the module at index [i] replaced. *)
Lemma Represents_files pobjs H objs vs al i o v fs' :
heapModules H modulesRef = Some (map fst objs) ->
Forall2 (Shows H) objs vs ->
heapAliases H aliasesRef = Some al ->
KeepsStores H0 H ->
NoDup (map fst objs ++ map fst pobjs) ->
NoDup (map (fun o => files (snd o)) objs ++ map (fun o => files (snd o)) pobjs) ->
Forall (Untouched h H) pobjs ->
objs !! i = Some o -> vs !! i = Some v ->
Represents h H0 modulesRef aliasesRef pobjs
(<[files (snd o) := OStrings fs']> H)
{| svModules := <[i := withFiles v fs']> vs; svAliases := al |}.
Proof.
intros Hms Hall Hal Hks Hnd1 Hnd2 Hpend Ho Hv.
destruct (Forall2_Shows_lookup _ _ _ _ _ Hall Ho) as (v0 & Hv0 & Hsh).
rewrite Hv in Hv0. injection Hv0 as <-.
destruct Hsh as (Hom & Hofs & Hp & Hpa & Hve).
set (l := files (snd o)) in *.
assert (l < length H) as Hlt.
{ unfold heapStrings in Hofs. destruct (H !! l) eqn:E; [|done].
by eapply lookup_lt_Some. }
pose proof Hnd1 as Hnd1'. pose proof Hnd2 as Hnd2'.
apply NoDup_app in Hnd1' as (Hnd1a & Hd1 & Hndp1).
apply NoDup_app in Hnd2' as (Hnd2a & Hd2 & Hndp2).
assert (l ∈ map (fun o => files (snd o)) objs) as Hlin.
{ apply list_elem_of_lookup. exists i. by rewrite lookup_map, Ho. }
exists objs. simpl. split; [|split; [|split; [|split; [|split; [|split]]]]].
- rewrite heapModules_insert_ne; [done|]. other_kind.
- apply Forall2_same_length_lookup. split.
{ rewrite length_insert. by eapply Forall2_length. }
intros j o' v' Ho' Hv'. destruct (decide (j = i)) as [->|Hne].
+ rewrite Ho in Ho'. injection Ho' as <-.
  rewrite list_lookup_insert_eq in Hv' by by eapply lookup_lt_Some.
  injection Hv' as <-. split; [|split; [|done]].
  * rewrite heapModule_insert_ne; [done|]. other_kind.
  * unfold heapStrings. fold l. by rewrite list_lookup_insert_eq.
+ rewrite list_lookup_insert_ne in Hv' by done.
  destruct (Forall2_Shows_lookup _ _ _ _ _ Hall Ho') as (v1 & Hv1 & Hsh).
  rewrite Hv' in Hv1. injection Hv1 as <-.
  apply Shows_insert; [done| |].
  * destruct Hsh as (Hm' & _). other_kind.
  * intros Heq. apply Hne.
    apply (NoDup_lookup _ _ _ l Hnd2a); rewrite lookup_map.
    -- rewrite Ho'. simpl. by rewrite <- Heq.
    -- by rewrite Ho.
- rewrite heapAliases_insert_ne; [done|]. other_kind.
- apply KeepsStores_update; [done|..]; intros ? E; unfold heapStrings in Hofs;
  by rewrite E in Hofs.
- done.
- done.
- apply Forall_Untouched_insert; [done| |].
+ intros Hin. apply list_elem_of_In, in_map_iff in Hin as (po & Hpo & Hin).
  apply list_elem_of_In in Hin.
  destruct (proj1 (Forall_forall _ _) Hpend po Hin) as (_ & Hpm & _).
  rewrite Hpo in Hpm. clear -Hpm Hofs.
  unfold heapModule, heapStrings in *. destruct (H !! l) as [[]|]; done.
+ intros Hin. by apply (Hd2 l).
Qed.

(** The version of the module at index [i] replaced. *)
Lemma Represents_version pobjs H objs vs al i o v moduleVersion :
heapModules H modulesRef = Some (map fst objs) ->
Forall2 (Shows H) objs vs ->
heapAliases H aliasesRef = Some al ->
KeepsStores H0 H ->
NoDup (map fst objs ++ map fst pobjs) ->
NoDup (map (fun o => files (snd o)) objs ++ map (fun o => files (snd o)) pobjs) ->
Forall (Untouched h H) pobjs ->
objs !! i = Some o -> vs !! i = Some v ->
Represents h H0 modulesRef aliasesRef pobjs
(<[fst o := OModule {| protocol := protocol (snd o); path := path (snd o);
                       version := moduleVersion; files := files (snd o) |}]> H)
{| svModules := <[i := withVersion v moduleVersion]> vs; svAliases := al |}.
Proof.
intros Hms Hall Hal Hks Hnd1 Hnd2 Hpend Ho Hv.
destruct (Forall2_Shows_lookup _ _ _ _ _ Hall Ho) as (v0 & Hv0 & Hsh).
rewrite Hv in Hv0. injection Hv0 as <-.
destruct Hsh as (Hom & Hofs & Hp & Hpa & Hve).
set (r := fst o) in *.
set (m' := {| protocol := protocol (snd o); path := path (snd o);
            version := moduleVersion; files := files (snd o) |}).
assert (r < length H) as Hlt.
{ unfold heapModule in Hom. destruct (H !! r) eqn:E; [|done].
by eapply lookup_lt_Some. }
pose proof Hnd1 as Hnd1'. pose proof Hnd2 as Hnd2'.
apply NoDup_app in Hnd1' as (Hnd1a & Hd1 & Hndp1).
apply NoDup_app in Hnd2' as (Hnd2a & Hd2 & Hndp2).
assert (r ∈ map fst objs) as Hrin.
{ apply list_elem_of_lookup. exists i. by rewrite lookup_map, Ho. }
exists (<[i := (r, m')]> objs). simpl.
split; [|split; [|split; [|split; [|split; [|split]]]]].
- rewrite heapModules_insert_ne; [|other_kind].
rewrite Hms. f_equal. rewrite map_insert. simpl.
symmetry. apply list_insert_id. by rewrite lookup_map, Ho.
- apply Forall2_same_length_lookup. split.
{ rewrite !length_insert. by eapply Forall2_length. }
intros j o' v' Ho' Hv'. destruct (decide (j = i)) as [->|Hne].
+ rewrite list_lookup_insert_eq in Ho' by by eapply lookup_lt_Some.
  rewrite list_lookup_insert_eq in Hv' by by eapply lookup_lt_Some.
  injection Ho' as <-. injection Hv' as <-. split; [|split; [|done]]; simpl.
  * unfold heapModule. by rewrite list_lookup_insert_eq.
  * rewrite heapStrings_insert_ne; [done|]. other_kind.
+ rewrite list_lookup_insert_ne in Ho' by done.
  rewrite list_lookup_insert_ne in Hv' by done.
  destruct (Forall2_Shows_lookup _ _ _ _ _ Hall Ho') as (v1 & Hv1 & Hsh).
  rewrite Hv' in Hv1. injection Hv1 as <-.
  apply Shows_insert; [done| |].
  * intros Heq. apply Hne.
    apply (NoDup_lookup _ _ _ r Hnd1a); rewrite lookup_map.
    -- rewrite Ho'. simpl. by rewrite <- Heq.
    -- by rewrite Ho.
  * destruct Hsh as (_ & Hfs' & _). other_kind.
- rewrite heapAliases_insert_ne; [done|]. other_kind.
- apply KeepsStores_update; [done|..]; intros ? E; unfold heapModule in Hom;
  by rewrite E in Hom.
- rewrite map_insert. simpl. rewrite list_insert_id; [done|].
by rewrite lookup_map, Ho.
- rewrite map_insert. simpl. rewrite list_insert_id; [done|].
by rewrite lookup_map, Ho.
- apply Forall_Untouched_insert; [done| |].
+ intros Hin. by apply (Hd1 r).
+ intros Hin. apply list_elem_of_In, in_map_iff in Hin as (po & Hpo & Hin).
  apply list_elem_of_In in Hin.
  destruct (proj1 (Forall_forall _ _) Hpend po Hin) as (_ & _ & fs & _ & Hpfs).
  rewrite Hpo in Hpfs. clear -Hpfs Hom.
  unfold heapModule, heapStrings in *. destruct (H !! r) as [[]|]; done.
Qed.
End Writes4.

Section StepByValue.
Variables (h H0 : Heap) (modulesRef aliasesRef : ref).
Implicit Types (H : Heap) (w : StoreView).

Lemma duplicateCheck_views H objs vs module mp :
Forall2 (Shows H) objs vs ->
heapModule H module = Some mp ->
forEach (map fst objs) (fun mod' =>
let! a := getModule mod' in
let! b := getModule module in
if moduleEquals a b
then throw (DuplicateModule (toString b))
else ret tt) H
= (H, if existsb (isModuleView (protocol mp) (path mp)) vs
    then Throw (DuplicateModule (toString mp)) else Ok tt).
Proof.
intros Hall Hm. induction Hall as [|o v objs vs Ho _ IH]; [done|].
destruct Ho as (Hom & Hofs & Hp & Hpa & Hv).
cbn [map forEach existsb]. run. rewrite Hom. run. rewrite Hm. run.
unfold moduleEquals, isModuleView at 1. rewrite Hp, Hpa.
destruct (String.eqb (mvProtocol v) (protocol mp)
        && String.eqb (mvPath v) (path mp)); simpl; [done|].
run. exact IH.
Qed.

(** An action other than [ADD_MODULE] does on the heap what it does by
value. *)
Lemma step_refines pobjs H w a :
payload a = [] ->
Represents h H0 modulesRef aliasesRef pobjs H w ->
match applyAction (viewModule h) a w with
| Ok w' =>
  exists H', mutateStoreAction modulesRef aliasesRef a H = (H', Ok tt)
             /\ Represents h H0 modulesRef aliasesRef pobjs H' w'
| Throw e => mutateStoreAction modulesRef aliasesRef a H = (H, Throw e)
| Stuck => True
end.
Proof.
intros Hpay Hrep.
pose proof Hrep as (objs & Hms & Hall & Hal & Hks & Hnd1 & Hnd2 & Hpend).
destruct w as [vs al]. simpl in Hall, Hal.
destruct a as [module|p pa|link|link|ap tp|ap|p pa ver]; [done|..];
cbn [applyAction svModules svAliases]; cbv zeta.
- (* REMOVE_MODULE *)
set (urlStr := p +:+ "://" +:+ pa).
assert (mutateStoreAction modulesRef aliasesRef (REMOVE_MODULE p pa) H
        = match findFrom (ownsView urlStr) 0 vs with
          | Some (i, _) =>
              (<[modulesRef := OModules (JsArray.splice1 i (map fst objs))]> H, Ok tt)
          | None => (H, Throw (ModuleNotFound OpRemoveModule urlStr))
          end) as Hrun.
{ cbn [mutateStoreAction]. cbv zeta. fold urlStr. run. rewrite Hms. run.
  rewrite (firstOwnerIndex_findFrom _ _ _ _ 0 Hall).
  destruct (findFrom (ownsView urlStr) 0 vs) as [[i x]|]; simpl; [|done].
  run. rewrite Hms. unfold setModules. run. by rewrite Hms. }
destruct (findFrom (ownsView urlStr) 0 vs) as [[i x]|]; [|exact Hrun].
eexists. split; [exact Hrun|]. unfold JsArray.splice1. rewrite <- map_delete.
apply NoDup_app in Hnd1 as (Hnd1a & Hd1 & Hndp1).
apply NoDup_app in Hnd2 as (Hnd2a & Hd2 & Hndp2).
eapply Represents_modules; try done.
+ by apply Forall2_delete.
+ apply NoDup_app. split; [|split; [|done]].
  * rewrite map_delete. apply (sublist_NoDup _ _ Hnd1a), sublist_delete.
  * intros x' Hx'. apply Hd1. rewrite map_delete in Hx'.
    eapply elem_of_sublist; [exact Hx'|apply sublist_delete].
+ apply NoDup_app. split; [|split; [|done]].
  * rewrite map_delete. apply (sublist_NoDup _ _ Hnd2a), sublist_delete.
  * intros x' Hx'. apply Hd2. rewrite map_delete in Hx'.
    eapply elem_of_sublist; [exact Hx'|apply sublist_delete].
- (* ADD_LINK *)
assert (forall E, firstOwner (E:=E) H link (map fst objs)
        = Ok (match findFrom (ownsView link) 0 vs with
              | Some (i, _) => fst <$> objs !! i
              | None => None
              end)) as Hfind by (intros; by apply firstOwner_findFrom).
destruct (findFrom (ownsView link) 0 vs) as [[i v]|] eqn:Hf.
+ destruct (findFrom_Some _ _ _ _ _ Hf) as (k & -> & Hv & _). simpl in *.
  destruct (Forall2_Shows_lookup_r _ _ _ _ _ Hall Hv) as (o & Ho & Hsh).
  rewrite Ho in Hfind. simpl in Hfind.
  pose proof Hsh as (Hom & Hofs & _).
  rewrite <- (filePathOf_view _ _ _ link Hsh).
  destruct (filePathOf link (snd o)) as [fp|] eqn:Hfp; [|done].
  destruct (JsArray.includes (mvFiles v) fp) eqn:Hinc.
  * exists H. split; [|done].
    cbn [mutateStoreAction]. run. rewrite Hms. run. rewrite Hfind. run.
    rewrite Hom. run. rewrite Hfp. run. rewrite Hofs. run. by rewrite Hinc.
  * eexists. split.
    { cbn [mutateStoreAction]. run. rewrite Hms. run. rewrite Hfind. run.
      rewrite Hom. run. rewrite Hfp. run. rewrite Hofs. run. rewrite Hinc.
      unfold setStrings. run. rewrite Hofs. run. reflexivity. }
    by eapply Represents_files.
+ cbn [mutateStoreAction]. run. rewrite Hms. run. by rewrite Hfind.
- (* REMOVE_LINK *)
assert (forall E, firstOwner (E:=E) H link (map fst objs)
        = Ok (match findFrom (ownsView link) 0 vs with
              | Some (i, _) => fst <$> objs !! i
              | None => None
              end)) as Hfind by (intros; by apply firstOwner_findFrom).
destruct (findFrom (ownsView link) 0 vs) as [[i v]|] eqn:Hf.
+ destruct (findFrom_Some _ _ _ _ _ Hf) as (k & -> & Hv & _). simpl in *.
  destruct (Forall2_Shows_lookup_r _ _ _ _ _ Hall Hv) as (o & Ho & Hsh).
  rewrite Ho in Hfind. simpl in Hfind.
  pose proof Hsh as (Hom & Hofs & _).
  rewrite <- (filePathOf_view _ _ _ link Hsh).
  destruct (filePathOf link (snd o)) as [fp|] eqn:Hfp; [|done].
  destruct (JsArray.indexOf (mvFiles v) fp) as [j|] eqn:Hidx.
  * eexists. split.
    { cbn [mutateStoreAction]. run. rewrite Hms. run. rewrite Hfind. run.
      rewrite Hom. run. rewrite Hfp. run. rewrite Hofs. run. rewrite Hidx.
      unfold setStrings. run. rewrite Hofs. run. reflexivity. }
    by eapply Represents_files.
  * cbn [mutateStoreAction]. run. rewrite Hms. run. rewrite Hfind. run.
    rewrite Hom. run. rewrite Hfp. run. rewrite Hofs. run. by rewrite Hidx.
+ cbn [mutateStoreAction]. run. rewrite Hms. run. by rewrite Hfind.
- (* ADD_ALIAS *)
assert (forall E, firstOwner (E:=E) H tp (map fst objs)
        = Ok (match findFrom (ownsView tp) 0 vs with
              | Some (i, _) => fst <$> objs !! i
              | None => None
              end)) as Hfind by (intros; by apply firstOwner_findFrom).
destruct (JsObject.truthy (JsObject.get al ap)) eqn:Ht.
+ cbn [mutateStoreAction]. run. rewrite Hal. run. by rewrite Ht.
+ destruct (findFrom (ownsView tp) 0 vs) as [[i v]|] eqn:Hf.
  * destruct (findFrom_Some _ _ _ _ _ Hf) as (k & -> & Hv & _). simpl in *.
    destruct (Forall2_Shows_lookup_r _ _ _ _ _ Hall Hv) as (o & Ho & Hsh).
    rewrite Ho in Hfind. simpl in Hfind.
    eexists. split.
    { cbn [mutateStoreAction]. run. rewrite Hal. run. rewrite Ht. run.
      rewrite Hms. run. rewrite Hfind. run. rewrite Hal. unfold setAliases.
      run. rewrite Hal. run. reflexivity. }
    by eapply Represents_aliases.
  * cbn [mutateStoreAction]. run. rewrite Hal. run. rewrite Ht. run.
    rewrite Hms. run. by rewrite Hfind.
- (* REMOVE_ALIAS *)
destruct (JsObject.truthy (JsObject.get al ap)) eqn:Ht; simpl.
+ eexists. split.
  { cbn [mutateStoreAction]. run. rewrite Hal. run. rewrite Ht. simpl.
    unfold setAliases. run. rewrite Hal. run. reflexivity. }
  by eapply Represents_aliases.
+ cbn [mutateStoreAction]. run. rewrite Hal. run. by rewrite Ht.
- (* UPDATE_MODULE *)
assert (forall E, firstExact (E:=E) H p pa (map fst objs)
        = Ok (match findFrom (isModuleView p pa) 0 vs with
              | Some (i, _) => fst <$> objs !! i
              | None => None
              end)) as Hfind by (intros; by apply firstExact_findFrom).
destruct (findFrom (isModuleView p pa) 0 vs) as [[i v]|] eqn:Hf.
+ destruct (findFrom_Some _ _ _ _ _ Hf) as (k & -> & Hv & _). simpl in *.
  destruct (Forall2_Shows_lookup_r _ _ _ _ _ Hall Hv) as (o & Ho & Hsh).
  rewrite Ho in Hfind. simpl in Hfind.
  pose proof Hsh as (Hom & Hofs & _).
  eexists. split.
  { cbn [mutateStoreAction]. cbv zeta. run. rewrite Hms. run. rewrite Hfind. run.
    rewrite Hom. run. unfold setModule. run. rewrite Hom. run. reflexivity. }
  by eapply Represents_version.
+ cbn [mutateStoreAction]. cbv zeta. run. rewrite Hms. run. by rewrite Hfind.
Qed.

(** [ADD_MODULE] of the first payload still to come. *)
Lemma step_addModule pobjs H w module mp :
Represents h H0 modulesRef aliasesRef ((module, mp) :: pobjs) H w ->
match applyAction (viewModule h) (ADD_MODULE module) w with
| Ok w' =>
  exists H', mutateStoreAction modulesRef aliasesRef (ADD_MODULE module) H = (H', Ok tt)
             /\ Represents h H0 modulesRef aliasesRef pobjs H' w'
| Throw e => mutateStoreAction modulesRef aliasesRef (ADD_MODULE module) H = (H, Throw e)
| Stuck => True
end.
Proof.
intros (objs & Hms & Hall & Hal & Hks & Hnd1 & Hnd2 & Hpend).
destruct w as [vs al]. simpl in Hall, Hal.
apply Forall_cons in Hpend as [(Hm0 & Hm & fs & Hfs0 & Hfs) Hpend]. simpl in *.
cbn [applyAction svModules svAliases]. unfold viewModule at 1. rewrite Hm0, Hfs0.
cbn [mvProtocol mvPath].
assert (identity {| mvProtocol := protocol mp; mvPath := path mp;
                  mvVersion := version mp; mvFiles := fs |} = toString mp)
as -> by done.
pose proof (duplicateCheck_views H objs vs module mp Hall Hm) as Hdup.
destruct (existsb (isModuleView (protocol mp) (path mp)) vs).
- cbn [mutateStoreAction]. run. rewrite Hms. run. by rewrite Hdup.
- eexists. split.
{ cbn [mutateStoreAction]. run. rewrite Hms. run. rewrite Hdup. run.
  rewrite Hms. unfold setModules. run. rewrite Hms. run. reflexivity. }
replace (map fst objs ++ [module]) with (map fst (objs ++ [(module, mp)]))
  by by rewrite map_app.
eapply Represents_modules; try done.
+ apply Forall2_app; [done|]. by repeat constructor.
+ rewrite map_app. simpl. by rewrite <- app_assoc.
+ rewrite map_app. simpl. by rewrite <- app_assoc.
Qed.
End StepByValue.

Section LoopByValue.
Variable compareModules : ModuleObj -> ModuleObj -> Z.
Variable localeCompare : string -> string -> Z.
Implicit Types (h H : Heap) (w : StoreView).

Lemma copyObjs_refs n vs : map fst (copyObjs n vs) = copyRefs n vs.
Proof. revert n; induction vs as [|v vs IH]; intros n; simpl; [done|]. by rewrite IH. Qed.

Lemma copyObjs_bounds n vs :
Forall (fun o => n <= fst o /\ n <= files (snd o)) (copyObjs n vs).
Proof.
revert n; induction vs as [|v vs IH]; intros n; simpl; constructor.
- simpl. lia.
- eapply Forall_impl; [apply IH|]. simpl. intros o. lia.
Qed.

Lemma copyObjs_NoDup n vs :
NoDup (map fst (copyObjs n vs)) /\ NoDup (map (fun o => files (snd o)) (copyObjs n vs)).
Proof.
revert n; induction vs as [|v vs IH]; intros n; simpl.
- split; constructor.
- destruct (IH (n + 2)) as [IH1 IH2].
pose proof (copyObjs_bounds (n + 2) vs) as Hb.
split; (constructor; [|done]); intros Hin;
  apply list_elem_of_In, in_map_iff in Hin as (o & Heq & Hin);
  apply list_elem_of_In in Hin;
  pose proof (proj1 (Forall_forall _ _) Hb o Hin) as Hbo; simpl in Hbo; lia.
Qed.

Lemma Shows_copies (prefix : Heap) vs rest :
Forall2 (Shows (prefix ++ copiesOf (length prefix) vs ++ rest))
(copyObjs (length prefix) vs) vs.
Proof.
revert prefix; induction vs as [|v vs IH]; intros prefix; [constructor|].
cbn [copiesOf copyObjs]. constructor.
- unfold Shows, heapModule, heapStrings. simpl.
rewrite lookup_app_r by lia.
replace (length prefix + 1 - length prefix) with 1 by lia. simpl.
rewrite lookup_app_r by lia.
replace (length prefix - length prefix) with 0 by lia. done.
- specialize (IH (prefix ++ [OStrings (mvFiles v);
                  OModule {| protocol := mvProtocol v; path := mvPath v;
                             version := mvVersion v; files := length prefix |}])).
rewrite length_app in IH. simpl in IH.
rewrite <- !app_assoc in IH. simpl in IH. exact IH.
Qed.

Lemma KeepsStores_refl H : KeepsStores H H.
Proof. intros l. by destruct (H !! l) as [[]|]. Qed.

(** The heap the loop starts from represents the working manifest. *)
Lemma Represents_loopHeap h vs al pobjs :
PayloadsSeparate h (map fst pobjs) ->
readModules h (map fst pobjs) = Some pobjs ->
Represents h (loopHeap h vs al) (copyModulesRef h vs) (workAliasesRef h vs) pobjs
(loopHeap h vs al) (workingView {| svModules := vs; svAliases := al |}).
Proof.
intros (Hnd & pobjs' & Hread' & Hndf & Hfs) Hread.
rewrite Hread in Hread'. injection Hread' as <-.
pose proof (readModules_snd _ _ _ Hread) as Hpm.
destruct (copyObjs_NoDup (length h) vs) as [Hc1 Hc2].
pose proof (copyObjs_bounds (length h) vs) as Hb.
assert (forall o, o ∈ pobjs -> fst o < length h /\ files (snd o) < length h) as Hold.
{ intros o Ho. split.
- pose proof (proj1 (Forall_forall _ _) Hpm o Ho) as Hm. unfold heapModule in Hm.
  destruct (h !! fst o) eqn:E; [|done]. by eapply lookup_lt_Some.
- destruct (proj1 (Forall_forall _ _) Hfs o Ho) as [fs Hs]. unfold heapStrings in Hs.
  destruct (h !! files (snd o)) eqn:E; [|done]. by eapply lookup_lt_Some. }
exists (copyObjs (length h) vs). unfold workingView. simpl.
split; [|split; [|split; [|split; [|split; [|split]]]]].
- rewrite copyObjs_refs. apply loopHeap_modules.
- unfold loopHeap, duplicated. rewrite <- !app_assoc. apply Shows_copies.
- apply loopHeap_aliases.
- apply KeepsStores_refl.
- apply NoDup_app. split; [done|]. split; [|done].
intros x Hx Hx'.
apply list_elem_of_In, in_map_iff in Hx as (o & <- & Ho).
apply list_elem_of_In in Ho.
apply list_elem_of_In, in_map_iff in Hx' as (o' & Heq & Ho').
apply list_elem_of_In in Ho'.
pose proof (proj1 (Forall_forall _ _) Hb o Ho) as Hbo. simpl in Hbo.
pose proof (Hold o' Ho'). lia.
- apply NoDup_app. split; [done|]. split; [|done].
intros x Hx Hx'.
apply list_elem_of_In, in_map_iff in Hx as (o & <- & Ho).
apply list_elem_of_In in Ho.
apply list_elem_of_In, in_map_iff in Hx' as (o' & Heq & Ho').
apply list_elem_of_In in Ho'.
pose proof (proj1 (Forall_forall _ _) Hb o Ho) as Hbo. simpl in Hbo.
pose proof (Hold o' Ho'). lia.
- apply Forall_forall. intros o Ho. destruct (Hold o Ho) as [H1 H2].
pose proof (proj1 (Forall_forall _ _) Hpm o Ho) as Hm.
destruct (proj1 (Forall_forall _ _) Hfs o Ho) as [fs Hs].
split; [done|]. split.
+ unfold heapModule. by rewrite loopHeap_old.
+ exists fs. split; [done|]. unfold heapStrings. by rewrite loopHeap_old.
Qed.

(** The loop over the actions does on the heap what it does by value. *)
Lemma loop_refines h H0 modulesRef aliasesRef actions : forall pobjs H w,
map fst pobjs = payloadRefs actions ->
Represents h H0 modulesRef aliasesRef pobjs H w ->
match applyActions (viewModule h) actions w with
| Ok w' =>
  exists H', forEach actions (mutateStoreAction modulesRef aliasesRef) H = (H', Ok tt)
             /\ Represents h H0 modulesRef aliasesRef [] H' w'
| Throw e =>
  exists H', forEach actions (mutateStoreAction modulesRef aliasesRef) H = (H', Throw e)
| Stuck => True
end.
Proof.
induction actions as [|a actions IH]; intros pobjs H w Hp Hrep.
- destruct pobjs; [|done]. simpl. eauto.
- cbn [applyActions forEach]. rewrite bind_run.
destruct a as [module|p pa|link|link|ap tp|ap|p pa ver].
1: { destruct pobjs as [|[module' mp] pobjs]; [done|].
     injection Hp as -> Hp.
     pose proof (step_addModule h H0 modulesRef aliasesRef pobjs H w module mp Hrep)
       as Hstep.
     destruct (applyAction (viewModule h) (ADD_MODULE module) w) as [w'|e|];
       [|rewrite Hstep; eauto|done].
     destruct Hstep as (H' & -> & Hrep'). by apply (IH pobjs). }
all: match goal with
     | |- context [applyAction _ ?a ?w0] =>
         pose proof (step_refines h H0 modulesRef aliasesRef pobjs H w0 a eq_refl Hrep)
           as Hstep;
         destruct (applyAction (viewModule h) a w0) as [w'|e|];
           [|rewrite Hstep; eauto|done];
         destruct Hstep as (H' & -> & Hrep'); by apply (IH pobjs)
     end.
Qed.

Lemma applyAction_not_stuck (pv : ref -> option ModuleView) a w :
(forall r, r ∈ payload a -> is_Some (pv r)) -> applyAction pv a w <> Stuck.
Proof.
intros Hpv. destruct a as [module|p pa|link|link|ap tp|ap|p pa ver];
cbn [applyAction]; cbv zeta.
- destruct (Hpv module) as [x ->]; [by left|]. by destruct (existsb _ _).
- by destruct (findFrom _ 0 (svModules w)) as [[i v]|].
- destruct (findFrom _ 0 (svModules w)) as [[i v]|] eqn:Hf; [|done].
destruct (findFrom_Some _ _ _ _ _ Hf) as (k & _ & _ & Hown & _).
destruct (filePathOf_defined link (objectOf v) Hown) as [fp Hfp].
change (filePathOf link (objectOf v)) with (filePathOfView link v) in Hfp.
rewrite Hfp. by destruct (JsArray.includes _ _).
- destruct (findFrom _ 0 (svModules w)) as [[i v]|] eqn:Hf; [|done].
destruct (findFrom_Some _ _ _ _ _ Hf) as (k & _ & _ & Hown & _).
destruct (filePathOf_defined link (objectOf v) Hown) as [fp Hfp].
change (filePathOf link (objectOf v)) with (filePathOfView link v) in Hfp.
rewrite Hfp. by destruct (JsArray.indexOf _ _).
- destruct (JsObject.truthy _); [done|].
by destruct (findFrom _ 0 (svModules w)) as [[i v]|].
- by destruct (negb _).
- by destruct (findFrom _ 0 (svModules w)) as [[i v]|].
Qed.

Lemma applyActions_not_stuck (pv : ref -> option ModuleView) actions : forall w,
(forall r, r ∈ payloadRefs actions -> is_Some (pv r)) ->
applyActions pv actions w <> Stuck.
Proof.
induction actions as [|a actions IH]; intros w Hpv; simpl; [done|].
assert (forall r, r ∈ payload a -> is_Some (pv r)) as Ha.
{ intros r Hr. apply Hpv. unfold payloadRefs. simpl. apply elem_of_app. by left. }
pose proof (applyAction_not_stuck pv a w Ha) as Hns.
destruct (applyAction pv a w) as [w'|e|]; [|done|done].
apply IH. intros r Hr. apply Hpv. unfold payloadRefs. simpl. apply elem_of_app.
by right.
Qed.

Lemma PayloadsSeparate_views h pm r :
PayloadsSeparate h pm -> r ∈ pm -> is_Some (viewModule h r).
Proof.
intros (_ & pobjs & Hread & _ & Hfs) Hr.
pose proof (readModules_snd _ _ _ Hread) as Hpm.
rewrite <- (readModules_fst _ _ _ Hread) in Hr.
apply list_elem_of_In, in_map_iff in Hr as (o & <- & Ho). apply list_elem_of_In in Ho.
pose proof (proj1 (Forall_forall _ _) Hpm o Ho) as Hm.
destruct (proj1 (Forall_forall _ _) Hfs o Ho) as [fs Hs].
unfold viewModule. rewrite Hm, Hs. eauto.
Qed.

(** The end of [mutateStore] from a heap that represents [w]. *)
Lemma sortAndReturn_by_value h vs0 al0 H w :
FilesBlind compareModules ->
Represents h (loopHeap h vs0 al0) (copyModulesRef h vs0) (workAliasesRef h vs0) [] H w ->
exists h',
sortAndReturn compareModules localeCompare (copyStoreRef h vs0)
  (copyModulesRef h vs0) (workAliasesRef h vs0) H = (h', Ok (copyStoreRef h vs0))
/\ viewStore h' (copyStoreRef h vs0)
   = Some (normalize compareModules localeCompare w).
Proof.
intros Hfb (objs & Hms & Hall & Hal & Hk & _).
assert (heapStore H (copyStoreRef h vs0) = Some {| config := copyConfigRef h vs0 |})
as Hst.
{ pose proof (loopHeap_store h vs0 al0) as Hst0.
unfold heapStore in *. specialize (Hk (copyStoreRef h vs0)).
destruct (loopHeap h vs0 al0 !! copyStoreRef h vs0) as [[]|]; try done.
by rewrite Hk. }
assert (heapConfig H (copyConfigRef h vs0)
      = Some {| modules := copyModulesRef h vs0; aliases := copyAliasesRef h vs0 |})
as Hc.
{ pose proof (loopHeap_config h vs0 al0) as Hc0.
unfold heapConfig in *. specialize (Hk (copyConfigRef h vs0)).
destruct (loopHeap h vs0 al0 !! copyConfigRef h vs0) as [[]|]; try done.
by rewrite Hk. }
pose proof (Forall2_Shows_viewModules _ _ _ Hall) as Hvs.
pose proof (Forall2_Shows_readModules _ _ _ Hall) as Hread.
destruct (sortAndReturn_run compareModules localeCompare
          _ _ _ _ _ _ _ _ _ Hst Hc eq_refl Hms Hvs Hal)
as (h' & objs' & vs' & Hrun & Hobjs & Hvs' & _ & _ & Hview).
rewrite Hread in Hobjs. injection Hobjs as <-.
rewrite (sorted_views compareModules _ _ _ _ Hfb Hread Hvs) in Hvs'.
injection Hvs' as <-.
exists h'. split; [exact Hrun|exact Hview].
Qed.
End LoopByValue.

Section ByValue.
Variable compareModules : ModuleObj -> ModuleObj -> Z.
Variable localeCompare : string -> string -> Z.
Implicit Types (h : Heap) (v : StoreView).

Lemma PayloadsSeparate_objs h pm :
PayloadsSeparate h pm ->
exists pobjs, map fst pobjs = pm /\ readModules h pm = Some pobjs.
Proof.
intros (_ & pobjs & Hread & _). exists pobjs. split; [|done].
by apply (readModules_fst h).
Qed.

(** The loop of [mutateStore], from the copy, by value. *)
Lemma mutateStore_loop_by_value h store v actions :
viewStore h store = Some v ->
PayloadsSeparate h (payloadRefs actions) ->
let mr := copyModulesRef h (svModules v) in
let ar := workAliasesRef h (svModules v) in
let H0 := loopHeap h (svModules v) (svAliases v) in
match applyActions (viewModule h) actions (workingView v) with
| Ok w =>
exists H, forEach actions (mutateStoreAction mr ar) H0 = (H, Ok tt)
          /\ Represents h H0 mr ar [] H w
| Throw e => exists H, forEach actions (mutateStoreAction mr ar) H0 = (H, Throw e)
| Stuck => False
end.
Proof.
intros Hv Hsep mr ar H0.
destruct (PayloadsSeparate_objs _ _ Hsep) as (pobjs & Hfst & Hread).
rewrite <- Hfst in Hsep, Hread.
pose proof (Represents_loopHeap h (svModules v) (svAliases v) pobjs Hsep Hread) as Hrep.
assert ({| svModules := svModules v; svAliases := svAliases v |} = v) as Hv'
by by destruct v.
rewrite Hv' in Hrep.
pose proof (loop_refines h H0 mr ar actions pobjs H0 (workingView v) Hfst Hrep) as Hloop.
pose proof (applyActions_not_stuck (viewModule h) actions (workingView v)) as Hns.
destruct (applyActions (viewModule h) actions (workingView v)) as [w|e|];
[done|done|].
apply Hns; [|done]. intros r Hr. eapply PayloadsSeparate_views; [|exact Hr].
by rewrite <- Hfst.
Qed.
(** What [mutateStore] gives, by value. *)
Lemma mutateStore_outcome h store v actions :
viewStore h store = Some v ->
FilesBlind compareModules ->
PayloadsSeparate h (payloadRefs actions) ->
outcomeView (mutateStore compareModules localeCompare store actions h)
= mutateView compareModules localeCompare (viewModule h) actions v.
Proof.
intros Hv Hfb Hsep.
pose proof (mutateStore_loop_by_value h store v actions Hv Hsep) as Hloop.
cbv zeta in Hloop. unfold mutateView.
rewrite (mutateStore_unfold _ _ _ _ _ _ Hv), bind_run.
destruct (applyActions (viewModule h) actions (workingView v)) as [w|e|];
[| |done].
- destruct Hloop as (H & -> & Hrep).
destruct (sortAndReturn_by_value compareModules localeCompare
            h (svModules v) (svAliases v) H w Hfb Hrep) as (h' & -> & Hview).
unfold outcomeView. simpl. by rewrite Hview.
- destruct Hloop as (H & ->). done.
Qed.

Lemma PayloadsSeparate_nil h : PayloadsSeparate h [].
Proof. split; [constructor|]. exists []. repeat split; constructor. Qed.

Lemma PayloadsSeparate_one h module pv :
viewModule h module = Some pv -> PayloadsSeparate h [module].
Proof.
unfold viewModule. intros Hv.
destruct (heapModule h module) as [m|] eqn:Hm; [|done].
destruct (heapStrings h (files m)) as [fs|] eqn:Hfs; [|done].
split; [repeat constructor; apply not_elem_of_nil|].
exists [(module, m)]. simpl. rewrite Hm. split; [done|].
split; [repeat constructor; apply not_elem_of_nil|].
repeat constructor. simpl. by rewrite Hfs.
Qed.

(** With no [ADD_MODULE] in the list, nothing is asked of the payloads. *)
Lemma mutateStore_outcome_plain h store v actions pv :
viewStore h store = Some v ->
FilesBlind compareModules ->
payloadRefs actions = [] ->
outcomeView (mutateStore compareModules localeCompare store actions h)
= mutateView compareModules localeCompare pv actions v.
Proof.
intros Hv Hfb Hp. rewrite (mutateStore_outcome h store v actions Hv Hfb).
- unfold mutateView. f_equal.
clear Hv. generalize (workingView v). induction actions as [|a actions IH]; [done|].
intros w. unfold payloadRefs in Hp. simpl in Hp.
apply app_eq_nil in Hp as [Ha Hp]. simpl.
assert (applyAction (viewModule h) a w = applyAction pv a w) as ->.
{ by destruct a. }
destruct (applyAction pv a w); [|done|done]. by apply IH.
- rewrite Hp. apply PayloadsSeparate_nil.
Qed.

End ByValue.

(** X1.  [mutateStore] computes on the content of the manifest: for a
    manifest that can be read, payloads that are separate module objects
    and a comparator that does not read the file lists, what the call
    returns, read by value, or the error it throws, is what [mutateView]
    computes from the manifest by value and the payloads by value; the call
    is never stuck. *)
Theorem mutateStore_by_value
  (compareModules : ModuleObj -> ModuleObj -> Z)
  (localeCompare : string -> string -> Z)
  (h : Heap) (store : ref) (v : StoreView) (actions : list Action) :
  viewStore h store = Some v ->
  FilesBlind compareModules ->
  PayloadsSeparate h (payloadRefs actions) ->
  outcomeView (mutateStore compareModules localeCompare store actions h)
  = mutateView compareModules localeCompare (viewModule h) actions v
  /\ mutateView compareModules localeCompare (viewModule h) actions v <> Stuck.
Proof.
  intros Hv Hfb Hsep. split.
  - by apply mutateStore_outcome.
  - unfold mutateView.
    pose proof (applyActions_not_stuck (viewModule h) actions (workingView v)) as Hns.
    destruct (applyActions (viewModule h) actions (workingView v)) as [w|e|];
      [done|done|].
    exfalso. apply Hns; [|done]. intros r Hr.
    by eapply PayloadsSeparate_views.
Qed.

Lemma mutateStore_by_value_witness :
  outcomeView (mutateStore compareByIdentity JsString.defaultCompare 0
                 [ADD_MODULE 6; ADD_LINK "https://deno.land/x/dejs/dejs.ts";
                  ADD_ALIAS "dejs.ts" "https://deno.land/x/dejs/dejs.ts";
                  UPDATE_MODULE "https" "deno.land/std" "v2"] payloadHeap)
  = Ok {| svModules :=
            [ {| mvProtocol := "https"; mvPath := "deno.land/std"; mvVersion := "v2";
                 mvFiles := [] |};
              {| mvProtocol := "https"; mvPath := "deno.land/x/dejs";
                 mvVersion := "0.3.0"; mvFiles := ["/dejs.ts"; "/mod.ts"] |} ];
          svAliases := [("dejs.ts", "https://deno.land/x/dejs/dejs.ts")] |}.
Proof.
  destruct (mutateStore_by_value compareByIdentity JsString.defaultCompare
              payloadHeap 0 {| svModules := [stdModule]; svAliases := [] |}
              [ADD_MODULE 6; ADD_LINK "https://deno.land/x/dejs/dejs.ts";
               ADD_ALIAS "dejs.ts" "https://deno.land/x/dejs/dejs.ts";
               UPDATE_MODULE "https" "deno.land/std" "v2"]) as [Heq _].
  - reflexivity.
  - exact compareByIdentity_filesBlind.
  - split; [repeat constructor; apply not_elem_of_nil|].
    eexists. split; [reflexivity|]. split; [repeat constructor; apply not_elem_of_nil|].
    repeat constructor. by eexists.
  - rewrite Heq. vm_compute. reflexivity.
Defined.

(** ** The first error ends the batch *)

Section FirstError.
Variable compareModules : ModuleObj -> ModuleObj -> Z.
Variable localeCompare : string -> string -> Z.
Implicit Types h : Heap.

Lemma sortFilesLoop_no_throw ms : forall h e,
snd (forEach ms (fun mod' =>
     let! m := getModule (E:=MutationError) mod' in
     let! fs := getStrings (files m) in
     setStrings (files m) (JsArray.sort JsString.defaultCompare fs)) h) <> Throw e.
Proof.
induction ms as [|r ms IH]; intros h e; [done|].
cbn [forEach]. run.
destruct (heapModule h r) as [m|]; [|done]. run.
destruct (heapStrings h (files m)) as [fs|] eqn:Hfs; [|done].
unfold setStrings. run. rewrite Hfs. run. apply IH.
Qed.

(** The post-pass throws nothing. *)
Lemma sortAndReturn_no_throw s modulesRef aliasesRef h e :
snd (sortAndReturn compareModules localeCompare s modulesRef aliasesRef h) <> Throw e.
Proof.
unfold sortAndReturn, sortModules, sortFiles. run.
destruct (heapModules h modulesRef) as [ms|] eqn:Hms; [|done]. run.
rewrite readModules_run.
destruct (readModules h ms) as [objs|]; [|done]. run.
unfold setModules. run. rewrite Hms. run.
match goal with
| |- context [heapModules ?hh modulesRef] =>
  destruct (heapModules hh modulesRef) as [ms'|]; [|done]
end.
run.
match goal with
| |- context [forEach ms' ?body ?hh] =>
  pose proof (sortFilesLoop_no_throw ms' hh) as Hloop;
  destruct (forEach ms' body hh) as [h2 [[]|e'|]]; [|by destruct (Hloop e')|done]
end.
run. destruct (heapAliases h2 aliasesRef) as [al|]; [|done]. run.
unfold alloc at 1. cbn [fst snd]. run.
match goal with
| |- context [heapStore ?hh s] => destruct (heapStore hh s) as [st|]; [|done]
end.
run. unfold assignAliases, setConfig. run.
match goal with
| |- context [heapConfig ?hh ?c] => destruct (heapConfig hh c) as [cf|] eqn:Hc; [|done]
end.
run. rewrite Hc. by run.
Qed.

Lemma forEach_app_throw {A} (xs ys : list A) (body : A -> M Heap MutationError unit)
h h' e :
forEach xs body h = (h', Throw e) -> forEach (xs ++ ys) body h = (h', Throw e).
Proof.
revert h; induction xs as [|x xs IH]; intros h; simpl; [done|].
rewrite !bind_run. destruct (body x h) as [h0 [[]|e0|]]; try done. apply IH.
Qed.
End FirstError.

(** X2.  The first error ends the batch: when [mutateStore] throws on an
    action list, it throws the same error, leaving the same heap, on that
    list followed by any other actions. *)
Theorem mutateStore_stops_at_first_error
  (compareModules : ModuleObj -> ModuleObj -> Z)
  (localeCompare : string -> string -> Z)
  (h : Heap) (store : ref) (v : StoreView) (pre post : list Action)
  (h1 : Heap) (e : MutationError) :
  viewStore h store = Some v ->
  mutateStore compareModules localeCompare store pre h = (h1, Throw e) ->
  mutateStore compareModules localeCompare store (pre ++ post) h = (h1, Throw e).
Proof.
  intros Hv. rewrite !(mutateStore_unfold _ _ _ _ _ _ Hv), !bind_run.
  destruct (forEach pre _ _) as [H1 [[]|e'|]] eqn:Hpre; [|intros [= <- <-]|done].
  - intros Hs. pose proof (sortAndReturn_no_throw compareModules localeCompare
                            (copyStoreRef h (svModules v))
                            (copyModulesRef h (svModules v))
                            (workAliasesRef h (svModules v)) H1 e) as Hn.
    by rewrite Hs in Hn.
  - by rewrite (forEach_app_throw _ post _ _ _ _ Hpre).
Qed.

Lemma mutateStore_stops_at_first_error_witness :
  exists h1,
    mutateStore compareByIdentity JsString.defaultCompare 0
      ([ADD_LINK "https://deno.land/std/fs/mod.ts";
        REMOVE_LINK "https://deno.land/std/path/mod.ts"]
       ++ [ADD_ALIAS "fs.ts" "https://deno.land/std/fs/mod.ts"]) oneModuleHeap
    = (h1, Throw (LinkNotFound "https://deno.land/std/path/mod.ts")).
Proof.
  eexists.
  apply (mutateStore_stops_at_first_error compareByIdentity JsString.defaultCompare
           oneModuleHeap 0 {| svModules := [stdModule]; svAliases := [] |}).
  - reflexivity.
  - vm_compute. reflexivity.
Defined.

(** ** Single actions of [mutateStore] *)

Section FindFromFacts.
Context {A : Type}.
Implicit Types (p : A -> bool) (xs : list A).

Lemma findFrom_intro p k xs i x :
xs !! i = Some x -> p x = true ->
Forall (fun y => p y = false) (take i xs) ->
findFrom p k xs = Some (k + i, x).
Proof.
revert k i; induction xs as [|y xs IH]; intros k [|i]; simpl; try done.
- intros [= ->] -> _. by rewrite Nat.add_0_r.
- intros Hx Hp [Hy Hall]%Forall_cons. rewrite Hy.
rewrite (IH (S k) i Hx Hp Hall). f_equal. f_equal. lia.
Qed.

Lemma findFrom_none p k xs :
Forall (fun y => p y = false) xs -> findFrom p k xs = None.
Proof.
intros H. revert k. induction H as [|y xs Hy _ IH]; intros k; simpl; [done|].
rewrite Hy. apply IH.
Qed.
End FindFromFacts.

Lemma isModuleView_true p pa mv :
  isModuleView p pa mv = true <-> mvProtocol mv = p /\ mvPath mv = pa.
Proof.
  unfold isModuleView. rewrite andb_true_iff, !String.eqb_eq. done.
Qed.

Lemma isModuleView_false p pa mv :
  isModuleView p pa mv = false <-> mvProtocol mv <> p \/ mvPath mv <> pa.
Proof.
  unfold isModuleView. rewrite andb_false_iff, !String.eqb_neq. done.
Qed.

(** X3.  [ADD_MODULE] compares by protocol and path only: on a manifest
    that holds a module with the protocol and the path of the payload,
    whatever its version and files, [mutateStore] throws the
    duplicate-module error naming the payload; on a manifest that holds
    none, it returns the manifest with the payload added, sorted. *)
Theorem addModule_outcome
  (compareModules : ModuleObj -> ModuleObj -> Z)
  (localeCompare : string -> string -> Z)
  (h : Heap) (store : ref) (v : StoreView) (module : ref) (pv : ModuleView) :
  viewStore h store = Some v ->
  FilesBlind compareModules ->
  viewModule h module = Some pv ->
  (Exists (fun mv => mvProtocol mv = mvProtocol pv /\ mvPath mv = mvPath pv)
     (svModules v) ->
   outcomeView (mutateStore compareModules localeCompare store [ADD_MODULE module] h)
   = Throw (DuplicateModule (identity pv)))
  /\ (Forall (fun mv => mvProtocol mv <> mvProtocol pv \/ mvPath mv <> mvPath pv)
        (svModules v) ->
      outcomeView (mutateStore compareModules localeCompare store [ADD_MODULE module] h)
      = Ok (normalize compareModules localeCompare
              (withModules (workingView v) (svModules v ++ [pv])))).
Proof.
  intros Hv Hfb Hpv.
  rewrite (mutateStore_outcome compareModules localeCompare h store v
             [ADD_MODULE module] Hv Hfb (PayloadsSeparate_one h module pv Hpv)).
  unfold mutateView. cbn [applyActions applyAction]. rewrite Hpv.
  cbn [workingView svModules]. split.
  - intros Hex. apply Exists_exists in Hex as (mv & Hin & Hp & Hpa).
    assert (existsb (isModuleView (mvProtocol pv) (mvPath pv)) (svModules v) = true)
      as ->; [|done].
    apply existsb_exists. exists mv. split; [by apply list_elem_of_In|].
    by apply isModuleView_true.
  - intros Hall.
    assert (existsb (isModuleView (mvProtocol pv) (mvPath pv)) (svModules v) = false)
      as ->; [|done].
    apply not_true_is_false. intros (mv & Hin & Heq)%existsb_exists.
    apply isModuleView_true in Heq as [Hp Hpa].
    apply list_elem_of_In in Hin.
    destruct (proj1 (Forall_forall _ _) Hall mv Hin); done.
Qed.

Lemma addModule_outcome_witness :
  outcomeView (mutateStore compareByIdentity JsString.defaultCompare 0
                 [ADD_MODULE 6] (exampleHeap [stdModule] []
                   ++ [ OModule {| protocol := "https"; path := "deno.land/std";
                                   version := "v2"; files := 7 |};
                        OStrings ["/fs/mod.ts"] ]))
  = Throw (DuplicateModule "https://deno.land/std").
Proof.
  apply (addModule_outcome compareByIdentity JsString.defaultCompare
           _ 0 {| svModules := [stdModule]; svAliases := [] |} 6
           {| mvProtocol := "https"; mvPath := "deno.land/std"; mvVersion := "v2";
              mvFiles := ["/fs/mod.ts"] |}).
  - reflexivity.
  - exact compareByIdentity_filesBlind.
  - reflexivity.
  - constructor. by split.
Defined.

(** X4.  [REMOVE_MODULE] removes the first module, in manifest order, whose
    identity is a prefix of [protocol://path], and that module only; when
    the identity of no module is one, [mutateStore] throws the
    module-not-found error of "remove module" naming [protocol://path]. *)
Theorem removeModule_outcome
  (compareModules : ModuleObj -> ModuleObj -> Z)
  (localeCompare : string -> string -> Z)
  (h : Heap) (store : ref) (v : StoreView) (moduleProtocol modulePath : string) :
  viewStore h store = Some v ->
  FilesBlind compareModules ->
  let urlStr := moduleProtocol +:+ "://" +:+ modulePath in
  let outcome :=
    outcomeView (mutateStore compareModules localeCompare store
                   [REMOVE_MODULE moduleProtocol modulePath] h) in
  (Forall (fun mv => JsString.startsWith urlStr (identity mv) = false) (svModules v) ->
   outcome = Throw (ModuleNotFound OpRemoveModule urlStr))
  /\ (forall i mv,
        svModules v !! i = Some mv ->
        JsString.startsWith urlStr (identity mv) = true ->
        Forall (fun mv' => JsString.startsWith urlStr (identity mv') = false)
          (take i (svModules v)) ->
        outcome = Ok (normalize compareModules localeCompare
                        (withModules (workingView v) (delete i (svModules v))))).
Proof.
  intros Hv Hfb urlStr outcome. subst outcome.
  rewrite (mutateStore_outcome_plain compareModules localeCompare h store v
             [REMOVE_MODULE moduleProtocol modulePath] (viewModule h) Hv Hfb eq_refl).
  unfold mutateView. cbn [applyActions applyAction]. cbv zeta. fold urlStr.
  cbn [workingView svModules]. split.
  - intros Hall. by rewrite (findFrom_none (ownsView urlStr) 0 _ Hall).
  - intros i mv Hi Hown Hbefore.
    by rewrite (findFrom_intro (ownsView urlStr) 0 _ i mv Hi Hown Hbefore).
Qed.

Lemma removeModule_outcome_witness :
  outcomeView (mutateStore compareByIdentity JsString.defaultCompare 0
                 [REMOVE_MODULE "https" "deno.land/std/fs"] oneModuleHeap)
  = Ok {| svModules := []; svAliases := [] |}.
Proof.
  destruct (removeModule_outcome compareByIdentity JsString.defaultCompare
              oneModuleHeap 0 {| svModules := [stdModule]; svAliases := [] |}
              "https" "deno.land/std/fs" eq_refl compareByIdentity_filesBlind)
    as [_ Hrm].
  rewrite (Hrm 0 stdModule); [reflexivity..|constructor].
Defined.

Section IndexOf.
Context {A : Type} `{EqDecision A}.
Implicit Types (xs : list A) (x : A).

Lemma indexOf_intro xs x j :
xs !! j = Some x -> x ∉ take j xs -> JsArray.indexOf xs x = Some j.
Proof.
revert j; induction xs as [|y xs IH]; intros [|j]; simpl; try done.
- intros [= ->] _. by rewrite decide_True.
- intros Hj [Hne Hnin]%not_elem_of_cons. rewrite decide_False by done.
by rewrite (IH j Hj Hnin).
Qed.

Lemma indexOf_absent xs x : x ∉ xs -> JsArray.indexOf xs x = None.
Proof.
induction xs as [|y xs IH]; simpl; [done|].
intros [Hne Hnin]%not_elem_of_cons. rewrite decide_False by done.
by rewrite (IH Hnin).
Qed.

Lemma includes_absent xs x : x ∉ xs -> JsArray.includes xs x = false.
Proof. intros H. unfold JsArray.includes. by apply bool_decide_eq_false. Qed.

Lemma take_snoc_length xs x : take (length xs) (xs ++ [x]) = xs.
Proof. by rewrite take_app_length. Qed.
End IndexOf.

(** X5.  [REMOVE_LINK] takes the file path out of the first module whose
    identity is a prefix of the link, at its first occurrence in the file
    list of that module, and changes nothing else; when the file path is
    not in that list, [mutateStore] throws the file-not-linked error naming
    the link. *)
Theorem removeLink_outcome
  (compareModules : ModuleObj -> ModuleObj -> Z)
  (localeCompare : string -> string -> Z)
  (h : Heap) (store : ref) (v : StoreView) (link : string)
  (i : nat) (mv : ModuleView) (filePath : string) :
  viewStore h store = Some v ->
  FilesBlind compareModules ->
  svModules v !! i = Some mv ->
  JsString.startsWith link (identity mv) = true ->
  Forall (fun mv' => JsString.startsWith link (identity mv') = false)
    (take i (svModules v)) ->
  filePathOfView link mv = Some filePath ->
  let outcome :=
    outcomeView (mutateStore compareModules localeCompare store [REMOVE_LINK link] h) in
  (filePath ∉ mvFiles mv -> outcome = Throw (LinkNotFound link))
  /\ (forall j,
        mvFiles mv !! j = Some filePath ->
        filePath ∉ take j (mvFiles mv) ->
        outcome
        = Ok (normalize compareModules localeCompare
                (withModules (workingView v)
                   (<[i := withFiles mv (delete j (mvFiles mv))]> (svModules v))))).
Proof.
  intros Hv Hfb Hi Hown Hbefore Hfp outcome. subst outcome.
  rewrite (mutateStore_outcome_plain compareModules localeCompare h store v
             [REMOVE_LINK link] (viewModule h) Hv Hfb eq_refl).
  unfold mutateView. cbn [applyActions applyAction workingView svModules].
  rewrite (findFrom_intro (ownsView link) 0 _ i mv Hi Hown Hbefore), Hfp.
  cbn [Nat.add]. split.
  - intros Hnin. by rewrite (indexOf_absent _ _ Hnin).
  - intros j Hj Hfirst. by rewrite (indexOf_intro _ _ j Hj Hfirst).
Qed.

Lemma removeLink_outcome_witness :
  outcomeView (mutateStore compareByIdentity JsString.defaultCompare 0
                 [REMOVE_LINK "https://deno.land/std/path/mod.ts"] linkedHeap)
  = Ok {| svModules :=
            [ {| mvProtocol := "https"; mvPath := "deno.land/std"; mvVersion := "v1";
                 mvFiles := ["/fs/mod.ts"] |} ];
          svAliases := [] |}.
Proof.
  destruct (removeLink_outcome compareByIdentity JsString.defaultCompare
              linkedHeap 0 {| svModules := [linkedModule]; svAliases := [] |}
              "https://deno.land/std/path/mod.ts" 0 linkedModule "/path/mod.ts")
    as [_ Hrm].
  - reflexivity.
  - exact compareByIdentity_filesBlind.
  - reflexivity.
  - reflexivity.
  - constructor.
  - reflexivity.
  - rewrite (Hrm 1); [reflexivity|reflexivity|].
    simpl. intros Hin%list_elem_of_singleton. discriminate.
Defined.

(** X6.  [UPDATE_MODULE] sets the version of the first module, in manifest
    order, with exactly the given protocol and path, and changes neither
    its files nor any other module nor the aliases; when no module has that
    protocol and path, [mutateStore] throws the module-not-found error of
    "update module" naming [protocol://path]. *)
Theorem updateModule_outcome
  (compareModules : ModuleObj -> ModuleObj -> Z)
  (localeCompare : string -> string -> Z)
  (h : Heap) (store : ref) (v : StoreView)
  (moduleProtocol modulePath moduleVersion : string) :
  viewStore h store = Some v ->
  FilesBlind compareModules ->
  let outcome :=
    outcomeView (mutateStore compareModules localeCompare store
                   [UPDATE_MODULE moduleProtocol modulePath moduleVersion] h) in
  (Forall (fun mv => mvProtocol mv <> moduleProtocol \/ mvPath mv <> modulePath)
     (svModules v) ->
   outcome = Throw (ModuleNotFound OpUpdateModule
                      (moduleProtocol +:+ "://" +:+ modulePath)))
  /\ (forall i mv,
        svModules v !! i = Some mv ->
        mvProtocol mv = moduleProtocol -> mvPath mv = modulePath ->
        Forall (fun mv' => mvProtocol mv' <> moduleProtocol \/ mvPath mv' <> modulePath)
          (take i (svModules v)) ->
        outcome
        = Ok (normalize compareModules localeCompare
                (withModules (workingView v)
                   (<[i := withVersion mv moduleVersion]> (svModules v))))).
Proof.
  intros Hv Hfb outcome. subst outcome.
  rewrite (mutateStore_outcome_plain compareModules localeCompare h store v
             [UPDATE_MODULE moduleProtocol modulePath moduleVersion]
             (viewModule h) Hv Hfb eq_refl).
  unfold mutateView. cbn [applyActions applyAction workingView svModules]. cbv zeta.
  split.
  - intros Hall.
    rewrite (findFrom_none (isModuleView moduleProtocol modulePath) 0); [done|].
    eapply Forall_impl; [exact Hall|]. intros mv Hmv. by apply isModuleView_false.
  - intros i mv Hi Hp Hpa Hbefore.
    rewrite (findFrom_intro (isModuleView moduleProtocol modulePath) 0 _ i mv Hi);
      [done|by apply isModuleView_true|].
    eapply Forall_impl; [exact Hbefore|]. intros mv' Hmv'. by apply isModuleView_false.
Qed.

Lemma updateModule_outcome_witness :
  outcomeView (mutateStore compareByIdentity JsString.defaultCompare 0
                 [UPDATE_MODULE "https" "deno.land/std" "v2"] linkedHeap)
  = Ok {| svModules :=
            [ {| mvProtocol := "https"; mvPath := "deno.land/std"; mvVersion := "v2";
                 mvFiles := ["/fs/mod.ts"; "/path/mod.ts"] |} ];
          svAliases := [] |}.
Proof.
  destruct (updateModule_outcome compareByIdentity JsString.defaultCompare
              linkedHeap 0 {| svModules := [linkedModule]; svAliases := [] |}
              "https" "deno.land/std" "v2" eq_refl compareByIdentity_filesBlind)
    as [_ Hup].
  rewrite (Hup 0 linkedModule); [reflexivity..|constructor].
Defined.

(** X7.  A link added and then removed leaves no trace: when the link has
    an owning module and its file path is not linked yet, [mutateStore] on
    [ADD_LINK] then [REMOVE_LINK] of that link returns what it returns on
    no action at all. *)
Theorem addLink_then_removeLink
  (compareModules : ModuleObj -> ModuleObj -> Z)
  (localeCompare : string -> string -> Z)
  (h : Heap) (store : ref) (v : StoreView) (link : string)
  (i : nat) (mv : ModuleView) (filePath : string) :
  viewStore h store = Some v ->
  FilesBlind compareModules ->
  svModules v !! i = Some mv ->
  JsString.startsWith link (identity mv) = true ->
  Forall (fun mv' => JsString.startsWith link (identity mv') = false)
    (take i (svModules v)) ->
  filePathOfView link mv = Some filePath ->
  filePath ∉ mvFiles mv ->
  outcomeView (mutateStore compareModules localeCompare store
                 [ADD_LINK link; REMOVE_LINK link] h)
  = outcomeView (mutateStore compareModules localeCompare store [] h)
  /\ outcomeView (mutateStore compareModules localeCompare store [] h)
     = Ok (normalize compareModules localeCompare (workingView v)).
Proof.
  intros Hv Hfb Hi Hown Hbefore Hfp Hnew.
  rewrite (mutateStore_outcome_plain compareModules localeCompare h store v
             [ADD_LINK link; REMOVE_LINK link] (viewModule h) Hv Hfb eq_refl).
  rewrite (mutateStore_outcome_plain compareModules localeCompare h store v
             [] (viewModule h) Hv Hfb eq_refl).
  split; [|done].
  unfold mutateView. cbn [applyActions applyAction workingView svModules].
  rewrite (findFrom_intro (ownsView link) 0 _ i mv Hi Hown Hbefore), Hfp.
  cbn [Nat.add]. rewrite (includes_absent _ _ Hnew).
  cbn [withModules svModules svAliases].
  set (mv1 := withFiles mv (mvFiles mv ++ [filePath])).
  assert (i < length (svModules v)) as Hlt by by eapply lookup_lt_Some.
  rewrite (findFrom_intro (ownsView link) 0 _ i mv1);
    [|by rewrite list_lookup_insert_eq|done|by rewrite take_insert_ge].
  cbn [Nat.add].
  change (filePathOfView link mv1) with (filePathOfView link mv). rewrite Hfp.
  cbn [mv1 withFiles mvFiles].
  rewrite (indexOf_intro _ _ (length (mvFiles mv)));
    [|by rewrite lookup_app_r, Nat.sub_diag|by rewrite take_snoc_length].
  rewrite splice1_last, list_insert_insert_eq.
  assert (withFiles mv1 (mvFiles mv) = mv) as -> by by destruct mv.
  rewrite (list_insert_id _ i mv Hi). reflexivity.
Qed.

Lemma addLink_then_removeLink_witness :
  outcomeView (mutateStore compareByIdentity JsString.defaultCompare 0
                 [ADD_LINK "https://deno.land/std/bytes/mod.ts";
                  REMOVE_LINK "https://deno.land/std/bytes/mod.ts"] linkedHeap)
  = outcomeView (mutateStore compareByIdentity JsString.defaultCompare 0 [] linkedHeap).
Proof.
  apply (addLink_then_removeLink compareByIdentity JsString.defaultCompare
           linkedHeap 0 {| svModules := [linkedModule]; svAliases := [] |}
           "https://deno.land/std/bytes/mod.ts" 0 linkedModule "/bytes/mod.ts").
  - reflexivity.
  - exact compareByIdentity_filesBlind.
  - reflexivity.
  - reflexivity.
  - constructor.
  - reflexivity.
  - simpl. intros [H|[H|H]%elem_of_cons]%elem_of_cons; [done|done|].
    by apply elem_of_nil in H.
Defined.

(** ** Aliases *)

Section AliasFacts.
Implicit Types (o : JsObject.t) (k : string).

Lemma delete_absent o k : k ∉ JsObject.keys o -> JsObject.delete o k = o.
Proof.
intros Hk. unfold JsObject.delete. apply filter_all.
apply Forall_forall. intros e He Heq. apply Hk.
apply list_elem_of_In, in_map_iff. exists e. split; [done|by apply list_elem_of_In].
Qed.

Lemma delete_insertIndexKey n k t o :
k ∉ JsObject.keys o -> JsObject.delete (JsObject.insertIndexKey n k t o) k = o.
Proof.
unfold JsObject.delete.
induction o as [|[k' v'] o IH]; simpl.
- intros _. by rewrite filter_cons_False by (simpl; auto).
- intros [Hne Hk]%not_elem_of_cons.
assert (filter (fun e : string * string => fst e <> k) ((k, t) :: (k', v') :: o)
        = (k', v') :: o) as Hfront.
{ rewrite filter_cons_False by (simpl; auto).
  apply (delete_absent ((k', v') :: o) k). simpl.
  apply not_elem_of_cons. by split. }
destruct (JsObject.arrayIndex k') as [n'|]; [|exact Hfront].
destruct (n' <? n)%N; [|exact Hfront].
rewrite filter_cons_True by (simpl; auto). by rewrite IH.
Qed.

(** A key created and then deleted is gone without a trace. *)
Lemma delete_createDataProperty o k t :
k ∉ JsObject.keys o ->
JsObject.delete (JsObject.createDataProperty o k t) k = o.
Proof.
intros Hk. unfold JsObject.createDataProperty.
assert (JsObject.hasOwn o k = false) as ->.
{ unfold JsObject.hasOwn. by rewrite (proj2 (getOwn_None o k) Hk). }
destruct (JsObject.arrayIndex k) as [n|]; [by apply delete_insertIndexKey|].
unfold JsObject.delete. rewrite filter_app.
rewrite filter_cons_False by (simpl; auto). rewrite filter_nil, app_nil_r.
by apply (delete_absent o k).
Qed.

Lemma startsWith_nonempty s p :
p <> EmptyString -> JsString.startsWith s p = true -> s <> EmptyString.
Proof. intros Hp Hs ->. by destruct p. Qed.

Lemma identity_nonempty mv : identity mv <> EmptyString.
Proof. unfold identity. by destruct (mvProtocol mv). Qed.
End AliasFacts.

Section Frames.
Variable pv : ref -> option ModuleView.

Lemma applyAction_alias_modules a w w' :
isAliasAction a = true -> applyAction pv a w = Ok w' -> svModules w' = svModules w.
Proof.
destruct a as [module|p pa|link|link|ap tp|ap|p pa ver]; try done; intros _;
cbn [applyAction].
- destruct (JsObject.truthy _); [done|].
destruct (findFrom _ 0 (svModules w)) as [[i x]|]; [|done]. by intros [= <-].
- destruct (negb _); [done|]. by intros [= <-].
Qed.

Lemma applyAction_other_aliases a w w' :
isAliasAction a = false -> applyAction pv a w = Ok w' -> svAliases w' = svAliases w.
Proof.
destruct a as [module|p pa|link|link|ap tp|ap|p pa ver]; try done; intros _;
cbn [applyAction]; cbv zeta.
- destruct (pv module) as [x|]; [|done].
destruct (existsb _ _); [done|]. by intros [= <-].
- destruct (findFrom _ 0 (svModules w)) as [[i x]|]; [|done]. by intros [= <-].
- destruct (findFrom _ 0 (svModules w)) as [[i x]|]; [|done].
destruct (filePathOfView link x) as [fp|]; [|done].
destruct (JsArray.includes _ _); by intros [= <-].
- destruct (findFrom _ 0 (svModules w)) as [[i x]|]; [|done].
destruct (filePathOfView link x) as [fp|]; [|done].
destruct (JsArray.indexOf _ _); [|done]. by intros [= <-].
- destruct (findFrom _ 0 (svModules w)) as [[i x]|]; [|done]. by intros [= <-].
Qed.

Lemma applyActions_alias_modules actions : forall w w',
Forall (fun a => isAliasAction a = true) actions ->
applyActions pv actions w = Ok w' -> svModules w' = svModules w.
Proof.
induction actions as [|a actions IH]; intros w w'; simpl.
- by intros _ [= <-].
- intros [Ha Hall]%Forall_cons.
destruct (applyAction pv a w) as [w1|e|] eqn:Hstep; [|done|done].
intros Hrest. rewrite (IH _ _ Hall Hrest). by eapply applyAction_alias_modules.
Qed.

Lemma applyActions_other_aliases actions : forall w w',
Forall (fun a => isAliasAction a = false) actions ->
applyActions pv actions w = Ok w' -> svAliases w' = svAliases w.
Proof.
induction actions as [|a actions IH]; intros w w'; simpl.
- by intros _ [= <-].
- intros [Ha Hall]%Forall_cons.
destruct (applyAction pv a w) as [w1|e|] eqn:Hstep; [|done|done].
intros Hrest. rewrite (IH _ _ Hall Hrest). by eapply applyAction_other_aliases.
Qed.
End Frames.

(** X8.  An alias added and then removed leaves no trace: when the alias
    path is no key of the aliases and no name inherited from
    [Object.prototype], and the target has an owning module, [mutateStore]
    on [ADD_ALIAS] then [REMOVE_ALIAS] of that alias path returns what it
    returns on no action at all. *)
Theorem addAlias_then_removeAlias
  (compareModules : ModuleObj -> ModuleObj -> Z)
  (localeCompare : string -> string -> Z)
  (h : Heap) (store : ref) (v : StoreView) (aliasPath aliasTargetPath : string) :
  viewStore h store = Some v ->
  FilesBlind compareModules ->
  NoDup (JsObject.keys (svAliases v)) ->
  JsObject.getOwn (svAliases v) aliasPath = None ->
  JsObject.inherited aliasPath = false ->
  Exists (fun mv => JsString.startsWith aliasTargetPath (identity mv) = true)
    (svModules v) ->
  outcomeView (mutateStore compareModules localeCompare store
                 [ADD_ALIAS aliasPath aliasTargetPath; REMOVE_ALIAS aliasPath] h)
  = outcomeView (mutateStore compareModules localeCompare store [] h).
Proof.
  intros Hv Hfb Hnd Habs Hinh Hown.
  rewrite (mutateStore_outcome_plain compareModules localeCompare h store v
             [ADD_ALIAS aliasPath aliasTargetPath; REMOVE_ALIAS aliasPath]
             (viewModule h) Hv Hfb eq_refl).
  rewrite (mutateStore_outcome_plain compareModules localeCompare h store v
             [] (viewModule h) Hv Hfb eq_refl).
  unfold mutateView. cbn [applyActions applyAction workingView svModules svAliases].
  set (al := JsObject.spread (JsObject.spread (svAliases v))).
  assert (JsObject.getOwn al aliasPath = None) as Hal.
  { unfold al. by rewrite getOwn_spread_twice. }
  assert (JsObject.truthy (JsObject.get al aliasPath) = false) as ->.
  { unfold JsObject.get. by rewrite Hal, Hinh. }
  destruct (findFrom (ownsView aliasTargetPath) 0 (svModules v)) as [[i mv]|] eqn:Hf.
  2: { apply findFrom_None in Hf. apply Exists_exists in Hown as (mv & Hin & Ht).
       pose proof (proj1 (Forall_forall _ _) Hf mv Hin) as Hn.
       unfold ownsView in Hn. congruence. }
  destruct (findFrom_Some _ _ _ _ _ Hf) as (k & _ & _ & Ht & _).
  cbn [withAliases svAliases svModules].
  assert (aliasTargetPath <> EmptyString) as Hne.
  { eapply startsWith_nonempty; [apply (identity_nonempty mv)|exact Ht]. }
  assert (JsObject.set al aliasPath aliasTargetPath
          = JsObject.createDataProperty al aliasPath aliasTargetPath) as Hset.
  { unfold JsObject.set, JsObject.hasOwn. rewrite Hal.
    destruct (String.eqb_spec aliasPath "__proto__") as [->|]; [|done].
    by rewrite inherited_proto in Hinh. }
  assert (JsObject.truthy
            (JsObject.get (JsObject.set al aliasPath aliasTargetPath) aliasPath) = true)
    as ->.
  { unfold JsObject.get. rewrite getOwn_set by by right. simpl.
    by destruct (String.eqb_spec aliasTargetPath ""). }
  cbn [negb]. rewrite Hset, delete_createDataProperty; [done|].
  by apply getOwn_None.
Qed.

Lemma addAlias_then_removeAlias_witness :
  outcomeView (mutateStore compareByIdentity JsString.defaultCompare 0
                 [ADD_ALIAS "fs.ts" "https://deno.land/std/fs/mod.ts";
                  REMOVE_ALIAS "fs.ts"] linkedHeap)
  = outcomeView (mutateStore compareByIdentity JsString.defaultCompare 0 [] linkedHeap).
Proof.
  apply (addAlias_then_removeAlias compareByIdentity JsString.defaultCompare
           linkedHeap 0 {| svModules := [linkedModule]; svAliases := [] |}).
  - reflexivity.
  - exact compareByIdentity_filesBlind.
  - constructor.
  - reflexivity.
  - reflexivity.
  - constructor. reflexivity.
Defined.

(** X9.  Actions on aliases leave the modules alone: when [mutateStore]
    returns on a list of [ADD_ALIAS] and [REMOVE_ALIAS] actions, the modules
    of the returned manifest are those of the manifest it was given, in
    sorted order and with sorted files. *)
Theorem alias_actions_keep_modules
  (compareModules : ModuleObj -> ModuleObj -> Z)
  (localeCompare : string -> string -> Z)
  (h : Heap) (store : ref) (v v' : StoreView) (actions : list Action) :
  viewStore h store = Some v ->
  FilesBlind compareModules ->
  Forall (fun a => isAliasAction a = true) actions ->
  outcomeView (mutateStore compareModules localeCompare store actions h) = Ok v' ->
  svModules v'
  = map sortFilesView (JsArray.sort (compareViews compareModules) (svModules v)).
Proof.
  intros Hv Hfb Hall.
  assert (payloadRefs actions = []) as Hp.
  { clear -Hall. induction Hall as [|a actions Ha _ IH]; [done|].
    unfold payloadRefs in *. simpl. rewrite IH. by destruct a. }
  rewrite (mutateStore_outcome_plain compareModules localeCompare h store v
             actions (viewModule h) Hv Hfb Hp).
  unfold mutateView.
  destruct (applyActions (viewModule h) actions (workingView v)) as [w|e|] eqn:Hrun;
    [|done|done].
  intros [= <-]. cbn [normalize svModules].
  by rewrite (applyActions_alias_modules _ _ _ _ Hall Hrun).
Qed.

Lemma alias_actions_keep_modules_witness :
  exists v',
    outcomeView (mutateStore compareByIdentity JsString.defaultCompare 0
                   [ADD_ALIAS "fs.ts" "https://deno.land/std/fs/mod.ts"] linkedHeap)
    = Ok v'
    /\ svModules v' = [linkedModule].
Proof.
  eexists. split; [vm_compute; reflexivity|].
  rewrite (alias_actions_keep_modules compareByIdentity JsString.defaultCompare
             linkedHeap 0 {| svModules := [linkedModule]; svAliases := [] |} _
             [ADD_ALIAS "fs.ts" "https://deno.land/std/fs/mod.ts"]).
  - reflexivity.
  - reflexivity.
  - exact compareByIdentity_filesBlind.
  - by repeat constructor.
  - vm_compute. reflexivity.
Defined.

(** X10.  Actions on modules and links leave the aliases alone, also those
    whose target is in a module that is removed: for a manifest that can be
    read, a comparator that does not read the file lists and [ADD_MODULE]
    payloads that are separate module objects, when [mutateStore] returns
    on a list without [ADD_ALIAS] and [REMOVE_ALIAS], the aliases of the
    returned manifest are those of the manifest it was given, rebuilt from
    the entries sorted by key. *)
Theorem module_actions_keep_aliases
  (compareModules : ModuleObj -> ModuleObj -> Z)
  (localeCompare : string -> string -> Z)
  (h : Heap) (store : ref) (v v' : StoreView) (actions : list Action) :
  viewStore h store = Some v ->
  FilesBlind compareModules ->
  PayloadsSeparate h (payloadRefs actions) ->
  Forall (fun a => isAliasAction a = false) actions ->
  outcomeView (mutateStore compareModules localeCompare store actions h) = Ok v' ->
  svAliases v'
  = JsObject.fromEntries
      (sortedAliasEntries localeCompare
         (JsObject.spread (JsObject.spread (svAliases v)))).
Proof.
  intros Hv Hfb Hsep Hall.
  rewrite (mutateStore_outcome compareModules localeCompare h store v
             actions Hv Hfb Hsep).
  unfold mutateView.
  destruct (applyActions (viewModule h) actions (workingView v)) as [w|e|] eqn:Hrun;
    [|done|done].
  intros [= <-]. cbn [normalize svAliases].
  by rewrite (applyActions_other_aliases _ _ _ _ Hall Hrun).
Qed.

Lemma module_actions_keep_aliases_witness :
  exists v',
    outcomeView (mutateStore compareByIdentity JsString.defaultCompare 0
                   [REMOVE_MODULE "https" "deno.land/std"]
                   (exampleHeap [stdModule]
                      [("fs.ts", "https://deno.land/std/fs/mod.ts")]))
    = Ok v'
    /\ svModules v' = []
    /\ svAliases v' = [("fs.ts", "https://deno.land/std/fs/mod.ts")].
Proof.
  eexists. split; [vm_compute; reflexivity|]. split; [reflexivity|].
  rewrite (module_actions_keep_aliases compareByIdentity JsString.defaultCompare
             (exampleHeap [stdModule] [("fs.ts", "https://deno.land/std/fs/mod.ts")])
             0 {| svModules := [stdModule];
                  svAliases := [("fs.ts", "https://deno.land/std/fs/mod.ts")] |} _
             [REMOVE_MODULE "https" "deno.land/std"]).
  - reflexivity.
  - reflexivity.
  - exact compareByIdentity_filesBlind.
  - apply PayloadsSeparate_nil.
  - by repeat constructor.
  - vm_compute. reflexivity.
Defined.

(** X11.  The names every object inherits from [Object.prototype] pass for
    aliases that exist: for such a name that is no key of the aliases,
    [ADD_ALIAS] throws the alias-exists error, and [REMOVE_ALIAS] throws
    nothing and returns what [mutateStore] returns on no action at all. *)
Theorem inherited_names_pass_for_aliases
  (compareModules : ModuleObj -> ModuleObj -> Z)
  (localeCompare : string -> string -> Z)
  (h : Heap) (store : ref) (v : StoreView) (aliasPath aliasTargetPath : string) :
  viewStore h store = Some v ->
  FilesBlind compareModules ->
  NoDup (JsObject.keys (svAliases v)) ->
  JsObject.getOwn (svAliases v) aliasPath = None ->
  JsObject.inherited aliasPath = true ->
  outcomeView (mutateStore compareModules localeCompare store
                 [ADD_ALIAS aliasPath aliasTargetPath] h)
  = Throw (AliasExists aliasPath)
  /\ outcomeView (mutateStore compareModules localeCompare store
                    [REMOVE_ALIAS aliasPath] h)
     = outcomeView (mutateStore compareModules localeCompare store [] h).
Proof.
  intros Hv Hfb Hnd Habs Hinh.
  rewrite (mutateStore_outcome_plain compareModules localeCompare h store v
             [ADD_ALIAS aliasPath aliasTargetPath] (viewModule h) Hv Hfb eq_refl).
  rewrite (mutateStore_outcome_plain compareModules localeCompare h store v
             [REMOVE_ALIAS aliasPath] (viewModule h) Hv Hfb eq_refl).
  rewrite (mutateStore_outcome_plain compareModules localeCompare h store v
             [] (viewModule h) Hv Hfb eq_refl).
  unfold mutateView. cbn [applyActions applyAction workingView svModules svAliases].
  set (al := JsObject.spread (JsObject.spread (svAliases v))).
  assert (JsObject.getOwn al aliasPath = None) as Hal.
  { unfold al. by rewrite getOwn_spread_twice. }
  assert (JsObject.truthy (JsObject.get al aliasPath) = true) as ->.
  { unfold JsObject.get. by rewrite Hal, Hinh. }
  split; [done|]. cbn [negb].
  rewrite delete_absent; [done|]. by apply getOwn_None.
Qed.

Lemma inherited_names_pass_for_aliases_witness :
  outcomeView (mutateStore compareByIdentity JsString.defaultCompare 0
                 [ADD_ALIAS "constructor" "https://deno.land/std/fs/mod.ts"]
                 oneModuleHeap)
  = Throw (AliasExists "constructor").
Proof.
  apply (inherited_names_pass_for_aliases compareByIdentity JsString.defaultCompare
           oneModuleHeap 0 {| svModules := [stdModule]; svAliases := [] |}
           "constructor" "https://deno.land/std/fs/mod.ts").
  - reflexivity.
  - exact compareByIdentity_filesBlind.
  - constructor.
  - reflexivity.
  - reflexivity.
Defined.

(** ** [mutateRepository], by value *)

Section SyncByValue.
Context {World : Type}.
Variable env : Collaborators World.
Implicit Types (h : Heap) (st : World * list Call).

Lemma read_view_Shows h ms objs vs :
readModules h ms = Some objs -> viewModules h ms = Some vs ->
Forall2 (Shows h) objs vs.
Proof.
revert objs vs; induction ms as [|r ms IH]; intros objs vs; simpl.
- intros [= <-] [= <-]. constructor.
- unfold viewModule at 1.
destruct (heapModule h r) as [m|] eqn:Hm; [|done].
destruct (readModules h ms) as [objs'|]; [|done].
destruct (heapStrings h (files m)) as [fs|] eqn:Hfs; [|done].
destruct (viewModules h ms) as [vs'|]; [|done].
intros [= <-] [= <-]. constructor; [|by apply IH]. by repeat split.
Qed.

(** A manifest that can be read has its modules shown by the heap. *)
Lemma viewStore_Shows h store v :
viewStore h store = Some v ->
exists objs, storeModules h store = Some (map fst objs)
           /\ Forall2 (Shows h) objs (svModules v).
Proof.
unfold viewStore. intros Hv.
destruct (storeModules h store) as [ms|] eqn:Hms; [|done].
destruct (storeAliases h store) as [al|]; [|done].
destruct (viewModules h ms) as [vs|] eqn:Hvs; [|done].
injection Hv as <-. simpl.
destruct (viewModules_readModules _ _ _ Hvs) as [objs Hobjs].
exists objs. split; [by rewrite (readModules_fst _ _ _ Hobjs)|].
by apply (read_view_Shows h ms).
Qed.

(** One action of [mutateRepository] reads the modules by value. *)
Lemma mutateRepositoryAction_by_value h objs vs a st :
Forall2 (Shows h) objs vs ->
mutateRepositoryAction env h (map fst objs) a st = syncAction env vs a st.
Proof.
intros Hall.
destruct a as [module|p pa|link|link|ap tp|ap|p pa ver];
cbn [mutateRepositoryAction syncAction]; cbv zeta; try done.
- rewrite bind_run, find_owner_run', (firstOwner_findFrom _ _ _ _ Hall).
destruct (findFrom (ownsView link) 0 vs) as [[i mv]|] eqn:Hf; [|done].
destruct (findFrom_Some _ _ _ _ _ Hf) as (k & -> & Hv & _). simpl in *.
destruct (Forall2_Shows_lookup_r _ _ _ _ _ Hall Hv) as (o & -> & Hsh). simpl.
pose proof Hsh as (Hom & Hofs & Hp & Hpa & Hve).
unfold readModule. rewrite bind_run, Hom. cbn [fromOption ret].
rewrite (filePathOf_view _ _ _ link Hsh), Hp, Hpa, Hve. done.
- rewrite bind_run, find_owner_run', (firstOwner_findFrom _ _ _ _ Hall).
destruct (findFrom (ownsView link) 0 vs) as [[i mv]|] eqn:Hf; [|done].
destruct (findFrom_Some _ _ _ _ _ Hf) as (k & -> & Hv & _). simpl in *.
destruct (Forall2_Shows_lookup_r _ _ _ _ _ Hall Hv) as (o & -> & Hsh). simpl.
pose proof Hsh as (Hom & Hofs & Hp & Hpa & Hve).
unfold readModule. rewrite bind_run, Hom. cbn [fromOption ret].
rewrite (filePathOf_view _ _ _ link Hsh), Hp, Hpa. done.
- rewrite bind_run, find_owner_run', (firstOwner_findFrom _ _ _ _ Hall).
destruct (findFrom (ownsView tp) 0 vs) as [[i mv]|] eqn:Hf; [|done].
destruct (findFrom_Some _ _ _ _ _ Hf) as (k & -> & Hv & _). simpl in *.
destruct (Forall2_Shows_lookup_r _ _ _ _ _ Hall Hv) as (o & -> & Hsh). simpl.
pose proof Hsh as (Hom & Hofs & Hp & Hpa & Hve).
unfold readModule. rewrite bind_run, Hom. cbn [fromOption ret].
rewrite (filePathOf_view _ _ _ tp Hsh), Hp, Hpa. done.
- rewrite bind_run, find_exact_run', (firstExact_findFrom _ _ _ _ _ Hall).
destruct (findFrom (isModuleView p pa) 0 vs) as [[i mv]|] eqn:Hf; [|done].
destruct (findFrom_Some _ _ _ _ _ Hf) as (k & -> & Hv & _). simpl in *.
destruct (Forall2_Shows_lookup_r _ _ _ _ _ Hall Hv) as (o & -> & Hsh). simpl.
pose proof Hsh as (Hom & Hofs & Hp & Hpa & Hve).
unfold readModule. rewrite bind_run, Hom. cbn [fromOption ret].
rewrite bind_run, Hofs. done.
Qed.

Lemma mutateRepository_syncView h store v actions st :
viewStore h store = Some v ->
mutateRepository env h store actions st = syncView env (svModules v) actions st.
Proof.
intros Hv. destruct (viewStore_Shows _ _ _ Hv) as (objs & Hms & Hall).
rewrite (mutateRepository_run env h store _ actions st Hms). unfold syncView.
revert st. induction actions as [|a actions IH]; intros st; [done|].
cbn [forEach]. rewrite !bind_run, (mutateRepositoryAction_by_value _ _ _ _ _ Hall).
destruct (syncAction env (svModules v) a st) as [st1 [[]|e|]];
first [done | apply IH].
Qed.

Lemma forEach_app_run' {A} (xs ys : list A)
(body : A -> M (World * list Call) SyncError unit) st :
forEach (xs ++ ys) body st
= match forEach xs body st with
| (st', Ok _) => forEach ys body st'
| other => other
end.
Proof.
revert st; induction xs as [|x xs IH]; intros st; simpl; [done|].
rewrite !bind_run. destruct (body x st) as [st1 [[]|e|]]; first [done | apply IH].
Qed.
End SyncByValue.

(** X12.  [mutateRepository] reads the modules of the manifest and nothing
    else of it: on a manifest that can be read, its run (the calls it
    makes, in order, and how it ends) is the run of [syncView] on the
    modules by value; so two manifests with the same modules give the same
    run, whatever their aliases and wherever they lie in the heap. *)
Theorem mutateRepository_by_value {World} (env : Collaborators World)
  (h1 h2 : Heap) (store1 store2 : ref) (v1 v2 : StoreView)
  (actions : list Action) (st : World * list Call) :
  viewStore h1 store1 = Some v1 ->
  viewStore h2 store2 = Some v2 ->
  svModules v1 = svModules v2 ->
  mutateRepository env h1 store1 actions st = syncView env (svModules v1) actions st
  /\ mutateRepository env h1 store1 actions st
     = mutateRepository env h2 store2 actions st.
Proof.
  intros Hv1 Hv2 Heq.
  pose proof (mutateRepository_syncView env h1 store1 v1 actions st Hv1) as H1.
  pose proof (mutateRepository_syncView env h2 store2 v2 actions st Hv2) as H2.
  split; [exact H1|]. rewrite H1, H2. by rewrite Heq.
Qed.

Lemma mutateRepository_by_value_witness :
  mutateRepository (exampleEnv [] []) linkedHeap 0
    [ADD_LINK "https://deno.land/std/bytes/mod.ts"] (tt, [])
  = mutateRepository (exampleEnv [] [])
      (exampleHeap [linkedModule] [("fs.ts", "https://deno.land/std/fs/mod.ts")]) 0
      [ADD_LINK "https://deno.land/std/bytes/mod.ts"] (tt, []).
Proof.
  apply (mutateRepository_by_value (exampleEnv [] []) linkedHeap
           (exampleHeap [linkedModule] [("fs.ts", "https://deno.land/std/fs/mod.ts")])
           0 0 {| svModules := [linkedModule]; svAliases := [] |}
           {| svModules := [linkedModule];
              svAliases := [("fs.ts", "https://deno.land/std/fs/mod.ts")] |});
    reflexivity.
Defined.

(** X13.  The first failure ends the batch of [mutateRepository]: when the
    run over an action list ends with an error, of its own or of a
    collaborator, the run over that list followed by any other actions is
    the same run, no call made after the failure; and when it returns, the
    run goes on with the other actions from the state it reached. *)
Theorem mutateRepository_stops_at_first_failure {World} (env : Collaborators World)
  (h : Heap) (store : ref) (v : StoreView) (pre post : list Action)
  (st st' : World * list Call) (r : Result SyncError unit) :
  viewStore h store = Some v ->
  mutateRepository env h store pre st = (st', r) ->
  mutateRepository env h store (pre ++ post) st
  = match r with
    | Ok _ => mutateRepository env h store post st'
    | _ => (st', r)
    end.
Proof.
  intros Hv.
  rewrite !(mutateRepository_syncView env h store v _ _ Hv). unfold syncView.
  intros Hpre. rewrite forEach_app_run', Hpre. by destruct r as [[]|e|].
Qed.

Lemma mutateRepository_stops_at_first_failure_witness :
  mutateRepository (exampleEnv [] ["https://deno.land/std@v1/bytes/mod.ts"])
    linkedHeap 0
    ([ADD_LINK "https://deno.land/std/bytes/mod.ts"]
     ++ [REMOVE_LINK "https://deno.land/std/fs/mod.ts"]) (tt, [])
  = ((tt, [HasDefaultExportRemote "https://deno.land/std@v1/bytes/mod.ts"]),
     Throw (CollaboratorError (OtherFailure "fetch failed"))).
Proof.
  rewrite (mutateRepository_stops_at_first_failure
             (exampleEnv [] ["https://deno.land/std@v1/bytes/mod.ts"]) linkedHeap 0
             {| svModules := [linkedModule]; svAliases := [] |}
             [ADD_LINK "https://deno.land/std/bytes/mod.ts"]
             [REMOVE_LINK "https://deno.land/std/fs/mod.ts"] (tt, [])
             (tt, [HasDefaultExportRemote "https://deno.land/std@v1/bytes/mod.ts"])
             (Throw (CollaboratorError (OtherFailure "fetch failed")))).
  - reflexivity.
  - reflexivity.
  - vm_compute. reflexivity.
Defined.

(** ** The two phases on one link *)

Section UniqueOwner.
Context {A : Type}.
Implicit Types (p : A -> bool) (xs : list A).

Lemma findFrom_of_filter p xs x k :
filter (fun y => p y = true) xs = [x] -> exists j, findFrom p k xs = Some (j, x).
Proof.
revert k; induction xs as [|y xs IH]; intros k; [done|].
simpl. destruct (p y) eqn:Hy.
- rewrite filter_cons_True by done. intros [= -> _]. eauto.
- rewrite filter_cons_False by congruence. apply IH.
Qed.

Lemma filter_none_of p xs :
Forall (fun y => p y = false) xs -> filter (fun y => p y = true) xs = [].
Proof.
induction 1 as [|y xs Hy _ IH]; [done|]. by rewrite filter_cons_False by congruence.
Qed.

Lemma filter_unique_insert p xs i x y :
xs !! i = Some x ->
(forall j z, xs !! j = Some z -> p z = true -> j = i) ->
p y = true ->
filter (fun z => p z = true) (<[i := y]> xs) = [y].
Proof.
intros Hi Huniq Hy.
rewrite insert_take_drop by by eapply lookup_lt_Some.
rewrite filter_app, filter_cons_True by done.
rewrite !filter_none_of; [done| |].
- apply Forall_forall. intros z Hz. apply list_elem_of_lookup in Hz as [j Hj].
rewrite lookup_drop in Hj. destruct (p z) eqn:Hp; [|done].
pose proof (Huniq _ _ Hj Hp). lia.
- apply Forall_forall. intros z Hz. apply list_elem_of_lookup in Hz as [j Hj].
apply lookup_take_Some in Hj as [Hj Hlt]. destruct (p z) eqn:Hp; [|done].
pose proof (Huniq _ _ Hj Hp). lia.
Qed.

Lemma filter_map_same (f : A -> A) p xs :
(forall x, p (f x) = p x) ->
filter (fun y => p y = true) (map f xs) = map f (filter (fun y => p y = true) xs).
Proof.
intros Hf. induction xs as [|x xs IH]; [done|]. simpl.
destruct (p x) eqn:Hx.
- rewrite !filter_cons_True by (by rewrite ?Hf). simpl. by rewrite IH.
- rewrite !filter_cons_False by (rewrite ?Hf; congruence). done.
Qed.
End UniqueOwner.

Section LinkPhases.
Context {World : Type}.
Variable env : Collaborators World.

(** [ADD_LINK] in [mutateRepository], on the modules by value. *)
Lemma syncView_addLink vs link j mv filePath w log :
findFrom (ownsView link) 0 vs = Some (j, mv) ->
filePathOfView link mv = Some filePath ->
let url := createURL env (mvProtocol mv) (mvPath mv) (mvVersion mv) filePath in
let addLink b := repoAddLink env (mvProtocol mv) (mvPath mv) (mvVersion mv) filePath b in
syncView env vs [ADD_LINK link] (w, log)
= match hasDefaultExportRemote env url w with
| (w1, Returns b) =>
    ((fst (addLink b w1),
      log ++ [HasDefaultExportRemote url;
              AddLink (mvProtocol mv) (mvPath mv) (mvVersion mv) filePath b]),
     outcomeOf (snd (addLink b w1)))
| (w1, Raises f) =>
    ((w1, log ++ [HasDefaultExportRemote url]), Throw (CollaboratorError f))
end.
Proof.
intros Hf Hfp url addLink. unfold syncView. cbn [forEach syncAction].
rewrite bind_run, Hf, bind_run, Hfp. cbn [fromOption ret]. cbv zeta.
rewrite bind_run, await_run. fold url.
destruct (hasDefaultExportRemote env url w) as [w1 [b|f]]; cbn [fst snd outcomeOf];
[|done].
rewrite await_run. fold (addLink b).
destruct (addLink b w1) as [w2 [[]|f]]; cbn [fst snd outcomeOf];
by rewrite <- app_assoc.
Qed.
End LinkPhases.

(** X14.  The two phases agree on a link with one owner: when the identity
    of exactly one module of the manifest is a prefix of the link,
    [mutateStore] on [ADD_LINK] returns a manifest in which that module,
    protocol, path and version unchanged, has the file path of the link
    among its files; and [mutateRepository], run with the returned manifest
    on the same action, inspects the URL made of that protocol, path,
    version and file path, and then calls [addLink] with them and the flag
    the inspection returned, or ends with the failure of the inspection,
    [NotFound] included, without calling [addLink]. *)
Theorem link_phases_agree {World} (env : Collaborators World)
  (compareModules : ModuleObj -> ModuleObj -> Z)
  (localeCompare : string -> string -> Z)
  (h : Heap) (store : ref) (v : StoreView) (link : string)
  (i : nat) (mv : ModuleView) (filePath : string) :
  viewStore h store = Some v ->
  FilesBlind compareModules ->
  svModules v !! i = Some mv ->
  JsString.startsWith link (identity mv) = true ->
  (forall j mv', svModules v !! j = Some mv' ->
                 JsString.startsWith link (identity mv') = true -> j = i) ->
  filePathOfView link mv = Some filePath ->
  let url := createURL env (mvProtocol mv) (mvPath mv) (mvVersion mv) filePath in
  let addLink b := repoAddLink env (mvProtocol mv) (mvPath mv) (mvVersion mv) filePath b in
  exists h' s' v' mv',
    mutateStore compareModules localeCompare store [ADD_LINK link] h = (h', Ok s')
    /\ viewStore h' s' = Some v'
    /\ mv' ∈ svModules v'
    /\ mvProtocol mv' = mvProtocol mv /\ mvPath mv' = mvPath mv
    /\ mvVersion mv' = mvVersion mv
    /\ filePath ∈ mvFiles mv'
    /\ forall w log,
         mutateRepository env h' s' [ADD_LINK link] (w, log)
         = match hasDefaultExportRemote env url w with
           | (w1, Returns b) =>
               ((fst (addLink b w1),
                 log ++ [HasDefaultExportRemote url;
                         AddLink (mvProtocol mv) (mvPath mv) (mvVersion mv)
                           filePath b]),
                outcomeOf (snd (addLink b w1)))
           | (w1, Raises f) =>
               ((w1, log ++ [HasDefaultExportRemote url]),
                Throw (CollaboratorError f))
           end.
Proof.
  intros Hv Hfb Hi Hown Huniq Hfp url addLink.
  pose proof (mutateStore_outcome_plain compareModules localeCompare h store v
                [ADD_LINK link] (viewModule h) Hv Hfb eq_refl) as Hout.
  assert (Forall (fun mv' => JsString.startsWith link (identity mv') = false)
            (take i (svModules v))) as Hbefore.
  { apply Forall_forall. intros z Hz. apply list_elem_of_lookup in Hz as [j Hj].
    apply lookup_take_Some in Hj as [Hj Hlt].
    destruct (JsString.startsWith link (identity z)) eqn:Hp; [|done].
    pose proof (Huniq _ _ Hj Hp). lia. }
  unfold mutateView in Hout.
  cbn [applyActions applyAction workingView svModules] in Hout.
  rewrite (findFrom_intro (ownsView link) 0 _ i mv Hi Hown Hbefore), Hfp in Hout.
  cbn [Nat.add] in Hout.
  (* the module after the action *)
  set (fs1 := if JsArray.includes (mvFiles mv) filePath then mvFiles mv
              else mvFiles mv ++ [filePath]).
  set (mv1 := withFiles mv fs1).
  assert (filePath ∈ fs1) as Hin1.
  { unfold fs1, JsArray.includes. destruct (bool_decide_reflect (filePath ∈ mvFiles mv));
      [done|]. apply elem_of_app. right. by left. }
  assert (outcomeView (mutateStore compareModules localeCompare store [ADD_LINK link] h)
          = Ok (normalize compareModules localeCompare
                  (withModules (workingView v) (<[i := mv1]> (svModules v))))) as Hout'.
  { rewrite Hout. unfold mv1, fs1.
    destruct (JsArray.includes (mvFiles mv) filePath); [|done].
    assert (withFiles mv (mvFiles mv) = mv) as -> by by destruct mv.
    by rewrite (list_insert_id _ i mv Hi). }
  clear Hout. unfold outcomeView in Hout'.
  destruct (mutateStore compareModules localeCompare store [ADD_LINK link] h)
    as [h' [s'| |]]; cbn [fst snd] in Hout'; [|done|done].
  destruct (viewStore h' s') as [v'|] eqn:Hv'; [|done].
  injection Hout' as Hv'eq.
  assert (filter (fun z => ownsView link z = true) (svModules v')
          = [sortFilesView mv1]) as Hfilter.
  { rewrite Hv'eq. cbn [normalize svModules withModules].
    rewrite (filter_map_same sortFilesView (ownsView link)) by done.
    assert (filter (fun z => ownsView link z = true)
              (JsArray.sort (compareViews compareModules) (<[i := mv1]> (svModules v)))
            = [mv1]) as ->; [|done].
    apply Permutation_singleton_r.
    rewrite (sort_perm (compareViews compareModules) (<[i := mv1]> (svModules v))).
    by rewrite (filter_unique_insert (ownsView link) _ i mv mv1 Hi Huniq Hown). }
  destruct (findFrom_of_filter _ _ _ 0 Hfilter) as [j Hfind].
  exists h', s', v', (sortFilesView mv1).
  split; [done|]. split; [done|]. split.
  { destruct (findFrom_Some _ _ _ _ _ Hfind) as (k & _ & Hk & _).
    by eapply list_elem_of_lookup_2. }
  split; [done|]. split; [done|]. split; [done|]. split.
  { cbn [sortFilesView mvFiles mv1 withFiles].
    by rewrite (sort_perm JsString.defaultCompare fs1). }
  intros w log.
  rewrite (mutateRepository_syncView env h' s' v' _ _ Hv').
  by rewrite (syncView_addLink env _ link j (sortFilesView mv1) filePath w log Hfind Hfp).
Qed.

Lemma link_phases_agree_witness :
  exists h' s',
    mutateStore compareByIdentity JsString.defaultCompare 0
      [ADD_LINK "https://deno.land/std/bytes/mod.ts"] linkedHeap = (h', Ok s')
    /\ mutateRepository (exampleEnv [] []) h' s'
         [ADD_LINK "https://deno.land/std/bytes/mod.ts"] (tt, [])
       = ((tt, [HasDefaultExportRemote "https://deno.land/std@v1/bytes/mod.ts";
                AddLink "https" "deno.land/std" "v1" "/bytes/mod.ts" true]), Ok tt).
Proof.
  destruct (link_phases_agree (exampleEnv [] []) compareByIdentity
              JsString.defaultCompare linkedHeap 0
              {| svModules := [linkedModule]; svAliases := [] |}
              "https://deno.land/std/bytes/mod.ts" 0 linkedModule "/bytes/mod.ts")
    as (h' & s' & v' & mv' & Hrun & _ & _ & _ & _ & _ & _ & Hsync).
  - reflexivity.
  - exact compareByIdentity_filesBlind.
  - reflexivity.
  - reflexivity.
  - intros [|j] mv'; [done|]. simpl. by rewrite lookup_nil.
  - reflexivity.
  - exists h', s'. split; [exact Hrun|]. rewrite Hsync. reflexivity.
Defined.

(** X15.  [mutateRepository] does nothing for [ADD_MODULE]: on a manifest
    that can be read, a batch of [ADD_MODULE] actions returns without a
    call to any collaborator. *)
Theorem addModule_makes_no_call {World} (env : Collaborators World)
  (h : Heap) (store : ref) (v : StoreView) (actions : list Action)
  (st : World * list Call) :
  viewStore h store = Some v ->
  Forall (fun a => exists module, a = ADD_MODULE module) actions ->
  mutateRepository env h store actions st = (st, Ok tt).
Proof.
  intros Hv Hall. rewrite (mutateRepository_syncView env h store v _ _ Hv).
  unfold syncView. induction Hall as [|a actions [module ->] _ IH]; [done|].
  cbn [forEach syncAction]. by rewrite bind_run.
Qed.

Lemma addModule_makes_no_call_witness :
  mutateRepository (exampleEnv [] []) payloadHeap 0 [ADD_MODULE 6] (tt, [])
  = ((tt, []), Ok tt).
Proof.
  apply (addModule_makes_no_call (exampleEnv [] []) payloadHeap 0
           {| svModules := [stdModule]; svAliases := [] |}).
  - reflexivity.
  - repeat constructor. by eexists.
Defined.

(** ** Invariants of the manifest *)

Section Uniqueness.
Variable pv : ref -> option ModuleView.

Lemma keys_insert_same (vs : list ModuleView) i x y :
vs !! i = Some x -> mvProtocol y = mvProtocol x -> mvPath y = mvPath x ->
map (fun mv => (mvProtocol mv, mvPath mv)) (<[i := y]> vs)
= map (fun mv => (mvProtocol mv, mvPath mv)) vs.
Proof.
intros Hi Hp Hpa. rewrite map_insert, Hp, Hpa.
apply list_insert_id. by rewrite lookup_map, Hi.
Qed.

(** No action makes two modules with the same protocol and path. *)
Lemma applyAction_unique a w w' :
NoDup (map (fun mv => (mvProtocol mv, mvPath mv)) (svModules w)) ->
applyAction pv a w = Ok w' ->
NoDup (map (fun mv => (mvProtocol mv, mvPath mv)) (svModules w')).
Proof.
intros Hnd.
destruct a as [module|p pa|link|link|ap tp|ap|p pa ver]; cbn [applyAction]; cbv zeta.
- destruct (pv module) as [x|]; [|done].
destruct (existsb _ _) eqn:Hex; [done|]. intros [= <-]. simpl.
rewrite map_app. apply NoDup_app. split; [done|]. split; [|apply NoDup_singleton].
intros k Hk ->%list_elem_of_singleton.
apply list_elem_of_In, in_map_iff in Hk as (mv & Heq & Hin).
injection Heq as Hp Hpa.
assert (existsb (isModuleView (mvProtocol x) (mvPath x)) (svModules w) = true)
  as Htrue; [|congruence].
apply existsb_exists. exists mv. split; [done|]. by apply isModuleView_true.
- destruct (findFrom _ 0 (svModules w)) as [[i x]|]; [|done]. intros [= <-]. simpl.
unfold JsArray.splice1. rewrite map_delete.
apply (sublist_NoDup _ _ Hnd), sublist_delete.
- destruct (findFrom _ 0 (svModules w)) as [[i x]|] eqn:Hf; [|done].
destruct (findFrom_Some _ _ _ _ _ Hf) as (k & -> & Hk & _). simpl in *.
destruct (filePathOfView link x) as [fp|]; [|done].
destruct (JsArray.includes _ _); intros [= <-]; [done|]. simpl.
by rewrite (keys_insert_same _ k x).
- destruct (findFrom _ 0 (svModules w)) as [[i x]|] eqn:Hf; [|done].
destruct (findFrom_Some _ _ _ _ _ Hf) as (k & -> & Hk & _). simpl in *.
destruct (filePathOfView link x) as [fp|]; [|done].
destruct (JsArray.indexOf _ _); [|done]. intros [= <-]. simpl.
by rewrite (keys_insert_same _ k x).
- destruct (JsObject.truthy _); [done|].
destruct (findFrom _ 0 (svModules w)) as [[i x]|]; [|done]. by intros [= <-].
- destruct (negb _); [done|]. by intros [= <-].
- destruct (findFrom _ 0 (svModules w)) as [[i x]|] eqn:Hf; [|done].
destruct (findFrom_Some _ _ _ _ _ Hf) as (k & -> & Hk & _). simpl in *.
intros [= <-]. simpl. by rewrite (keys_insert_same _ k x).
Qed.

Lemma applyActions_unique actions : forall w w',
NoDup (map (fun mv => (mvProtocol mv, mvPath mv)) (svModules w)) ->
applyActions pv actions w = Ok w' ->
NoDup (map (fun mv => (mvProtocol mv, mvPath mv)) (svModules w')).
Proof.
induction actions as [|a actions IH]; intros w w' Hnd; simpl.
- by intros [= <-].
- destruct (applyAction pv a w) as [w1|e|] eqn:Hstep; [|done|done].
apply IH. by eapply applyAction_unique.
Qed.

(** No action links a file twice to a module. *)
Lemma applyAction_files_unique a w w' :
(forall r x, r ∈ payload a -> pv r = Some x -> NoDup (mvFiles x)) ->
Forall (fun mv => NoDup (mvFiles mv)) (svModules w) ->
applyAction pv a w = Ok w' ->
Forall (fun mv => NoDup (mvFiles mv)) (svModules w').
Proof.
intros Hpay Hall.
destruct a as [module|p pa|link|link|ap tp|ap|p pa ver]; cbn [applyAction]; cbv zeta.
- destruct (pv module) as [x|] eqn:Hx; [|done].
destruct (existsb _ _); [done|]. intros [= <-]. simpl.
apply Forall_app. split; [done|]. constructor; [|done].
apply (Hpay module); [by left|done].
- destruct (findFrom _ 0 (svModules w)) as [[i x]|]; [|done]. intros [= <-]. simpl.
by apply Forall_delete.
- destruct (findFrom _ 0 (svModules w)) as [[i x]|] eqn:Hf; [|done].
destruct (findFrom_Some _ _ _ _ _ Hf) as (k & -> & Hk & _). simpl in *.
destruct (filePathOfView link x) as [fp|]; [|done].
destruct (JsArray.includes (mvFiles x) fp) eqn:Hinc; intros [= <-]; [done|]. simpl.
apply Forall_insert; [done|]. simpl.
pose proof (proj1 (Forall_lookup _ _) Hall k x Hk) as Hx. simpl in Hx.
apply NoDup_app. split; [done|]. split; [|apply NoDup_singleton].
intros y Hy ->%list_elem_of_singleton.
unfold JsArray.includes in Hinc. by apply bool_decide_eq_false in Hinc.
- destruct (findFrom _ 0 (svModules w)) as [[i x]|] eqn:Hf; [|done].
destruct (findFrom_Some _ _ _ _ _ Hf) as (k & -> & Hk & _). simpl in *.
destruct (filePathOfView link x) as [fp|]; [|done].
destruct (JsArray.indexOf _ _) as [j|]; [|done]. intros [= <-]. simpl.
apply Forall_insert; [done|]. simpl.
pose proof (proj1 (Forall_lookup _ _) Hall k x Hk) as Hx. simpl in Hx.
apply (sublist_NoDup _ _ Hx), sublist_delete.
- destruct (JsObject.truthy _); [done|].
destruct (findFrom _ 0 (svModules w)) as [[i x]|]; [|done]. by intros [= <-].
- destruct (negb _); [done|]. by intros [= <-].
- destruct (findFrom _ 0 (svModules w)) as [[i x]|] eqn:Hf; [|done].
destruct (findFrom_Some _ _ _ _ _ Hf) as (k & -> & Hk & _). simpl in *.
intros [= <-]. simpl. apply Forall_insert; [done|]. simpl.
apply (proj1 (Forall_lookup _ _) Hall k x Hk).
Qed.

Lemma applyActions_files_unique actions : forall w w',
(forall r x, r ∈ payloadRefs actions -> pv r = Some x -> NoDup (mvFiles x)) ->
Forall (fun mv => NoDup (mvFiles mv)) (svModules w) ->
applyActions pv actions w = Ok w' ->
Forall (fun mv => NoDup (mvFiles mv)) (svModules w').
Proof.
induction actions as [|a actions IH]; intros w w' Hpay Hall; simpl.
- by intros [= <-].
- destruct (applyAction pv a w) as [w1|e|] eqn:Hstep; [|done|done].
apply IH.
+ intros r x Hr. apply Hpay. unfold payloadRefs. simpl. apply elem_of_app. by right.
+ eapply applyAction_files_unique; [|done|exact Hstep].
  intros r x Hr. apply Hpay. unfold payloadRefs. simpl. apply elem_of_app. by left.
Qed.
End Uniqueness.

(** X16.  [mutateStore] keeps the modules apart: on a manifest in which no
    two modules have the same protocol and path, every manifest it returns
    has no two modules with the same protocol and path, whatever the
    actions. *)
Theorem mutateStore_keeps_modules_unique
  (compareModules : ModuleObj -> ModuleObj -> Z)
  (localeCompare : string -> string -> Z)
  (h : Heap) (store : ref) (v v' : StoreView) (actions : list Action) :
  viewStore h store = Some v ->
  FilesBlind compareModules ->
  PayloadsSeparate h (payloadRefs actions) ->
  NoDup (map (fun mv => (mvProtocol mv, mvPath mv)) (svModules v)) ->
  outcomeView (mutateStore compareModules localeCompare store actions h) = Ok v' ->
  NoDup (map (fun mv => (mvProtocol mv, mvPath mv)) (svModules v')).
Proof.
  intros Hv Hfb Hsep Hnd.
  rewrite (mutateStore_outcome compareModules localeCompare h store v
             actions Hv Hfb Hsep).
  unfold mutateView.
  destruct (applyActions (viewModule h) actions (workingView v)) as [w|e|] eqn:Hrun;
    [|done|done].
  intros [= <-]. cbn [normalize svModules].
  pose proof (applyActions_unique _ _ (workingView v) _ Hnd Hrun) as Hw.
  rewrite map_map. cbn [sortFilesView mvProtocol mvPath].
  eapply NoDup_Permutation_proper; [|exact Hw].
  apply Permutation_map, sort_perm.
Qed.

Lemma mutateStore_keeps_modules_unique_witness :
  exists v',
    outcomeView (mutateStore compareByIdentity JsString.defaultCompare 0
                   [ADD_MODULE 6; UPDATE_MODULE "https" "deno.land/std" "v2"]
                   payloadHeap) = Ok v'
    /\ NoDup (map (fun mv => (mvProtocol mv, mvPath mv)) (svModules v')).
Proof.
  eexists. split; [vm_compute; reflexivity|].
  apply (mutateStore_keeps_modules_unique compareByIdentity JsString.defaultCompare
           payloadHeap 0 {| svModules := [stdModule]; svAliases := [] |} _
           [ADD_MODULE 6; UPDATE_MODULE "https" "deno.land/std" "v2"]).
  - reflexivity.
  - exact compareByIdentity_filesBlind.
  - split; [repeat constructor; apply not_elem_of_nil|].
    eexists. split; [reflexivity|]. split; [repeat constructor; apply not_elem_of_nil|].
    repeat constructor. by eexists.
  - repeat constructor. apply not_elem_of_nil.
  - vm_compute. reflexivity.
Defined.

(** X17.  [mutateStore] links no file twice: on a manifest in which no
    module has a file twice, with payloads that have no file twice, every
    manifest it returns has no file twice in any module, whatever the
    actions. *)
Theorem mutateStore_keeps_files_unique
  (compareModules : ModuleObj -> ModuleObj -> Z)
  (localeCompare : string -> string -> Z)
  (h : Heap) (store : ref) (v v' : StoreView) (actions : list Action) :
  viewStore h store = Some v ->
  FilesBlind compareModules ->
  PayloadsSeparate h (payloadRefs actions) ->
  (forall r x, r ∈ payloadRefs actions -> viewModule h r = Some x -> NoDup (mvFiles x)) ->
  Forall (fun mv => NoDup (mvFiles mv)) (svModules v) ->
  outcomeView (mutateStore compareModules localeCompare store actions h) = Ok v' ->
  Forall (fun mv => NoDup (mvFiles mv)) (svModules v').
Proof.
  intros Hv Hfb Hsep Hpay Hall.
  rewrite (mutateStore_outcome compareModules localeCompare h store v
             actions Hv Hfb Hsep).
  unfold mutateView.
  destruct (applyActions (viewModule h) actions (workingView v)) as [w|e|] eqn:Hrun;
    [|done|done].
  intros [= <-]. cbn [normalize svModules].
  pose proof (applyActions_files_unique _ _ (workingView v) _ Hpay Hall Hrun) as Hw.
  apply Forall_forall. intros x Hx.
  apply list_elem_of_In, in_map_iff in Hx as (y & <- & Hy).
  apply list_elem_of_In in Hy.
  rewrite (sort_perm (compareViews compareModules) (svModules w)) in Hy.
  pose proof (proj1 (Forall_forall _ _) Hw y Hy) as Hnd. simpl in *.
  eapply NoDup_Permutation_proper; [|exact Hnd]. apply sort_perm.
Qed.

Lemma mutateStore_keeps_files_unique_witness :
  exists v',
    outcomeView (mutateStore compareByIdentity JsString.defaultCompare 0
                   [ADD_LINK "https://deno.land/std/fs/mod.ts";
                    ADD_LINK "https://deno.land/std/bytes/mod.ts"] linkedHeap) = Ok v'
    /\ Forall (fun mv => NoDup (mvFiles mv)) (svModules v').
Proof.
  eexists. split; [vm_compute; reflexivity|].
  apply (mutateStore_keeps_files_unique compareByIdentity JsString.defaultCompare
           linkedHeap 0 {| svModules := [linkedModule]; svAliases := [] |} _
           [ADD_LINK "https://deno.land/std/fs/mod.ts";
            ADD_LINK "https://deno.land/std/bytes/mod.ts"]).
  - reflexivity.
  - exact compareByIdentity_filesBlind.
  - apply PayloadsSeparate_nil.
  - intros r x Hr. by apply elem_of_nil in Hr.
  - repeat constructor; simpl.
    + intros [H|H]%elem_of_cons; [done|by apply elem_of_nil in H].
    + apply not_elem_of_nil.
  - vm_compute. reflexivity.
Defined.

(** ** Manifests in normal form *)

Section StableSort.
Context {A : Type}.
Variable cmp : A -> A -> Z.

Lemma insertSorted_map (f : A -> A) x l :
(forall a b, cmp (f a) (f b) = cmp a b) ->
JsArray.insertSorted cmp (f x) (map f l) = map f (JsArray.insertSorted cmp x l).
Proof.
intros Hf. induction l as [|y l IH]; simpl; [done|].
rewrite Hf. destruct (cmp x y <=? 0)%Z; [done|]. simpl. by rewrite IH.
Qed.

Lemma sort_map (f : A -> A) l :
(forall a b, cmp (f a) (f b) = cmp a b) ->
JsArray.sort cmp (map f l) = map f (JsArray.sort cmp l).
Proof.
intros Hf. induction l as [|x l IH]; simpl; [done|].
by rewrite IH, insertSorted_map.
Qed.

Hypothesis cmp_consistent : JsArray.Consistent cmp.

Lemma insertSorted_least x l :
Forall (fun y => (cmp x y <= 0)%Z) l -> JsArray.insertSorted cmp x l = x :: l.
Proof.
intros H. destruct l as [|y l]; simpl; [done|].
apply Forall_cons in H as [Hy _]. destruct (cmp x y <=? 0)%Z eqn:E; [done|lia].
Qed.

Lemma sorted_above x y l :
(cmp x y <= 0)%Z -> Sorted (JsArray.cmpLe cmp) (y :: l) ->
Forall (fun z => (cmp x z <= 0)%Z) (y :: l).
Proof.
intros Hxy Hs.
assert (Transitive (JsArray.cmpLe cmp)) as Ht.
{ intros a b c. apply (JsArray.cmp_trans _ cmp_consistent). }
apply Sorted_StronglySorted in Hs; [|done].
apply StronglySorted_inv in Hs as [_ Hall]. constructor; [done|].
eapply Forall_impl; [exact Hall|]. intros z Hz. simpl in *.
by apply (JsArray.cmp_trans _ cmp_consistent x y z).
Qed.

(** The sort is stable: it keeps the order of the elements it does not
have to move, so sorting and leaving elements out commute. *)
Lemma filter_insertSorted (P : A -> Prop) `{forall x, Decision (P x)} x l :
Sorted (JsArray.cmpLe cmp) l ->
filter P (JsArray.insertSorted cmp x l)
= if decide (P x) then JsArray.insertSorted cmp x (filter P l) else filter P l.
Proof.
induction l as [|y l IH]; intros Hs.
- simpl. rewrite filter_cons. by destruct (decide (P x)).
- pose proof (Sorted_inv Hs) as [Hs' _]. simpl.
destruct (cmp x y <=? 0)%Z eqn:E.
+ rewrite (filter_cons _ x). destruct (decide (P x)) as [Hx|Hx]; [|done].
symmetry. apply insertSorted_least.
apply Forall_forall. intros z Hz.
apply (proj1 (Forall_forall _ _) (sorted_above x y l ltac:(lia) Hs)).
eapply elem_of_sublist; [exact Hz|apply sublist_filter].
+ rewrite !(filter_cons _ y), (IH Hs').
destruct (decide (P y)) as [Hy|Hy], (decide (P x)) as [Hx|Hx]; try done.
simpl. by rewrite E.
Qed.

Lemma filter_sort (P : A -> Prop) `{forall x, Decision (P x)} l :
filter P (JsArray.sort cmp l) = JsArray.sort cmp (filter P l).
Proof.
induction l as [|x l IH]; simpl; [done|].
rewrite filter_insertSorted by by apply sort_sorted.
rewrite filter_cons. destruct (decide (P x)); simpl; by rewrite IH.
Qed.
End StableSort.

Section CanonicalObjects.
Local Abbreviation isIndexEntry :=
(fun e : string * string => is_Some (JsObject.arrayIndex (fst e))).
Local Abbreviation isNameEntry :=
(fun e : string * string => ~ is_Some (JsObject.arrayIndex (fst e))).
Local Abbreviation entryBefore :=
(fun a b : string * string => indexBefore (fst a) (fst b)).

Lemma hasOwn_fresh o k : k ∉ JsObject.keys o -> JsObject.hasOwn o k = false.
Proof.
intros Hk. unfold JsObject.hasOwn. by rewrite (proj2 (getOwn_None o k) Hk).
Qed.

Lemma insertIndexKey_shape n k v : forall oi on,
Forall isIndexEntry oi -> Forall isNameEntry on ->
StronglySorted entryBefore oi ->
JsObject.arrayIndex k = Some n -> k ∉ JsObject.keys oi ->
exists oi',
JsObject.insertIndexKey n k v (oi ++ on) = oi' ++ on
/\ Forall isIndexEntry oi'
/\ StronglySorted entryBefore oi'
/\ oi' ≡ₚ (k, v) :: oi.
Proof.
induction oi as [|[k' v'] oi IH]; intros on Hi Hn Hs Hk Hfresh.
- exists [(k, v)]. split.
{ destruct on as [|[k' v'] on]; [done|]. simpl.
apply Forall_cons in Hn as [Hk' _]. simpl in Hk'.
destruct (JsObject.arrayIndex k'); [|done]. exfalso. apply Hk'. eauto. }
split; [repeat constructor; simpl; rewrite Hk; eauto|].
split; [repeat constructor|done].
- apply Forall_cons in Hi as [[n' Hn'] Hi]. simpl in Hn'.
apply StronglySorted_inv in Hs as [Hs Ha].
assert (n' <> n) as Hne.
{ intros ->. apply Hfresh. simpl. rewrite (arrayIndex_inj _ _ _ Hk Hn'). left. }
simpl. rewrite Hn'.
destruct (n' <? n)%N eqn:Hlt.
+ apply N.ltb_lt in Hlt.
destruct (IH on Hi Hn Hs Hk) as (oi' & Heq & Hi' & Hs' & Hp).
{ intros Hin. apply Hfresh. simpl. by right. }
exists ((k', v') :: oi'). split; [simpl; by rewrite Heq|].
split; [constructor; simpl; eauto|]. split.
* constructor; [done|]. rewrite Hp. constructor; [|done].
  unfold indexBefore. simpl. by rewrite Hn', Hk.
* rewrite Hp. apply perm_swap.
+ apply N.ltb_ge in Hlt.
exists ((k, v) :: (k', v') :: oi). split; [done|].
split; [repeat constructor; simpl; rewrite ?Hk, ?Hn'; eauto|].
split; [|done].
assert (indexBefore k k') as Hkk.
{ unfold indexBefore. rewrite Hk, Hn'. lia. }
constructor; [by constructor|]. constructor; [done|].
eapply Forall_impl; [exact Ha|]. intros x Hx. simpl in *. by etrans.
Qed.

(** What [Object.fromEntries] builds from entries with distinct keys: the
entries with an array-index key in ascending numeric order, then the
other entries in the order given. *)
Lemma fold_createDataProperty_shape es : forall oi on,
Forall isIndexEntry oi -> Forall isNameEntry on ->
StronglySorted entryBefore oi ->
NoDup (JsObject.keys (oi ++ on) ++ JsObject.keys es) ->
exists oi',
fold_left (fun o e => JsObject.createDataProperty o (fst e) (snd e)) es (oi ++ on)
= oi' ++ on ++ filter isNameEntry es
/\ Forall isIndexEntry oi'
/\ StronglySorted entryBefore oi'
/\ oi' ≡ₚ oi ++ filter isIndexEntry es.
Proof.
induction es as [|[k v] es IH]; intros oi on Hi Hn Hs Hnd.
- exists oi. simpl. by rewrite !app_nil_r.
- simpl fold_left. cbn [fst snd].
assert (k ∉ JsObject.keys (oi ++ on)) as Hfresh.
{ apply NoDup_app in Hnd as (_ & Hdisj & _). intros Hin.
apply (Hdisj k Hin). simpl. left. }
assert (JsObject.createDataProperty (oi ++ on) k v
      = match JsObject.arrayIndex k with
        | Some n => JsObject.insertIndexKey n k v (oi ++ on)
        | None => (oi ++ on) ++ [(k, v)]
        end) as ->.
{ unfold JsObject.createDataProperty. by rewrite (hasOwn_fresh _ _ Hfresh). }
destruct (JsObject.arrayIndex k) as [n|] eqn:Hk.
+ destruct (insertIndexKey_shape n k v oi on Hi Hn Hs Hk) as (oi1 & Heq & Hi1 & Hs1 & Hp1).
{ intros Hin. apply Hfresh. unfold JsObject.keys in *. rewrite map_app.
  apply elem_of_app. by left. }
rewrite Heq.
destruct (IH oi1 on Hi1 Hn Hs1) as (oi' & Heq' & Hi' & Hs' & Hp').
{ unfold JsObject.keys in *. simpl in Hnd.
  assert (map fst (oi1 ++ on) ++ map fst es
          ≡ₚ map fst (oi ++ on) ++ k :: map fst es) as ->; [|done].
  rewrite !map_app, Hp1. simpl. apply Permutation_middle. }
exists oi'. rewrite Heq'. rewrite !filter_cons. simpl. rewrite Hk.
destruct (decide (~ is_Some (Some n))) as [Hno|_]; [exfalso; apply Hno; eauto|].
destruct (decide (is_Some (Some n))) as [_|Hno]; [|exfalso; apply Hno; eauto].
repeat split; try done. rewrite Hp', Hp1. simpl. apply Permutation_middle.
+ rewrite <- app_assoc.
destruct (IH oi (on ++ [(k, v)]) Hi) as (oi' & Heq' & Hi' & Hs' & Hp'); [|done|..].
{ apply Forall_app. split; [done|]. repeat constructor. simpl. rewrite Hk.
  by intros [x Hx]. }
{ unfold JsObject.keys in *. rewrite !map_app in *. simpl in *.
  by rewrite <- !app_assoc in *. }
exists oi'. rewrite Heq'. rewrite !filter_cons. simpl. rewrite Hk.
destruct (decide (~ is_Some None)) as [_|Hno];
  [|exfalso; apply Hno; by intros [x Hx]].
destruct (decide (is_Some (@None N))) as [[x Hx]|_]; [done|].
repeat split; try done. by rewrite <- app_assoc.
Qed.

Lemma fromEntries_shape es :
NoDup (JsObject.keys es) ->
exists oi,
JsObject.fromEntries es = oi ++ filter isNameEntry es
/\ Forall isIndexEntry oi
/\ StronglySorted entryBefore oi
/\ oi ≡ₚ filter isIndexEntry es.
Proof.
intros Hnd.
destruct (fold_createDataProperty_shape es [] []) as (oi & Heq & Hi & Hs & Hp);
try done; [constructor|].
exists oi. by repeat split.
Qed.

Lemma index_entries_unique (oi1 oi2 : JsObject.t) :
StronglySorted entryBefore oi1 -> StronglySorted entryBefore oi2 ->
oi1 ≡ₚ oi2 -> oi1 = oi2.
Proof.
apply (StronglySorted_unique_strong entryBefore).
intros x1 x2 _ _ H12 H21. exfalso. unfold indexBefore in *.
destruct (JsObject.arrayIndex (fst x1)), (JsObject.arrayIndex (fst x2)); try done.
lia.
Qed.

(** The object built from entries with distinct keys depends on the order
of the entries only through the order of those whose key is no array
index. *)
Lemma fromEntries_canonical es1 es2 :
NoDup (JsObject.keys es1) -> es1 ≡ₚ es2 ->
filter isNameEntry es1 = filter isNameEntry es2 ->
JsObject.fromEntries es1 = JsObject.fromEntries es2.
Proof.
intros Hnd Hp Hf.
assert (NoDup (JsObject.keys es2)) as Hnd2.
{ by rewrite <- (keys_perm _ _ Hp). }
destruct (fromEntries_shape es1 Hnd) as (oi1 & -> & _ & Hs1 & Hp1).
destruct (fromEntries_shape es2 Hnd2) as (oi2 & -> & _ & Hs2 & Hp2).
rewrite Hf. f_equal. apply index_entries_unique; [done|done|].
by rewrite Hp1, Hp2, Hp.
Qed.

Lemma sorted_of_keys (R : relation string) (o : JsObject.t) :
StronglySorted R (JsObject.keys o) ->
StronglySorted (fun a b : string * string => R (fst a) (fst b)) o.
Proof.
induction o as [|e o IH]; simpl; [constructor|].
intros [Hs Ha]%StronglySorted_inv. constructor; [by apply IH|].
exact (proj1 (List.Forall_map fst _ o) Ha).
Qed.

(** The shape of an object whose keys are in the order of enumeration. *)
Lemma keys_shape (o : JsObject.t) ik ok :
JsObject.keys o = ik ++ ok ->
Forall (fun k => is_Some (JsObject.arrayIndex k)) ik ->
StronglySorted indexBefore ik ->
Forall (fun k => JsObject.arrayIndex k = None) ok ->
exists oi on,
o = oi ++ on /\ JsObject.keys on = ok
/\ Forall isIndexEntry oi /\ Forall isNameEntry on
/\ StronglySorted entryBefore oi
/\ filter isIndexEntry o = oi /\ filter isNameEntry o = on.
Proof.
intros Hkeys Hik Hs Hok.
apply List.map_eq_app in Hkeys as (oi & on & -> & Hoi & Hon).
assert (Forall isIndexEntry oi) as Hi.
{ apply (proj1 (List.Forall_map fst (fun k => is_Some (JsObject.arrayIndex k)) oi)).
by rewrite Hoi. }
assert (Forall isNameEntry on) as Hn.
{ apply (proj1 (List.Forall_map fst (fun k => ~ is_Some (JsObject.arrayIndex k)) on)).
rewrite Hon.
eapply Forall_impl; [exact Hok|]. intros k Hk [x Hx]. simpl in *. congruence. }
exists oi, on. repeat split; try done.
- apply (sorted_of_keys indexBefore). unfold JsObject.keys. by rewrite Hoi.
- rewrite filter_app, (filter_all _ oi Hi), (filter_none _ on Hn).
apply app_nil_r.
- rewrite filter_app, (filter_all _ on Hn), (filter_none _ oi); [done|].
eapply Forall_impl; [exact Hi|]. intros e He Hno. by apply Hno.
Qed.

(** Copying an object whose keys are in the order of enumeration gives the
same object. *)
Lemma fromEntries_fixed (o : JsObject.t) ik ok :
NoDup (JsObject.keys o) ->
JsObject.keys o = ik ++ ok ->
Forall (fun k => is_Some (JsObject.arrayIndex k)) ik ->
StronglySorted indexBefore ik ->
Forall (fun k => JsObject.arrayIndex k = None) ok ->
JsObject.fromEntries o = o.
Proof.
intros Hnd Hkeys Hik Hs Hok.
destruct (keys_shape o ik ok Hkeys Hik Hs Hok)
as (oi & on & Ho & _ & Hi & Hn & Hsi & Hfi & Hfn).
destruct (fromEntries_shape o Hnd) as (oi' & -> & _ & Hs' & Hp').
rewrite Hfn. rewrite Hfi in Hp'. rewrite Ho. f_equal.
by apply index_entries_unique.
Qed.

(** The aliases of a manifest in normal form are rebuilt as they are. *)
Lemma aliases_normal_fixed (localeCompare : string -> string -> Z) (o : JsObject.t) :
JsArray.Consistent localeCompare ->
NoDup (JsObject.keys o) ->
AliasOrder localeCompare (JsObject.keys o) ->
JsObject.fromEntries
(sortedAliasEntries localeCompare (JsObject.spread (JsObject.spread o))) = o.
Proof.
intros Hc Hnd (ik & ok & Hkeys & Hik & Hsi & Hok & Hso).
apply Sorted_StronglySorted in Hsi; [|apply indexBefore_trans].
pose proof (fromEntries_fixed o ik ok Hnd Hkeys Hik Hsi Hok) as Hfix.
unfold JsObject.spread. rewrite !Hfix.
unfold sortedAliasEntries, JsObject.entries.
set (cmp := fun a b : string * string => localeCompare (fst a) (fst b)).
assert (JsArray.Consistent cmp) as Hcmp.
{ split; unfold cmp.
- intros a b. apply (JsArray.cmp_flip _ Hc).
- intros a b. apply (JsArray.cmp_strict _ Hc).
- intros a b c. apply (JsArray.cmp_trans _ Hc). }
rewrite <- Hfix at 2. apply fromEntries_canonical.
- by apply sorted_keys_NoDup.
- apply sort_perm.
- rewrite (filter_sort cmp Hcmp). apply sort_sorted_id; [done|].
destruct (keys_shape o ik ok Hkeys Hik Hsi Hok)
as (oi & on & _ & Hon & _ & _ & _ & _ & ->).
assert (Transitive (JsArray.cmpLe localeCompare)) as Ht.
{ intros a b c. apply (JsArray.cmp_trans _ Hc). }
rewrite <- Hon in Hso. apply Sorted_StronglySorted in Hso; [|done].
apply StronglySorted_Sorted.
apply (sorted_of_keys (JsArray.cmpLe localeCompare)), Hso.
Qed.

End CanonicalObjects.

Lemma sortFilesView_fixed v : FilesSorted v -> sortFilesView v = v.
Proof.
intros Hs. destruct v. unfold sortFilesView. simpl. f_equal.
apply sort_sorted_id; [apply defaultCompare_consistent|done].
Qed.

(** A manifest that is sorted is what the post-pass makes of it. *)
Lemma normalize_fixed compareModules localeCompare (v : StoreView) :
JsArray.Consistent compareModules -> JsArray.Consistent localeCompare ->
Sorted (JsArray.cmpLe (compareViews compareModules)) (svModules v) ->
Forall FilesSorted (svModules v) ->
NoDup (JsObject.keys (svAliases v)) ->
AliasOrder localeCompare (JsObject.keys (svAliases v)) ->
normalize compareModules localeCompare (workingView v) = v.
Proof.
intros Hcm Hlc Hs Hf Hnd Hal. destruct v as [vs al]. unfold normalize, workingView.
simpl in *. f_equal.
- rewrite (sort_sorted_id _ _ (compareViews_consistent _ Hcm) Hs).
clear Hs. induction Hf as [|x l Hx _ IH]; [done|]. simpl.
by rewrite (sortFilesView_fixed x Hx), IH.
- by apply aliases_normal_fixed.
Qed.

(** X18.  What [mutateStore] returns is in normal form: called with no
    action on a manifest it has returned, or on any manifest with the same
    content, [mutateStore] returns that content again. *)
Theorem mutateStore_result_is_fixed
  (compareModules : ModuleObj -> ModuleObj -> Z)
  (localeCompare : string -> string -> Z)
  (h : Heap) (store : ref) (v : StoreView) (actions : list Action)
  (h' : Heap) (s' : ref) :
  JsArray.Consistent compareModules -> JsArray.Consistent localeCompare ->
  FilesBlind compareModules ->
  viewStore h store = Some v ->
  mutateStore compareModules localeCompare store actions h = (h', Ok s') ->
  exists v1,
    viewStore h' s' = Some v1
    /\ forall h2 store2,
         viewStore h2 store2 = Some v1 ->
         outcomeView (mutateStore compareModules localeCompare store2 [] h2) = Ok v1.
Proof.
  intros Hcm Hlc Hfb Hv Hrun.
  destruct (mutateStore_returned compareModules localeCompare
              h store v actions h' s' Hcm Hlc Hv Hrun)
    as (ms & objs & v1 & _ & _ & Hview & _ & Hfiles & Hal & Hnd & Hsv).
  exists v1. split; [done|]. intros h2 store2 Hv2.
  rewrite (mutateStore_outcome_plain compareModules localeCompare h2 store2 v1 []
             (viewModule h2) Hv2 Hfb eq_refl).
  unfold mutateView. simpl. f_equal.
  apply normalize_fixed; auto.
Qed.

Lemma mutateStore_result_is_fixed_witness :
  exists v1,
    viewStore
      (fst (mutateStore compareByIdentity JsString.defaultCompare 0
              [ADD_LINK "https://deno.land/std/fs/mod.ts";
               ADD_ALIAS "fs.ts" "https://deno.land/std/fs/mod.ts";
               ADD_ALIAS "10" "https://deno.land/std/fs/mod.ts";
               ADD_ALIAS "9" "https://deno.land/std/fs/mod.ts"] oneModuleHeap))
      11 = Some v1
    /\ forall h2 store2,
         viewStore h2 store2 = Some v1 ->
         outcomeView (mutateStore compareByIdentity JsString.defaultCompare store2 [] h2)
         = Ok v1.
Proof.
  apply (mutateStore_result_is_fixed compareByIdentity JsString.defaultCompare
           oneModuleHeap 0 {| svModules := [stdModule]; svAliases := [] |}
           [ADD_LINK "https://deno.land/std/fs/mod.ts";
            ADD_ALIAS "fs.ts" "https://deno.land/std/fs/mod.ts";
            ADD_ALIAS "10" "https://deno.land/std/fs/mod.ts";
            ADD_ALIAS "9" "https://deno.land/std/fs/mod.ts"]).
  - exact compareByIdentity_consistent.
  - exact defaultCompare_consistent.
  - exact compareByIdentity_filesBlind.
  - reflexivity.
  - vm_compute. reflexivity.
Defined.

(** ** The two phases on the removal of a link *)

Lemma first_occurrence {A} `{EqDecision A} (xs : list A) (x : A) :
x ∈ xs -> exists j, xs !! j = Some x /\ x ∉ take j xs.
Proof.
induction xs as [|y xs IH]; [by intros ?%elem_of_nil|].
destruct (decide (y = x)) as [->|Hne].
- intros _. exists 0. split; [done|]. simpl. apply not_elem_of_nil.
- intros [Heq|Hin]%elem_of_cons; [done|].
destruct (IH Hin) as (j & Hj & Hfirst). exists (S j). split; [done|].
simpl. intros [Heq|Hin']%elem_of_cons; [done|]. by apply Hfirst.
Qed.

Section UnlinkPhases.
Context {World : Type}.
Variable env : Collaborators World.

(** [REMOVE_LINK] in [mutateRepository], on the modules by value. *)
Lemma syncView_removeLink vs link j mv filePath w log :
findFrom (ownsView link) 0 vs = Some (j, mv) ->
filePathOfView link mv = Some filePath ->
let removeLink := repoRemoveLink env (mvProtocol mv) (mvPath mv) filePath in
syncView env vs [REMOVE_LINK link] (w, log)
= ((fst (removeLink w), log ++ [RemoveLink (mvProtocol mv) (mvPath mv) filePath]),
outcomeOf (snd (removeLink w))).
Proof.
intros Hf Hfp removeLink. unfold syncView. cbn [forEach syncAction].
rewrite bind_run, Hf, bind_run, Hfp. cbn [fromOption ret]. cbv zeta.
rewrite await_run. fold removeLink.
by destruct (removeLink w) as [w2 [[]|f]].
Qed.
End UnlinkPhases.

(** X19.  The two phases agree on the removal of a link with one owner:
    when the identity of exactly one module of the manifest is a prefix of
    the link and the file path of the link is among the files of that
    module, [mutateStore] on [REMOVE_LINK] returns a manifest that still
    has that module, protocol, path and version unchanged, with one
    occurrence of the file path taken out of its files; and
    [mutateRepository], run with the returned manifest on the same action,
    makes one call, [removeLink] with that protocol, path and file path,
    and ends as that call does. *)
Theorem unlink_phases_agree {World} (env : Collaborators World)
  (compareModules : ModuleObj -> ModuleObj -> Z)
  (localeCompare : string -> string -> Z)
  (h : Heap) (store : ref) (v : StoreView) (link : string)
  (i : nat) (mv : ModuleView) (filePath : string) :
  viewStore h store = Some v ->
  FilesBlind compareModules ->
  svModules v !! i = Some mv ->
  JsString.startsWith link (identity mv) = true ->
  (forall j mv', svModules v !! j = Some mv' ->
                 JsString.startsWith link (identity mv') = true -> j = i) ->
  filePathOfView link mv = Some filePath ->
  filePath ∈ mvFiles mv ->
  let removeLink := repoRemoveLink env (mvProtocol mv) (mvPath mv) filePath in
  exists h' s' v' mv' j,
    mutateStore compareModules localeCompare store [REMOVE_LINK link] h = (h', Ok s')
    /\ viewStore h' s' = Some v'
    /\ mv' ∈ svModules v'
    /\ mvProtocol mv' = mvProtocol mv /\ mvPath mv' = mvPath mv
    /\ mvVersion mv' = mvVersion mv
    /\ mvFiles mv !! j = Some filePath
    /\ mvFiles mv' ≡ₚ delete j (mvFiles mv)
    /\ forall w log,
         mutateRepository env h' s' [REMOVE_LINK link] (w, log)
         = ((fst (removeLink w),
             log ++ [RemoveLink (mvProtocol mv) (mvPath mv) filePath]),
            outcomeOf (snd (removeLink w))).
Proof.
  intros Hv Hfb Hi Hown Huniq Hfp Hin removeLink.
  destruct (first_occurrence _ _ Hin) as (j & Hj & Hfirst).
  pose proof (mutateStore_outcome_plain compareModules localeCompare h store v
                [REMOVE_LINK link] (viewModule h) Hv Hfb eq_refl) as Hout.
  assert (Forall (fun mv' => JsString.startsWith link (identity mv') = false)
            (take i (svModules v))) as Hbefore.
  { apply Forall_forall. intros z Hz. apply list_elem_of_lookup in Hz as [k Hk].
    apply lookup_take_Some in Hk as [Hk Hlt].
    destruct (JsString.startsWith link (identity z)) eqn:Hp; [|done].
    pose proof (Huniq _ _ Hk Hp). lia. }
  unfold mutateView in Hout.
  cbn [applyActions applyAction workingView svModules] in Hout.
  rewrite (findFrom_intro (ownsView link) 0 _ i mv Hi Hown Hbefore), Hfp in Hout.
  rewrite (indexOf_intro _ _ j Hj Hfirst) in Hout.
  cbn [Nat.add] in Hout. unfold JsArray.splice1 in Hout.
  set (mv1 := withFiles mv (delete j (mvFiles mv))) in *.
  unfold outcomeView in Hout.
  destruct (mutateStore compareModules localeCompare store [REMOVE_LINK link] h)
    as [h' [s'| |]]; cbn [fst snd] in Hout; [|done|done].
  destruct (viewStore h' s') as [v'|] eqn:Hv'; [|done].
  injection Hout as Hv'eq.
  assert (filter (fun z => ownsView link z = true) (svModules v')
          = [sortFilesView mv1]) as Hfilter.
  { rewrite Hv'eq. cbn [normalize svModules withModules].
    rewrite (filter_map_same sortFilesView (ownsView link)) by done.
    assert (filter (fun z => ownsView link z = true)
              (JsArray.sort (compareViews compareModules) (<[i := mv1]> (svModules v)))
            = [mv1]) as ->; [|done].
    apply Permutation_singleton_r.
    rewrite (sort_perm (compareViews compareModules) (<[i := mv1]> (svModules v))).
    by rewrite (filter_unique_insert (ownsView link) _ i mv mv1 Hi Huniq Hown). }
  destruct (findFrom_of_filter _ _ _ 0 Hfilter) as [k Hfind].
  exists h', s', v', (sortFilesView mv1), j.
  split; [done|]. split; [done|]. split.
  { destruct (findFrom_Some _ _ _ _ _ Hfind) as (k' & _ & Hk & _).
    by eapply list_elem_of_lookup_2. }
  split; [done|]. split; [done|]. split; [done|]. split; [done|]. split.
  { cbn [sortFilesView mvFiles mv1 withFiles]. apply sort_perm. }
  intros w log.
  rewrite (mutateRepository_syncView env h' s' v' _ _ Hv').
  by rewrite (syncView_removeLink env _ link k (sortFilesView mv1) filePath w log
                Hfind Hfp).
Qed.

Lemma unlink_phases_agree_witness :
  exists h' s',
    mutateStore compareByIdentity JsString.defaultCompare 0
      [REMOVE_LINK "https://deno.land/std/path/mod.ts"] linkedHeap = (h', Ok s')
    /\ mutateRepository (exampleEnv [] []) h' s'
         [REMOVE_LINK "https://deno.land/std/path/mod.ts"] (tt, [])
       = ((tt, [RemoveLink "https" "deno.land/std" "/path/mod.ts"]), Ok tt).
Proof.
  destruct (unlink_phases_agree (exampleEnv [] []) compareByIdentity
              JsString.defaultCompare linkedHeap 0
              {| svModules := [linkedModule]; svAliases := [] |}
              "https://deno.land/std/path/mod.ts" 0 linkedModule "/path/mod.ts")
    as (h' & s' & v' & mv' & j & Hrun & _ & _ & _ & _ & _ & _ & _ & Hsync).
  - reflexivity.
  - exact compareByIdentity_filesBlind.
  - reflexivity.
  - reflexivity.
  - intros [|j] mv'; [done|]. simpl. by rewrite lookup_nil.
  - reflexivity.
  - vm_compute. repeat constructor.
  - exists h', s'. split; [exact Hrun|]. rewrite Hsync. reflexivity.
Defined.
